(** * Gomoku with blind-box items: the rule engine and its specification

    A shallow embedding of [Board.ts], [ItemSystem.ts], [types.ts] and
    [GomokuGame.ts]:

    - [Board] is a pure transcription of the grid and its move stack;
    - [ItemSystem] is the item catalogue and the random factories;
    - the engine ([GomokuGame]) is imperative: its methods are written in a
      small state monad over one record that holds the fields of the class
      and the parts of the JavaScript runtime the methods talk to (the
      [Math.random] and [Date.now] oracles, the table of pending timers and
      the count of dispatched change notifications).

    Modelling conventions:
    - JavaScript numbers that hold coordinates, sizes and counters are
      integers ([Z]); [Math.random()] yields a Number in [[0,1)], a double
      that is held as the rational it denotes, and the product of such a
      Number and a length is rounded to a double as the code's is;
    - [console.log] calls have no effect on the state and are left out;
    - texts shown to the user (event descriptions, notifications) are
      constructors of an enumeration, one per literal of the source. *)

From Stdlib Require Import ZArith QArith Qround Qpower Qminmax Lia Lqa.
From stdpp Require Import base list gmap sorting.

Local Open Scope Z_scope.

(** ** types.ts *)

Inductive Player := BLACK | WHITE.

Module Position.
Record t := mk { x : Z; y : Z }.
End Position.
Abbreviation Position := Position.t.

Inductive GameState := READY | PLAYING | PAUSED | OVER.

Record Move := mkMove {
  position : Position;
  player : Player;
  timestamp : Z
}.

Inductive GameMode := PVP | PVE.

Record GameResult := mkGameResult {
  winner : option Player;
  winningLine : list Position
}.

Inductive ItemType :=
  | CHAOS_STRIKE | PRECISE_STRIKE | ACCELERATED_MOVE | STRATEGY_GUIDE
  | TOUGHEN_HEART
  | SELF_MISTAKE | OPPONENT_ACCELERATION | SLIP_PENALTY.

Inductive ItemEffectType := INSTANT | DELAYED | CONTINUOUS.

Record ItemEffect := mkItemEffect {
  effectType : ItemEffectType;
  duration : option Z
}.

Record ItemInfo := mkItemInfo {
  infoType : ItemType;
  effect : ItemEffect;
  isStrengthening : bool
}.

Record BlindBox := mkBlindBox {
  boxPosition : Position;
  itemType : ItemType;
  isOpened : bool;
  boxTimestamp : Z
}.

Record PlayerItem := mkPlayerItem {
  piItemType : ItemType;
  acquiredAt : Z;
  activatedAt : option Z;
  expiresAt : option Z;
  isActive : bool
}.

Inductive AIDifficulty := easy | medium | hard.

Record GameConfig := mkGameConfig {
  mode : GameMode;
  playerColor : Player;
  difficulty : AIDifficulty;
  enableItems : bool
}.

Inductive GameSubState :=
  | NORMAL | SELECTING_STRIKE_TARGET | SHOWING_ITEM_NAME
  | SHOWING_STRATEGY_GUIDE | HAND_SLIP_PENALTY.

Inductive MoveEventType := NORMAL_MOVE | EXTRA_MOVE | ITEM_TRIGGER.

(** The literals passed as [description] to [recordMoveEvent]. *)
Inductive Description :=
  | DescNormalMove            (* a normal move *)
  | DescExtraMove             (* a bonus move is used *)
  | DescAIExtraMove           (* the AI uses a bonus move *)
  | DescExtraGranted (source : ItemType).
                              (* "<source> grants 1 bonus move" *)

Record MoveEvent := mkMoveEvent {
  moveId : Z * Q;             (* move_<Date.now()>_<Math.random() digits> *)
  evTimestamp : Z;
  evPlayer : Player;
  evType : MoveEventType;
  evItemType : option ItemType;
  extraMovesAdded : option Z;
  description : Description
}.

Record PlayerMoveCount := mkPlayerMoveCount {
  mcPlayer : Player;
  originalMoveCount : Z;
  extraMovesEarned : Z;
  extraMovesUsed : Z;
  currentExtraMoves : Z;
  moveEvents : list MoveEvent
}.

#[global] Instance Player_eq_dec : EqDecision Player.
Proof. solve_decision. Defined.
#[global] Instance Position_eq_dec : EqDecision Position.
Proof. solve_decision. Defined.
#[global] Instance GameState_eq_dec : EqDecision GameState.
Proof. solve_decision. Defined.
#[global] Instance GameMode_eq_dec : EqDecision GameMode.
Proof. solve_decision. Defined.
#[global] Instance ItemType_eq_dec : EqDecision ItemType.
Proof. solve_decision. Defined.
#[global] Instance GameSubState_eq_dec : EqDecision GameSubState.
Proof. solve_decision. Defined.

(** [p === Player.BLACK ? Player.WHITE : Player.BLACK] *)
Definition other (p : Player) : Player :=
  if bool_decide (p = BLACK) then WHITE else BLACK.

(** [pos.x === x && pos.y === y] *)
Definition samePos (a b : Position) : bool :=
  (Position.x a =? Position.x b) && (Position.y a =? Position.y b).

(** ** Board.ts *)

Module Board.

(** [grid[y][x]] is [None] for [null] and [Some p] for a stone. The grid
    is only ever written at positions that passed [isValidPosition], on a
    grid built by [initializeGrid]; [wf] states the shape this gives. *)
Record t := mk {
  size : Z;
  grid : list (list (option Player));
  moves : list Move
}.

Definition initializeGrid (n : Z) : list (list (option Player)) :=
  replicate (Z.to_nat n) (replicate (Z.to_nat n) None).

Definition new (n : Z) : t := mk n (initializeGrid n) [].

Definition getSize (b : t) : Z := size b.

Definition isValidPosition (b : t) (p : Position) : bool :=
  (0 <=? Position.x p) && (Position.x p <? size b)
  && (0 <=? Position.y p) && (Position.y p <? size b).

(** The read [grid[y][x]]; [None] stands for JavaScript's [undefined]. *)
Definition cell (g : list (list (option Player))) (p : Position)
  : option (option Player) :=
  row ← g !! Z.to_nat (Position.y p); row !! Z.to_nat (Position.x p).

(** The write [grid[y][x] = v]. *)
Definition setCell (g : list (list (option Player))) (p : Position)
    (v : option Player) : list (list (option Player)) :=
  alter (λ row, <[Z.to_nat (Position.x p) := v]> row)
        (Z.to_nat (Position.y p)) g.

Definition isEmpty (b : t) (p : Position) : bool :=
  if negb (isValidPosition b p) then false
  else bool_decide (cell (grid b) p = Some None).

(** [now] is the value [Date.now()] returns during the call. *)
Definition placeStone (b : t) (p : Position) (pl : Player) (now : Z)
  : bool * t :=
  if negb (isEmpty b p) then (false, b)
  else (true, mk (size b) (setCell (grid b) p (Some pl))
                  (moves b ++ [mkMove p pl now])).

Definition getStone (b : t) (p : Position) : option Player :=
  if negb (isValidPosition b p) then None
  else match cell (grid b) p with Some c => c | None => None end.

Definition getMoves (b : t) : list Move := moves b.

(** [moves.pop()] takes the last element of the stack. *)
Definition undoMove (b : t) : option Move * t :=
  match last (moves b) with
  | None => (None, b)
  | Some lastMove =>
      (Some lastMove,
       mk (size b) (setCell (grid b) (position lastMove) None)
          (removelast (moves b)))
  end.

Definition reset (b : t) : t := mk (size b) (initializeGrid (size b)) [].

Definition removeStone (b : t) (p : Position) : bool * t :=
  if negb (isValidPosition b p) then (false, b)
  else if bool_decide (cell (grid b) p = Some None) then (false, b)
  else (true, mk (size b) (setCell (grid b) p None) (moves b)).

(** The shape of a board the class can hold: a [size] by [size] grid, and
    a stack of moves at valid positions. *)
Record wf (b : t) : Prop := {
  wf_size : 0 <= size b;
  wf_rows : length (grid b) = Z.to_nat (size b);
  wf_cols : Forall (λ row, length row = Z.to_nat (size b)) (grid b);
  wf_moves : Forall (λ m, isValidPosition b (position m) = true) (moves b)
}.

(** [placeAll b ms] performs the calls [placeStone] of [ms] in order and
    tells whether all of them succeeded. *)
Fixpoint placeAll (b : t) (ms : list Move) : bool * t :=
  match ms with
  | [] => (true, b)
  | m :: ms' =>
      let r := placeStone b (position m) (player m) (timestamp m) in
      if r.1 then placeAll r.2 ms' else (false, r.2)
  end.

End Board.

(** ** The JavaScript runtime seen by the engine *)

(** What a pending timer does when it fires: the four callbacks the engine
    passes to [setTimeout]. *)
Inductive TimerAction :=
  | AiTurn              (* isAiCalculating = false; aiTimer = null; makeAIMove() *)
  | AiExtraTurn         (* makeAIMove(), the handle is not kept *)
  | ItemNameExpire      (* leave SHOWING_ITEM_NAME, forget the handle *)
  | NotificationExpire. (* clearNotification() *)

Record Timer := mkTimer {
  timerId : nat;
  delay : Z;
  action : TimerAction
}.

(** [randomSrc] and [clockSrc] are the successive answers of [Math.random()]
    and [Date.now()]; [randomCalls] and [clockCalls] count the calls made so
    far. [timers] is the table of pending timers, [notified] the number of
    times the change callbacks were dispatched. *)
Record Runtime := mkRuntime {
  randomSrc : nat -> Q;
  randomCalls : nat;
  clockSrc : nat -> Z;
  clockCalls : nat;
  timers : list Timer;
  nextTimer : nat;
  notified : nat
}.

Definition set_randomCalls (v : nat) (r : Runtime) : Runtime :=
  mkRuntime (randomSrc r) v (clockSrc r) (clockCalls r) (timers r)
    (nextTimer r) (notified r).
Definition set_clockCalls (v : nat) (r : Runtime) : Runtime :=
  mkRuntime (randomSrc r) (randomCalls r) (clockSrc r) v (timers r)
    (nextTimer r) (notified r).
Definition set_timers (v : list Timer) (r : Runtime) : Runtime :=
  mkRuntime (randomSrc r) (randomCalls r) (clockSrc r) (clockCalls r) v
    (nextTimer r) (notified r).
Definition set_nextTimer (v : nat) (r : Runtime) : Runtime :=
  mkRuntime (randomSrc r) (randomCalls r) (clockSrc r) (clockCalls r)
    (timers r) v (notified r).
Definition set_notified (v : nat) (r : Runtime) : Runtime :=
  mkRuntime (randomSrc r) (randomCalls r) (clockSrc r) (clockCalls r)
    (timers r) (nextTimer r) v.

(** [Math.random()] answers in [[0,1)]. *)
Definition randomInRange (r : Runtime) : Prop :=
  forall i, (0 <= randomSrc r i)%Q /\ (randomSrc r i < 1)%Q.

(** *** A state monad for the imperative code *)

Definition State (S A : Type) : Type := S -> A * S.

Definition ret {S A} (a : A) : State S A := fun s => (a, s).

Definition bind {S A B} (c : State S A) (k : A -> State S B) : State S B :=
  fun s => k (c s).1 (c s).2.

Definition gets {S A} (f : S -> A) : State S A := fun s => (f s, s).

Definition modify {S} (f : S -> S) : State S unit := fun s => (tt, f s).

(** [if (b) { c }] *)
Definition when {S} (b : bool) (c : State S unit) : State S unit :=
  fun s => if b then c s else (tt, s).

Arguments ret {S A} a _ /.
Arguments bind {S A B} c k _ /.
Arguments gets {S A} f _ /.
Arguments modify {S} f _ /.
Arguments when {S} b c _ /.

Declare Scope monad_scope.
Delimit Scope monad_scope with monad.
Notation "x <- c1 ;; c2" := (bind c1 (fun x => c2))
  (at level 100, c1 at next level, c2 at level 200, right associativity)
  : monad_scope.
Notation "c1 ;; c2" := (bind c1 (fun _ => c2))
  (at level 100, c2 at level 200, right associativity) : monad_scope.
Local Open Scope monad_scope.

Definition R (A : Type) : Type := State Runtime A.

Definition mathRandom : R Q :=
  fun r => (randomSrc r (randomCalls r), set_randomCalls (S (randomCalls r)) r).

Definition dateNow : R Z :=
  fun r => (clockSrc r (clockCalls r), set_clockCalls (S (clockCalls r)) r).

Definition setTimeout (a : TimerAction) (ms : Z) : R nat :=
  fun r => (nextTimer r,
            set_nextTimer (S (nextTimer r))
              (set_timers (timers r ++ [mkTimer (nextTimer r) ms a]) r)).

Definition clearTimeout (id : nat) : R unit :=
  modify (fun r =>
    set_timers (List.filter (fun t => negb (Nat.eqb (timerId t) id)) (timers r)) r).

(** A timer handle is a non-zero number; [if (handle)] tests that. *)
Definition truthy (h : option nat) : bool :=
  match h with Some (S _) => true | _ => false end.

(** *** Numbers

    A Number is a double.  Those that are finite and not negative are the
    rationals [m * 2^e] with a mantissa [m < 2^53] and an exponent
    [e >= -1074]; around a rational [x >= 0] they are the multiples of
    [2^(exponent x)]: [exponent x] is [floor (log2 x) - 52], and [-1074]
    from the subnormal range down. *)
Definition exponent (x : Q) : Z :=
  Z.max (Z.log2 (Qfloor (x * 2 ^ 1074)) - 1074 - 52) (- 1074).

(** The integer nearest to [y], the even one of two that are equally near. *)
Definition roundHalfEven (y : Q) : Z :=
  let f := Qfloor y in
  match (y - inject_Z f ?= 1 # 2)%Q with
  | Lt => f
  | Gt => f + 1
  | Eq => if Z.even f then f else f + 1
  end.

(** The Number an arithmetic operation answers for the exact result
    [x >= 0]: the double nearest to [x], ties to the even mantissa
    ([toNumber_nearest], [toNumber_fixed]).  There is no overflow to model:
    the results here are below the length of an array. *)
Definition toNumber (x : Q) : Q :=
  let ulp := (2 ^ exponent x)%Q in
  (inject_Z (roundHalfEven (x / ulp)) * ulp)%Q.

(** The Number [Math.random()] answers where [randomSrc] gives [r].  A
    double is that Number ([asNumber_fixed]).  Any other rational is read
    as a literal of JavaScript is, as the double nearest to it, except that
    an answer below 1 stays below 1: the greatest double below 1 stands for
    the rationals that lie still nearer to 1. *)
Definition asNumber (r : Q) : Q :=
  if Qlt_le_dec r 1 then Qmin (toNumber r) (1 - 2 ^ (- 53)) else toNumber r.

(** [Math.floor(r * n)] for an answer [r] of [Math.random()] and the length
    [n] of an array: the product of the two Numbers is rounded to a Number
    before [Math.floor] is applied. *)
Definition floorMul (r : Q) (n : nat) : Z :=
  Qfloor (toNumber (asNumber r * inject_Z (Z.of_nat n))).

(** The read [a[i]]; [None] stands for [undefined]. *)
Definition arrayGet {A} (a : list A) (i : Z) : option A :=
  if i <? 0 then None else a !! Z.to_nat i.

(** The positions of the board in the order of the loops
    [for y < size: for x < size]. *)
Definition scan (n : Z) : list Position :=
  y ← seqZ 0 n; x ← seqZ 0 n; [Position.mk x y].

(** ** ItemSystem.ts *)

Module ItemSystem.

Definition ITEM_INFO_MAP (t : ItemType) : ItemInfo :=
  match t with
  | CHAOS_STRIKE => mkItemInfo CHAOS_STRIKE (mkItemEffect INSTANT None) true
  | PRECISE_STRIKE => mkItemInfo PRECISE_STRIKE (mkItemEffect DELAYED None) true
  | ACCELERATED_MOVE =>
      mkItemInfo ACCELERATED_MOVE (mkItemEffect INSTANT None) true
  | STRATEGY_GUIDE => mkItemInfo STRATEGY_GUIDE (mkItemEffect DELAYED None) true
  | TOUGHEN_HEART =>
      mkItemInfo TOUGHEN_HEART (mkItemEffect CONTINUOUS (Some 1)) true
  | SELF_MISTAKE => mkItemInfo SELF_MISTAKE (mkItemEffect INSTANT None) false
  | OPPONENT_ACCELERATION =>
      mkItemInfo OPPONENT_ACCELERATION (mkItemEffect INSTANT None) false
  | SLIP_PENALTY =>
      mkItemInfo SLIP_PENALTY (mkItemEffect CONTINUOUS (Some 1)) true
  end.

(** [Object.values(ItemType)]: the members in declaration order. *)
Definition availableItems : list ItemType :=
  [CHAOS_STRIKE; PRECISE_STRIKE; ACCELERATED_MOVE; STRATEGY_GUIDE;
   TOUGHEN_HEART; SELF_MISTAKE; OPPONENT_ACCELERATION; SLIP_PENALTY].

Definition strengtheningItems : list ItemType :=
  List.filter (fun t => isStrengthening (ITEM_INFO_MAP t)) availableItems.

Definition weakeningItems : list ItemType :=
  List.filter (fun t => negb (isStrengthening (ITEM_INFO_MAP t)))
    availableItems.

Definition getItemInfo (t : ItemType) : ItemInfo := ITEM_INFO_MAP t.

(** [rand < strengtheningBias]; the comparison of two Numbers is exact. *)
Definition below (rand bias : Q) : bool :=
  match Qlt_le_dec rand bias with left _ => true | right _ => false end.

Definition generateRandomItemType (strengtheningBias : Q)
  : R (option ItemType) :=
  rand <- mathRandom ;;
  let itemsPool :=
    if below rand strengtheningBias then strengtheningItems
    else weakeningItems in
  r <- mathRandom ;;
  let randomIndex := floorMul r (length itemsPool) in
  ret (arrayGet itemsPool randomIndex).

(** The two array reads are in range when [Math.random()] is (see
    [randomInRange]), so they are not [undefined]; the box is built from
    their values. *)
Definition generateBlindBox (availablePositions : list Position)
    (strengtheningBias : Q) : R (option BlindBox) :=
  if (length availablePositions =? 0)%nat then ret None
  else
    r <- mathRandom ;;
    let randomIndex := floorMul r (length availablePositions) in
    let position := arrayGet availablePositions randomIndex in
    itemType <- generateRandomItemType strengtheningBias ;;
    now <- dateNow ;;
    ret (match position, itemType with
         | Some p, Some t => Some (mkBlindBox p t false now)
         | _, _ => None
         end).

Definition getAvailablePositions (boardSize : Z)
    (isPositionEmpty : Position -> bool) : list Position :=
  List.filter isPositionEmpty (scan boardSize).

Definition findBlindBoxAtPosition (p : Position) (blindBoxes : list BlindBox)
  : option BlindBox :=
  List.find (fun box => negb (isOpened box) && samePos (boxPosition box) p)
    blindBoxes.

End ItemSystem.

(** ** GomokuGame.ts: the state of the engine *)

(** The texts passed to [showNotification]: the named side was shielded by
    its TOUGHEN_HEART from an attack, from a precise strike, or from its own
    mistake. *)
Inductive Notice :=
  | ImmuneToAttack (p : Player)
  | ImmuneToPreciseStrike (p : Player)
  | ImmuneToOwnMistake (p : Player).

(** [Map<Player, PlayerMoveCount>]: both keys are set when the map is
    created and none is ever deleted, and every read is [players.get(p)!]. *)
Record PlayerMap (A : Type) := mkPlayerMap {
  ofBlack : A;
  ofWhite : A
}.
Arguments mkPlayerMap {A}.
Arguments ofBlack {A}.
Arguments ofWhite {A}.

Definition pmGet {A} (m : PlayerMap A) (p : Player) : A :=
  match p with BLACK => ofBlack m | WHITE => ofWhite m end.

Definition pmSet {A} (m : PlayerMap A) (p : Player) (a : A) : PlayerMap A :=
  match p with
  | BLACK => mkPlayerMap a (ofWhite m)
  | WHITE => mkPlayerMap (ofBlack m) a
  end.

Record GameMoveCountState := mkGameMoveCountState {
  players : PlayerMap PlayerMoveCount;
  mcCurrentPlayer : Player;
  currentMoveEventId : option (Z * Q)   (* [None] is the initial empty string *)
}.

#[global] Instance Player_countable : Countable Player.
Proof.
  refine (inj_countable' (fun p => bool_decide (p = BLACK))
                         (fun b : bool => if b then BLACK else WHITE) _).
  by intros [].
Defined.

Record GomokuGame := mkGomokuGame {
  board : Board.t;
  currentPlayer : Player;
  gameState : GameState;
  gameSubState : GameSubState;
  gameResult : option GameResult;
  moveHistory : list Move;
  config : GameConfig;
  aiTimer : option nat;
  isAiCalculating : bool;
  blindBoxes : list BlindBox;
  playerItems : gmap Player (list PlayerItem);
  activeEffects : gmap Player (list PlayerItem);
  lastItemUsed : option ItemType;
  itemNameDisplayTimer : option nat;
  strategyGuidePositions : list Position;
  hasExtraMove : bool;
  nextPlayerHasExtraMove : bool;
  nextPlayerHasSlipPenalty : bool;
  allowedPositions : list Position;
  notification : option Notice;
  notificationTimer : option nat;
  preciseStrikePlayer : option Player;
  preciseStrikeHasExtraMove : bool;
  gameMoveCountState : GameMoveCountState;
  gameStateChangeCallbacks : list nat;
  runtime : Runtime
}.

Definition set_board (v : Board.t) (g : GomokuGame) : GomokuGame :=
  mkGomokuGame v (currentPlayer g) (gameState g) (gameSubState g)
    (gameResult g) (moveHistory g) (config g) (aiTimer g) (isAiCalculating
    g) (blindBoxes g) (playerItems g) (activeEffects g) (lastItemUsed g)
    (itemNameDisplayTimer g) (strategyGuidePositions g) (hasExtraMove g)
    (nextPlayerHasExtraMove g) (nextPlayerHasSlipPenalty g)
    (allowedPositions g) (notification g) (notificationTimer g)
    (preciseStrikePlayer g) (preciseStrikeHasExtraMove g)
    (gameMoveCountState g) (gameStateChangeCallbacks g) (runtime g).
Definition set_currentPlayer (v : Player) (g : GomokuGame) : GomokuGame :=
  mkGomokuGame (board g) v (gameState g) (gameSubState g) (gameResult g)
    (moveHistory g) (config g) (aiTimer g) (isAiCalculating g) (blindBoxes
    g) (playerItems g) (activeEffects g) (lastItemUsed g)
    (itemNameDisplayTimer g) (strategyGuidePositions g) (hasExtraMove g)
    (nextPlayerHasExtraMove g) (nextPlayerHasSlipPenalty g)
    (allowedPositions g) (notification g) (notificationTimer g)
    (preciseStrikePlayer g) (preciseStrikeHasExtraMove g)
    (gameMoveCountState g) (gameStateChangeCallbacks g) (runtime g).
Definition set_gameState (v : GameState) (g : GomokuGame) : GomokuGame :=
  mkGomokuGame (board g) (currentPlayer g) v (gameSubState g) (gameResult g)
    (moveHistory g) (config g) (aiTimer g) (isAiCalculating g) (blindBoxes
    g) (playerItems g) (activeEffects g) (lastItemUsed g)
    (itemNameDisplayTimer g) (strategyGuidePositions g) (hasExtraMove g)
    (nextPlayerHasExtraMove g) (nextPlayerHasSlipPenalty g)
    (allowedPositions g) (notification g) (notificationTimer g)
    (preciseStrikePlayer g) (preciseStrikeHasExtraMove g)
    (gameMoveCountState g) (gameStateChangeCallbacks g) (runtime g).
Definition set_gameSubState (v : GameSubState) (g : GomokuGame) : GomokuGame :=
  mkGomokuGame (board g) (currentPlayer g) (gameState g) v (gameResult g)
    (moveHistory g) (config g) (aiTimer g) (isAiCalculating g) (blindBoxes
    g) (playerItems g) (activeEffects g) (lastItemUsed g)
    (itemNameDisplayTimer g) (strategyGuidePositions g) (hasExtraMove g)
    (nextPlayerHasExtraMove g) (nextPlayerHasSlipPenalty g)
    (allowedPositions g) (notification g) (notificationTimer g)
    (preciseStrikePlayer g) (preciseStrikeHasExtraMove g)
    (gameMoveCountState g) (gameStateChangeCallbacks g) (runtime g).
Definition set_gameResult (v : option GameResult) (g : GomokuGame) : GomokuGame :=
  mkGomokuGame (board g) (currentPlayer g) (gameState g) (gameSubState g) v
    (moveHistory g) (config g) (aiTimer g) (isAiCalculating g) (blindBoxes
    g) (playerItems g) (activeEffects g) (lastItemUsed g)
    (itemNameDisplayTimer g) (strategyGuidePositions g) (hasExtraMove g)
    (nextPlayerHasExtraMove g) (nextPlayerHasSlipPenalty g)
    (allowedPositions g) (notification g) (notificationTimer g)
    (preciseStrikePlayer g) (preciseStrikeHasExtraMove g)
    (gameMoveCountState g) (gameStateChangeCallbacks g) (runtime g).
Definition set_moveHistory (v : list Move) (g : GomokuGame) : GomokuGame :=
  mkGomokuGame (board g) (currentPlayer g) (gameState g) (gameSubState g)
    (gameResult g) v (config g) (aiTimer g) (isAiCalculating g) (blindBoxes
    g) (playerItems g) (activeEffects g) (lastItemUsed g)
    (itemNameDisplayTimer g) (strategyGuidePositions g) (hasExtraMove g)
    (nextPlayerHasExtraMove g) (nextPlayerHasSlipPenalty g)
    (allowedPositions g) (notification g) (notificationTimer g)
    (preciseStrikePlayer g) (preciseStrikeHasExtraMove g)
    (gameMoveCountState g) (gameStateChangeCallbacks g) (runtime g).
Definition set_config (v : GameConfig) (g : GomokuGame) : GomokuGame :=
  mkGomokuGame (board g) (currentPlayer g) (gameState g) (gameSubState g)
    (gameResult g) (moveHistory g) v (aiTimer g) (isAiCalculating g)
    (blindBoxes g) (playerItems g) (activeEffects g) (lastItemUsed g)
    (itemNameDisplayTimer g) (strategyGuidePositions g) (hasExtraMove g)
    (nextPlayerHasExtraMove g) (nextPlayerHasSlipPenalty g)
    (allowedPositions g) (notification g) (notificationTimer g)
    (preciseStrikePlayer g) (preciseStrikeHasExtraMove g)
    (gameMoveCountState g) (gameStateChangeCallbacks g) (runtime g).
Definition set_aiTimer (v : option nat) (g : GomokuGame) : GomokuGame :=
  mkGomokuGame (board g) (currentPlayer g) (gameState g) (gameSubState g)
    (gameResult g) (moveHistory g) (config g) v (isAiCalculating g)
    (blindBoxes g) (playerItems g) (activeEffects g) (lastItemUsed g)
    (itemNameDisplayTimer g) (strategyGuidePositions g) (hasExtraMove g)
    (nextPlayerHasExtraMove g) (nextPlayerHasSlipPenalty g)
    (allowedPositions g) (notification g) (notificationTimer g)
    (preciseStrikePlayer g) (preciseStrikeHasExtraMove g)
    (gameMoveCountState g) (gameStateChangeCallbacks g) (runtime g).
Definition set_isAiCalculating (v : bool) (g : GomokuGame) : GomokuGame :=
  mkGomokuGame (board g) (currentPlayer g) (gameState g) (gameSubState g)
    (gameResult g) (moveHistory g) (config g) (aiTimer g) v (blindBoxes g)
    (playerItems g) (activeEffects g) (lastItemUsed g) (itemNameDisplayTimer
    g) (strategyGuidePositions g) (hasExtraMove g) (nextPlayerHasExtraMove
    g) (nextPlayerHasSlipPenalty g) (allowedPositions g) (notification g)
    (notificationTimer g) (preciseStrikePlayer g) (preciseStrikeHasExtraMove
    g) (gameMoveCountState g) (gameStateChangeCallbacks g) (runtime g).
Definition set_blindBoxes (v : list BlindBox) (g : GomokuGame) : GomokuGame :=
  mkGomokuGame (board g) (currentPlayer g) (gameState g) (gameSubState g)
    (gameResult g) (moveHistory g) (config g) (aiTimer g) (isAiCalculating
    g) v (playerItems g) (activeEffects g) (lastItemUsed g)
    (itemNameDisplayTimer g) (strategyGuidePositions g) (hasExtraMove g)
    (nextPlayerHasExtraMove g) (nextPlayerHasSlipPenalty g)
    (allowedPositions g) (notification g) (notificationTimer g)
    (preciseStrikePlayer g) (preciseStrikeHasExtraMove g)
    (gameMoveCountState g) (gameStateChangeCallbacks g) (runtime g).
Definition set_playerItems (v : gmap Player (list PlayerItem)) (g : GomokuGame) : GomokuGame :=
  mkGomokuGame (board g) (currentPlayer g) (gameState g) (gameSubState g)
    (gameResult g) (moveHistory g) (config g) (aiTimer g) (isAiCalculating
    g) (blindBoxes g) v (activeEffects g) (lastItemUsed g)
    (itemNameDisplayTimer g) (strategyGuidePositions g) (hasExtraMove g)
    (nextPlayerHasExtraMove g) (nextPlayerHasSlipPenalty g)
    (allowedPositions g) (notification g) (notificationTimer g)
    (preciseStrikePlayer g) (preciseStrikeHasExtraMove g)
    (gameMoveCountState g) (gameStateChangeCallbacks g) (runtime g).
Definition set_activeEffects (v : gmap Player (list PlayerItem)) (g : GomokuGame) : GomokuGame :=
  mkGomokuGame (board g) (currentPlayer g) (gameState g) (gameSubState g)
    (gameResult g) (moveHistory g) (config g) (aiTimer g) (isAiCalculating
    g) (blindBoxes g) (playerItems g) v (lastItemUsed g)
    (itemNameDisplayTimer g) (strategyGuidePositions g) (hasExtraMove g)
    (nextPlayerHasExtraMove g) (nextPlayerHasSlipPenalty g)
    (allowedPositions g) (notification g) (notificationTimer g)
    (preciseStrikePlayer g) (preciseStrikeHasExtraMove g)
    (gameMoveCountState g) (gameStateChangeCallbacks g) (runtime g).
Definition set_lastItemUsed (v : option ItemType) (g : GomokuGame) : GomokuGame :=
  mkGomokuGame (board g) (currentPlayer g) (gameState g) (gameSubState g)
    (gameResult g) (moveHistory g) (config g) (aiTimer g) (isAiCalculating
    g) (blindBoxes g) (playerItems g) (activeEffects g) v
    (itemNameDisplayTimer g) (strategyGuidePositions g) (hasExtraMove g)
    (nextPlayerHasExtraMove g) (nextPlayerHasSlipPenalty g)
    (allowedPositions g) (notification g) (notificationTimer g)
    (preciseStrikePlayer g) (preciseStrikeHasExtraMove g)
    (gameMoveCountState g) (gameStateChangeCallbacks g) (runtime g).
Definition set_itemNameDisplayTimer (v : option nat) (g : GomokuGame) : GomokuGame :=
  mkGomokuGame (board g) (currentPlayer g) (gameState g) (gameSubState g)
    (gameResult g) (moveHistory g) (config g) (aiTimer g) (isAiCalculating
    g) (blindBoxes g) (playerItems g) (activeEffects g) (lastItemUsed g) v
    (strategyGuidePositions g) (hasExtraMove g) (nextPlayerHasExtraMove g)
    (nextPlayerHasSlipPenalty g) (allowedPositions g) (notification g)
    (notificationTimer g) (preciseStrikePlayer g) (preciseStrikeHasExtraMove
    g) (gameMoveCountState g) (gameStateChangeCallbacks g) (runtime g).
Definition set_strategyGuidePositions (v : list Position) (g : GomokuGame) : GomokuGame :=
  mkGomokuGame (board g) (currentPlayer g) (gameState g) (gameSubState g)
    (gameResult g) (moveHistory g) (config g) (aiTimer g) (isAiCalculating
    g) (blindBoxes g) (playerItems g) (activeEffects g) (lastItemUsed g)
    (itemNameDisplayTimer g) v (hasExtraMove g) (nextPlayerHasExtraMove g)
    (nextPlayerHasSlipPenalty g) (allowedPositions g) (notification g)
    (notificationTimer g) (preciseStrikePlayer g) (preciseStrikeHasExtraMove
    g) (gameMoveCountState g) (gameStateChangeCallbacks g) (runtime g).
Definition set_hasExtraMove (v : bool) (g : GomokuGame) : GomokuGame :=
  mkGomokuGame (board g) (currentPlayer g) (gameState g) (gameSubState g)
    (gameResult g) (moveHistory g) (config g) (aiTimer g) (isAiCalculating
    g) (blindBoxes g) (playerItems g) (activeEffects g) (lastItemUsed g)
    (itemNameDisplayTimer g) (strategyGuidePositions g) v
    (nextPlayerHasExtraMove g) (nextPlayerHasSlipPenalty g)
    (allowedPositions g) (notification g) (notificationTimer g)
    (preciseStrikePlayer g) (preciseStrikeHasExtraMove g)
    (gameMoveCountState g) (gameStateChangeCallbacks g) (runtime g).
Definition set_nextPlayerHasExtraMove (v : bool) (g : GomokuGame) : GomokuGame :=
  mkGomokuGame (board g) (currentPlayer g) (gameState g) (gameSubState g)
    (gameResult g) (moveHistory g) (config g) (aiTimer g) (isAiCalculating
    g) (blindBoxes g) (playerItems g) (activeEffects g) (lastItemUsed g)
    (itemNameDisplayTimer g) (strategyGuidePositions g) (hasExtraMove g) v
    (nextPlayerHasSlipPenalty g) (allowedPositions g) (notification g)
    (notificationTimer g) (preciseStrikePlayer g) (preciseStrikeHasExtraMove
    g) (gameMoveCountState g) (gameStateChangeCallbacks g) (runtime g).
Definition set_nextPlayerHasSlipPenalty (v : bool) (g : GomokuGame) : GomokuGame :=
  mkGomokuGame (board g) (currentPlayer g) (gameState g) (gameSubState g)
    (gameResult g) (moveHistory g) (config g) (aiTimer g) (isAiCalculating
    g) (blindBoxes g) (playerItems g) (activeEffects g) (lastItemUsed g)
    (itemNameDisplayTimer g) (strategyGuidePositions g) (hasExtraMove g)
    (nextPlayerHasExtraMove g) v (allowedPositions g) (notification g)
    (notificationTimer g) (preciseStrikePlayer g) (preciseStrikeHasExtraMove
    g) (gameMoveCountState g) (gameStateChangeCallbacks g) (runtime g).
Definition set_allowedPositions (v : list Position) (g : GomokuGame) : GomokuGame :=
  mkGomokuGame (board g) (currentPlayer g) (gameState g) (gameSubState g)
    (gameResult g) (moveHistory g) (config g) (aiTimer g) (isAiCalculating
    g) (blindBoxes g) (playerItems g) (activeEffects g) (lastItemUsed g)
    (itemNameDisplayTimer g) (strategyGuidePositions g) (hasExtraMove g)
    (nextPlayerHasExtraMove g) (nextPlayerHasSlipPenalty g) v (notification
    g) (notificationTimer g) (preciseStrikePlayer g)
    (preciseStrikeHasExtraMove g) (gameMoveCountState g)
    (gameStateChangeCallbacks g) (runtime g).
Definition set_notification (v : option Notice) (g : GomokuGame) : GomokuGame :=
  mkGomokuGame (board g) (currentPlayer g) (gameState g) (gameSubState g)
    (gameResult g) (moveHistory g) (config g) (aiTimer g) (isAiCalculating
    g) (blindBoxes g) (playerItems g) (activeEffects g) (lastItemUsed g)
    (itemNameDisplayTimer g) (strategyGuidePositions g) (hasExtraMove g)
    (nextPlayerHasExtraMove g) (nextPlayerHasSlipPenalty g)
    (allowedPositions g) v (notificationTimer g) (preciseStrikePlayer g)
    (preciseStrikeHasExtraMove g) (gameMoveCountState g)
    (gameStateChangeCallbacks g) (runtime g).
Definition set_notificationTimer (v : option nat) (g : GomokuGame) : GomokuGame :=
  mkGomokuGame (board g) (currentPlayer g) (gameState g) (gameSubState g)
    (gameResult g) (moveHistory g) (config g) (aiTimer g) (isAiCalculating
    g) (blindBoxes g) (playerItems g) (activeEffects g) (lastItemUsed g)
    (itemNameDisplayTimer g) (strategyGuidePositions g) (hasExtraMove g)
    (nextPlayerHasExtraMove g) (nextPlayerHasSlipPenalty g)
    (allowedPositions g) (notification g) v (preciseStrikePlayer g)
    (preciseStrikeHasExtraMove g) (gameMoveCountState g)
    (gameStateChangeCallbacks g) (runtime g).
Definition set_preciseStrikePlayer (v : option Player) (g : GomokuGame) : GomokuGame :=
  mkGomokuGame (board g) (currentPlayer g) (gameState g) (gameSubState g)
    (gameResult g) (moveHistory g) (config g) (aiTimer g) (isAiCalculating
    g) (blindBoxes g) (playerItems g) (activeEffects g) (lastItemUsed g)
    (itemNameDisplayTimer g) (strategyGuidePositions g) (hasExtraMove g)
    (nextPlayerHasExtraMove g) (nextPlayerHasSlipPenalty g)
    (allowedPositions g) (notification g) (notificationTimer g) v
    (preciseStrikeHasExtraMove g) (gameMoveCountState g)
    (gameStateChangeCallbacks g) (runtime g).
Definition set_preciseStrikeHasExtraMove (v : bool) (g : GomokuGame) : GomokuGame :=
  mkGomokuGame (board g) (currentPlayer g) (gameState g) (gameSubState g)
    (gameResult g) (moveHistory g) (config g) (aiTimer g) (isAiCalculating
    g) (blindBoxes g) (playerItems g) (activeEffects g) (lastItemUsed g)
    (itemNameDisplayTimer g) (strategyGuidePositions g) (hasExtraMove g)
    (nextPlayerHasExtraMove g) (nextPlayerHasSlipPenalty g)
    (allowedPositions g) (notification g) (notificationTimer g)
    (preciseStrikePlayer g) v (gameMoveCountState g)
    (gameStateChangeCallbacks g) (runtime g).
Definition set_gameMoveCountState (v : GameMoveCountState) (g : GomokuGame) : GomokuGame :=
  mkGomokuGame (board g) (currentPlayer g) (gameState g) (gameSubState g)
    (gameResult g) (moveHistory g) (config g) (aiTimer g) (isAiCalculating
    g) (blindBoxes g) (playerItems g) (activeEffects g) (lastItemUsed g)
    (itemNameDisplayTimer g) (strategyGuidePositions g) (hasExtraMove g)
    (nextPlayerHasExtraMove g) (nextPlayerHasSlipPenalty g)
    (allowedPositions g) (notification g) (notificationTimer g)
    (preciseStrikePlayer g) (preciseStrikeHasExtraMove g) v
    (gameStateChangeCallbacks g) (runtime g).
Definition set_gameStateChangeCallbacks (v : list nat) (g : GomokuGame) : GomokuGame :=
  mkGomokuGame (board g) (currentPlayer g) (gameState g) (gameSubState g)
    (gameResult g) (moveHistory g) (config g) (aiTimer g) (isAiCalculating
    g) (blindBoxes g) (playerItems g) (activeEffects g) (lastItemUsed g)
    (itemNameDisplayTimer g) (strategyGuidePositions g) (hasExtraMove g)
    (nextPlayerHasExtraMove g) (nextPlayerHasSlipPenalty g)
    (allowedPositions g) (notification g) (notificationTimer g)
    (preciseStrikePlayer g) (preciseStrikeHasExtraMove g)
    (gameMoveCountState g) v (runtime g).
Definition set_runtime (v : Runtime) (g : GomokuGame) : GomokuGame :=
  mkGomokuGame (board g) (currentPlayer g) (gameState g) (gameSubState g)
    (gameResult g) (moveHistory g) (config g) (aiTimer g) (isAiCalculating
    g) (blindBoxes g) (playerItems g) (activeEffects g) (lastItemUsed g)
    (itemNameDisplayTimer g) (strategyGuidePositions g) (hasExtraMove g)
    (nextPlayerHasExtraMove g) (nextPlayerHasSlipPenalty g)
    (allowedPositions g) (notification g) (notificationTimer g)
    (preciseStrikePlayer g) (preciseStrikeHasExtraMove g)
    (gameMoveCountState g) (gameStateChangeCallbacks g) v.

(** ** GomokuGame.ts: the methods *)

Definition M (A : Type) : Type := State GomokuGame A.

(** Runs a call into the runtime (or into [ItemSystem]) from a method. *)
Definition liftR {A} (c : R A) : M A :=
  fun g => ((c (runtime g)).1, set_runtime (c (runtime g)).2 g).
Arguments liftR {A} c _ /.

(** [if (h) { clearTimeout(h); }] *)
Definition clearIfSet (h : option nat) : M unit :=
  match h with
  | Some id => when (truthy h) (liftR (clearTimeout id))
  | None => ret tt
  end.

Definition createPlayerMoveCount (p : Player) : PlayerMoveCount :=
  mkPlayerMoveCount p 0 0 0 0 [].

Definition createGameMoveCountState (g : GomokuGame) : GameMoveCountState :=
  mkGameMoveCountState
    (mkPlayerMap (createPlayerMoveCount BLACK) (createPlayerMoveCount WHITE))
    (currentPlayer g) None.

(** [new GomokuGame(size)], started in the runtime [rt]. *)
Definition newGame (n : Z) (rt : Runtime) : GomokuGame :=
  let g :=
    mkGomokuGame (Board.new n) BLACK READY NORMAL None []
      (mkGameConfig PVP BLACK medium true)
      None false [] ∅ ∅ None None [] false false false [] None None None false
      (mkGameMoveCountState
         (mkPlayerMap (createPlayerMoveCount BLACK) (createPlayerMoveCount WHITE))
         BLACK None)
      [] rt in
  set_gameMoveCountState (createGameMoveCountState g)
    (set_activeEffects (<[WHITE := []]> (<[BLACK := []]> ∅))
       (set_playerItems (<[WHITE := []]> (<[BLACK := []]> ∅)) g)).

(** [this.gameMoveCountState.players.get(p)!] *)
Definition moveCountOf (g : GomokuGame) (p : Player) : PlayerMoveCount :=
  pmGet (players (gameMoveCountState g)) p.

(** An assignment to a field of the object [players.get(p)!]. *)
Definition updMoveCount (p : Player) (f : PlayerMoveCount -> PlayerMoveCount)
  : M unit :=
  modify (fun g =>
    let st := gameMoveCountState g in
    set_gameMoveCountState
      (mkGameMoveCountState (pmSet (players st) p (f (pmGet (players st) p)))
         (mcCurrentPlayer st) (currentMoveEventId st)) g).

Definition incOriginalMoveCount (mc : PlayerMoveCount) : PlayerMoveCount :=
  mkPlayerMoveCount (mcPlayer mc) (originalMoveCount mc + 1)
    (extraMovesEarned mc) (extraMovesUsed mc) (currentExtraMoves mc)
    (moveEvents mc).
Definition incExtraMovesEarned (mc : PlayerMoveCount) : PlayerMoveCount :=
  mkPlayerMoveCount (mcPlayer mc) (originalMoveCount mc)
    (extraMovesEarned mc + 1) (extraMovesUsed mc) (currentExtraMoves mc)
    (moveEvents mc).
Definition incExtraMovesUsed (mc : PlayerMoveCount) : PlayerMoveCount :=
  mkPlayerMoveCount (mcPlayer mc) (originalMoveCount mc)
    (extraMovesEarned mc) (extraMovesUsed mc + 1) (currentExtraMoves mc)
    (moveEvents mc).
Definition setCurrentExtraMoves (v : Z) (mc : PlayerMoveCount)
  : PlayerMoveCount :=
  mkPlayerMoveCount (mcPlayer mc) (originalMoveCount mc)
    (extraMovesEarned mc) (extraMovesUsed mc) v (moveEvents mc).
Definition pushMoveEvent (e : MoveEvent) (mc : PlayerMoveCount)
  : PlayerMoveCount :=
  mkPlayerMoveCount (mcPlayer mc) (originalMoveCount mc)
    (extraMovesEarned mc) (extraMovesUsed mc) (currentExtraMoves mc)
    (moveEvents mc ++ [e]).

Definition generateMoveEventId : M (Z * Q) :=
  now <- liftR dateNow ;;
  rnd <- liftR mathRandom ;;
  ret (now, rnd).

Definition recordMoveEvent (type : MoveEventType) (desc : Description)
    (item : option ItemType) (added : option Z) : M unit :=
  id <- generateMoveEventId ;;
  now <- liftR dateNow ;;
  cur <- gets currentPlayer ;;
  let event := mkMoveEvent id now cur type item added desc in
  updMoveCount cur (pushMoveEvent event) ;;
  modify (fun g =>
    let st := gameMoveCountState g in
    set_gameMoveCountState
      (mkGameMoveCountState (players st) (mcCurrentPlayer st) (Some id)) g).

Definition addExtraMove (p : Player) (source : ItemType) : M unit :=
  updMoveCount p incExtraMovesEarned ;;
  updMoveCount p (fun mc => setCurrentExtraMoves (currentExtraMoves mc + 1) mc) ;;
  recordMoveEvent ITEM_TRIGGER (DescExtraGranted source) (Some source) (Some 1).

(** The body of the loop of [validateMoveCountConsistency] for one entry of
    the map; the flag is [isConsistent]. *)
Definition validateOne (p : Player) (isConsistent : bool) : M bool :=
  g <- gets (fun g => g) ;;
  let moveCount := moveCountOf g p in
  let calculatedExtraMoves :=
    extraMovesEarned moveCount - extraMovesUsed moveCount in
  if negb (calculatedExtraMoves =? currentExtraMoves moveCount) then
    updMoveCount p (setCurrentExtraMoves calculatedExtraMoves) ;;
    ret false
  else ret isConsistent.

Definition validateMoveCountConsistency : M bool :=
  c <- validateOne BLACK true ;;
  validateOne WHITE c.

Definition notifyGameStateChange : M unit :=
  liftR (modify (fun r => set_notified (S (notified r)) r)).

(** *** Win detection and position scoring (read-only methods) *)

(** The four axes of [checkWin] and [evaluatePosition], as [(dx, dy)]. *)
Definition directions : list (Z * Z) := [(1, 0); (0, 1); (1, 1); (1, -1)].

(** The loop
    [while (isValidPosition({x,y}) && getStone({x,y}) === player)
       { line.push({x,y}); x += dx; y += dy }]:
    the cells it visits, in visiting order. Each round moves one step
    along the axis, so on a board of side [size] it makes at most [size]
    rounds; [fuel] is that bound (see [walk_stops]). *)
Fixpoint walk (fuel : nat) (b : Board.t) (pl : Player) (x y dx dy : Z)
  : list Position :=
  match fuel with
  | O => []
  | S fuel' =>
      if Board.isValidPosition b (Position.mk x y)
         && bool_decide (Board.getStone b (Position.mk x y) = Some pl)
      then Position.mk x y :: walk fuel' b pl (x + dx) (y + dy) dx dy
      else []
  end.

Definition checkDirection (b : Board.t) (p : Position) (pl : Player)
    (dx dy : Z) : list Position :=
  let fuel := Z.to_nat (Board.getSize b) in
  let forward :=
    walk fuel b pl (Position.x p + dx) (Position.y p + dy) dx dy in
  let backward :=
    walk fuel b pl (Position.x p - dx) (Position.y p - dy) (- dx) (- dy) in
  rev backward ++ p :: forward.

Definition checkWin (b : Board.t) (p : Position) (pl : Player) : GameResult :=
  match
    List.find (fun line => (5 <=? length line)%nat)
      (map (fun d => checkDirection b p pl d.1 d.2) directions)
  with
  | Some line => mkGameResult (Some pl) line
  | None => mkGameResult None []
  end.

Definition calculateScore (count : Z) (openEnds : Z) : Z :=
  if count =? 5 then 1000000
  else if count =? 4 then
    (if openEnds =? 2 then 100000 else if openEnds =? 1 then 10000 else 0)
  else if count =? 3 then
    (if openEnds =? 2 then 1000 else if openEnds =? 1 then 100 else 0)
  else if count =? 2 then
    (if openEnds =? 2 then 10 else if openEnds =? 1 then 5 else 0)
  else if count =? 1 then 1
  else 0.

(** The loop
    [while (x >= 0 && x < size && y >= 0 && y < size
            && getStone({x,y}) === player) { count++; x += dx; y += dy }]:
    the number of rounds and the cell it stops at. *)
Fixpoint run (fuel : nat) (b : Board.t) (pl : Player) (x y dx dy : Z)
  : Z * Position :=
  match fuel with
  | O => (0, Position.mk x y)
  | S fuel' =>
      if (0 <=? x) && (x <? Board.getSize b) && (0 <=? y)
         && (y <? Board.getSize b)
         && bool_decide (Board.getStone b (Position.mk x y) = Some pl)
      then
        let r := run fuel' b pl (x + dx) (y + dy) dx dy in (1 + r.1, r.2)
      else (0, Position.mk x y)
  end.

(** [x >= 0 && x < size && y >= 0 && y < size && isEmpty({x,y})] *)
Definition openEnd (b : Board.t) (p : Position) : Z :=
  if (0 <=? Position.x p) && (Position.x p <? Board.getSize b)
     && (0 <=? Position.y p) && (Position.y p <? Board.getSize b)
     && Board.isEmpty b p
  then 1 else 0.

Definition evaluateDirection (b : Board.t) (p : Position) (pl : Player)
    (dx dy : Z) : Z :=
  let fuel := Z.to_nat (Board.getSize b) in
  let fwd := run fuel b pl (Position.x p + dx) (Position.y p + dy) dx dy in
  let bwd :=
    run fuel b pl (Position.x p - dx) (Position.y p - dy) (- dx) (- dy) in
  calculateScore (1 + fwd.1 + bwd.1) (openEnd b fwd.2 + openEnd b bwd.2).

(** [evaluatePosition] reads [this.currentPlayer] and [this.board]. *)
Definition evaluatePosition (g : GomokuGame) (p : Position) : Z :=
  let aiColor := currentPlayer g in
  let playerColor := other aiColor in
  let score :=
    fold_left
      (fun score d =>
         score + evaluateDirection (board g) p aiColor d.1 d.2
               + evaluateDirection (board g) p playerColor d.1 d.2)
      directions 0 in
  let size := Board.getSize (board g) in
  let centerX := size / 2 in
  let centerY := size / 2 in
  let distanceFromCenter :=
    Z.abs (Position.x p - centerX) + Z.abs (Position.y p - centerY) in
  score + (10 - distanceFromCenter) * 2.

(** *** Item effects *)

(** The cells the loops [for y: for x: if (test(pos)) list.push(pos)]
    collect. *)
Definition emptyCells (b : Board.t) : list Position :=
  List.filter (Board.isEmpty b) (scan (Board.getSize b)).

Definition stonesOf (b : Board.t) (pl : Player) : list Position :=
  List.filter (fun pos => bool_decide (Board.getStone b pos = Some pl))
    (scan (Board.getSize b)).

(** [effects.some((effect) => effect.itemType === ItemType.TOUGHEN_HEART)] *)
Definition hasToughenHeart (effects : list PlayerItem) : bool :=
  existsb (fun e => bool_decide (piItemType e = TOUGHEN_HEART)) effects.

(** [this.activeEffects.get(p) || []] *)
Definition effectsOf (m : gmap Player (list PlayerItem)) (p : Player)
  : list PlayerItem :=
  default [] (m !! p).

Definition showNotification (message : Notice) (ms : Z) : M unit :=
  modify (set_notification (Some message)) ;;
  h <- gets notificationTimer ;;
  clearIfSet h ;;
  id <- liftR (setTimeout NotificationExpire ms) ;;
  modify (set_notificationTimer (Some id)).

Definition clearNotification : M unit :=
  modify (set_notification None) ;;
  h <- gets notificationTimer ;;
  when (truthy h)
    (clearIfSet h ;; modify (set_notificationTimer None)).

Definition removeEffect (p : Player) (t : ItemType) : M unit :=
  items <- gets playerItems ;;
  let updatedPlayerItems :=
    List.filter (fun item => negb (bool_decide (piItemType item = t)))
      (effectsOf items p) in
  modify (set_playerItems (<[p := updatedPlayerItems]> items)) ;;
  effects <- gets activeEffects ;;
  let updatedActiveEffects :=
    List.filter (fun e => negb (bool_decide (piItemType e = t)))
      (effectsOf effects p) in
  modify (set_activeEffects (<[p := updatedActiveEffects]> effects)).

Definition addContinuousEffect (p : Player) (t : ItemType) (dur : Z)
  : M unit :=
  items <- gets playerItems ;;
  t1 <- liftR dateNow ;;
  t2 <- liftR dateNow ;;
  t3 <- liftR dateNow ;;
  let newItem :=
    mkPlayerItem t t1 (Some t2) (Some (t3 + dur * 1000 * 60)) true in
  modify (set_playerItems (<[p := effectsOf items p ++ [newItem]]> items)) ;;
  effects <- gets activeEffects ;;
  modify (set_activeEffects (<[p := effectsOf effects p ++ [newItem]]> effects)).

(** [this.board.removeStone(pos)], the result is not used. *)
Definition boardRemoveStone (pos : Position) : M unit :=
  modify (fun g => set_board (Board.removeStone (board g) pos).2 g).

(** [stones[Math.floor(Math.random() * stones.length)]] is removed; the index
    is in range, so the read is not [undefined]. *)
Definition removeRandomStone (stones : list Position) : M unit :=
  when (0 <? length stones)%nat
    (r <- liftR mathRandom ;;
     let randomIndex := floorMul r (length stones) in
     match arrayGet stones randomIndex with
     | Some targetPosition => boardRemoveStone targetPosition
     | None => ret tt
     end).

Definition performChaosStrike (p : Player) : M unit :=
  let opponent := other p in
  effects <- gets activeEffects ;;
  if hasToughenHeart (effectsOf effects opponent) then
    removeEffect opponent TOUGHEN_HEART ;;
    showNotification (ImmuneToAttack opponent) 3000
  else
    b <- gets board ;;
    removeRandomStone (stonesOf b opponent).

Definition performSelfMistake (p : Player) : M unit :=
  effects <- gets activeEffects ;;
  if hasToughenHeart (effectsOf effects p) then
    removeEffect p TOUGHEN_HEART ;;
    showNotification (ImmuneToOwnMistake p) 3000
  else
    b <- gets board ;;
    removeRandomStone (stonesOf b p).

Definition performPreciseStrikeForAI (p : Player) : M unit :=
  let opponent := other p in
  b <- gets board ;;
  let opponentStones := stonesOf b opponent in
  if (length opponentStones =? 0)%nat then ret tt
  else
    effects <- gets activeEffects ;;
    if hasToughenHeart (effectsOf effects opponent) then
      removeEffect opponent TOUGHEN_HEART ;;
      showNotification (ImmuneToPreciseStrike opponent) 3000
    else
      r <- liftR mathRandom ;;
      let randomIndex := floorMul r (length opponentStones) in
      match arrayGet opponentStones randomIndex with
      | Some targetPosition => boardRemoveStone targetPosition
      | None => ret tt
      end.

(** [scored.sort((a, b) => b.score - a.score)]: the sort is stable, an item
    goes in front of the first one whose score is not higher. *)
Fixpoint insertByScore (a : Position * Z) (l : list (Position * Z))
  : list (Position * Z) :=
  match l with
  | [] => [a]
  | b :: l' => if b.2 <=? a.2 then a :: l else b :: insertByScore a l'
  end.

Definition sortByScore (l : list (Position * Z)) : list (Position * Z) :=
  foldr insertByScore [] l.

Definition showStrategyGuide (p : Player) : M unit :=
  modify (set_strategyGuidePositions []) ;;
  modify (set_gameSubState SHOWING_STRATEGY_GUIDE) ;;
  b <- gets board ;;
  let availablePositions := emptyCells b in
  if (length availablePositions =? 0)%nat then ret tt
  else
    originalPlayer <- gets currentPlayer ;;
    modify (set_currentPlayer p) ;;
    g <- gets (fun g => g) ;;
    let scoredPositions :=
      map (fun pos => (pos, evaluatePosition g pos)) availablePositions in
    modify (set_currentPlayer originalPlayer) ;;
    let topPositions := take 3 (sortByScore scoredPositions) in
    modify (set_strategyGuidePositions (map fst topPositions)).

(** The loop [for (i = 0; i < 3 && available.length > 0; i++)] of
    [applySlipPenalty]; [rounds] is [3 - i]. *)
Fixpoint pickAllowed (rounds : nat) (availablePositions : list Position)
  : M unit :=
  match rounds with
  | O => ret tt
  | S rounds' =>
      if (0 <? length availablePositions)%nat then
        r <- liftR mathRandom ;;
        let randomIndex := floorMul r (length availablePositions) in
        match arrayGet availablePositions randomIndex with
        | Some pos =>
            modify (fun g => set_allowedPositions (allowedPositions g ++ [pos]) g)
        | None => ret tt
        end ;;
        pickAllowed rounds' (delete (Z.to_nat randomIndex) availablePositions)
      else ret tt
  end.

Definition applySlipPenalty : M unit :=
  modify (set_allowedPositions []) ;;
  b <- gets board ;;
  pickAllowed 3 (emptyCells b).

(** [config.mode === PVE && currentPlayer !== config.playerColor] *)
Definition aiToMove (g : GomokuGame) : bool :=
  bool_decide (mode (config g) = PVE)
  && negb (bool_decide (currentPlayer g = playerColor (config g))).

(** [hasExtraMove = players.get(p)!.currentExtraMoves > 0] *)
Definition refreshHasExtraMove (p : Player) : M unit :=
  modify (fun g => set_hasExtraMove (0 <? currentExtraMoves (moveCountOf g p)) g).

Definition triggerItemEffect (t : ItemType) (p : Player) : M unit :=
  match t with
  | CHAOS_STRIKE => performChaosStrike p
  | PRECISE_STRIKE =>
      ai <- gets aiToMove ;;
      if ai then performPreciseStrikeForAI p
      else
        modify (set_gameSubState SELECTING_STRIKE_TARGET) ;;
        modify (set_preciseStrikePlayer (Some p)) ;;
        modify (fun g => set_preciseStrikeHasExtraMove (hasExtraMove g) g) ;;
        modify (set_hasExtraMove false)
  | ACCELERATED_MOVE =>
      addExtraMove p ACCELERATED_MOVE ;;
      cur <- gets currentPlayer ;;
      refreshHasExtraMove cur
  | STRATEGY_GUIDE =>
      originalCurrentPlayer <- gets currentPlayer ;;
      ai <- gets aiToMove ;;
      (if ai then addExtraMove p STRATEGY_GUIDE
       else showStrategyGuide p ;; addExtraMove p STRATEGY_GUIDE) ;;
      refreshHasExtraMove originalCurrentPlayer ;;
      modify (set_currentPlayer originalCurrentPlayer)
  | TOUGHEN_HEART => addContinuousEffect p TOUGHEN_HEART 1
  | SELF_MISTAKE => performSelfMistake p
  | OPPONENT_ACCELERATION => modify (set_nextPlayerHasExtraMove true)
  | SLIP_PENALTY => modify (set_nextPlayerHasSlipPenalty true)
  end.

(** *** Blind boxes *)

(** [boxes.findIndex(f)]; [None] is the answer -1. *)
Fixpoint findIndex {A} (f : A -> bool) (l : list A) : option nat :=
  match l with
  | [] => None
  | a :: l' => if f a then Some O else S <$> findIndex f l'
  end.

Definition unopenedAt (p : Position) (box : BlindBox) : bool :=
  negb (isOpened box) && samePos (boxPosition box) p.

Definition openBlindBoxAtPosition (p : Position) : M unit :=
  boxes <- gets blindBoxes ;;
  match findIndex (unopenedAt p) boxes with
  | None => ret tt
  | Some blindBoxIndex =>
      match boxes !! blindBoxIndex with
      | None => ret tt
      | Some blindBox =>
          modify (set_blindBoxes
            (<[blindBoxIndex :=
                 mkBlindBox (boxPosition blindBox) (itemType blindBox) true
                   (boxTimestamp blindBox)]> boxes)) ;;
          modify (set_lastItemUsed (Some (itemType blindBox))) ;;
          cur <- gets currentPlayer ;;
          triggerItemEffect (itemType blindBox) cur ;;
          sub <- gets gameSubState ;;
          when (bool_decide (sub = NORMAL))
            (modify (set_gameSubState SHOWING_ITEM_NAME) ;;
             h <- gets itemNameDisplayTimer ;;
             clearIfSet h ;;
             id <- liftR (setTimeout ItemNameExpire 1000) ;;
             modify (set_itemNameDisplayTimer (Some id)))
      end
  end.

Definition generateNewBlindBox : M unit :=
  g <- gets (fun g => g) ;;
  let availablePositions :=
    List.filter
      (fun pos =>
         Board.isEmpty (board g) pos
         && negb (existsb (unopenedAt pos) (blindBoxes g)))
      (scan (Board.getSize (board g))) in
  newBlindBox <- liftR (ItemSystem.generateBlindBox availablePositions (1 # 2)) ;;
  match newBlindBox with
  | Some box => modify (fun g => set_blindBoxes (blindBoxes g ++ [box]) g)
  | None => ret tt
  end.

(** *** Moves *)

(** [isAiCalculating = true; aiTimer = setTimeout(() => {...}, 500)] *)
Definition scheduleAiTurn : M unit :=
  modify (set_isAiCalculating true) ;;
  id <- liftR (setTimeout AiTurn 500) ;;
  modify (set_aiTimer (Some id)).

(** [this.board.placeStone(pos, pl)]: the board reads the clock when, and
    only when, it records the move. *)
Definition boardPlaceStone (pos : Position) (pl : Player) : M bool :=
  g <- gets (fun g => g) ;;
  let now := clockSrc (runtime g) (clockCalls (runtime g)) in
  let r := Board.placeStone (board g) pos pl now in
  if r.1 then liftR dateNow ;; modify (set_board r.2) ;; ret true
  else ret false.

(** [moveHistory.push({ position, player: currentPlayer, timestamp })] *)
Definition pushMoveHistory (pos : Position) : M unit :=
  now <- liftR dateNow ;;
  modify (fun g =>
    set_moveHistory (moveHistory g ++ [mkMove pos (currentPlayer g) now]) g).

Definition isFull (g : GomokuGame) : bool :=
  Z.of_nat (length (moveHistory g))
  =? Board.getSize (board g) * Board.getSize (board g).

(** [gameState = OVER; gameResult = result; notifyGameStateChange()] *)
Definition finish (result : GameResult) : M unit :=
  modify (set_gameState OVER) ;;
  modify (set_gameResult (Some result)) ;;
  notifyGameStateChange.

(** [extraMovesUsed++; currentExtraMoves--; hasExtraMove = ... > 0;
    validateMoveCountConsistency()] *)
Definition consumeExtraMove : M unit :=
  cur <- gets currentPlayer ;;
  updMoveCount cur incExtraMovesUsed ;;
  updMoveCount cur (fun mc => setCurrentExtraMoves (currentExtraMoves mc - 1) mc) ;;
  refreshHasExtraMove cur ;;
  _ <- validateMoveCountConsistency ;;
  ret tt.

(** [if (nextPlayerHasExtraMove) {...}] *)
Definition grantOpponentAcceleration : M unit :=
  next <- gets nextPlayerHasExtraMove ;;
  when next
    (cur <- gets currentPlayer ;;
     addExtraMove cur OPPONENT_ACCELERATION ;;
     modify (set_nextPlayerHasExtraMove false) ;;
     cur' <- gets currentPlayer ;;
     refreshHasExtraMove cur').

(** [if (nextPlayerHasSlipPenalty) {...}] *)
Definition imposeSlipPenalty : M unit :=
  next <- gets nextPlayerHasSlipPenalty ;;
  when next
    (applySlipPenalty ;;
     modify (set_gameSubState HAND_SLIP_PENALTY) ;;
     modify (set_nextPlayerHasSlipPenalty false)).

(** The branch of [makeMove] taken in SELECTING_STRIKE_TARGET: the call
    chooses the stone the precise strike removes. *)
Definition selectStrikeTarget (pos : Position) : M bool :=
  trigger <- gets preciseStrikePlayer ;;
  match trigger with
  | None => modify (set_gameSubState NORMAL) ;; ret false
  | Some triggerPlayer =>
      let opponent := other triggerPlayer in
      b <- gets board ;;
      if bool_decide (Board.getStone b pos = Some opponent) then
        effects <- gets activeEffects ;;
        (if hasToughenHeart (effectsOf effects opponent) then
           removeEffect opponent TOUGHEN_HEART ;;
           showNotification (ImmuneToPreciseStrike opponent) 3000
         else boardRemoveStone pos) ;;
        modify (set_gameSubState NORMAL) ;;
        modify (fun g => set_hasExtraMove (preciseStrikeHasExtraMove g) g) ;;
        modify (set_preciseStrikePlayer None) ;;
        modify (set_preciseStrikeHasExtraMove false) ;;
        extra <- gets hasExtraMove ;;
        when (negb extra)
          (modify (set_currentPlayer (other triggerPlayer)) ;;
           ai <- gets aiToMove ;;
           when ai scheduleAiTurn) ;;
        ret false
      else ret false
  end.

(** The part of [makeMove] after the win and draw checks. *)
Definition afterMove (pos : Position) : M bool :=
  allowed <- gets allowedPositions ;;
  let wasHandSlipPenaltyMove := existsb (fun a => samePos a pos) allowed in
  when (wasHandSlipPenaltyMove && (0 <? length allowed)%nat)
    (modify (set_allowedPositions []) ;;
     sub <- gets gameSubState ;;
     when (bool_decide (sub = HAND_SLIP_PENALTY))
       (modify (set_gameSubState NORMAL))) ;;
  sub <- gets gameSubState ;;
  when (bool_decide (sub = SHOWING_STRATEGY_GUIDE))
    (modify (set_gameSubState NORMAL) ;;
     modify (set_strategyGuidePositions [])) ;;
  openBlindBoxAtPosition pos ;;
  sub <- gets gameSubState ;;
  items <- gets (fun g => enableItems (config g)) ;;
  if negb (bool_decide (sub = NORMAL))
     && negb (bool_decide (sub = SHOWING_ITEM_NAME))
     && negb (bool_decide (sub = SHOWING_STRATEGY_GUIDE))
  then
    when items generateNewBlindBox ;;
    ret true
  else
    when items generateNewBlindBox ;;
    extra <- gets hasExtraMove ;;
    if extra then consumeExtraMove ;; ret true
    else
      cur <- gets currentPlayer ;;
      updMoveCount cur incOriginalMoveCount ;;
      modify (set_currentPlayer (other cur)) ;;
      modify (fun g =>
        let st := gameMoveCountState g in
        set_gameMoveCountState
          (mkGameMoveCountState (players st) (currentPlayer g)
             (currentMoveEventId st)) g) ;;
      grantOpponentAcceleration ;;
      imposeSlipPenalty ;;
      _ <- validateMoveCountConsistency ;;
      ai <- gets aiToMove ;;
      sub <- gets gameSubState ;;
      when (ai && (bool_decide (sub = NORMAL)
                   || bool_decide (sub = SHOWING_ITEM_NAME)
                   || bool_decide (sub = HAND_SLIP_PENALTY)))
        scheduleAiTurn ;;
      ret true.

(** The part of [makeMove] after the stone is on the board: the move is
    recorded and judged. *)
Definition settleMove (pos : Position) : M bool :=
  pushMoveHistory pos ;;
  extra <- gets hasExtraMove ;;
  (if extra then recordMoveEvent EXTRA_MOVE DescExtraMove None None
   else recordMoveEvent NORMAL_MOVE DescNormalMove None None) ;;
  g <- gets (fun g => g) ;;
  let result := checkWin (board g) pos (currentPlayer g) in
  if bool_decide (winner result <> None) then finish result ;; ret true
  else if isFull g then finish (mkGameResult None []) ;; ret true
  else afterMove pos.

Definition makeMove (pos : Position) : M bool :=
  st <- gets gameState ;;
  if negb (bool_decide (st = PLAYING)) then ret false
  else
    ai <- gets aiToMove ;;
    if ai then ret false
    else
      sub <- gets gameSubState ;;
      if bool_decide (sub = SELECTING_STRIKE_TARGET) then selectStrikeTarget pos
      else
        allowed <- gets allowedPositions ;;
        if (0 <? length allowed)%nat
           && negb (existsb (fun a => samePos a pos) allowed)
        then ret false
        else
          cur <- gets currentPlayer ;;
          placed <- boardPlaceStone pos cur ;;
          if negb placed then ret false else settleMove pos.

(** The choice of [makeAIMove]: [bestScore] starts at -Infinity ([None]) and
    [bestPosition] at the first candidate; a candidate replaces the best one
    when its score is strictly higher. *)
Definition better (score : Z) (bestScore : option Z) : bool :=
  match bestScore with None => true | Some s => s <? score end.

Definition chooseBest (g : GomokuGame) (first : Position)
    (availablePositions : list Position) : Position :=
  (fold_left
     (fun best pos =>
        let score := evaluatePosition g pos in
        if better score best.1 then (Some score, pos) else best)
     availablePositions (None, first)).2.

(** The candidates of [makeAIMove]: the allowed positions under a hand-slip
    penalty, else every empty cell in scan order. *)
Definition aiCandidates (g : GomokuGame) : list Position :=
  if bool_decide (gameSubState g = HAND_SLIP_PENALTY)
     && (0 <? length (allowedPositions g))%nat
  then allowedPositions g
  else emptyCells (board g).

(** The part of [makeAIMove] after the win and draw checks. *)
Definition afterAIMove (bestPosition : Position) : M unit :=
  sub <- gets gameSubState ;;
  when (bool_decide (sub = HAND_SLIP_PENALTY))
    (modify (set_gameSubState NORMAL) ;;
     modify (set_allowedPositions [])) ;;
  openBlindBoxAtPosition bestPosition ;;
  items <- gets (fun g => enableItems (config g)) ;;
  when items generateNewBlindBox ;;
  grantOpponentAcceleration ;;
  extra <- gets hasExtraMove ;;
  if extra then
    recordMoveEvent EXTRA_MOVE DescAIExtraMove None None ;;
    consumeExtraMove ;;
    _ <- liftR (setTimeout AiExtraTurn 500) ;;
    notifyGameStateChange
  else
    cur <- gets currentPlayer ;;
    modify (set_currentPlayer (other cur)) ;;
    notifyGameStateChange.

(** The part of [makeAIMove] that places the stone on [bestPosition] (the
    answer of [placeStone] is not looked at), records and judges it. *)
Definition settleAIMove (bestPosition : Position) : M unit :=
  cur <- gets currentPlayer ;;
  _ <- boardPlaceStone bestPosition cur ;;
  pushMoveHistory bestPosition ;;
  g <- gets (fun g => g) ;;
  let result := checkWin (board g) bestPosition (currentPlayer g) in
  if bool_decide (winner result <> None) then finish result
  else if isFull g then finish (mkGameResult None [])
  else afterAIMove bestPosition.

Definition makeAIMove : M unit :=
  st <- gets gameState ;;
  if negb (bool_decide (st = PLAYING)) then ret tt
  else
    imposeSlipPenalty ;;
    g <- gets (fun g => g) ;;
    match aiCandidates g with
    | [] => ret tt
    | first :: _ => settleAIMove (chooseBest g first (aiCandidates g))
    end.

(** *** Game control *)

(** [setConfig(partial)]: a field of the partial configuration is [None]
    when the caller left it out. *)
Record PartialConfig := mkPartialConfig {
  pMode : option GameMode;
  pPlayerColor : option Player;
  pDifficulty : option AIDifficulty;
  pEnableItems : option bool
}.

Definition setConfig (c : PartialConfig) : M unit :=
  modify (fun g =>
    set_config
      (mkGameConfig (default (mode (config g)) (pMode c))
         (default (playerColor (config g)) (pPlayerColor c))
         (default (difficulty (config g)) (pDifficulty c))
         (default (enableItems (config g)) (pEnableItems c))) g).

Definition startNewGame : M unit :=
  h <- gets aiTimer ;;
  when (truthy h) (clearIfSet h ;; modify (set_aiTimer None)) ;;
  modify (set_isAiCalculating false) ;;
  modify (set_blindBoxes []) ;;
  modify (set_playerItems ∅) ;;
  modify (set_activeEffects ∅) ;;
  modify (set_lastItemUsed None) ;;
  h' <- gets itemNameDisplayTimer ;;
  when (truthy h') (clearIfSet h' ;; modify (set_itemNameDisplayTimer None)) ;;
  modify (set_strategyGuidePositions []) ;;
  modify (set_gameSubState NORMAL) ;;
  modify (set_hasExtraMove false) ;;
  modify (set_nextPlayerHasExtraMove false) ;;
  modify (set_nextPlayerHasSlipPenalty false) ;;
  modify (set_allowedPositions []) ;;
  clearNotification ;;
  modify (set_preciseStrikePlayer None) ;;
  modify (set_preciseStrikeHasExtraMove false) ;;
  modify (fun g => set_gameMoveCountState (createGameMoveCountState g) g) ;;
  modify (fun g => set_playerItems (<[BLACK := []]> (playerItems g)) g) ;;
  modify (fun g => set_playerItems (<[WHITE := []]> (playerItems g)) g) ;;
  modify (fun g => set_activeEffects (<[BLACK := []]> (activeEffects g)) g) ;;
  modify (fun g => set_activeEffects (<[WHITE := []]> (activeEffects g)) g) ;;
  modify (fun g => set_board (Board.reset (board g)) g) ;;
  modify (set_currentPlayer BLACK) ;;
  modify (set_gameState PLAYING) ;;
  modify (set_gameResult None) ;;
  modify (set_moveHistory []) ;;
  cfg <- gets config ;;
  when (bool_decide (mode cfg = PVE) && bool_decide (playerColor cfg = WHITE))
    scheduleAiTurn.

(** [this.board.undoMove(); this.moveHistory.pop()] *)
Definition undoOne : M unit :=
  modify (fun g => set_board (Board.undoMove (board g)).2 g) ;;
  modify (fun g => set_moveHistory (removelast (moveHistory g)) g).

Definition undoMove : M bool :=
  g <- gets (fun g => g) ;;
  match last (moveHistory g) with
  | None => ret false
  | Some lastMove =>
      if bool_decide (gameState g = READY) then ret false
      else
        when (isAiCalculating g && truthy (aiTimer g))
          (clearIfSet (aiTimer g) ;;
           modify (set_aiTimer None) ;;
           modify (set_isAiCalculating false)) ;;
        (if bool_decide (mode (config g) = PVE) then
           let isComputerMove :=
             negb (bool_decide (player lastMove = playerColor (config g))) in
           (if isComputerMove && (2 <=? length (moveHistory g))%nat
            then undoOne ;; undoOne
            else undoOne) ;;
           modify (set_currentPlayer (playerColor (config g)))
         else
           undoOne ;;
           modify (fun g => set_currentPlayer (other (currentPlayer g)) g)) ;;
        modify (set_gameState PLAYING) ;;
        modify (set_gameResult None) ;;
        modify (set_gameSubState NORMAL) ;;
        modify (set_strategyGuidePositions []) ;;
        modify (set_allowedPositions []) ;;
        modify (set_preciseStrikePlayer None) ;;
        modify (set_preciseStrikeHasExtraMove false) ;;
        ret true
  end.

Definition restart : M unit := startNewGame.

Definition pause : M unit :=
  st <- gets gameState ;;
  when (bool_decide (st = PLAYING)) (modify (set_gameState PAUSED)).

Definition resume : M unit :=
  st <- gets gameState ;;
  when (bool_decide (st = PAUSED)) (modify (set_gameState PLAYING)).

Definition setBoardSize (n : Z) : M unit :=
  h <- gets aiTimer ;;
  when (truthy h) (clearIfSet h ;; modify (set_aiTimer None)) ;;
  modify (set_isAiCalculating false) ;;
  modify (set_board (Board.new n)) ;;
  startNewGame ;;
  notifyGameStateChange.

(** A registered callback is known by its identity. *)
Definition onGameStateChange (cb : nat) : M unit :=
  modify (fun g =>
    set_gameStateChangeCallbacks (gameStateChangeCallbacks g ++ [cb]) g).

Definition offGameStateChange (cb : nat) : M unit :=
  modify (fun g =>
    set_gameStateChangeCallbacks
      (List.filter (fun c => negb (Nat.eqb c cb)) (gameStateChangeCallbacks g))
      g).

(** *** Further getters of the engine *)

(** [getPreciseStrikeOpponent()]: the colour whose stone is to be chosen,
    while a strike target is being selected. *)
Definition getPreciseStrikeOpponent (g : GomokuGame) : option Player :=
  if bool_decide (gameSubState g = SELECTING_STRIKE_TARGET)
     && match preciseStrikePlayer g with Some _ => true | None => false end
  then option_map other (preciseStrikePlayer g)
  else None.

(** *** The engine as a transition system *)

(** What the callback of a timer does. *)
Definition runTimer (a : TimerAction) : M unit :=
  match a with
  | AiTurn =>
      modify (set_isAiCalculating false) ;;
      modify (set_aiTimer None) ;;
      makeAIMove
  | AiExtraTurn => makeAIMove
  | ItemNameExpire =>
      sub <- gets gameSubState ;;
      when (bool_decide (sub = SHOWING_ITEM_NAME))
        (modify (set_gameSubState NORMAL)) ;;
      modify (set_itemNameDisplayTimer None)
  | NotificationExpire => clearNotification
  end.

(** A pending timer fires: it leaves the table and its callback runs. *)
Definition fire (t : Timer) : M unit :=
  liftR (clearTimeout (timerId t)) ;;
  runTimer (action t).

(** The calls a user of the class can make, and the firing of a timer. *)
Inductive Event :=
  | CallSetConfig (c : PartialConfig)
  | CallStartNewGame
  | CallMakeMove (pos : Position)
  | CallUndoMove
  | CallRestart
  | CallPause
  | CallResume
  | CallSetBoardSize (fifteen : bool)
  | CallOnGameStateChange (cb : nat)
  | CallOffGameStateChange (cb : nat)
  | Fire (t : Timer).

Definition handle (e : Event) : M unit :=
  match e with
  | CallSetConfig c => setConfig c
  | CallStartNewGame => startNewGame
  | CallMakeMove pos => _ <- makeMove pos ;; ret tt
  | CallUndoMove => _ <- undoMove ;; ret tt
  | CallRestart => restart
  | CallPause => pause
  | CallResume => resume
  | CallSetBoardSize fifteen => setBoardSize (if fifteen then 15 else 19)
  | CallOnGameStateChange cb => onGameStateChange cb
  | CallOffGameStateChange cb => offGameStateChange cb
  | Fire t => fire t
  end.

(** A timer can only fire while it is pending. *)
Definition enabled (e : Event) (g : GomokuGame) : Prop :=
  match e with
  | Fire t => t ∈ timers (runtime g)
  | _ => True
  end.

(** The states of an engine created with [new GomokuGame(15 | 19)] and
    driven by calls and timers. *)
Inductive reachable : GomokuGame -> Prop :=
  | reachable_new (fifteen : bool) (rt : Runtime) :
      timers rt = [] ->
      reachable (newGame (if fifteen then 15 else 19) rt)
  | reachable_step (g : GomokuGame) (e : Event) :
      reachable g -> enabled e g -> reachable (handle e g).2.

(** Runs a list of events from a state. *)
Definition runEvents (es : list Event) (g : GomokuGame) : GomokuGame :=
  fold_left (fun g e => (handle e g).2) es g.

(** * Specification-level definitions *)

(** The cell [k] steps from [p] along the axis [(dx, dy)]. *)
Definition onAxis (p : Position) (dx dy k : Z) : Position :=
  Position.mk (Position.x p + k * dx) (Position.y p + k * dy).

(** The cell [q] is on the board and holds a stone of [pl]. *)
Definition holds (b : Board.t) (pl : Player) (q : Position) : Prop :=
  Board.isValidPosition b q = true /\ Board.getStone b q = Some pl.

(** [line] is the maximal contiguous run of stones of [pl] through [p] along
    the axis [(dx, dy)]: the cells from [j] steps behind [p] to [i] steps
    ahead, all of [pl], with no stone of [pl] on the board right beyond
    either end. *)
Definition maximalRun (b : Board.t) (pl : Player) (p : Position) (dx dy : Z)
    (line : list Position) : Prop :=
  exists i j : Z,
    0 <= i /\ 0 <= j
    /\ line = map (onAxis p dx dy) (seqZ (- j) (j + i + 1))
    /\ (forall k, - j <= k <= i -> holds b pl (onAxis p dx dy k))
    /\ ~ holds b pl (onAxis p dx dy (i + 1))
    /\ ~ holds b pl (onAxis p dx dy (- j - 1)).

(** What it takes for [makeMove] to place the stone: the game is being
    played, it is the caller's turn, no strike target is being selected,
    [pos] is allowed and empty. *)
Definition accepts (g : GomokuGame) (pos : Position) : Prop :=
  gameState g = PLAYING
  /\ aiToMove g = false
  /\ gameSubState g <> SELECTING_STRIKE_TARGET
  /\ (allowedPositions g = []
      \/ existsb (fun a => samePos a pos) (allowedPositions g) = true)
  /\ Board.isEmpty (board g) pos = true.

(** The board once [pl] has put a stone on the cell [pos], at time [now]. *)
Definition withStone (b : Board.t) (pos : Position) (pl : Player) (now : Z)
  : Board.t :=
  (Board.placeStone b pos pl now).2.

(** The value [Date.now()] returns next. *)
Definition nextNow (g : GomokuGame) : Z :=
  clockSrc (runtime g) (clockCalls (runtime g)).

(** The cell [makeAIMove] plays in the state [g], if it plays. *)
Definition aiChoice (g : GomokuGame) : option Position :=
  let g1 := (imposeSlipPenalty g).2 in
  match aiCandidates g1 with
  | [] => None
  | first :: _ => Some (chooseBest g1 first (aiCandidates g1))
  end.

(** Some axis through [pos] carries five or more stones of [pl]. *)
Definition fiveThrough (b : Board.t) (pos : Position) (pl : Player) : Prop :=
  exists d, In d directions
            /\ (5 <= length (checkDirection b pos pl d.1 d.2))%nat.

(** [result] names [pl] as the winner, with the maximal run through [pos]
    along one of the four axes, of length five or more, as winning line. *)
Definition winsWith (b : Board.t) (pos : Position) (pl : Player)
    (result : option GameResult) : Prop :=
  exists line d,
    result = Some (mkGameResult (Some pl) line)
    /\ In d directions
    /\ (5 <= length line)%nat
    /\ maximalRun b pl pos d.1 d.2 line.

Definition quietRuntime : Runtime :=
  mkRuntime (fun _ => 0%Q) 0 (fun n => Z.of_nat n) 0 [] 1 0.

(** A game between two players without items in which BLACK holds
    (0,0), (0,1), (0,2) and (0,3) and is to move. *)
Definition fourInColumn : GomokuGame :=
  runEvents
    (CallSetConfig (mkPartialConfig None None None (Some false))
     :: CallStartNewGame
     :: map (fun xy => CallMakeMove (Position.mk xy.1 xy.2))
          [(0, 0); (5, 5); (0, 1); (6, 5); (0, 2); (7, 5); (0, 3); (10, 10)])
    (newGame 15 quietRuntime).

(** [a] comes before [b] in the scan [for y: for x]. *)
Definition rowMajorBefore (a b : Position) : Prop :=
  Position.y a < Position.y b
  \/ (Position.y a = Position.y b /\ Position.x a < Position.x b).

(** [best] is the first of the candidates [l] with the highest score. *)
Definition firstBest (score : Position -> Z) (l : list Position)
    (best : Position) : Prop :=
  exists l1 l2,
    l = l1 ++ best :: l2
    /\ (forall c, In c l1 -> score c < score best)
    /\ (forall c, In c l2 -> score c <= score best).

(** A view [f] of the state is stable when it reads none of the fields the
    item and timer bookkeeping writes. *)
Record Stable {X} (f : GomokuGame -> X) : Prop := {
  st_runtime : forall v g, f (set_runtime v g) = f g;
  st_notification : forall v g, f (set_notification v g) = f g;
  st_notificationTimer : forall v g, f (set_notificationTimer v g) = f g;
  st_playerItems : forall v g, f (set_playerItems v g) = f g;
  st_activeEffects : forall v g, f (set_activeEffects v g) = f g;
  st_blindBoxes : forall v g, f (set_blindBoxes v g) = f g;
  st_lastItemUsed : forall v g, f (set_lastItemUsed v g) = f g;
  st_itemNameDisplayTimer : forall v g, f (set_itemNameDisplayTimer v g) = f g;
  st_isAiCalculating : forall v g, f (set_isAiCalculating v g) = f g;
  st_aiTimer : forall v g, f (set_aiTimer v g) = f g;
  st_strategyGuidePositions :
    forall v g, f (set_strategyGuidePositions v g) = f g;
  st_preciseStrikeHasExtraMove :
    forall v g, f (set_preciseStrikeHasExtraMove v g) = f g;
  st_nextPlayerHasExtraMove :
    forall v g, f (set_nextPlayerHasExtraMove v g) = f g;
  st_nextPlayerHasSlipPenalty :
    forall v g, f (set_nextPlayerHasSlipPenalty v g) = f g;
  st_hasExtraMove : forall v g, f (set_hasExtraMove v g) = f g
}.

(** A view that the removal of a stone does not change. *)
Definition Unmoved {X} (f : GomokuGame -> X) : Prop :=
  forall pos g, f (set_board (Board.removeStone (board g) pos).2 g) = f g.

(** A stable view that does not read the move counts either. *)
Record Quiet {X} (f : GomokuGame -> X) : Prop := {
  q_stable : Stable f;
  q_moveCount : forall v g, f (set_gameMoveCountState v g) = f g
}.

(** A view that does not read whose turn it is, the sub-state, the pending
    strike or the hand-slip restriction. *)
Record Deep {X} (f : GomokuGame -> X) : Prop := {
  d_currentPlayer : forall v g, f (set_currentPlayer v g) = f g;
  d_gameSubState : forall v g, f (set_gameSubState v g) = f g;
  d_preciseStrikePlayer : forall v g, f (set_preciseStrikePlayer v g) = f g;
  d_allowedPositions : forall v g, f (set_allowedPositions v g) = f g
}.

(** The sub-state, the pending strike and the hand-slip restriction. *)
Definition ctl (g : GomokuGame)
  : GameSubState * option Player * list Position :=
  (gameSubState g, preciseStrikePlayer g, allowedPositions g).

(** The stack of moves of the board. *)
Definition stack (g : GomokuGame) : list Move := Board.moves (board g).

(** The command [c] leaves the view [f] unchanged. *)
Definition frames {X A} (f : GomokuGame -> X) (c : M A) : Prop :=
  forall g, f (c g).2 = f g.

(** The extra-move bookkeeping of [p] adds up. *)
Definition consistent (mc : PlayerMoveCount) : Prop :=
  currentExtraMoves mc = extraMovesEarned mc - extraMovesUsed mc.

Definition countsConsistent (st : GameMoveCountState) : Prop :=
  forall p, consistent (pmGet (players st) p).

Definition moveCountsConsistent (g : GomokuGame) : Prop :=
  countsConsistent (gameMoveCountState g).

(** While a strike target is being selected, the player who triggered the
    strike is known. *)
Definition strikeKnown (g : GomokuGame) : Prop :=
  gameSubState g = SELECTING_STRIKE_TARGET -> preciseStrikePlayer g <> None.

(** A hand-slip restriction is only in force in the sub-state
    HAND_SLIP_PENALTY. *)
Definition slipInForce (g : GomokuGame) : Prop :=
  allowedPositions g <> [] -> gameSubState g = HAND_SLIP_PENALTY.

(** [c] takes states that satisfy [P] to states that satisfy [Q]. *)
Definition hoare {A} (P : GomokuGame -> Prop) (c : M A)
    (Q : GomokuGame -> Prop) : Prop :=
  forall g, P g -> Q (c g).2.

(** The two facts about the sub-state that hold between calls. *)
Definition subStateSound (g : GomokuGame) : Prop :=
  strikeKnown g /\ slipInForce g.

(** The same with no hand-slip restriction in force, as it is while a
    placed stone is being settled. *)
Definition unrestricted (g : GomokuGame) : Prop :=
  strikeKnown g /\ allowedPositions g = [].

(** Every stone of the board [b'] is a stone of [b]. *)
Definition noNewStone (b b' : Board.t) : Prop :=
  forall q pl, Board.getStone b' q = Some pl -> Board.getStone b q = Some pl.

(** The sub-state is NORMAL and no restriction is in force: what
    [startNewGame] and [undoMove] set up. *)
Definition settled (g : GomokuGame) : Prop :=
  gameSubState g = NORMAL /\ allowedPositions g = [].

(** [pos] passes the hand-slip test of [makeMove]. *)
Definition passes (pos : Position) (g : GomokuGame) : Prop :=
  (0 <? length (allowedPositions g))%nat
  && negb (existsb (fun a => samePos a pos) (allowedPositions g)) = false.

(** *** Scripted games *)

(** A runtime whose [Math.random()] answers with the numbers of [rs], then
    with 0, and whose clock ticks once per reading. *)
Definition scripted (rs : list Q) : Runtime :=
  mkRuntime (fun i => nth i rs 0%Q) 0 (fun n => Z.of_nat n) 0 [] 1 0.

Definition sameTimer (t u : Timer) : bool :=
  Nat.eqb (timerId t) (timerId u) && (delay t =? delay u)
  && match action t, action u with
     | AiTurn, AiTurn | AiExtraTurn, AiExtraTurn
     | ItemNameExpire, ItemNameExpire
     | NotificationExpire, NotificationExpire => true
     | _, _ => false
     end.

(** Runs the events in order; [None] when a timer is fired that is not
    pending. *)
Fixpoint play (es : list Event) (g : GomokuGame) : option GomokuGame :=
  match es with
  | [] => Some g
  | e :: es' =>
      let ok :=
        match e with
        | Fire t => existsb (sameTimer t) (timers (runtime g))
        | _ => true
        end in
      if ok then play es' (handle e g).2 else None
  end.

Definition P := Position.mk.

(** Two players, items on. WHITE opens two TOUGHEN_HEART boxes, at (0,0)
    and (1,0); BLACK is about to open a CHAOS_STRIKE box at (2,0). *)
Definition shieldMoves : list Event :=
  [CallStartNewGame; CallMakeMove (P 7 7); CallMakeMove (P 0 0);
   CallMakeMove (P 7 8); CallMakeMove (P 1 0)].

Definition shieldDraws : Runtime :=
  scripted [0; 0; 0; 3 # 4; 0; 0; 0; 3 # 4]%Q.

Abbreviation twoShields := (play shieldMoves (newGame 15 shieldDraws)).

(** Human (BLACK) against the AI. BLACK plays (7,7), the AI answers, BLACK
    opens a SLIP_PENALTY box at (10,10): the AI is restricted to (0,1),
    (1,0) and (0,0), drawn in this order, and its timer is pending. *)
Definition slipMoves : list Event :=
  [CallSetConfig (mkPartialConfig (Some PVE) None None None);
   CallStartNewGame; CallMakeMove (P 7 7); Fire (mkTimer 1 500 AiTurn);
   CallMakeMove (P 10 10)].

Definition slipDraws : Runtime :=
  scripted [0; 319 # 448; 0; 9 # 10; 0; 0; 0; 0; 0; 0; 0;
            31 # 444; 3 # 442; 0]%Q.

Abbreviation slippedAI := (play slipMoves (newGame 15 slipDraws)).

(** The colouring [((x + 2y) / 2) mod 2] of the board has no five cells of
    one colour in a row. *)
Definition drawColour (p : Position) : bool :=
  Z.even ((Position.x p + 2 * Position.y p) / 2).

Fixpoint interleave {A} (l1 l2 : list A) : list A :=
  match l1, l2 with
  | a :: l1', b :: l2' => a :: b :: interleave l1' l2'
  | _, [] => l1
  | [], _ => l2
  end.

(** A runtime whose [Math.random()] answers 9/10 at its 225th call, and 0
    at every other. *)
Definition lateBox : Runtime :=
  mkRuntime (fun i => if Nat.eqb i 224 then 9 # 10 else 0)%Q 0
    (fun n => Z.of_nat n) 0 [] 1 0.

(** Two players fill a 15 x 15 board along [drawColour], without items,
    except for the first four cells of the top row. Items are then switched
    on: WHITE plays (3,0), a SLIP_PENALTY box appears at (0,0), BLACK opens
    it. *)
Definition fillBoard : list Event :=
  let rest :=
    List.filter (fun p => negb ((Position.y p =? 0) && (Position.x p <? 4)))
      (scan 15) in
  let blacks := List.filter drawColour rest in
  let whites := List.filter (fun p => negb (drawColour p)) rest in
  [CallSetConfig (mkPartialConfig None None None (Some false));
   CallStartNewGame]
  ++ map CallMakeMove (interleave blacks whites)
  ++ [CallSetConfig (mkPartialConfig None None None (Some true));
      CallMakeMove (P 3 0); CallMakeMove (P 0 0)].

(** The state after [fillBoard]: WHITE is restricted with two cells left on
    the board. *)
Abbreviation nearlyFull := (play fillBoard (newGame 15 lateBox)).

(** Two players, items on. A PRECISE_STRIKE box appears at (0,0) after
    BLACK's first move and WHITE opens it: WHITE is to choose the BLACK
    stone to remove. *)
Definition strikeMoves : list Event :=
  [CallStartNewGame; CallMakeMove (P 7 7); CallMakeMove (P 0 0)].

Definition strikeDraws : Runtime := scripted [0; 0; 0; 1 # 4]%Q.

Abbreviation selecting := (play strikeMoves (newGame 15 strikeDraws)).

(** Two players, items on. An OPPONENT_ACCELERATION box appears at (0,0)
    after BLACK's first move and WHITE opens it: BLACK is granted an extra
    move and is to play. *)
Definition boostMoves : list Event :=
  [CallStartNewGame; CallMakeMove (P 7 7); CallMakeMove (P 0 0)].

Definition boostDraws : Runtime := scripted [0; 0; 1 # 2; 1 # 2]%Q.

Abbreviation boosted := (play boostMoves (newGame 15 boostDraws)).

(** BLACK has then played the extra move, at (5,5). *)
Definition spendMoves : list Event := boostMoves ++ [CallMakeMove (P 5 5)].

Abbreviation boostSpent := (play spendMoves (newGame 15 boostDraws)).

(** A runtime whose first answer times 6 falls half way between two
    doubles (see [floorMul_tie]); the next two answers choose
    TOUGHEN_HEART. *)
Definition tieDraw : Runtime :=
  scripted [3752999689475413 # 4503599627370496; 0; 3 # 4]%Q.

(** [e] is not a TOUGHEN_HEART effect. *)
Definition notToughenHeart (e : PlayerItem) : bool :=
  negb (bool_decide (piItemType e = TOUGHEN_HEART)).

(** ** Further specification-level definitions *)

(** The calls that change a board. *)
Inductive BoardOp :=
  | OpPlace (p : Position) (pl : Player) (now : Z)
  | OpUndo
  | OpRemove (p : Position)
  | OpReset.

Definition applyOp (b : Board.t) (op : BoardOp) : Board.t :=
  match op with
  | OpPlace p pl now => (Board.placeStone b p pl now).2
  | OpUndo => (Board.undoMove b).2
  | OpRemove p => (Board.removeStone b p).2
  | OpReset => Board.reset b
  end.

Definition applyOps (b : Board.t) (ops : list BoardOp) : Board.t :=
  fold_left applyOp ops b.

(** Every stone of the board has its move on the stack. *)
Definition recorded (b : Board.t) : Prop :=
  forall p pl,
    Board.getStone b p = Some pl ->
    exists m, m ∈ Board.moves b /\ position m = p /\ player m = pl.

(** A result is on record exactly when the game is over. *)
Definition resultWhenOver (g : GomokuGame) : Prop :=
  gameResult g <> None <-> gameState g = OVER.

(** The positions of the boxes that have not been opened. *)
Definition unopenedPositions (boxes : list BlindBox) : list Position :=
  map boxPosition (List.filter (fun box => negb (isOpened box)) boxes).

(** The unopened boxes sit on cells of a board of side [n], no two of them
    on the same cell. *)
Definition boxesOk (v : Z * list BlindBox) : Prop :=
  NoDup (unopenedPositions v.2)
  /\ Forall (fun p => 0 <= Position.x p < v.1 /\ 0 <= Position.y p < v.1)
       (unopenedPositions v.2).

Definition boxesApart (g : GomokuGame) : Prop :=
  boxesOk (Board.size (board g), blindBoxes g).

(** The positions and players of a list of moves, without the timestamps. *)
Definition plays (ms : list Move) : list (Position * Player) :=
  map (fun m => (position m, player m)) ms.

(** The parts of the board and of the history that a removal of a stone
    leaves alone. *)
Definition outline (g : GomokuGame)
  : Z * list nat * list Move * list Move :=
  (Board.size (board g), map length (Board.grid (board g)),
   Board.moves (board g), moveHistory g).

(** The board is a grid of side 15 or 19, and the engine's move history
    lists the moves of the board's stack. *)
Definition boardSound (g : GomokuGame) : Prop :=
  Board.wf (board g)
  /\ (Board.size (board g) = 15 \/ Board.size (board g) = 19)
  /\ plays (moveHistory g) = plays (Board.moves (board g)).

(** Every position of the hand-slip restriction is an empty cell. *)
Definition allowedFree (g : GomokuGame) : Prop :=
  Forall (fun p => Board.isEmpty (board g) p = true) (allowedPositions g).

Definition boardInv (g : GomokuGame) : Prop :=
  boardSound g /\ (gameState g <> OVER -> allowedFree g).

(** The grid has its shape and the allowed positions are empty cells. *)
Definition freeCells (g : GomokuGame) : Prop :=
  Board.wf (board g) /\ allowedFree g.

(** The stone is on the board and its move is about to enter the history. *)
Definition placed (pos : Position) (g : GomokuGame) : Prop :=
  Board.wf (board g)
  /\ (Board.size (board g) = 15 \/ Board.size (board g) = 19)
  /\ plays (moveHistory g) ++ [(pos, currentPlayer g)]
     = plays (Board.moves (board g)).

(** The board [b] backs the result [r]: the winning line of a win is a
    maximal run of five or more stones of the winner along one of the four
    axes; a draw has an empty line. *)
Definition backedBy (b : Board.t) (r : GameResult) : Prop :=
  match winner r with
  | Some w =>
      exists p d, In d directions /\ (5 <= length (winningLine r))%nat
                  /\ maximalRun b w p d.1 d.2 (winningLine r)
  | None => winningLine r = []
  end.

Definition winBacked (g : GomokuGame) : Prop :=
  forall r, gameResult g = Some r -> backedBy (board g) r.

(** The stone just placed on [pos] awaits its verdict. *)
Definition awaiting (pos : Position)
    (v : Board.t * Player * option GameResult) : Prop :=
  holds v.1.1 v.1.2 pos /\ v.2 = None.

Definition verdictView (g : GomokuGame)
  : Board.t * Player * option GameResult :=
  (board g, currentPlayer g, gameResult g).

(** The board is well formed and every stone on it has its move on the
    board's stack. *)
Definition boardRecorded (g : GomokuGame) : Prop :=
  Board.wf (board g) /\ recorded (board g).

(** A game without items under way: nothing of the item system is
    pending. *)
Definition plain (g : GomokuGame) : Prop :=
  enableItems (config g) = false /\ blindBoxes g = []
  /\ gameSubState g = NORMAL /\ hasExtraMove g = false
  /\ nextPlayerHasExtraMove g = false /\ nextPlayerHasSlipPenalty g = false
  /\ allowedPositions g = [].

(** The fields that recording a move leaves alone. *)
Definition besidesRecord (g : GomokuGame) :=
  (board g, currentPlayer g, gameState g, gameResult g, config g,
   (blindBoxes g, gameSubState g, hasExtraMove g, nextPlayerHasExtraMove g,
    nextPlayerHasSlipPenalty g, allowedPositions g),
   (isAiCalculating g, aiTimer g)).

(** A game against the computer without items: the human (BLACK) has
    played (7,7) and the computer's move is scheduled. *)
Definition humanOpened : GomokuGame :=
  runEvents
    [CallSetConfig (mkPartialConfig (Some PVE) None None (Some false));
     CallStartNewGame; CallMakeMove (P 7 7)]
    (newGame 15 quietRuntime).

(** Two players fill a 15 x 15 board along [drawColour], without items,
    up to the last cell, (13,14), which is BLACK's to play. *)
Definition lastCellMoves : list Event :=
  let blacks := List.filter drawColour (scan 15) in
  let whites := List.filter (fun p => negb (drawColour p)) (scan 15) in
  [CallSetConfig (mkPartialConfig None None None (Some false));
   CallStartNewGame]
  ++ map CallMakeMove (removelast (interleave blacks whites)).

Definition oneCellLeft : GomokuGame :=
  runEvents lastCellMoves (newGame 15 quietRuntime).

(** The pending timers once [clearTimeout] was called on the handle [h],
    where [if (h)] let it be called. *)
Definition cancelled (h : option nat) (ts : list Timer) : list Timer :=
  match h with
  | Some id =>
      if truthy h then List.filter (fun t => negb (Nat.eqb (timerId t) id)) ts
      else ts
  | None => ts
  end.

(** The score [showStrategyGuide] gives a cell for the player [p]. *)
Definition guideScore (g : GomokuGame) (p : Player) (q : Position) : Z :=
  evaluatePosition (set_currentPlayer p g) q.

(** [a] does not score lower than [b]. *)
Definition scoresNoLower (a b : Position * Z) : Prop := b.2 <= a.2.
(** The side of the board and the number of moves in the history. *)
Definition roomView (g : GomokuGame) : Z * nat :=
  (Board.getSize (board g), length (moveHistory g)).

(** The history has at most as many moves as the board has cells, or
    fewer. *)
Definition fitsLoosely (v : Z * nat) : Prop :=
  0 < v.1 /\ Z.of_nat v.2 <= v.1 * v.1.

Definition fitsStrictly (v : Z * nat) : Prop :=
  0 < v.1 /\ Z.of_nat v.2 < v.1 * v.1.

Definition historyFits (g : GomokuGame) : Prop :=
  fitsLoosely (roomView g)
  /\ (gameState g <> OVER -> fitsStrictly (roomView g)).

(** * Board *)
Section BoardFacts.
Implicit Types (b : Board.t) (p q : Position) (g : list (list (option Player))).

Lemma cell_setCell_eq g p c v :
  Board.cell g p = Some c -> Board.cell (Board.setCell g p v) p = Some v.
Proof.
  unfold Board.cell, Board.setCell. intros H.
  destruct (g !! Z.to_nat (Position.y p)) as [row|] eqn:Hrow; [|done].
  simpl in H. rewrite list_lookup_alter_eq, Hrow. simpl.
  apply list_lookup_insert_eq. by eapply lookup_lt_Some.
Qed.

Lemma setCell_restore g p c v :
  Board.cell g p = Some c -> Board.setCell (Board.setCell g p v) p c = g.
Proof.
  unfold Board.cell, Board.setCell. intros H.
  destruct (g !! Z.to_nat (Position.y p)) as [row|] eqn:Hrow; [|done].
  simpl in H.
  rewrite list_alter_alter_eq.
  apply list_eq. intros i.
  destruct (decide (i = Z.to_nat (Position.y p))) as [->|Hne].
  - rewrite list_lookup_alter_eq, Hrow. simpl. f_equal.
    rewrite list_insert_insert_eq. by apply list_insert_id.
  - by rewrite list_lookup_alter_ne.
Qed.

Lemma cell_setCell_ne g p q v :
  0 <= Position.x p -> 0 <= Position.y p ->
  0 <= Position.x q -> 0 <= Position.y q -> p <> q ->
  Board.cell (Board.setCell g p v) q = Board.cell g q.
Proof.
  unfold Board.cell, Board.setCell. intros ? ? ? ? Hne.
  destruct (decide (Z.to_nat (Position.y p) = Z.to_nat (Position.y q)))
    as [Hy|Hy].
  - rewrite <- Hy, list_lookup_alter_eq.
    destruct (g !! Z.to_nat (Position.y p)) as [row|]; [|done]. simpl.
    apply list_lookup_insert_ne. intros Hx. apply Hne.
    destruct p, q; simpl in *. f_equal; lia.
  - by rewrite list_lookup_alter_ne.
Qed.

Lemma valid_bounds b p :
  Board.isValidPosition b p = true <->
  0 <= Position.x p < Board.size b /\ 0 <= Position.y p < Board.size b.
Proof. unfold Board.isValidPosition. lia. Qed.

Lemma isEmpty_cell b p :
  Board.isEmpty b p = true <->
  Board.isValidPosition b p = true /\ Board.cell (Board.grid b) p = Some None.
Proof.
  unfold Board.isEmpty. destruct (Board.isValidPosition b p); simpl.
  - rewrite bool_decide_eq_true. tauto.
  - split; [done|]. by intros [? _].
Qed.

Lemma placeStone_undoMove b p pl now b' :
  Board.placeStone b p pl now = (true, b') ->
  Board.undoMove b' = (Some (mkMove p pl now), b).
Proof.
  unfold Board.placeStone. destruct (Board.isEmpty b p) eqn:He; [|done].
  simpl. intros [= <-]. apply isEmpty_cell in He as [_ Hc].
  unfold Board.undoMove. simpl. rewrite last_snoc, removelast_last. simpl.
  rewrite (setCell_restore _ _ _ _ Hc). by destruct b.
Qed.

Lemma placeAll_app b ms ms' :
  Board.placeAll b (ms ++ ms') =
  if (Board.placeAll b ms).1 then Board.placeAll (Board.placeAll b ms).2 ms'
  else Board.placeAll b ms.
Proof.
  revert b. induction ms as [|m ms IH]; intros b; simpl; [done|].
  destruct (Board.placeStone b (position m) (player m) (timestamp m)) as [[] b1];
    simpl; [apply IH|done].
Qed.

Lemma getStone_cell b p :
  Board.isValidPosition b p = true ->
  forall c, Board.cell (Board.grid b) p = Some c -> Board.getStone b p = c.
Proof. unfold Board.getStone. by intros -> c ->. Qed.

Lemma wf_cell b p :
  Board.wf b -> Board.isValidPosition b p = true ->
  exists c, Board.cell (Board.grid b) p = Some c.
Proof.
  intros [? Hr Hc _] Hv%valid_bounds. unfold Board.cell.
  destruct (lookup_lt_is_Some_2 (Board.grid b) (Z.to_nat (Position.y p)))
    as [row Hrow]; [lia|].
  rewrite Hrow. simpl. apply lookup_lt_is_Some_2.
  rewrite Forall_forall in Hc. rewrite (Hc row); [lia|].
  by eapply list_elem_of_lookup_2.
Qed.

Lemma getStone_setCell_eq b p v :
  Board.wf b -> Board.isValidPosition b p = true ->
  Board.getStone (Board.mk (Board.size b) (Board.setCell (Board.grid b) p v)
                    (Board.moves b)) p = v.
Proof.
  intros Hwf Hv. destruct (wf_cell b p Hwf Hv) as [c Hc].
  unfold Board.getStone, Board.isValidPosition in *. simpl. rewrite Hv. simpl.
  by rewrite (cell_setCell_eq _ _ _ _ Hc).
Qed.

Lemma getStone_setCell_ne b p q v ms :
  Board.isValidPosition b p = true -> p <> q ->
  Board.getStone (Board.mk (Board.size b) (Board.setCell (Board.grid b) p v) ms) q
  = Board.getStone b q.
Proof.
  intros Hp Hne. unfold Board.getStone.
  change (Board.isValidPosition (Board.mk _ _ _) q)
    with (Board.isValidPosition b q).
  destruct (Board.isValidPosition b q) eqn:Hq; [|done]. simpl.
  apply valid_bounds in Hp, Hq.
  rewrite cell_setCell_ne; [done|lia..|done].
Qed.
End BoardFacts.

(** C7: on a board reached from [new Board(n)] by successful [placeStone]
    calls only, [undoMove] returns the last move placed, and the board it
    leaves is the board as it was before that placement, grid and move stack
    alike; on an empty move stack it returns nothing and changes nothing. *)
Theorem undoMove_restores_previous_board :
  (forall (n : Z) (ms : list Move) (m : Move) (bN : Board.t),
     Board.placeAll (Board.new n) (ms ++ [m]) = (true, bN) ->
     exists b, Board.placeAll (Board.new n) ms = (true, b)
               /\ Board.undoMove bN = (Some m, b))
  /\ (forall b : Board.t, Board.moves b = [] -> Board.undoMove b = (None, b)).
Proof.
  split.
  - intros n ms m bN. rewrite placeAll_app.
    destruct (Board.placeAll (Board.new n) ms) as [[] b] eqn:Hb; simpl; [|done].
    destruct (Board.placeStone b (position m) (player m) (timestamp m))
      as [[] b1] eqn:Hp; simpl; [|done].
    intros [= <-]. exists b. split; [done|].
    apply placeStone_undoMove in Hp. by destruct m.
  - intros b Hb. unfold Board.undoMove. by rewrite Hb.
Qed.

Lemma undoMove_restores_previous_board_witness :
  exists b,
    Board.placeAll (Board.new 15) [mkMove (Position.mk 7 7) BLACK 1] = (true, b)
    /\ Board.undoMove
         (Board.placeAll (Board.new 15)
            ([mkMove (Position.mk 7 7) BLACK 1] ++ [mkMove (Position.mk 7 8) WHITE 2])).2
       = (Some (mkMove (Position.mk 7 8) WHITE 2), b).
Proof.
  apply (proj1 undoMove_restores_previous_board 15
           [mkMove (Position.mk 7 7) BLACK 1] (mkMove (Position.mk 7 8) WHITE 2)).
  vm_compute. reflexivity.
Defined.

(** C8: [removeStone] never touches the move stack. It returns false and
    leaves the board as it is when the position is out of bounds or the cell
    is empty; otherwise it returns true and empties the cell, the other
    cells and the size being kept. *)
Theorem removeStone_spec (b : Board.t) (p : Position) :
  Board.wf b ->
  Board.moves (Board.removeStone b p).2 = Board.moves b
  /\ (Board.isValidPosition b p = false \/ Board.isEmpty b p = true ->
      Board.removeStone b p = (false, b))
  /\ (Board.isValidPosition b p = true -> Board.isEmpty b p = false ->
      (Board.removeStone b p).1 = true
      /\ Board.getStone (Board.removeStone b p).2 p = None
      /\ Board.isEmpty (Board.removeStone b p).2 p = true
      /\ Board.size (Board.removeStone b p).2 = Board.size b
      /\ forall q, q <> p ->
           Board.getStone (Board.removeStone b p).2 q = Board.getStone b q).
Proof.
  intros Hwf. unfold Board.removeStone, Board.isEmpty.
  destruct (Board.isValidPosition b p) eqn:Hv; simpl.
  - destruct (wf_cell b p Hwf Hv) as [c Hc].
    case_bool_decide as Hn; simpl.
    + split; [done|]. split; [done|]. done.
    + split; [done|]. split; [by intros [|]|]. intros _ _.
      split; [done|]. split; [by apply getStone_setCell_eq|].
      split; [|split; [done|]].
      * unfold Board.isValidPosition in *. simpl. rewrite Hv. simpl.
        apply bool_decide_eq_true. by eapply cell_setCell_eq.
      * intros q Hq. by apply getStone_setCell_ne.
  - split; [done|]. split; [done|]. done.
Qed.

Lemma new_wf n : 0 <= n -> Board.wf (Board.new n).
Proof.
  intros Hn. split; simpl; [done| | |by constructor].
  - unfold Board.initializeGrid. by rewrite length_replicate.
  - unfold Board.initializeGrid. apply Forall_replicate.
    by rewrite length_replicate.
Qed.

(** * Win detection *)

Section WinDetection.
Implicit Types (b : Board.t) (p q : Position) (pl : Player).

Lemma walk_spec fuel b pl x y dx dy :
  let l := walk fuel b pl x y dx dy in
  l = map (fun k => Position.mk (x + k * dx) (y + k * dy))
          (seqZ 0 (Z.of_nat (length l)))
  /\ Forall (holds b pl) l
  /\ ((length l < fuel)%nat ->
      ~ holds b pl (Position.mk (x + Z.of_nat (length l) * dx)
                                (y + Z.of_nat (length l) * dy))).
Proof.
  revert x y. induction fuel as [|fuel IH]; intros x y; simpl.
  - split; [done|]. split; [constructor|]. lia.
  - destruct (Board.isValidPosition b (Position.mk x y)) eqn:Hv; simpl.
    + case_bool_decide as Hs; simpl.
      * destruct (IH (x + dx) (y + dy)) as (Hl & Hall & Hstop).
        set (l := walk fuel b pl (x + dx) (y + dy) dx dy) in *.
        split; [|split].
        -- rewrite Nat2Z.inj_succ, seqZ_cons by lia. simpl.
           f_equal; [f_equal; lia|].
           rewrite Z.pred_succ. change (Z.succ 0) with (1 + 0).
           rewrite <- (fmap_add_seqZ 1 0).
           etrans; [exact Hl|].
           change (map ?f ?l) with (f <$> l). rewrite <- list_fmap_compose.
           apply list_fmap_ext. intros _ k _. simpl. f_equal; lia.
        -- constructor; [done|done].
        -- intros Hlt Hh. apply Hstop; [lia|].
           replace (x + dx + Z.of_nat (length l) * dx)
             with (x + Z.of_nat (S (length l)) * dx) by lia.
           replace (y + dy + Z.of_nat (length l) * dy)
             with (y + Z.of_nat (S (length l)) * dy) by lia.
           done.
      * split; [done|]. split; [constructor|]. intros _ [_ Hh]. simpl in Hh.
        rewrite Z.mul_0_l, !Z.add_0_r in Hh. done.
    + split; [done|]. split; [constructor|]. intros _ [Hh _]. simpl in Hh.
      rewrite Z.mul_0_l, !Z.add_0_r in Hh. congruence.
Qed.

Lemma walk_holds fuel b pl x y dx dy k :
  0 <= k < Z.of_nat (length (walk fuel b pl x y dx dy)) ->
  holds b pl (Position.mk (x + k * dx) (y + k * dy)).
Proof.
  intros Hk. destruct (walk_spec fuel b pl x y dx dy) as (Hl & Hall & _).
  rewrite Forall_lookup in Hall. apply (Hall (Z.to_nat k)).
  etrans; [exact (f_equal (fun l => l !! Z.to_nat k) Hl)|]. cbv beta.
  change (map ?f ?l) with (f <$> l).
  rewrite list_lookup_fmap, lookup_seqZ_lt by lia. simpl.
  by rewrite Z2Nat.id, Z.add_0_l by lia.
Qed.

(** The loop stops on its own test: along an axis a board of side [size]
    has fewer than [size] cells beyond a cell of the board. *)
Lemma walk_stops b pl p dx dy :
  Board.isValidPosition b p = true ->
  Z.abs dx = 1 \/ Z.abs dy = 1 ->
  (length (walk (Z.to_nat (Board.getSize b)) b pl
             (Position.x p + dx) (Position.y p + dy) dx dy)
   < Z.to_nat (Board.getSize b))%nat.
Proof.
  intros Hp%valid_bounds Hd. unfold Board.getSize.
  set (l := walk _ _ _ _ _ _ _).
  destruct (decide (length l = 0%nat)) as [->|Hn]; [lia|].
  destruct (walk_holds (Z.to_nat (Board.size b)) b pl
              (Position.x p + dx) (Position.y p + dy) dx dy
              (Z.of_nat (length l) - 1)) as [Hv%valid_bounds _];
    [fold l; lia|].
  simpl in Hv. lia.
Qed.

Lemma rev_map_seqZ {A} (f : Z -> A) (n : nat) :
  rev (map f (seqZ 0 (Z.of_nat n)))
  = map (fun k => f (- k - 1)) (seqZ (- Z.of_nat n) (Z.of_nat n)).
Proof.
  induction n as [|n IH]; [done|].
  rewrite seqZ_S, map_app, rev_app_distr. simpl. rewrite IH.
  rewrite (seqZ_cons (- Z.of_nat (S n))) by lia. simpl.
  f_equal; [f_equal; lia|]. f_equal. f_equal; lia.
Qed.

Lemma checkDirection_maximalRun b pl p dx dy :
  holds b pl p ->
  Z.abs dx = 1 \/ Z.abs dy = 1 ->
  maximalRun b pl p dx dy (checkDirection b p pl dx dy).
Proof.
  intros Hp Hd. unfold checkDirection.
  set (fuel := Z.to_nat (Board.getSize b)).
  pose proof (walk_stops b pl p dx dy (proj1 Hp) Hd) as Hfw.
  assert (Hbw : (length (walk fuel b pl (Position.x p + - dx)
                           (Position.y p + - dy) (- dx) (- dy)) < fuel)%nat).
  { apply (walk_stops b pl p (- dx) (- dy)); [apply Hp|lia]. }
  rewrite !Z.add_opp_r in Hbw.
  destruct (walk_spec fuel b pl (Position.x p + dx) (Position.y p + dy) dx dy)
    as (Hfl & _ & Hfs).
  destruct (walk_spec fuel b pl (Position.x p - dx) (Position.y p - dy)
              (- dx) (- dy)) as (Hbl & _ & Hbs).
  pose proof (walk_holds fuel b pl (Position.x p + dx) (Position.y p + dy)
                dx dy) as Hfh.
  pose proof (walk_holds fuel b pl (Position.x p - dx) (Position.y p - dy)
                (- dx) (- dy)) as Hbh.
  fold fuel in Hfw.
  set (fw := walk fuel b pl (Position.x p + dx) (Position.y p + dy) dx dy) in *.
  set (bw := walk fuel b pl (Position.x p - dx) (Position.y p - dy)
               (- dx) (- dy)) in *.
  specialize (Hfs Hfw). specialize (Hbs Hbw).
  exists (Z.of_nat (length fw)), (Z.of_nat (length bw)).
  split; [lia|]. split; [lia|]. split; [|split; [|split]].
  - replace (Z.of_nat (length bw) + Z.of_nat (length fw) + 1)
      with (Z.of_nat (length bw) + (1 + Z.of_nat (length fw))) by lia.
    rewrite seqZ_app by lia. rewrite map_app. f_equal.
    + etrans; [exact (f_equal (@rev _) Hbl)|]. rewrite rev_map_seqZ.
      apply map_ext. intros k. unfold onAxis. f_equal; lia.
    + rewrite seqZ_cons by lia. simpl. f_equal.
      * destruct p as [x y]. unfold onAxis. simpl. f_equal; lia.
      * etrans; [exact Hfl|].
        replace (Z.succ (- Z.of_nat (length bw) + Z.of_nat (length bw)))
          with (1 + 0) by lia.
        replace (Z.pred (1 + Z.of_nat (length fw)))
          with (Z.of_nat (length fw)) by lia.
        rewrite <- (fmap_add_seqZ 1 0).
        change (map ?f ?l) with (f <$> l). rewrite <- list_fmap_compose.
        apply list_fmap_ext. intros _ k _. unfold onAxis. simpl. f_equal; lia.
  - intros k Hk. destruct (Z.compare_spec k 0) as [->|Hneg|Hpos].
    + destruct p as [x y]. unfold onAxis. simpl.
      by rewrite !Z.add_0_r.
    + specialize (Hbh (- k - 1)). unfold onAxis.
      replace (Position.x p + k * dx)
        with (Position.x p - dx + (- k - 1) * - dx) by lia.
      replace (Position.y p + k * dy)
        with (Position.y p - dy + (- k - 1) * - dy) by lia.
      apply Hbh. lia.
    + specialize (Hfh (k - 1)). unfold onAxis.
      replace (Position.x p + k * dx)
        with (Position.x p + dx + (k - 1) * dx) by lia.
      replace (Position.y p + k * dy)
        with (Position.y p + dy + (k - 1) * dy) by lia.
      apply Hfh. lia.
  - unfold onAxis.
    replace (Position.x p + (Z.of_nat (length fw) + 1) * dx)
      with (Position.x p + dx + Z.of_nat (length fw) * dx) by lia.
    replace (Position.y p + (Z.of_nat (length fw) + 1) * dy)
      with (Position.y p + dy + Z.of_nat (length fw) * dy) by lia.
    done.
  - unfold onAxis.
    replace (Position.x p + (- Z.of_nat (length bw) - 1) * dx)
      with (Position.x p - dx + Z.of_nat (length bw) * - dx) by lia.
    replace (Position.y p + (- Z.of_nat (length bw) - 1) * dy)
      with (Position.y p - dy + Z.of_nat (length bw) * - dy) by lia.
    done.
Qed.
End WinDetection.

(** * Running the state monad *)

(** Runs the monad's combinators and the reads of fields just written. *)
Ltac msimpl :=
  cbn [bind ret gets modify when liftR fst snd negb andb orb board currentPlayer
       gameState gameSubState gameResult moveHistory config aiTimer
       isAiCalculating blindBoxes playerItems activeEffects lastItemUsed
       itemNameDisplayTimer strategyGuidePositions hasExtraMove
       nextPlayerHasExtraMove nextPlayerHasSlipPenalty allowedPositions
       notification notificationTimer preciseStrikePlayer
       preciseStrikeHasExtraMove gameMoveCountState
       gameStateChangeCallbacks runtime set_board set_currentPlayer
       set_gameState set_gameSubState set_gameResult set_moveHistory
       set_config set_aiTimer set_isAiCalculating set_blindBoxes
       set_playerItems set_activeEffects set_lastItemUsed
       set_itemNameDisplayTimer set_strategyGuidePositions
       set_hasExtraMove set_nextPlayerHasExtraMove
       set_nextPlayerHasSlipPenalty set_allowedPositions set_notification
       set_notificationTimer set_preciseStrikePlayer
       set_preciseStrikeHasExtraMove set_gameMoveCountState
       set_gameStateChangeCallbacks set_runtime randomSrc randomCalls
       clockSrc clockCalls timers nextTimer notified set_randomCalls
       set_clockCalls set_timers set_nextTimer set_notified].
Ltac msimpl_in H :=
  cbn [bind ret gets modify when liftR fst snd negb andb orb board currentPlayer
       gameState gameSubState gameResult moveHistory config aiTimer
       isAiCalculating blindBoxes playerItems activeEffects lastItemUsed
       itemNameDisplayTimer strategyGuidePositions hasExtraMove
       nextPlayerHasExtraMove nextPlayerHasSlipPenalty allowedPositions
       notification notificationTimer preciseStrikePlayer
       preciseStrikeHasExtraMove gameMoveCountState
       gameStateChangeCallbacks runtime set_board set_currentPlayer
       set_gameState set_gameSubState set_gameResult set_moveHistory
       set_config set_aiTimer set_isAiCalculating set_blindBoxes
       set_playerItems set_activeEffects set_lastItemUsed
       set_itemNameDisplayTimer set_strategyGuidePositions
       set_hasExtraMove set_nextPlayerHasExtraMove
       set_nextPlayerHasSlipPenalty set_allowedPositions set_notification
       set_notificationTimer set_preciseStrikePlayer
       set_preciseStrikeHasExtraMove set_gameMoveCountState
       set_gameStateChangeCallbacks set_runtime randomSrc randomCalls
       clockSrc clockCalls timers nextTimer notified set_randomCalls
       set_clockCalls set_timers set_nextTimer set_notified ] in H.

(** Runs the monad's combinators only. *)
Ltac mstep := cbn [bind ret gets modify when liftR fst snd negb andb orb].

Section WinOnPlacement.
Implicit Types (g : GomokuGame) (pos : Position).

Lemma directions_axis d :
  In d directions -> Z.abs d.1 = 1 \/ Z.abs d.2 = 1.
Proof. simpl. intros [<-|[<-|[<-|[<-|[]]]]]; simpl; lia. Qed.

Lemma withStone_holds b pos pl now :
  Board.isEmpty b pos = true -> holds (withStone b pos pl now) pl pos.
Proof.
  intros He. unfold withStone, Board.placeStone. rewrite He. simpl.
  apply isEmpty_cell in He as [Hv Hc]. split; [done|].
  unfold Board.getStone.
  change (Board.isValidPosition (Board.mk _ _ _) pos)
    with (Board.isValidPosition b pos).
  rewrite Hv. simpl. by rewrite (cell_setCell_eq _ _ _ _ Hc).
Qed.

Lemma checkWin_five b pos pl :
  holds b pl pos -> fiveThrough b pos pl ->
  winner (checkWin b pos pl) <> None
  /\ winsWith b pos pl (Some (checkWin b pos pl)).
Proof.
  intros Hp (d & Hd & Hlen). unfold checkWin.
  destruct (List.find _ _) as [line|] eqn:Hfind.
  - split; [done|]. apply find_some in Hfind as [Hin Hfive].
    apply in_map_iff in Hin as (d' & <- & Hd').
    exists (checkDirection b pos pl d'.1 d'.2), d'.
    split; [done|]. split; [done|].
    split; [by apply Nat.leb_le|].
    apply checkDirection_maximalRun; [done|by apply directions_axis].
  - exfalso.
    assert (In (checkDirection b pos pl d.1 d.2)
              (map (fun d => checkDirection b pos pl d.1 d.2) directions))
      as Hin by (apply in_map_iff; by exists d).
    pose proof (find_none _ _ Hfind _ Hin) as Hn. cbv beta in Hn.
    apply Nat.leb_le in Hlen. congruence.
Qed.

Lemma boardPlaceStone_empty g pos pl :
  Board.isEmpty (board g) pos = true ->
  (boardPlaceStone pos pl g).1 = true
  /\ board (boardPlaceStone pos pl g).2 = withStone (board g) pos pl (nextNow g)
  /\ currentPlayer (boardPlaceStone pos pl g).2 = currentPlayer g.
Proof.
  intros He. unfold boardPlaceStone, withStone, nextNow. msimpl.
  unfold Board.placeStone. rewrite He. msimpl. done.
Qed.

Lemma settleMove_win g pos :
  let result := checkWin (board g) pos (currentPlayer g) in
  winner result <> None ->
  (settleMove pos g).1 = true
  /\ gameState (settleMove pos g).2 = OVER
  /\ gameResult (settleMove pos g).2 = Some result
  /\ board (settleMove pos g).2 = board g.
Proof.
  intros result Hwin. unfold settleMove. msimpl.
  assert (forall t d,
    board (recordMoveEvent t d None None (pushMoveHistory pos g).2).2 = board g
    /\ currentPlayer (recordMoveEvent t d None None (pushMoveHistory pos g).2).2
       = currentPlayer g) as Hfr by done.
  destruct (hasExtraMove _);
    match goal with
    | |- context [recordMoveEvent ?t ?d None None _] =>
        destruct (Hfr t d) as [-> ->]
    end;
    fold result; rewrite (bool_decide_true _ Hwin); done.
Qed.

Lemma makeMove_accepted g pos :
  accepts g pos ->
  makeMove pos g = settleMove pos (boardPlaceStone pos (currentPlayer g) g).2.
Proof.
  intros (Hst & Hai & Hsub & Hallow & Hempty).
  destruct (boardPlaceStone_empty g pos (currentPlayer g) Hempty) as (Hp & _).
  unfold makeMove. msimpl. rewrite Hst.
  rewrite bool_decide_true by done. msimpl. rewrite Hai. msimpl.
  rewrite bool_decide_false by done. msimpl.
  assert ((0 <? length (allowedPositions g))%nat
          && negb (existsb (fun a => samePos a pos) (allowedPositions g))
          = false) as ->.
  { destruct Hallow as [-> | ->]; [done|]. by rewrite andb_false_r. }
  msimpl. by rewrite Hp.
Qed.

Lemma settleAIMove_win g best :
  Board.isEmpty (board g) best = true ->
  let b' := withStone (board g) best (currentPlayer g) (nextNow g) in
  let result := checkWin b' best (currentPlayer g) in
  winner result <> None ->
  gameState (settleAIMove best g).2 = OVER
  /\ gameResult (settleAIMove best g).2 = Some result
  /\ board (settleAIMove best g).2 = b'.
Proof.
  intros He b' result Hwin.
  destruct (boardPlaceStone_empty g best (currentPlayer g) He) as (_ & Hb & Hc).
  unfold settleAIMove. msimpl.
  change (board (pushMoveHistory best ?g).2) with (board g).
  change (currentPlayer (pushMoveHistory best ?g).2) with (currentPlayer g).
  rewrite Hb, Hc. fold b' result. by rewrite (bool_decide_true _ Hwin).
Qed.

Lemma makeAIMove_choice g best :
  gameState g = PLAYING -> aiChoice g = Some best ->
  makeAIMove g = settleAIMove best (imposeSlipPenalty g).2.
Proof.
  intros Hst. unfold aiChoice, makeAIMove. msimpl. rewrite Hst.
  rewrite bool_decide_true by done. msimpl.
  destruct (aiCandidates _); [done|]. by intros [= ->].
Qed.
End WinOnPlacement.

(** C1: when [makeMove] places a stone, or the AI does, and some axis
    through the stone carries five or more stones of the player in a row,
    the game is OVER and the result names the player as winner, with the
    whole maximal run along one such axis as winning line. On a board where
    BLACK holds (0,0) to (0,3), BLACK's move at (0,4) wins with the line
    (0,0) to (0,4). *)
Theorem win_detected_on_placement :
  (forall g pos,
     accepts g pos ->
     let pl := currentPlayer g in
     let b' := withStone (board g) pos pl (nextNow g) in
     fiveThrough b' pos pl ->
     (makeMove pos g).1 = true
     /\ board (makeMove pos g).2 = b'
     /\ gameState (makeMove pos g).2 = OVER
     /\ winsWith b' pos pl (gameResult (makeMove pos g).2))
  /\ (forall g best,
        gameState g = PLAYING -> aiChoice g = Some best ->
        let g1 := (imposeSlipPenalty g).2 in
        Board.isEmpty (board g1) best = true ->
        let pl := currentPlayer g1 in
        let b' := withStone (board g1) best pl (nextNow g1) in
        fiveThrough b' best pl ->
        board (makeAIMove g).2 = b'
        /\ gameState (makeAIMove g).2 = OVER
        /\ winsWith b' best pl (gameResult (makeAIMove g).2))
  /\ (let g' := (makeMove (Position.mk 0 4) fourInColumn).2 in
      map (Board.getStone (board fourInColumn))
        [Position.mk 0 0; Position.mk 0 1; Position.mk 0 2; Position.mk 0 3]
      = [Some BLACK; Some BLACK; Some BLACK; Some BLACK]
      /\ currentPlayer fourInColumn = BLACK
      /\ gameState g' = OVER
      /\ gameResult g'
         = Some (mkGameResult (Some BLACK)
                   [Position.mk 0 0; Position.mk 0 1; Position.mk 0 2;
                    Position.mk 0 3; Position.mk 0 4])).
Proof.
  split; [|split].
  - intros g pos Hacc pl b' Hfive.
    pose proof Hacc as (_ & _ & _ & _ & He).
    rewrite (makeMove_accepted g pos Hacc).
    destruct (boardPlaceStone_empty g pos pl He) as (_ & Hb & Hc).
    destruct (checkWin_five b' pos pl (withStone_holds _ _ _ _ He) Hfive)
      as [Hw Hres].
    destruct (settleMove_win (boardPlaceStone pos pl g).2 pos) as (? & ? & Hr & Hbd).
    { fold pl. by rewrite Hb, Hc. }
    fold pl in Hr, Hbd, Hc |- *. rewrite Hb, Hc in Hr. rewrite Hb in Hbd.
    split; [done|]. split; [done|]. split; [done|]. by rewrite Hr.
  - intros g best Hst Hch g1 He pl b' Hfive.
    rewrite (makeAIMove_choice g best Hst Hch). fold g1.
    destruct (checkWin_five b' best pl (withStone_holds _ _ _ _ He) Hfive)
      as [Hw Hres].
    destruct (settleAIMove_win g1 best He Hw) as (? & Hr & ?).
    split; [done|]. split; [done|]. by rewrite Hr.
  - vm_compute. done.
Qed.

(** * The choice of the AI *)

Section MoveSelection.
Implicit Types (g : GomokuGame) (l : list Position).

Lemma chooseBest_fold g first l :
  let step := fun (best : option Z * Position) pos =>
    let score := evaluatePosition g pos in
    if better score best.1 then (Some score, pos) else best in
  l <> [] ->
  fold_left step l (None, first)
  = (Some (evaluatePosition g (chooseBest g first l)), chooseBest g first l)
  /\ firstBest (evaluatePosition g) l (chooseBest g first l).
Proof.
  intros step. unfold chooseBest. fold step.
  induction l as [|a l IH] using rev_ind; [done|]. intros _.
  destruct (decide (l = [])) as [->|Hne].
  { simpl. split; [done|]. exists [], []. split; [done|]. split; by intros. }
  destruct (IH Hne) as (Hf & l1 & l2 & Hl & H1 & H2). clear IH.
  rewrite (fold_left_app step l). simpl.
  set (old := (fold_left step l (None, first)).2) in *.
  rewrite Hf.
  assert (step (Some (evaluatePosition g old), old) a
          = if evaluatePosition g old <? evaluatePosition g a
            then (Some (evaluatePosition g a), a)
            else (Some (evaluatePosition g old), old)) as -> by done.
  destruct (Z.ltb_spec (evaluatePosition g old) (evaluatePosition g a)).
  - simpl. split; [done|].
    exists l, []. split; [done|]. split; [|by intros].
    intros c Hc. rewrite Hl in Hc.
    apply in_app_iff in Hc as [Hc|[<-|Hc]]; [|done|].
    + specialize (H1 c Hc). lia.
    + specialize (H2 c Hc). lia.
  - simpl. split; [done|].
    exists l1, (l2 ++ [a]). split; [|split; [done|]].
    + rewrite Hl. by rewrite <- app_assoc.
    + intros c [Hc|[<-|[]]]%in_app_iff; [by apply H2|done].
Qed.

Lemma chooseBest_firstBest g first l :
  l <> [] -> firstBest (evaluatePosition g) l (chooseBest g first l).
Proof. intros Hl. by apply chooseBest_fold. Qed.
End MoveSelection.

(** * The scan of the board *)

Section Scan.
Lemma elem_of_scan n p :
  p ∈ scan n <-> 0 <= Position.x p < n /\ 0 <= Position.y p < n.
Proof.
  unfold scan. rewrite list_elem_of_bind. split.
  - intros (y & Hx & Hy%elem_of_seqZ).
    apply list_elem_of_bind in Hx as (x & ->%list_elem_of_singleton & Hx%elem_of_seqZ).
    simpl. lia.
  - intros [Hx Hy]. exists (Position.y p). split; [|apply elem_of_seqZ; lia].
    apply list_elem_of_bind. exists (Position.x p).
    split; [|apply elem_of_seqZ; lia]. destruct p. by apply list_elem_of_singleton.
Qed.

Lemma seqZ_sorted m (n : nat) : StronglySorted Z.lt (seqZ m (Z.of_nat n)).
Proof.
  revert m. induction n as [|n IH]; intros m; [constructor|].
  rewrite seqZ_cons by lia. apply StronglySorted_cons. split.
  - apply Forall_forall. intros k Hk%elem_of_seqZ. lia.
  - replace (Z.pred (Z.of_nat (S n))) with (Z.of_nat n) by lia. apply IH.
Qed.

Lemma scan_sorted n : StronglySorted rowMajorBefore (scan n).
Proof.
  unfold scan.
  assert (Hrows : forall ys, StronglySorted Z.lt ys ->
    StronglySorted rowMajorBefore
      (ys ≫= fun y => seqZ 0 n ≫= fun x => [Position.mk x y])).
  { induction ys as [|y ys IH]; intros Hs; [constructor|].
    apply StronglySorted_cons in Hs as [Hlt Hs].
    rewrite bind_cons. apply StronglySorted_app. split; [|split].
    - intros a b Ha Hb. left.
      apply list_elem_of_bind in Ha as (x & ->%list_elem_of_singleton & _).
      apply list_elem_of_bind in Hb as (y' & Hb & Hy').
      apply list_elem_of_bind in Hb as (x' & ->%list_elem_of_singleton & _).
      simpl. rewrite Forall_forall in Hlt. by apply Hlt.
    - destruct (Z.le_gt_cases n 0) as [?|?];
      [rewrite seqZ_nil by done; constructor|].
      rewrite <- (Z2Nat.id n) by lia.
      generalize (seqZ_sorted 0 (Z.to_nat n)).
      generalize (seqZ 0 (Z.of_nat (Z.to_nat n))).
      induction l as [|x xs IHx]; intros Hxs; [constructor|].
      apply StronglySorted_cons in Hxs as [Hlt' Hxs].
      rewrite bind_cons. simpl. apply StronglySorted_cons. split; [|by apply IHx].
      apply Forall_forall. intros b Hb.
      apply list_elem_of_bind in Hb as (x' & ->%list_elem_of_singleton & Hx').
      right. simpl. split; [done|]. rewrite Forall_forall in Hlt'. by apply Hlt'.
    - by apply IH. }
  destruct (Z.le_gt_cases n 0) as [?|?];
      [rewrite seqZ_nil by done; constructor|].
  rewrite <- (Z2Nat.id n) at 1 by lia. apply Hrows, seqZ_sorted.
Qed.

Lemma filter_sorted {A} (R : relation A) (f : A -> bool) l :
  StronglySorted R l -> StronglySorted R (List.filter f l).
Proof.
  induction l as [|a l IH]; [done|]. intros [Hlt Hs]%StronglySorted_cons. simpl.
  destruct (f a); [|by apply IH]. apply StronglySorted_cons. split; [|by apply IH].
  rewrite Forall_forall in Hlt |- *. intros b Hb%list_elem_of_In.
  apply filter_In in Hb as [Hb _]. by apply Hlt, list_elem_of_In.
Qed.

(** In a list in scan order, what comes before the chosen cell in the scan
    comes before it in the list. *)
Lemma sorted_before l l1 best l2 c :
  StronglySorted rowMajorBefore l -> l = l1 ++ best :: l2 ->
  In c l -> rowMajorBefore c best -> In c l1.
Proof.
  intros Hs -> Hc Hb.
  apply in_app_iff in Hc as [Hc|[<-|Hc]]; [done| |].
  - unfold rowMajorBefore in Hb. lia.
  - apply StronglySorted_app_1_r, StronglySorted_cons in Hs as [Hlt _].
    rewrite Forall_forall in Hlt. specialize (Hlt c).
    unfold rowMajorBefore in Hb, Hlt.
    apply list_elem_of_In in Hc. specialize (Hlt Hc). lia.
Qed.

Lemma emptyCells_spec b p :
  In p (emptyCells b) <-> Board.isEmpty b p = true.
Proof.
  unfold emptyCells. rewrite filter_In, <- list_elem_of_In, elem_of_scan.
  split; [by intros [_ ?]|]. intros He. split; [|done].
  apply isEmpty_cell in He as [Hv%valid_bounds _]. unfold Board.getSize. lia.
Qed.
End Scan.

(** * Views of the state that the procedures leave alone *)

Ltac stable_fields H :=
  first
    [ rewrite (st_runtime _ H) | rewrite (st_notification _ H)
    | rewrite (st_notificationTimer _ H) | rewrite (st_playerItems _ H)
    | rewrite (st_activeEffects _ H) | rewrite (st_blindBoxes _ H)
    | rewrite (st_lastItemUsed _ H) | rewrite (st_itemNameDisplayTimer _ H)
    | rewrite (st_isAiCalculating _ H) | rewrite (st_aiTimer _ H)
    | rewrite (st_strategyGuidePositions _ H)
    | rewrite (st_preciseStrikeHasExtraMove _ H)
    | rewrite (st_nextPlayerHasExtraMove _ H)
    | rewrite (st_nextPlayerHasSlipPenalty _ H)
    | rewrite (st_hasExtraMove _ H) ].

(** Splits on the test of a conditional or on the scrutinee of a match. *)
Ltac split_test :=
  match goal with
  | |- context [if ?b then _ else _] => destruct b
  | |- context [match ?x with _ => _ end] => destruct x
  end.

Section StableViews.
Context {X : Type} (f : GomokuGame -> X) (Hf : Stable f).

Ltac go known :=
  intros;
  repeat first
    [ reflexivity | progress mstep | stable_fields Hf | known | split_test ].

Lemma clearIfSet_stable h g : f (clearIfSet h g).2 = f g.
Proof. unfold clearIfSet. go fail. Qed.

Lemma showNotification_stable m ms g : f (showNotification m ms g).2 = f g.
Proof. unfold showNotification. go ltac:(rewrite clearIfSet_stable). Qed.

Lemma clearNotification_stable g : f (clearNotification g).2 = f g.
Proof. unfold clearNotification. go ltac:(rewrite clearIfSet_stable). Qed.

Lemma removeEffect_stable p t g : f (removeEffect p t g).2 = f g.
Proof. unfold removeEffect. go fail. Qed.

Lemma addContinuousEffect_stable p t d g :
  f (addContinuousEffect p t d g).2 = f g.
Proof. unfold addContinuousEffect. go fail. Qed.

Hypothesis Hr : Unmoved f.

Lemma boardRemoveStone_stable pos g : f (boardRemoveStone pos g).2 = f g.
Proof. apply Hr. Qed.

Lemma removeRandomStone_stable stones g :
  f (removeRandomStone stones g).2 = f g.
Proof. unfold removeRandomStone. go ltac:(rewrite boardRemoveStone_stable). Qed.

Ltac items :=
  first [ rewrite showNotification_stable | rewrite removeEffect_stable
        | rewrite removeRandomStone_stable | rewrite boardRemoveStone_stable ].

Lemma performChaosStrike_stable p g : f (performChaosStrike p g).2 = f g.
Proof. unfold performChaosStrike. go items. Qed.

Lemma performSelfMistake_stable p g : f (performSelfMistake p g).2 = f g.
Proof. unfold performSelfMistake. go items. Qed.

Lemma performPreciseStrikeForAI_stable p g :
  f (performPreciseStrikeForAI p g).2 = f g.
Proof. unfold performPreciseStrikeForAI. go items. Qed.

Lemma generateNewBlindBox_stable g : f (generateNewBlindBox g).2 = f g.
Proof. unfold generateNewBlindBox. go fail. Qed.

Lemma scheduleAiTurn_stable g : f (scheduleAiTurn g).2 = f g.
Proof. unfold scheduleAiTurn. go fail. Qed.

Lemma notifyGameStateChange_stable g : f (notifyGameStateChange g).2 = f g.
Proof. unfold notifyGameStateChange. go fail. Qed.
End StableViews.

(** * Hoare triples *)

Section Hoare.
Context {A B : Type}.
Implicit Types (P Q R : GomokuGame -> Prop).

Lemma hoare_ret P Q (a : A) : (forall g, P g -> Q g) -> hoare P (ret a) Q.
Proof. intros H g. apply H. Qed.

Lemma hoare_bind P R Q (c : M A) (k : A -> M B) :
  hoare P c R -> (forall a, hoare R (k a) Q) -> hoare P (bind c k) Q.
Proof. intros Hc Hk g HP. apply Hk, Hc, HP. Qed.

Lemma hoare_gets P Q (f : GomokuGame -> A) (k : A -> M B) :
  (forall a, hoare (fun g => P g /\ f g = a) (k a) Q) ->
  hoare P (bind (gets f) k) Q.
Proof. intros Hk g HP. by apply (Hk (f g)). Qed.

Lemma hoare_read P Q (f : GomokuGame -> A) (k : A -> M B) :
  (forall a, hoare P (k a) Q) -> hoare P (bind (gets f) k) Q.
Proof. intros Hk g HP. by apply (Hk (f g)). Qed.

Lemma hoare_conseq P P' Q Q' (c : M A) :
  hoare P' c Q' -> (forall g, P g -> P' g) -> (forall g, Q' g -> Q g) ->
  hoare P c Q.
Proof. intros Hc HP HQ g Hg. apply HQ, Hc, HP, Hg. Qed.

Lemma hoare_pre P P' Q (c : M A) :
  hoare P' c Q -> (forall g, P g -> P' g) -> hoare P c Q.
Proof. intros Hc HP g Hg. apply Hc, HP, Hg. Qed.
End Hoare.

Lemma hoare_modify P Q (m : GomokuGame -> GomokuGame) :
  (forall g, P g -> Q (m g)) -> hoare P (modify m) Q.
Proof. intros H g. apply H. Qed.

Lemma hoare_when P Q (b : bool) (c : M unit) :
  (b = true -> hoare P c Q) -> (b = false -> forall g, P g -> Q g) ->
  hoare P (when b c) Q.
Proof. intros Ht Hf g HP. destruct b; simpl; [by apply Ht|by apply Hf]. Qed.

Lemma hoare_liftR {A} P Q (c : R A) :
  (forall r g, P g -> Q (set_runtime r g)) -> hoare P (liftR c) Q.
Proof. intros H g HP. by apply H. Qed.

(** A command that leaves a view unchanged keeps what is stated about it. *)
Lemma hoare_view {A X} (f : GomokuGame -> X) (P : X -> Prop) (c : M A) :
  (forall g, f (c g).2 = f g) ->
  hoare (fun g => P (f g)) c (fun g => P (f g)).
Proof. intros Hf g HP. by rewrite Hf. Qed.

Section QuietViews.
Context {X : Type} (f : GomokuGame -> X) (Hq : Quiet f).

Ltac go known :=
  intros;
  repeat first
    [ reflexivity | progress mstep | stable_fields constr:(q_stable f Hq)
    | rewrite (q_moveCount _ Hq) | known | split_test ].

Lemma updMoveCount_quiet p h g : f (updMoveCount p h g).2 = f g.
Proof. unfold updMoveCount. go fail. Qed.

Lemma recordMoveEvent_quiet t d i a g :
  f (recordMoveEvent t d i a g).2 = f g.
Proof.
  unfold recordMoveEvent, generateMoveEventId.
  go ltac:(rewrite updMoveCount_quiet).
Qed.

Lemma addExtraMove_quiet p s g : f (addExtraMove p s g).2 = f g.
Proof.
  unfold addExtraMove.
  go ltac:(first [rewrite recordMoveEvent_quiet | rewrite updMoveCount_quiet]).
Qed.

Lemma validateOne_quiet p c g : f (validateOne p c g).2 = f g.
Proof. unfold validateOne. go ltac:(rewrite updMoveCount_quiet). Qed.

Lemma validateMoveCountConsistency_quiet g :
  f (validateMoveCountConsistency g).2 = f g.
Proof.
  unfold validateMoveCountConsistency. go ltac:(rewrite validateOne_quiet).
Qed.

Lemma refreshHasExtraMove_quiet p g : f (refreshHasExtraMove p g).2 = f g.
Proof. unfold refreshHasExtraMove. go fail. Qed.

Lemma consumeExtraMove_quiet g : f (consumeExtraMove g).2 = f g.
Proof.
  unfold consumeExtraMove.
  go ltac:(first [ rewrite validateMoveCountConsistency_quiet
                 | rewrite refreshHasExtraMove_quiet
                 | rewrite updMoveCount_quiet ]).
Qed.

Lemma grantOpponentAcceleration_quiet g :
  f (grantOpponentAcceleration g).2 = f g.
Proof.
  unfold grantOpponentAcceleration.
  go ltac:(first [ rewrite refreshHasExtraMove_quiet
                 | rewrite addExtraMove_quiet ]).
Qed.
End QuietViews.

(** * Invariants of the engine *)

(** Rules for a property that each step keeps. *)
Section Preservation.
Context (I : GomokuGame -> Prop).

Lemma pres_ret {A} (a : A) : hoare I (ret a) I.
Proof. by apply hoare_ret. Qed.

Lemma pres_bind {A B} (c : M A) (k : A -> M B) :
  hoare I c I -> (forall a, hoare I (k a) I) -> hoare I (bind c k) I.
Proof. apply hoare_bind. Qed.

Lemma pres_gets {A B} (f : GomokuGame -> A) (k : A -> M B) :
  (forall a, hoare I (k a) I) -> hoare I (bind (gets f) k) I.
Proof. intros Hk g HI. by apply (Hk (f g)). Qed.

Lemma pres_when (b : bool) (c : M unit) :
  hoare I c I -> hoare I (when b c) I.
Proof. intros Hc. apply hoare_when; [done|by intros _]. Qed.

Lemma pres_if {A} (b : bool) (c1 c2 : M A) :
  hoare I c1 I -> hoare I c2 I -> hoare I (if b then c1 else c2) I.
Proof. by destruct b. Qed.
End Preservation.

Ltac pres_rule :=
  lazymatch goal with
  | |- hoare _ (ret _) _ => apply pres_ret
  | |- hoare _ (bind (gets _) _) _ => apply pres_gets; intros ?
  | |- hoare _ (bind _ _) _ => apply pres_bind; [|intros ?]
  | |- hoare _ (when _ _) _ => apply pres_when
  | |- hoare _ (if _ then _ else _) _ => apply pres_if
  | |- hoare _ (match ?x with _ => _ end) _ => destruct x
  | |- hoare _ (modify _) _ => apply hoare_modify; intros ? ?; assumption
  | |- hoare _ (liftR _) _ => apply hoare_liftR; intros ? ? ?; assumption
  end.

Create HintDb mc discriminated.
#[export] Hint Constants Opaque : mc.

Ltac pres_mc := repeat first [ solve [auto with mc nocore] | pres_rule ].

Section MoveCounts.
Implicit Types (g : GomokuGame) (p : Player).

Lemma stable_counts : Stable gameMoveCountState.
Proof. by split. Qed.

Lemma unmoved_counts : Unmoved gameMoveCountState.
Proof. by intros pos g. Qed.

Lemma stable_mc {A} (c : M A) :
  (forall (f : GomokuGame -> GameMoveCountState),
     Stable f -> Unmoved f -> forall g, f (c g).2 = f g) ->
  hoare moveCountsConsistent c moveCountsConsistent.
Proof.
  intros H. apply (hoare_view gameMoveCountState countsConsistent).
  apply H; [apply stable_counts|apply unmoved_counts].
Qed.

Lemma updMoveCount_mc p h :
  (forall mc, consistent mc -> consistent (h mc)) ->
  hoare moveCountsConsistent (updMoveCount p h) moveCountsConsistent.
Proof.
  intros Hh g Hg q. unfold updMoveCount. simpl.
  pose proof (Hg BLACK). pose proof (Hg WHITE).
  destruct p, q; simpl; try apply Hh; assumption.
Qed.

Lemma recordMoveEvent_mc t d i a :
  hoare moveCountsConsistent (recordMoveEvent t d i a) moveCountsConsistent.
Proof.
  unfold recordMoveEvent, generateMoveEventId.
  assert (forall e, hoare moveCountsConsistent
                      (updMoveCount e.1 (pushMoveEvent e.2))
                      moveCountsConsistent) as Hpush.
  { intros e. by apply updMoveCount_mc. }
  repeat first [ apply (Hpush (_, _)) | pres_rule ].
Qed.

Lemma addExtraMove_mc p s :
  hoare moveCountsConsistent (addExtraMove p s) moveCountsConsistent.
Proof.
  intros g Hg. unfold addExtraMove. mstep. apply recordMoveEvent_mc.
  intros q. unfold updMoveCount. simpl.
  pose proof (Hg BLACK). pose proof (Hg WHITE).
  destruct p, q; unfold consistent in *; simpl in *; lia.
Qed.

Lemma validateOne_mc p c :
  hoare (fun g => forall q, q <> p -> consistent (moveCountOf g q))
    (validateOne p c) moveCountsConsistent.
Proof.
  intros g Hg. unfold validateOne. mstep.
  destruct (Z.eqb_spec (extraMovesEarned (moveCountOf g p)
                          - extraMovesUsed (moveCountOf g p))
              (currentExtraMoves (moveCountOf g p))) as [He|He]; mstep.
  - intros q. destruct (decide (q = p)) as [->|Hq]; [done|by apply Hg].
  - intros q. unfold updMoveCount, moveCountOf in *. simpl.
    destruct p, q; unfold consistent; simpl; try lia;
      [apply (Hg WHITE)|apply (Hg BLACK)]; done.
Qed.

Lemma validateMoveCountConsistency_mc :
  hoare (fun _ => True) validateMoveCountConsistency moveCountsConsistent.
Proof.
  intros g _. unfold validateMoveCountConsistency. mstep.
  apply validateOne_mc. intros q Hq.
  assert (q = BLACK) as -> by (by destruct q).
  unfold validateOne, moveCountOf. mstep.
  match goal with
  | |- context [negb (?a =? ?b)] => destruct (Z.eqb_spec a b) as [He|He]
  end; mstep; unfold consistent; simpl in *; lia.
Qed.

Lemma consumeExtraMove_mc :
  hoare moveCountsConsistent consumeExtraMove moveCountsConsistent.
Proof.
  intros g _. unfold consumeExtraMove. mstep.
  apply validateMoveCountConsistency_mc. done.
Qed.
End MoveCounts.

#[export] Hint Resolve recordMoveEvent_mc addExtraMove_mc consumeExtraMove_mc : mc.

Section MoveCountsKept.
Local Abbreviation keeps c :=
  (hoare moveCountsConsistent c moveCountsConsistent).

Lemma validate_keeps : keeps validateMoveCountConsistency.
Proof. intros g _. by apply validateMoveCountConsistency_mc. Qed.

Lemma countOriginal_keeps p : keeps (updMoveCount p incOriginalMoveCount).
Proof. by apply updMoveCount_mc. Qed.

Lemma clearIfSet_keeps h : keeps (clearIfSet h).
Proof. apply stable_mc. intros. by apply clearIfSet_stable. Qed.
Lemma showNotification_keeps m ms : keeps (showNotification m ms).
Proof. apply stable_mc. intros. by apply showNotification_stable. Qed.
Lemma clearNotification_keeps : keeps clearNotification.
Proof. apply stable_mc. intros. by apply clearNotification_stable. Qed.
Lemma removeEffect_keeps p t : keeps (removeEffect p t).
Proof. apply stable_mc. intros. by apply removeEffect_stable. Qed.
Lemma addContinuousEffect_keeps p t d : keeps (addContinuousEffect p t d).
Proof. apply stable_mc. intros. by apply addContinuousEffect_stable. Qed.
Lemma boardRemoveStone_keeps pos : keeps (boardRemoveStone pos).
Proof. apply stable_mc. intros. by apply boardRemoveStone_stable. Qed.
Lemma performChaosStrike_keeps p : keeps (performChaosStrike p).
Proof. apply stable_mc. intros. by apply performChaosStrike_stable. Qed.
Lemma performSelfMistake_keeps p : keeps (performSelfMistake p).
Proof. apply stable_mc. intros. by apply performSelfMistake_stable. Qed.
Lemma performPreciseStrikeForAI_keeps p : keeps (performPreciseStrikeForAI p).
Proof. apply stable_mc. intros. by apply performPreciseStrikeForAI_stable. Qed.
Lemma generateNewBlindBox_keeps : keeps generateNewBlindBox.
Proof. apply stable_mc. intros. by apply generateNewBlindBox_stable. Qed.
Lemma scheduleAiTurn_keeps : keeps scheduleAiTurn.
Proof. apply stable_mc. intros. by apply scheduleAiTurn_stable. Qed.
Lemma notifyGameStateChange_keeps : keeps notifyGameStateChange.
Proof. apply stable_mc. intros. by apply notifyGameStateChange_stable. Qed.

Hint Resolve validate_keeps countOriginal_keeps clearIfSet_keeps
  showNotification_keeps clearNotification_keeps removeEffect_keeps
  addContinuousEffect_keeps boardRemoveStone_keeps performChaosStrike_keeps
  performSelfMistake_keeps performPreciseStrikeForAI_keeps
  generateNewBlindBox_keeps scheduleAiTurn_keeps notifyGameStateChange_keeps
  : mc.

Lemma refreshHasExtraMove_keeps p : keeps (refreshHasExtraMove p).
Proof. unfold refreshHasExtraMove. pres_mc. Qed.
Hint Resolve refreshHasExtraMove_keeps : mc.

Lemma grantOpponentAcceleration_keeps : keeps grantOpponentAcceleration.
Proof. unfold grantOpponentAcceleration. pres_mc. Qed.

Lemma showStrategyGuide_keeps p : keeps (showStrategyGuide p).
Proof. unfold showStrategyGuide. pres_mc. Qed.

Lemma pickAllowed_keeps n l : keeps (pickAllowed n l).
Proof. revert l. induction n as [|n IH]; intros l; simpl; pres_mc. Qed.
Hint Resolve grantOpponentAcceleration_keeps showStrategyGuide_keeps
  pickAllowed_keeps : mc.

Lemma applySlipPenalty_keeps : keeps applySlipPenalty.
Proof. unfold applySlipPenalty. pres_mc. Qed.
Hint Resolve applySlipPenalty_keeps : mc.

Lemma triggerItemEffect_keeps t p : keeps (triggerItemEffect t p).
Proof. unfold triggerItemEffect. pres_mc. Qed.
Hint Resolve triggerItemEffect_keeps : mc.

Lemma openBlindBoxAtPosition_keeps pos : keeps (openBlindBoxAtPosition pos).
Proof. unfold openBlindBoxAtPosition. pres_mc. Qed.

Lemma boardPlaceStone_keeps pos pl : keeps (boardPlaceStone pos pl).
Proof. unfold boardPlaceStone. pres_mc. Qed.

Lemma pushMoveHistory_keeps pos : keeps (pushMoveHistory pos).
Proof. unfold pushMoveHistory. pres_mc. Qed.

Lemma finish_keeps r : keeps (finish r).
Proof. unfold finish. pres_mc. Qed.

Lemma imposeSlipPenalty_keeps : keeps imposeSlipPenalty.
Proof. unfold imposeSlipPenalty. pres_mc. Qed.
Hint Resolve openBlindBoxAtPosition_keeps boardPlaceStone_keeps
  pushMoveHistory_keeps finish_keeps imposeSlipPenalty_keeps : mc.

Lemma selectStrikeTarget_keeps pos : keeps (selectStrikeTarget pos).
Proof. unfold selectStrikeTarget. pres_mc. Qed.

Lemma afterMove_keeps pos : keeps (afterMove pos).
Proof. unfold afterMove. pres_mc. Qed.
Hint Resolve selectStrikeTarget_keeps afterMove_keeps : mc.

Lemma settleMove_keeps pos : keeps (settleMove pos).
Proof. unfold settleMove. pres_mc. Qed.
Hint Resolve settleMove_keeps : mc.

Lemma makeMove_keeps pos : keeps (makeMove pos).
Proof. unfold makeMove. pres_mc. Qed.

Lemma afterAIMove_keeps pos : keeps (afterAIMove pos).
Proof. unfold afterAIMove. pres_mc. Qed.
Hint Resolve afterAIMove_keeps : mc.

Lemma settleAIMove_keeps pos : keeps (settleAIMove pos).
Proof. unfold settleAIMove. pres_mc. Qed.
Hint Resolve settleAIMove_keeps : mc.

Lemma makeAIMove_keeps : keeps makeAIMove.
Proof. unfold makeAIMove. pres_mc. Qed.

Lemma startNewGame_keeps : keeps startNewGame.
Proof.
  unfold startNewGame. pres_mc.
  apply hoare_modify. intros g _ p. by destruct p.
Qed.
Hint Resolve makeMove_keeps makeAIMove_keeps startNewGame_keeps : mc.

Lemma undoMove_keeps : keeps undoMove.
Proof. unfold undoMove, undoOne. pres_mc. Qed.

Lemma setBoardSize_keeps n : keeps (setBoardSize n).
Proof. unfold setBoardSize. pres_mc. Qed.

Lemma runTimer_keeps a : keeps (runTimer a).
Proof. unfold runTimer. pres_mc. Qed.
Hint Resolve undoMove_keeps setBoardSize_keeps runTimer_keeps : mc.

Lemma handle_keeps e : keeps (handle e).
Proof.
  unfold handle, fire, setConfig, restart, pause, resume, onGameStateChange,
    offGameStateChange.
  pres_mc.
Qed.

Lemma newGame_consistent n rt : moveCountsConsistent (newGame n rt).
Proof. intros p. by destruct p. Qed.

Lemma reachable_consistent g : reachable g -> moveCountsConsistent g.
Proof.
  induction 1 as [fifteen rt _|g e _ IH _]; [apply newGame_consistent|].
  by apply handle_keeps.
Qed.
End MoveCountsKept.

(** C2: in every state the engine reaches by calls and timers, for both
    players, [currentExtraMoves = extraMovesEarned - extraMovesUsed]. The
    consistency check overwrites [currentExtraMoves] of both players with
    that difference, changes nothing else, and answers whether the counts
    agreed. *)
Theorem extra_move_bookkeeping :
  (forall g, reachable g ->
     forall p,
       currentExtraMoves (moveCountOf g p)
       = extraMovesEarned (moveCountOf g p) - extraMovesUsed (moveCountOf g p))
  /\ (forall g,
        let r := validateMoveCountConsistency g in
        (forall p,
           moveCountOf r.2 p
           = setCurrentExtraMoves
               (extraMovesEarned (moveCountOf g p)
                - extraMovesUsed (moveCountOf g p))
               (moveCountOf g p))
        /\ r.2 = set_gameMoveCountState (gameMoveCountState r.2) g
        /\ (r.1 = true <-> moveCountsConsistent g)).
Proof.
  split.
  - intros g Hg p. apply (reachable_consistent g Hg p).
  - intros g r. subst r.
    unfold validateMoveCountConsistency, validateOne, moveCountOf,
      updMoveCount, moveCountsConsistent, countsConsistent, consistent.
    destruct g as [? ? ? ? ? ? ? ? ? ? ? ? ? ? ? ? ? ? ? ? ? ? ? [[b w] cp id] ? ?].
    msimpl. simpl.
    destruct (Z.eqb_spec (extraMovesEarned b - extraMovesUsed b)
                (currentExtraMoves b)) as [Hb|Hb];
      msimpl; simpl;
      destruct (Z.eqb_spec (extraMovesEarned w - extraMovesUsed w)
                  (currentExtraMoves w)) as [Hw|Hw];
      msimpl; simpl.
    all: split; [intros []; destruct b, w; simpl in *; by subst|].
    all: split; [done|].
    all: split; [intros ?|intros H; pose proof (H BLACK); pose proof (H WHITE)].
    all: try done; try (intros []; simpl; lia); simpl in *; lia.
Qed.

(** * The sub-state between calls *)

Section SubState.
Local Abbreviation keepsU c := (hoare unrestricted c unrestricted).
Local Abbreviation keepsS c := (hoare subStateSound c subStateSound).

Lemma quiet_ctl : Quiet ctl.
Proof. by split; [split|]. Qed.

Lemma unrestricted_ctl g g' : ctl g' = ctl g -> unrestricted g -> unrestricted g'.
Proof.
  unfold ctl, unrestricted, strikeKnown. intros [= -> -> ->]. done.
Qed.

Lemma subStateSound_ctl g g' :
  ctl g' = ctl g -> subStateSound g -> subStateSound g'.
Proof.
  unfold ctl, subStateSound, strikeKnown, slipInForce. intros [= -> -> ->]. done.
Qed.

Lemma unrestricted_sound g : unrestricted g -> subStateSound g.
Proof. intros [H1 H2]. split; [done|]. intros H. by rewrite H2 in H. Qed.

Lemma stable_unrestricted {A} (c : M A) :
  (forall g, ctl (c g).2 = ctl g) -> keepsU c.
Proof. intros H g. by apply unrestricted_ctl. Qed.

Lemma stable_sound {A} (c : M A) :
  (forall g, ctl (c g).2 = ctl g) -> keepsS c.
Proof. intros H g. by apply subStateSound_ctl. Qed.
End SubState.

Create HintDb ctl discriminated.
#[export] Hint Constants Opaque : ctl.

(** Closes a goal about the sub-state after one assignment. *)
Ltac ctl_facts :=
  unfold subStateSound, unrestricted, strikeKnown, slipInForce in *;
  cbn [gameSubState preciseStrikePlayer allowedPositions set_board
       set_currentPlayer set_gameState set_gameSubState set_gameResult
       set_moveHistory set_config set_aiTimer set_isAiCalculating
       set_blindBoxes set_playerItems set_activeEffects set_lastItemUsed
       set_itemNameDisplayTimer set_strategyGuidePositions set_hasExtraMove
       set_nextPlayerHasExtraMove set_nextPlayerHasSlipPenalty
       set_allowedPositions set_notification set_notificationTimer
       set_preciseStrikePlayer set_preciseStrikeHasExtraMove
       set_gameMoveCountState set_gameStateChangeCallbacks set_runtime] in *;
  intuition (try congruence).

Ltac pres_rule_ctl :=
  lazymatch goal with
  | |- hoare _ (ret _) _ => apply pres_ret
  | |- hoare _ (bind (gets _) _) _ => apply pres_gets; intros ?
  | |- hoare _ (bind _ _) _ => apply pres_bind; [|intros ?]
  | |- hoare _ (when _ _) _ => apply pres_when
  | |- hoare _ (if _ then _ else _) _ => apply pres_if
  | |- hoare _ (match ?x with _ => _ end) _ => destruct x
  | |- hoare _ (modify _) _ =>
      apply hoare_modify; intros ? ?; first [assumption | solve [ctl_facts]]
  | |- hoare _ (liftR _) _ => apply hoare_liftR; intros ? ? ?; assumption
  end.

Ltac pres_ctl := repeat first [ solve [auto with ctl nocore] | pres_rule_ctl ].

Section SubStateKept.
Local Abbreviation keepsU c := (hoare unrestricted c unrestricted).
Local Abbreviation keepsS c := (hoare subStateSound c subStateSound).

Lemma stable_ctl : Stable ctl.
Proof. apply q_stable, quiet_ctl. Qed.

Lemma unmoved_ctl : Unmoved ctl.
Proof. by intros pos g. Qed.

Lemma clearIfSet_U h : keepsU (clearIfSet h).
Proof.
  apply stable_unrestricted. intros.
  apply clearIfSet_stable, stable_ctl.
Qed.
Lemma clearIfSet_S h : keepsS (clearIfSet h).
Proof. apply stable_sound. intros. apply clearIfSet_stable, stable_ctl. Qed.
Lemma showNotification_U m ms : keepsU (showNotification m ms).
Proof.
  apply stable_unrestricted. intros.
  apply showNotification_stable, stable_ctl.
Qed.
Lemma showNotification_S m ms : keepsS (showNotification m ms).
Proof.
  apply stable_sound. intros.
  apply showNotification_stable, stable_ctl.
Qed.
Lemma clearNotification_S : keepsS clearNotification.
Proof.
  apply stable_sound. intros.
  apply clearNotification_stable, stable_ctl.
Qed.
Lemma removeEffect_U p t : keepsU (removeEffect p t).
Proof.
  apply stable_unrestricted. intros.
  apply removeEffect_stable, stable_ctl.
Qed.
Lemma removeEffect_S p t : keepsS (removeEffect p t).
Proof. apply stable_sound. intros. apply removeEffect_stable, stable_ctl. Qed.
Lemma addContinuousEffect_U p t d : keepsU (addContinuousEffect p t d).
Proof.
  apply stable_unrestricted. intros.
  apply addContinuousEffect_stable, stable_ctl.
Qed.
Lemma boardRemoveStone_S pos : keepsS (boardRemoveStone pos).
Proof.
  apply stable_sound. intros.
  apply boardRemoveStone_stable, unmoved_ctl.
Qed.
Lemma performChaosStrike_U p : keepsU (performChaosStrike p).
Proof.
  apply stable_unrestricted. intros.
  apply performChaosStrike_stable; [apply stable_ctl|apply unmoved_ctl].
Qed.
Lemma performSelfMistake_U p : keepsU (performSelfMistake p).
Proof.
  apply stable_unrestricted. intros.
  apply performSelfMistake_stable; [apply stable_ctl|apply unmoved_ctl].
Qed.
Lemma performPreciseStrikeForAI_U p : keepsU (performPreciseStrikeForAI p).
Proof.
  apply stable_unrestricted. intros.
  apply performPreciseStrikeForAI_stable; [apply stable_ctl|apply unmoved_ctl].
Qed.
Lemma generateNewBlindBox_U : keepsU generateNewBlindBox.
Proof.
  apply stable_unrestricted. intros.
  apply generateNewBlindBox_stable, stable_ctl.
Qed.
Lemma generateNewBlindBox_S : keepsS generateNewBlindBox.
Proof.
  apply stable_sound. intros.
  apply generateNewBlindBox_stable, stable_ctl.
Qed.
Lemma scheduleAiTurn_S : keepsS scheduleAiTurn.
Proof.
  apply stable_sound. intros.
  apply scheduleAiTurn_stable, stable_ctl.
Qed.
Lemma notifyGameStateChange_S : keepsS notifyGameStateChange.
Proof.
  apply stable_sound. intros.
  apply notifyGameStateChange_stable, stable_ctl.
Qed.
Lemma recordMoveEvent_U t d i a : keepsU (recordMoveEvent t d i a).
Proof.
  apply stable_unrestricted. intros. apply recordMoveEvent_quiet, quiet_ctl.
Qed.
Lemma recordMoveEvent_S t d i a : keepsS (recordMoveEvent t d i a).
Proof.
  apply stable_sound. intros. apply recordMoveEvent_quiet, quiet_ctl.
Qed.
Lemma addExtraMove_U p s : keepsU (addExtraMove p s).
Proof.
  apply stable_unrestricted. intros.
  apply addExtraMove_quiet, quiet_ctl.
Qed.
Lemma refreshHasExtraMove_U p : keepsU (refreshHasExtraMove p).
Proof.
  apply stable_unrestricted. intros. apply refreshHasExtraMove_quiet, quiet_ctl.
Qed.
Lemma consumeExtraMove_S : keepsS consumeExtraMove.
Proof.
  apply stable_sound. intros.
  apply consumeExtraMove_quiet, quiet_ctl.
Qed.
Lemma grantOpponentAcceleration_S : keepsS grantOpponentAcceleration.
Proof.
  apply stable_sound. intros. apply grantOpponentAcceleration_quiet, quiet_ctl.
Qed.
Lemma validate_S : keepsS validateMoveCountConsistency.
Proof.
  apply stable_sound. intros.
  apply validateMoveCountConsistency_quiet, quiet_ctl.
Qed.
Lemma updMoveCount_S p h : keepsS (updMoveCount p h).
Proof. apply stable_sound. intros. apply updMoveCount_quiet, quiet_ctl. Qed.

Hint Resolve clearIfSet_U clearIfSet_S showNotification_U showNotification_S
  clearNotification_S removeEffect_U removeEffect_S addContinuousEffect_U
  boardRemoveStone_S performChaosStrike_U performSelfMistake_U
  performPreciseStrikeForAI_U generateNewBlindBox_U generateNewBlindBox_S
  scheduleAiTurn_S notifyGameStateChange_S recordMoveEvent_U
  recordMoveEvent_S addExtraMove_U refreshHasExtraMove_U consumeExtraMove_S
  grantOpponentAcceleration_S validate_S updMoveCount_S : ctl.

Lemma showStrategyGuide_U p : keepsU (showStrategyGuide p).
Proof. unfold showStrategyGuide. pres_ctl. Qed.
Hint Resolve showStrategyGuide_U : ctl.

Lemma triggerItemEffect_U t p : keepsU (triggerItemEffect t p).
Proof.
  unfold triggerItemEffect. destruct t; try solve [pres_ctl].
  apply pres_gets. intros ai. apply pres_if; [pres_ctl|].
  intros g Hg. mstep. ctl_facts.
Qed.
Hint Resolve triggerItemEffect_U : ctl.

Lemma openBlindBoxAtPosition_U pos : keepsU (openBlindBoxAtPosition pos).
Proof. unfold openBlindBoxAtPosition. pres_ctl. Qed.
Hint Resolve openBlindBoxAtPosition_U : ctl.

Lemma boardRemoveStone_U pos : keepsU (boardRemoveStone pos).
Proof.
  apply stable_unrestricted. intros.
  apply boardRemoveStone_stable, unmoved_ctl.
Qed.
Lemma scheduleAiTurn_U : keepsU scheduleAiTurn.
Proof.
  apply stable_unrestricted. intros.
  apply scheduleAiTurn_stable, stable_ctl.
Qed.
Hint Resolve boardRemoveStone_U scheduleAiTurn_U : ctl.

Lemma imposeSlipPenalty_S : keepsS imposeSlipPenalty.
Proof.
  unfold imposeSlipPenalty. apply pres_gets. intros next. apply pres_when.
  apply (hoare_bind _ (fun _ => True)); [done|]. intros _.
  apply (hoare_bind _ subStateSound); [|intros _; pres_ctl].
  apply hoare_modify. intros g _. ctl_facts.
Qed.

(** While a target is being selected no restriction is in force. *)
Lemma selecting_unrestricted g :
  subStateSound g -> gameSubState g = SELECTING_STRIKE_TARGET ->
  unrestricted g.
Proof.
  intros [H1 H2] Hs. split; [done|].
  destruct (allowedPositions g) eqn:Ha; [done|].
  unfold slipInForce in H2. rewrite Ha in H2. rewrite H2 in Hs; done.
Qed.

Lemma settled_unrestricted g : settled g -> unrestricted g.
Proof. intros [H1 H2]. split; [|done]. intros H. congruence. Qed.

Lemma selectStrikeTarget_U pos : keepsU (selectStrikeTarget pos).
Proof.
  unfold selectStrikeTarget. apply pres_gets. intros [triggerPlayer|].
  2: { pres_ctl. }
  apply pres_gets. intros b. apply pres_if; [|pres_ctl].
  apply pres_gets. intros effects.
  apply pres_bind; [pres_ctl|]. intros _.
  apply (hoare_bind _ settled).
  { apply hoare_modify. intros g [_ Ha]. by split. }
  intros _. apply (hoare_bind _ settled).
  { apply hoare_modify. by intros g [? ?]. }
  intros _. apply (hoare_bind _ settled).
  { apply hoare_modify. by intros g [? ?]. }
  intros _. apply (hoare_bind _ unrestricted).
  { apply hoare_modify. intros g Hg. by apply settled_unrestricted. }
  intros _. pres_ctl.
Qed.
End SubStateKept.

#[export] Hint Resolve clearIfSet_U clearIfSet_S showNotification_U
  showNotification_S clearNotification_S removeEffect_U removeEffect_S
  addContinuousEffect_U boardRemoveStone_S performChaosStrike_U
  performSelfMistake_U performPreciseStrikeForAI_U generateNewBlindBox_U
  generateNewBlindBox_S scheduleAiTurn_S notifyGameStateChange_S
  recordMoveEvent_U recordMoveEvent_S addExtraMove_U refreshHasExtraMove_U
  consumeExtraMove_S grantOpponentAcceleration_S validate_S updMoveCount_S
  showStrategyGuide_U triggerItemEffect_U openBlindBoxAtPosition_U
  boardRemoveStone_U scheduleAiTurn_U imposeSlipPenalty_S selectStrikeTarget_U
  : ctl.

Section SubStateMoves.
Local Abbreviation keepsU c := (hoare unrestricted c unrestricted).
Local Abbreviation keepsS c := (hoare subStateSound c subStateSound).

(** The part of [afterMove] and [afterAIMove] that follows the opening of
    the blind box, once the restriction is lifted. *)
Lemma turn_ends {A} (c : M A) :
  keepsS c -> hoare unrestricted c subStateSound.
Proof. intros H. eapply hoare_pre; [exact H|]. apply unrestricted_sound. Qed.

Lemma afterMove_S pos :
  hoare (fun g => subStateSound g /\ passes pos g) (afterMove pos)
    subStateSound.
Proof.
  unfold afterMove. apply hoare_gets. intros allowed.
  apply (hoare_bind _ unrestricted).
  { apply hoare_when.
    - intros Hc. apply (hoare_bind _ unrestricted).
      + apply hoare_modify. intros g [[[Hk _] _] _]. by split.
      + intros _. pres_ctl.
    - intros Hc g [[[Hk Hs] Hp] <-]. split; [done|].
      unfold passes in Hp. destruct (allowedPositions g); [done|].
      simpl in *. rewrite andb_true_r in Hc.
      apply negb_false_iff in Hp. congruence. }
  intros ?. apply hoare_read. intros sub.
  apply (hoare_bind _ unrestricted); [solve [pres_ctl]|]. intros ?.
  apply (hoare_bind _ unrestricted); [solve [pres_ctl]|]. intros ?.
  apply hoare_read. intros sub'. apply hoare_read. intros items.
  destruct (_ && _).
  { apply (hoare_bind _ unrestricted); [solve [pres_ctl]|]. intros ?.
    apply hoare_ret, unrestricted_sound. }
  apply (hoare_bind _ unrestricted); [solve [pres_ctl]|]. intros ?.
  apply turn_ends. pres_ctl.
Qed.

Lemma pushMoveHistory_ctl pos g : ctl (pushMoveHistory pos g).2 = ctl g.
Proof. done. Qed.

Lemma boardPlaceStone_ctl pos pl g : ctl (boardPlaceStone pos pl g).2 = ctl g.
Proof. unfold boardPlaceStone. mstep. by destruct (Board.placeStone _ _ _ _).1. Qed.

Lemma finish_ctl r g : ctl (finish r g).2 = ctl g.
Proof. done. Qed.

Lemma finish_S r : keepsS (finish r).
Proof. apply stable_sound, finish_ctl. Qed.
Lemma pushMoveHistory_S pos : keepsS (pushMoveHistory pos).
Proof. apply stable_sound, pushMoveHistory_ctl. Qed.
Lemma boardPlaceStone_S pos pl : keepsS (boardPlaceStone pos pl).
Proof. apply stable_sound, boardPlaceStone_ctl. Qed.
Hint Resolve finish_S pushMoveHistory_S boardPlaceStone_S : ctl.

Lemma passes_ctl pos g g' :
  ctl g' = ctl g -> subStateSound g /\ passes pos g ->
  subStateSound g' /\ passes pos g'.
Proof.
  intros Hc [Hs Hp]. split; [by eapply subStateSound_ctl|].
  unfold passes, ctl in *. by injection Hc as _ _ ->.
Qed.

Lemma settleMove_S pos :
  hoare (fun g => subStateSound g /\ passes pos g) (settleMove pos)
    subStateSound.
Proof.
  unfold settleMove.
  apply (hoare_bind _ (fun g => subStateSound g /\ passes pos g)).
  { intros g. by apply passes_ctl. }
  intros _. apply hoare_gets. intros extra.
  apply (hoare_bind _ (fun g => subStateSound g /\ passes pos g)).
  { intros g [Hg _]. apply (passes_ctl pos g); [|done].
    destruct extra; apply recordMoveEvent_quiet, quiet_ctl. }
  intros _. apply hoare_gets. intros g0.
  destruct (bool_decide _).
  { apply (hoare_pre _ subStateSound); [pres_ctl|by intros g [[? _] _]]. }
  destruct (isFull _).
  { apply (hoare_pre _ subStateSound); [pres_ctl|by intros g [[? _] _]]. }
  eapply hoare_pre; [apply afterMove_S|]. by intros g [? _].
Qed.

Lemma makeMove_S pos : keepsS (makeMove pos).
Proof.
  unfold makeMove. apply pres_gets. intros st. apply pres_if; [solve [pres_ctl]|].
  apply pres_gets. intros ai. apply pres_if; [solve [pres_ctl]|].
  apply hoare_gets. intros sub. case_bool_decide as Hsub.
  { eapply hoare_conseq; [apply selectStrikeTarget_U| |apply unrestricted_sound].
    intros g [Hg <-]. by apply selecting_unrestricted. }
  apply hoare_gets. intros allowed.
  destruct (_ && _) eqn:Hpass.
  { apply hoare_ret. by intros g [[? _] _]. }
  apply hoare_gets. intros cur.
  apply (hoare_bind _ (fun g => subStateSound g /\ passes pos g)).
  { intros g [[[Hg _] <-] _].
    apply (passes_ctl pos g); [apply boardPlaceStone_ctl|]. by split. }
  intros placed. destruct placed; simpl; [apply settleMove_S|].
  apply hoare_ret. by intros g [? _].
Qed.

Lemma afterAIMove_S pos : keepsS (afterAIMove pos).
Proof.
  unfold afterAIMove. apply hoare_gets. intros sub.
  apply (hoare_bind _ unrestricted).
  { apply hoare_when.
    - intros _. intros g _. mstep. split; [|done]. intros H. simpl in H. done.
    - intros Hsub%bool_decide_eq_false g [[Hk Hs] <-]. split; [done|].
      destruct (allowedPositions g) eqn:Ha; [done|].
      exfalso. apply Hsub, Hs. by rewrite Ha. }
  intros ?. apply (hoare_bind _ unrestricted); [solve [pres_ctl]|]. intros ?.
  apply hoare_read. intros items.
  apply (hoare_bind _ unrestricted); [solve [pres_ctl]|].
  intros ?. apply turn_ends. pres_ctl.
Qed.

Lemma settleAIMove_S pos : keepsS (settleAIMove pos).
Proof.
  pose proof (afterAIMove_S pos). unfold settleAIMove. pres_ctl.
Qed.

Lemma makeAIMove_S : keepsS makeAIMove.
Proof.
  pose proof settleAIMove_S. unfold makeAIMove. pres_ctl.
Qed.
End SubStateMoves.

#[export] Hint Resolve finish_S pushMoveHistory_S boardPlaceStone_S : ctl.

Section SubStateControl.
Local Abbreviation keepsS c := (hoare subStateSound c subStateSound).

Lemma settled_sound g : settled g -> subStateSound g.
Proof.
  intros [H1 H2]. split; [intros H; congruence|]. intros H. by rewrite H2 in H.
Qed.

Lemma settled_ctl g g' : ctl g' = ctl g -> settled g -> settled g'.
Proof. unfold ctl, settled. by intros [= -> _ ->]. Qed.

Ltac settled_rule :=
  lazymatch goal with
  | |- hoare _ (ret _) _ => apply pres_ret
  | |- hoare _ (bind (gets _) _) _ => apply pres_gets; intros ?
  | |- hoare _ (bind _ _) _ => apply pres_bind; [|intros ?]
  | |- hoare _ (when _ _) _ => apply pres_when
  | |- hoare _ (if _ then _ else _) _ => apply pres_if
  | |- hoare _ (modify _) _ => apply hoare_modify; intros ? ?; assumption
  | |- hoare settled (clearIfSet _) _ =>
      intros ?; apply settled_ctl, clearIfSet_stable, stable_ctl
  | |- hoare settled clearNotification _ =>
      intros ?; apply settled_ctl, clearNotification_stable, stable_ctl
  | |- hoare settled scheduleAiTurn _ =>
      intros ?; apply settled_ctl, scheduleAiTurn_stable, stable_ctl
  end.

(** Walks to the assignment [gameSubState = NORMAL], then to
    [allowedPositions = []], from where [settled] holds to the end. *)
Ltac to_settled :=
  repeat lazymatch goal with
    | |- hoare (fun _ => True) (bind (modify (set_gameSubState NORMAL)) _) _ =>
        fail
    | |- hoare (fun _ => True) (bind (gets _) _) _ =>
        apply hoare_read; intros ?
    | |- hoare (fun _ => True) (bind _ _) _ =>
        apply (hoare_bind _ (fun _ => True)); [done|]; intros ?
    end;
  apply (hoare_bind _ (fun g => gameSubState g = NORMAL));
    [by apply hoare_modify|]; intros ?;
  repeat lazymatch goal with
    | |- hoare _ (bind (modify (set_allowedPositions [])) _) _ => fail
    | |- hoare _ (bind _ _) _ =>
        apply (hoare_bind _ (fun g => gameSubState g = NORMAL));
          [by apply hoare_modify|]; intros ?
    end;
  apply (hoare_bind _ settled); [apply hoare_modify; by intros g Hg|];
  intros ?; repeat settled_rule.

Lemma startNewGame_settles : hoare (fun _ => True) startNewGame settled.
Proof. unfold startNewGame. to_settled. Qed.

Lemma startNewGame_S : keepsS startNewGame.
Proof.
  eapply hoare_conseq; [apply startNewGame_settles|done|apply settled_sound].
Qed.

Lemma undoMove_S : keepsS undoMove.
Proof.
  unfold undoMove. apply pres_gets. intros g0.
  destruct (last _); [|pres_ctl]. apply pres_if; [pres_ctl|].
  apply (hoare_conseq _ (fun _ => True) _ settled);
    [|done|apply settled_sound].
  to_settled.
Qed.
End SubStateControl.

#[export] Hint Resolve makeMove_S makeAIMove_S startNewGame_S undoMove_S : ctl.

Section SubStateReachable.
Local Abbreviation keepsS c := (hoare subStateSound c subStateSound).

Lemma setBoardSize_S n : keepsS (setBoardSize n).
Proof. unfold setBoardSize. pres_ctl. Qed.

Lemma runTimer_S a : keepsS (runTimer a).
Proof.
  unfold runTimer. destruct a; try solve [pres_ctl].
  apply hoare_gets. intros sub. apply (hoare_bind _ subStateSound).
  - apply hoare_when.
    + intros Hs%bool_decide_eq_true. apply hoare_modify.
      intros g [[_ Hr] <-]. split; [intros Hn; simpl in Hn; congruence|].
      intros Hn. exfalso. simpl in Hn. apply Hr in Hn. congruence.
    + by intros _ g [? _].
  - intros ?. pres_ctl.
Qed.

Lemma handle_S e : keepsS (handle e).
Proof.
  pose proof setBoardSize_S. pose proof runTimer_S.
  unfold handle, fire, setConfig, restart, pause, resume, onGameStateChange,
    offGameStateChange.
  destruct e; pres_ctl.
Qed.

Lemma newGame_sound n rt : subStateSound (newGame n rt).
Proof.
  split; [intros Hn; simpl in Hn; congruence|]. intros Hn. by simpl in Hn.
Qed.

Lemma reachable_sound g : reachable g -> subStateSound g.
Proof.
  induction 1 as [fifteen rt _|g e _ IH _]; [apply newGame_sound|].
  by apply handle_S.
Qed.
End SubStateReachable.

(** * Footprints of the procedures *)

Section Frames.
Context {X : Type} (f : GomokuGame -> X).

Lemma frames_ret {A} (a : A) : frames f (ret a).
Proof. by intros g. Qed.

Lemma frames_bind {A B} (c : M A) (k : A -> M B) :
  frames f c -> (forall a, frames f (k a)) -> frames f (bind c k).
Proof. intros Hc Hk g. simpl. by rewrite Hk, Hc. Qed.

Lemma frames_gets {A B} (h : GomokuGame -> A) (k : A -> M B) :
  (forall a, frames f (k a)) -> frames f (bind (gets h) k).
Proof. intros Hk g. apply Hk. Qed.

Lemma frames_modify (m : GomokuGame -> GomokuGame) :
  (forall g, f (m g) = f g) -> frames f (modify m).
Proof. intros H g. apply H. Qed.

Lemma frames_when (b : bool) (c : M unit) : frames f c -> frames f (when b c).
Proof. intros Hc g. simpl. destruct b; [apply Hc|done]. Qed.

Lemma frames_if {A} (b : bool) (c1 c2 : M A) :
  frames f c1 -> frames f c2 -> frames f (if b then c1 else c2).
Proof. by destruct b. Qed.

Lemma frames_liftR {A} (c : R A) :
  (forall r g, f (set_runtime r g) = f g) -> frames f (liftR c).
Proof. intros H g. apply H. Qed.
End Frames.

Section DeepViews.
Context {X : Type} (f : GomokuGame -> X).
Hypothesis (Hf : Stable f) (Hd : Deep f) (Hr : Unmoved f).

Ltac one_field :=
  cbv beta;
  first
    [ apply (st_runtime _ Hf) | apply (st_notification _ Hf)
    | apply (st_notificationTimer _ Hf) | apply (st_playerItems _ Hf)
    | apply (st_activeEffects _ Hf) | apply (st_blindBoxes _ Hf)
    | apply (st_lastItemUsed _ Hf) | apply (st_itemNameDisplayTimer _ Hf)
    | apply (st_isAiCalculating _ Hf) | apply (st_aiTimer _ Hf)
    | apply (st_strategyGuidePositions _ Hf)
    | apply (st_preciseStrikeHasExtraMove _ Hf)
    | apply (st_nextPlayerHasExtraMove _ Hf)
    | apply (st_nextPlayerHasSlipPenalty _ Hf)
    | apply (st_hasExtraMove _ Hf) | apply (d_currentPlayer _ Hd)
    | apply (d_gameSubState _ Hd) | apply (d_preciseStrikePlayer _ Hd)
    | apply (d_allowedPositions _ Hd) ].

Ltac frames_rule known :=
  lazymatch goal with
  | |- frames _ (ret _) => apply frames_ret
  | |- frames _ (bind (gets _) _) => apply frames_gets; intros ?
  | |- frames _ (bind _ _) => apply frames_bind; [|intros ?]
  | |- frames _ (when _ _) => apply frames_when
  | |- frames _ (if _ then _ else _) => apply frames_if
  | |- frames _ (match ?x with _ => _ end) => destruct x
  | |- frames _ (modify _) => apply frames_modify; intros ?; one_field
  | |- frames _ (liftR _) => apply frames_liftR, (st_runtime _ Hf)
  | |- frames _ _ => known
  end.

Ltac stable_calls :=
  idtac; intros ?;
  lazymatch goal with
  | |- _ (scheduleAiTurn _).2 = _ => apply scheduleAiTurn_stable
  | |- _ (showNotification _ _ _).2 = _ => apply showNotification_stable
  | |- _ (removeEffect _ _ _).2 = _ => apply removeEffect_stable
  | |- _ (boardRemoveStone _ _).2 = _ => apply boardRemoveStone_stable
  | |- _ (clearIfSet _ _).2 = _ => apply clearIfSet_stable
  | |- _ (performChaosStrike _ _).2 = _ => apply performChaosStrike_stable
  | |- _ (performSelfMistake _ _).2 = _ => apply performSelfMistake_stable
  | |- _ (performPreciseStrikeForAI _ _).2 = _ =>
      apply performPreciseStrikeForAI_stable
  | |- _ (addContinuousEffect _ _ _ _).2 = _ =>
      apply addContinuousEffect_stable
  | |- _ (generateNewBlindBox _).2 = _ => apply generateNewBlindBox_stable
  | |- _ (notifyGameStateChange _).2 = _ => apply notifyGameStateChange_stable
  end; assumption.

Lemma selectStrikeTarget_deep pos : frames f (selectStrikeTarget pos).
Proof. unfold selectStrikeTarget. repeat frames_rule stable_calls. Qed.

Lemma showStrategyGuide_deep p : frames f (showStrategyGuide p).
Proof. unfold showStrategyGuide. repeat frames_rule fail. Qed.

Lemma pickAllowed_deep n l : frames f (pickAllowed n l).
Proof.
  revert l. induction n as [|n IH]; intros l; simpl;
    repeat frames_rule
      ltac:(idtac;
            lazymatch goal with |- frames _ (pickAllowed _ _) => apply IH end).
Qed.

Lemma imposeSlipPenalty_deep : frames f imposeSlipPenalty.
Proof.
  unfold imposeSlipPenalty, applySlipPenalty.
  repeat frames_rule
    ltac:(idtac; lazymatch goal with
          | |- frames _ (pickAllowed _ _) => apply pickAllowed_deep
          end).
Qed.

Hypothesis Hm : forall v g, f (set_gameMoveCountState v g) = f g.
Local Abbreviation Hq := ({| q_stable := Hf; q_moveCount := Hm |} : Quiet f).

Ltac quiet_calls :=
  idtac;
  lazymatch goal with
  | |- frames _ (refreshHasExtraMove _) =>
      intros ?; apply (refreshHasExtraMove_quiet f Hq)
  | |- frames _ (addExtraMove _ _) => intros ?; apply (addExtraMove_quiet f Hq)
  | |- frames _ consumeExtraMove => intros ?; apply (consumeExtraMove_quiet f Hq)
  | |- frames _ (recordMoveEvent _ _ _ _) =>
      intros ?; apply (recordMoveEvent_quiet f Hq)
  | |- frames _ grantOpponentAcceleration =>
      intros ?; apply (grantOpponentAcceleration_quiet f Hq)
  | |- _ => stable_calls
  end.

Lemma triggerItemEffect_deep t p : frames f (triggerItemEffect t p).
Proof.
  unfold triggerItemEffect.
  destruct t;
    repeat frames_rule
      ltac:(idtac; lazymatch goal with
            | |- frames _ (showStrategyGuide _) => apply showStrategyGuide_deep
            | |- _ => quiet_calls
            end).
Qed.

Lemma openBlindBoxAtPosition_deep pos : frames f (openBlindBoxAtPosition pos).
Proof.
  unfold openBlindBoxAtPosition.
  repeat frames_rule
    ltac:(idtac; lazymatch goal with
          | |- frames _ (triggerItemEffect _ _) => apply triggerItemEffect_deep
          | |- _ => quiet_calls
          end).
Qed.

Lemma afterAIMove_deep pos : frames f (afterAIMove pos).
Proof.
  unfold afterAIMove.
  repeat frames_rule
    ltac:(idtac; lazymatch goal with
          | |- frames _ (openBlindBoxAtPosition _) =>
              apply openBlindBoxAtPosition_deep
          | |- _ => quiet_calls
          end).
Qed.
End DeepViews.

(** * AI move selection *)

Section SlipPenaltyFootprint.
Context {X : Type} (f : GomokuGame -> X).
Hypothesis Hrt : forall v g, f (set_runtime v g) = f g.
Hypothesis Hal : forall v g, f (set_allowedPositions v g) = f g.

Lemma pickAllowed_frames n l : frames f (pickAllowed n l).
Proof.
  revert l. induction n as [|n IH]; intros l; simpl; [apply frames_ret|].
  apply frames_if; [|apply frames_ret].
  apply frames_bind; [by apply frames_liftR|]. intros r.
  apply frames_bind; [|intros ?; apply IH].
  destruct (arrayGet _ _); [|apply frames_ret].
  apply frames_modify. intros g. apply Hal.
Qed.

Hypothesis Hsub : forall v g, f (set_gameSubState v g) = f g.
Hypothesis Hnext : forall v g, f (set_nextPlayerHasSlipPenalty v g) = f g.

Lemma imposeSlipPenalty_frames : frames f imposeSlipPenalty.
Proof.
  unfold imposeSlipPenalty, applySlipPenalty.
  apply frames_gets. intros next. apply frames_when.
  apply frames_bind; [|intros ?].
  - apply frames_bind; [by apply frames_modify|]. intros ?.
    apply frames_gets. intros b. apply pickAllowed_frames.
  - apply frames_bind; [by apply frames_modify|]. intros ?.
    by apply frames_modify.
Qed.
End SlipPenaltyFootprint.

Section AIMove.
Implicit Types (g : GomokuGame) (best : Position).

Lemma removeStone_moves b pos : Board.moves (Board.removeStone b pos).2 = Board.moves b.
Proof. unfold Board.removeStone. by repeat case_match. Qed.

Lemma stable_moveHistory : Stable moveHistory.
Proof. by split. Qed.
Lemma deep_moveHistory : Deep moveHistory.
Proof. by split. Qed.
Lemma stable_stack : Stable stack.
Proof. by split. Qed.
Lemma deep_stack : Deep stack.
Proof. by split. Qed.
Lemma unmoved_stack : Unmoved stack.
Proof. intros pos g. apply removeStone_moves. Qed.

Lemma settleAIMove_moveHistory best g :
  exists t,
    moveHistory (settleAIMove best g).2
    = moveHistory g ++ [mkMove best (currentPlayer g) t].
Proof.
  unfold settleAIMove. mstep.
  set (g1 := (boardPlaceStone best (currentPlayer g) g).2).
  assert (moveHistory g1 = moveHistory g /\ currentPlayer g1 = currentPlayer g)
    as [Hh Hc].
  { unfold g1, boardPlaceStone. mstep. by destruct (Board.placeStone _ _ _ _).1. }
  exists (nextNow g1).
  assert (moveHistory (pushMoveHistory best g1).2
          = moveHistory g ++ [mkMove best (currentPlayer g) (nextNow g1)]) as Hp.
  { unfold pushMoveHistory, nextNow. mstep. simpl. by rewrite Hh, Hc. }
  repeat split_test; [done|done|].
  rewrite afterAIMove_deep;
    [done|apply stable_moveHistory|apply deep_moveHistory|done|done].
Qed.

Lemma settleAIMove_stack best g :
  Board.isEmpty (board g) best = true ->
  stack (settleAIMove best g).2
  = stack g ++ [mkMove best (currentPlayer g) (nextNow g)].
Proof.
  intros He. unfold settleAIMove. mstep.
  destruct (boardPlaceStone_empty g best (currentPlayer g) He) as (_ & Hb & _).
  set (g1 := (boardPlaceStone best (currentPlayer g) g).2) in *.
  assert (stack (pushMoveHistory best g1).2
          = stack g ++ [mkMove best (currentPlayer g) (nextNow g)]) as Hp.
  { unfold stack. change (board (pushMoveHistory best g1).2) with (board g1).
    rewrite Hb. unfold withStone, Board.placeStone. by rewrite He. }
  repeat split_test; [done|done|].
  rewrite afterAIMove_deep;
    [done|apply stable_stack|apply deep_stack|apply unmoved_stack|done].
Qed.

Lemma aiChoice_firstBest g best :
  aiChoice g = Some best ->
  firstBest (evaluatePosition (imposeSlipPenalty g).2)
    (aiCandidates (imposeSlipPenalty g).2) best.
Proof.
  unfold aiChoice. destruct (aiCandidates _) as [|first l] eqn:Hc; [done|].
  intros [= <-]. by apply chooseBest_firstBest.
Qed.

Lemma firstBest_In score l best : firstBest score l best -> In best l.
Proof. intros (l1 & l2 & -> & _). apply in_app_iff. right. by left. Qed.

Lemma firstBest_max score l best c :
  firstBest score l best -> In c l -> score c <= score best.
Proof.
  intros (l1 & l2 & -> & H1 & H2) [Hc|[<-|Hc]]%in_app_iff; [|lia|by apply H2].
  specialize (H1 c Hc). lia.
Qed.

Lemma firstBest_scan b score best c :
  firstBest score (emptyCells b) best -> Board.isEmpty b c = true ->
  rowMajorBefore c best -> score c < score best.
Proof.
  intros (l1 & l2 & Hl & H1 & _) Hc Hb. apply H1.
  eapply (sorted_before (emptyCells b)); [|done|by apply emptyCells_spec|done].
  apply filter_sorted, scan_sorted.
Qed.
End AIMove.

(** C9, amended: the AI plays the first cell of highest score in its list of
    candidates. Under a hand-slip penalty, that is when the sub-state is
    HAND_SLIP_PENALTY and there are allowed positions, the candidates are
    the allowed positions and nothing else, in the order they were drawn.
    Without one, and only then, they are the empty cells in the scan
    [for y: for x], so that every empty cell scores no more than the chosen
    one and every empty cell before it in the scan scores less. *)
Theorem ai_move_selection (g : GomokuGame) (best : Position) :
  gameState g = PLAYING -> aiChoice g = Some best ->
  let g1 := (imposeSlipPenalty g).2 in
  let score := evaluatePosition g1 in
  let restricted :=
    gameSubState g1 = HAND_SLIP_PENALTY /\ allowedPositions g1 <> [] in
  firstBest score (aiCandidates g1) best
  /\ (forall c, In c (aiCandidates g1) -> score c <= score best)
  /\ ((restricted /\ aiCandidates g1 = allowedPositions g1)
      \/ (~ restricted
          /\ aiCandidates g1 = emptyCells (board g1)
          /\ Board.isEmpty (board g1) best = true
          /\ forall c, Board.isEmpty (board g1) c = true ->
               score c <= score best
               /\ (rowMajorBefore c best -> score c < score best)))
  /\ (exists t,
        moveHistory (makeAIMove g).2
        = moveHistory g ++ [mkMove best (currentPlayer g) t])
  /\ (Board.isEmpty (board g1) best = true ->
      stack (makeAIMove g).2
      = stack g ++ [mkMove best (currentPlayer g) (nextNow g1)]).
Proof.
  intros Hst Hch g1 score restricted.
  pose proof (aiChoice_firstBest g best Hch) as Hfb. fold g1 score in Hfb.
  assert (moveHistory g1 = moveHistory g /\ currentPlayer g1 = currentPlayer g
          /\ stack g1 = stack g) as (Hh & Hc & Hs).
  { unfold g1. split; [|split]; by apply imposeSlipPenalty_frames. }
  rewrite (makeAIMove_choice g best Hst Hch). fold g1.
  split; [done|]. split; [intros c; by apply firstBest_max|]. split; [|split].
  - unfold aiCandidates in *.
    destruct (bool_decide (gameSubState g1 = HAND_SLIP_PENALTY)
              && (0 <? length (allowedPositions g1))%nat) eqn:Hr.
    + left. apply andb_true_iff in Hr as [Hsub%bool_decide_eq_true Hlen].
      split; [|done]. split; [done|]. by destruct (allowedPositions g1).
    + right. split.
      { intros [Hsub Hne]. apply andb_false_iff in Hr as [Hr|Hr].
        - by apply bool_decide_eq_false in Hr.
        - destruct (allowedPositions g1); [done|discriminate]. }
      split; [done|].
      split; [by apply emptyCells_spec, (firstBest_In score)|].
      intros c Hce. split.
      * apply (firstBest_max score _ _ _ Hfb). by apply emptyCells_spec.
      * by apply (firstBest_scan (board g1)).
  - destruct (settleAIMove_moveHistory best g1) as [t Ht]. exists t.
    by rewrite Ht, Hh, Hc.
  - intros He. by rewrite (settleAIMove_stack best g1 He), Hs, Hc.
Qed.

(** * Strike target selection *)

Section StrikeTarget.
Implicit Types (g : GomokuGame) (pos : Position).

Lemma removeStone_noNewStone b pos : noNewStone b (Board.removeStone b pos).2.
Proof.
  intros q pl. unfold Board.removeStone.
  destruct (Board.isValidPosition b pos) eqn:Hv; simpl; [|done].
  case_bool_decide; simpl; [done|].
  destruct (decide (pos = q)) as [<-|Hne].
  - unfold Board.getStone.
    change (Board.isValidPosition (Board.mk _ _ _) pos)
      with (Board.isValidPosition b pos).
    rewrite Hv. simpl.
    destruct (Board.cell (Board.grid b) pos) as [c|] eqn:Hc.
    + by rewrite (cell_setCell_eq _ _ _ _ Hc).
    + unfold Board.cell, Board.setCell in *.
      rewrite list_lookup_alter_eq.
      destruct (Board.grid b !! Z.to_nat (Position.y pos)) as [row|]; [|done].
      simpl in *. destruct (decide (Z.to_nat (Position.x pos) < length row)%nat).
      * apply lookup_lt_is_Some_2 in l as [? Hl]. by rewrite Hl in Hc.
      * rewrite list_insert_ge by lia. by rewrite Hc.
  - by rewrite getStone_setCell_ne.
Qed.

Lemma selectStrikeTarget_noNewStone b0 pos :
  hoare (fun g => noNewStone b0 (board g)) (selectStrikeTarget pos)
    (fun g => noNewStone b0 (board g)).
Proof.
  assert (Hst : Stable board) by (by split).
  unfold selectStrikeTarget.
  repeat first
    [ pres_rule
    | lazymatch goal with
      | |- hoare _ (removeEffect _ _) _ =>
          apply (hoare_view board); intros ?; by apply removeEffect_stable
      | |- hoare _ (showNotification _ _) _ =>
          apply (hoare_view board); intros ?; by apply showNotification_stable
      | |- hoare _ scheduleAiTurn _ =>
          apply (hoare_view board); intros ?; by apply scheduleAiTurn_stable
      | |- hoare _ (boardRemoveStone _) _ =>
          intros g Hg q pl Hq; apply Hg;
          by apply (removeStone_noNewStone (board g) pos)
      end ].
Qed.

Lemma selectStrikeTarget_false pos g : (selectStrikeTarget pos g).1 = false.
Proof.
  unfold selectStrikeTarget. mstep.
  destruct (preciseStrikePlayer g); [|done]. mstep.
  by destruct (bool_decide _).
Qed.

Lemma selectStrikeTarget_miss pos g tp :
  preciseStrikePlayer g = Some tp ->
  Board.getStone (board g) pos <> Some (other tp) ->
  selectStrikeTarget pos g = (false, g).
Proof.
  intros Htp Hmiss. unfold selectStrikeTarget. mstep. rewrite Htp. mstep.
  by rewrite bool_decide_false.
Qed.

Lemma makeMove_selecting pos g :
  gameSubState g = SELECTING_STRIKE_TARGET ->
  makeMove pos g = (false, g) \/ makeMove pos g = selectStrikeTarget pos g.
Proof.
  intros Hs. unfold makeMove. mstep.
  destruct (bool_decide (gameState g = PLAYING)); mstep; [|by left].
  destruct (aiToMove g); mstep; [by left|].
  rewrite Hs. rewrite bool_decide_true by done. by right.
Qed.
End StrikeTarget.

(** C5: in a reachable state in the sub-state SELECTING_STRIKE_TARGET,
    [makeMove] returns false, records no move and adds no stone to the
    board; the player who triggered the strike is known, and a position
    that does not hold a stone of the opponent leaves the whole state,
    sub-state included, unchanged. *)
Theorem strike_target_selection (g : GomokuGame) (pos : Position) :
  reachable g -> gameSubState g = SELECTING_STRIKE_TARGET ->
  (makeMove pos g).1 = false
  /\ moveHistory (makeMove pos g).2 = moveHistory g
  /\ stack (makeMove pos g).2 = stack g
  /\ gameMoveCountState (makeMove pos g).2 = gameMoveCountState g
  /\ noNewStone (board g) (board (makeMove pos g).2)
  /\ exists trigger,
       preciseStrikePlayer g = Some trigger
       /\ (Board.getStone (board g) pos <> Some (other trigger) ->
           makeMove pos g = (false, g)).
Proof.
  intros Hreach Hsub.
  destruct (reachable_sound g Hreach) as [Hknown _].
  destruct (preciseStrikePlayer g) as [trigger|] eqn:Htp; [|by destruct Hknown].
  destruct (makeMove_selecting pos g Hsub) as [-> | ->]; simpl.
  { split; [done|]. split; [done|]. split; [done|]. split; [done|].
    split; [by intros q pl|]. by exists trigger. }
  split; [apply selectStrikeTarget_false|].
  split; [apply selectStrikeTarget_deep; by split|].
  split; [apply selectStrikeTarget_deep;
          [apply stable_stack|apply deep_stack|apply unmoved_stack]|].
  split; [apply selectStrikeTarget_deep; by split|].
  split; [apply (selectStrikeTarget_noNewStone (board g) pos g); by intros q pl|].
  exists trigger. split; [done|]. intros Hmiss.
  by apply selectStrikeTarget_miss with trigger.
Qed.

(** * Numbers

    The arithmetic of doubles behind [floorMul]: the roundings, and the
    bounds that keep a random index inside the array. *)

Lemma pow2_pos (e : Z) : (0 < 2 ^ e)%Q.
Proof. apply Qpower_0_lt. reflexivity. Qed.

Lemma pow2_split (a b : Z) : (2 ^ (a + b) == 2 ^ a * 2 ^ b)%Q.
Proof. apply Qpower_plus. discriminate. Qed.

Lemma pow2_le (a b : Z) : a <= b -> (2 ^ a <= 2 ^ b)%Q.
Proof.
  intros H. apply Qpower_le_compat_l; [exact H|]. discriminate.
Qed.

Lemma pow2_Z (a : Z) : 0 <= a -> (inject_Z (2 ^ a) == 2 ^ a)%Q.
Proof. intros H. rewrite Zpower_Qpower by exact H. reflexivity. Qed.

Lemma scaled_back (x u : Q) : (0 < u)%Q -> (x / u * u == x)%Q.
Proof. intros H. field. intros E. rewrite E in H. discriminate. Qed.

Lemma roundHalfEven_le (y : Q) :
  (inject_Z (roundHalfEven y) <= y + (1 # 2))%Q.
Proof.
  unfold roundHalfEven.
  pose proof (Qfloor_le y) as Hlo.
  destruct (Qcompare_spec (y - inject_Z (Qfloor y)) (1 # 2)) as [E|L|G].
  - destruct (Z.even (Qfloor y)); [lra|].
    rewrite inject_Z_plus. change (inject_Z 1) with 1%Q. lra.
  - lra.
  - rewrite inject_Z_plus. change (inject_Z 1) with 1%Q. lra.
Qed.

Lemma roundHalfEven_nonneg (y : Q) : (0 <= y)%Q -> 0 <= roundHalfEven y.
Proof.
  intros H. pose proof (Qfloor_resp_le _ _ H) as Hf.
  change (Qfloor 0) with 0 in Hf. unfold roundHalfEven.
  destruct (_ ?= _)%Q; [destruct (Z.even _)|..]; lia.
Qed.

Lemma exponent_least (x : Q) : - 1074 <= exponent x.
Proof. unfold exponent. lia. Qed.

(** A normal [x] is at least [2^52] of its spacings. *)
Lemma exponent_low (x : Q) :
  - 1074 < exponent x -> (2 ^ 52 * 2 ^ exponent x <= x)%Q.
Proof.
  unfold exponent. set (F := Qfloor (x * 2 ^ 1074)). intros H.
  assert (52 < Z.log2 F) as Hl by lia.
  assert (0 < F) as HF.
  { destruct (Z.ltb_spec 0 F) as [|Hn]; [done|].
    rewrite (Z.log2_nonpos F Hn) in Hl. lia. }
  pose proof (proj1 (Z.log2_spec F HF)) as Hp.
  rewrite Z.max_l by lia.
  replace (Z.log2 F - 1074 - 52) with (Z.log2 F + - 1126) by lia.
  rewrite pow2_split.
  assert (2 ^ Z.log2 F <= x * 2 ^ 1074)%Q as Hx.
  { rewrite <- pow2_Z by lia.
    eapply Qle_trans; [|apply Qfloor_le]. rewrite <- Zle_Qle. exact Hp. }
  pose proof (pow2_pos (Z.log2 F)) as H0.
  assert (2 ^ 52 * 2 ^ (- 1126) * 2 ^ 1074 == 1)%Q as E by reflexivity.
  set (a := (2 ^ Z.log2 F)%Q) in *.
  assert (0 < 2 ^ 1074)%Q as HU by apply pow2_pos.
  assert (2 ^ 52 * (a * 2 ^ (- 1126)) * 2 ^ 1074 == a)%Q as E'.
  { transitivity (a * (2 ^ 52 * 2 ^ (- 1126) * 2 ^ 1074))%Q; [ring|].
    rewrite E. ring. }
  apply (Qmult_le_r _ _ (2 ^ 1074)%Q HU). rewrite E'. exact Hx.
Qed.

Lemma roundHalfEven_Z (z : Z) : roundHalfEven (inject_Z z) = z.
Proof.
  unfold roundHalfEven. rewrite Qfloor_Z.
  destruct (Qcompare_spec (inject_Z z - inject_Z z) (1 # 2)) as [E|L|G].
  - lra.
  - reflexivity.
  - lra.
Qed.

Lemma roundHalfEven_comp (x y : Q) :
  (x == y)%Q -> roundHalfEven x = roundHalfEven y.
Proof.
  intros E. unfold roundHalfEven. rewrite (Qfloor_comp _ _ E).
  assert ((x - inject_Z (Qfloor y) ?= 1 # 2)%Q
          = (y - inject_Z (Qfloor y) ?= 1 # 2)%Q) as ->; [|reflexivity].
  apply Qcompare_comp; [|reflexivity]. rewrite E. reflexivity.
Qed.

(** The doubles that are not negative: [m * 2^e] with a mantissa below
    [2^53] and an exponent from [-1074] on.  The spacing at such a number
    divides it. *)
Lemma exponent_number (m e : Z) :
  0 <= m < 2 ^ 53 -> - 1074 <= e -> exponent (inject_Z m * 2 ^ e) <= e.
Proof.
  intros Hm He. unfold exponent.
  assert (inject_Z m * 2 ^ e * 2 ^ 1074 == inject_Z (m * 2 ^ (e + 1074)))%Q
    as E.
  { rewrite inject_Z_mult, pow2_Z, pow2_split by lia. ring. }
  rewrite (Qfloor_comp _ _ E), Qfloor_Z.
  destruct (Z.eq_dec m 0) as [->|Hn]; [simpl; lia|].
  rewrite Z.log2_mul_pow2 by lia.
  assert (Z.log2 m < 53) by (apply Z.log2_lt_pow2; lia). lia.
Qed.

Lemma number_scaled (m e : Z) :
  0 <= m < 2 ^ 53 -> - 1074 <= e ->
  let x := (inject_Z m * 2 ^ e)%Q in
  (x / 2 ^ exponent x == inject_Z (m * 2 ^ (e - exponent x)))%Q.
Proof.
  intros Hm He x. pose proof (exponent_number m e Hm He) as Hle. fold x in Hle.
  pose proof (pow2_pos (exponent x)) as Hu.
  rewrite inject_Z_mult, pow2_Z by lia.
  replace (e - exponent x) with (e + - exponent x) by lia.
  rewrite pow2_split, Qpower_opp. unfold x in *. field. lra.
Qed.

Lemma number_back (m e : Z) :
  0 <= m < 2 ^ 53 -> - 1074 <= e ->
  let x := (inject_Z m * 2 ^ e)%Q in
  (inject_Z (m * 2 ^ (e - exponent x)) * 2 ^ exponent x == x)%Q.
Proof.
  intros Hm He x. pose proof (exponent_number m e Hm He) as Hle. fold x in Hle.
  rewrite inject_Z_mult, pow2_Z by lia.
  unfold x in *. set (k := exponent _) in *.
  assert (2 ^ (e - k) * 2 ^ k == 2 ^ e)%Q as E.
  { rewrite <- pow2_split. by replace (e - k + k) with e by lia. }
  rewrite <- E. ring.
Qed.

(** Rounding leaves a double as it is. *)
Lemma toNumber_fixed (m e : Z) :
  0 <= m < 2 ^ 53 -> - 1074 <= e ->
  (toNumber (inject_Z m * 2 ^ e) == inject_Z m * 2 ^ e)%Q.
Proof.
  intros Hm He. unfold toNumber.
  rewrite (roundHalfEven_comp _ _ (number_scaled m e Hm He)), roundHalfEven_Z.
  exact (number_back m e Hm He).
Qed.

Lemma exponent_comp (x y : Q) : (x == y)%Q -> exponent x = exponent y.
Proof.
  intros E. unfold exponent.
  assert (x * 2 ^ 1074 == y * 2 ^ 1074)%Q as E' by (rewrite E; reflexivity).
  by rewrite (Qfloor_comp _ _ E').
Qed.

Lemma toNumber_comp (x y : Q) : (x == y)%Q -> (toNumber x == toNumber y)%Q.
Proof.
  intros E. unfold toNumber. rewrite (exponent_comp _ _ E).
  assert (x / 2 ^ exponent y == y / 2 ^ exponent y)%Q as E'
    by (rewrite E; reflexivity).
  by rewrite (roundHalfEven_comp _ _ E').
Qed.

(** A double below 1 is at most [1 - 2^-53]. *)
Lemma number_below_one (m e : Z) :
  0 <= m < 2 ^ 53 -> - 1074 <= e ->
  (inject_Z m * 2 ^ e < 1)%Q -> (inject_Z m * 2 ^ e <= 1 - 2 ^ (- 53))%Q.
Proof.
  intros Hm He Hlt.
  assert ((2 ^ 53 - 1) * 2 ^ (- 53) == 1 - 2 ^ (- 53))%Q as <- by reflexivity.
  assert (0 <= inject_Z m)%Q as H0.
  { change 0%Q with (inject_Z 0). rewrite <- Zle_Qle. lia. }
  destruct (Z_le_gt_dec e (- 53)) as [Hs|Hb].
  - assert (inject_Z m <= 2 ^ 53 - 1)%Q as H1.
    { apply Qle_trans with (inject_Z (2 ^ 53 - 1)).
      - rewrite <- Zle_Qle. lia.
      - apply Qle_bool_iff. reflexivity. }
    pose proof (pow2_le _ _ Hs) as Hle. pose proof (pow2_pos e) as Hp.
    eapply Qle_trans; [apply Qmult_le_compat_r; [exact H1|lra]|].
    apply Qmult_le_l; [reflexivity|exact Hle].
  - assert (inject_Z m * 2 ^ e == inject_Z (m * 2 ^ (e + 53)) * 2 ^ (- 53))%Q
      as E.
    { rewrite inject_Z_mult, pow2_Z by lia.
      replace e with (e + 53 + - 53) at 1 by lia.
      rewrite (pow2_split (e + 53) (- 53)). ring. }
    rewrite E in Hlt |- *.
    apply Qmult_le_compat_r; [|discriminate].
    assert (m * 2 ^ (e + 53) < 2 ^ 53) as Hk.
    { rewrite Zlt_Qlt, (pow2_Z 53) by lia.
      assert (2 ^ 53 * 2 ^ (- 53) == 1)%Q as E1 by reflexivity.
      apply (Qmult_lt_r _ _ (2 ^ (- 53))%Q); [reflexivity|].
      by rewrite E1. }
    apply Qle_trans with (inject_Z (2 ^ 53 - 1)).
    + rewrite <- Zle_Qle. lia.
    + apply Qle_bool_iff. reflexivity.
Qed.

(** A double stands for itself. *)
Lemma asNumber_fixed (m e : Z) :
  0 <= m < 2 ^ 53 -> - 1074 <= e ->
  (asNumber (inject_Z m * 2 ^ e) == inject_Z m * 2 ^ e)%Q.
Proof.
  intros Hm He. unfold asNumber.
  destruct (Qlt_le_dec _ 1) as [Hlt|Hge]; [|by apply toNumber_fixed].
  rewrite (toNumber_fixed m e Hm He).
  apply Q.min_l. by apply number_below_one.
Qed.

(** On a double the index is the floor of the rounded product. *)
Lemma floorMul_number (m e : Z) (n : nat) :
  0 <= m < 2 ^ 53 -> - 1074 <= e ->
  floorMul (inject_Z m * 2 ^ e) n
  = Qfloor (toNumber (inject_Z m * 2 ^ e * inject_Z (Z.of_nat n))).
Proof.
  intros Hm He. unfold floorMul. apply Qfloor_comp, toNumber_comp.
  by rewrite (asNumber_fixed m e Hm He).
Qed.

(** Every [x] is below [2^53] of its spacings. *)
Lemma exponent_high (x : Q) : (x < 2 ^ 53 * 2 ^ exponent x)%Q.
Proof.
  unfold exponent. set (F := Qfloor (x * 2 ^ 1074)).
  assert (x * 2 ^ 1074 < 2 ^ (Z.log2 F + 1))%Q as Hx.
  { eapply Qlt_le_trans; [apply Qlt_floor|]. fold F.
    rewrite <- pow2_Z by (pose proof (Z.log2_nonneg F); lia).
    rewrite <- Zle_Qle.
    destruct (Z.ltb_spec 0 F) as [HF|Hn].
    - pose proof (proj2 (Z.log2_spec F HF)). lia.
    - rewrite (Z.log2_nonpos F Hn). simpl. lia. }
  assert (0 < 2 ^ 1074)%Q as HU by apply pow2_pos.
  apply (Qmult_lt_r _ _ (2 ^ 1074)%Q HU).
  eapply Qlt_le_trans; [exact Hx|].
  set (e := Z.max _ _).
  assert (2 ^ 53 * 2 ^ e * 2 ^ 1074 == 2 ^ (e + 1127))%Q as E.
  { rewrite pow2_split.
    assert (2 ^ 1127 == 2 ^ 53 * 2 ^ 1074)%Q as E1 by reflexivity.
    rewrite E1. ring. }
  rewrite E. apply pow2_le. lia.
Qed.

Lemma roundHalfEven_ge (y : Q) :
  (y - (1 # 2) <= inject_Z (roundHalfEven y))%Q.
Proof.
  unfold roundHalfEven.
  pose proof (Qlt_floor y) as Hhi. rewrite inject_Z_plus in Hhi.
  change (inject_Z 1) with 1%Q in Hhi.
  destruct (Qcompare_spec (y - inject_Z (Qfloor y)) (1 # 2)) as [E|L|G].
  - destruct (Z.even (Qfloor y)); [lra|].
    rewrite inject_Z_plus. change (inject_Z 1) with 1%Q. lra.
  - lra.
  - rewrite inject_Z_plus. change (inject_Z 1) with 1%Q. lra.
Qed.

(** [toNumber x] is a double, a mantissa of at most 53 bits times the
    spacing at [x], and none is nearer to [x]: it is within half a spacing,
    and [roundHalfEven] settles the ties. *)
Lemma toNumber_nearest (x : Q) :
  (0 <= x)%Q ->
  let ulp := (2 ^ exponent x)%Q in
  (exists m : Z, 0 <= m <= 2 ^ 53 /\ (toNumber x == inject_Z m * ulp)%Q)
  /\ (x - ulp * (1 # 2) <= toNumber x)%Q
  /\ (toNumber x <= x + ulp * (1 # 2))%Q.
Proof.
  intros H0 ulp. unfold toNumber. fold ulp.
  pose proof (pow2_pos (exponent x)) as Hu. fold ulp in Hu.
  pose proof (exponent_high x) as Hhi. fold ulp in Hhi.
  pose proof (scaled_back x ulp Hu) as Hy.
  pose proof (roundHalfEven_le (x / ulp)) as Hle.
  pose proof (roundHalfEven_ge (x / ulp)) as Hge.
  assert (0 <= x / ulp)%Q as Hy0.
  { apply Qle_shift_div_l; [exact Hu|]. lra. }
  assert (x / ulp < 2 ^ 53)%Q as Hy1.
  { apply Qlt_shift_div_r; [exact Hu|exact Hhi]. }
  set (y := (x / ulp)%Q) in *.
  split; [|split].
  - exists (roundHalfEven y). split; [|reflexivity]. split.
    + by apply roundHalfEven_nonneg.
    + assert (roundHalfEven y < 2 ^ 53 + 1); [|lia].
      rewrite Zlt_Qlt, inject_Z_plus, (pow2_Z 53) by lia.
      change (inject_Z 1) with 1%Q. lra.
  - assert ((y - (1 # 2)) * ulp == x - ulp * (1 # 2))%Q as <-.
    { rewrite <- Hy. ring. }
    apply Qmult_le_compat_r; [exact Hge|lra].
  - assert ((y + (1 # 2)) * ulp == x + ulp * (1 # 2))%Q as <-.
    { rewrite <- Hy. ring. }
    apply Qmult_le_compat_r; [exact Hle|lra].
Qed.

Lemma toNumber_nonneg (x : Q) : (0 <= x)%Q -> (0 <= toNumber x)%Q.
Proof.
  intros H. unfold toNumber.
  pose proof (pow2_pos (exponent x)) as Hu. set (u := (2 ^ exponent x)%Q) in *.
  assert (0 <= x / u)%Q as Hy.
  { apply Qle_shift_div_l; [exact Hu|]. lra. }
  pose proof (roundHalfEven_nonneg _ Hy) as Hf.
  apply Qmult_le_0_compat; [|lra].
  change 0%Q with (inject_Z 0). rewrite <- Zle_Qle. exact Hf.
Qed.

(** An answer below 1 is read as a Number below 1. *)
Lemma asNumber_range (r : Q) :
  (0 <= r)%Q -> (r < 1)%Q ->
  (0 <= asNumber r)%Q /\ (asNumber r <= 1 - 2 ^ (- 53))%Q.
Proof.
  intros H0 H1. unfold asNumber.
  destruct (Qlt_le_dec r 1) as [_|Hge]; [|lra].
  split; [|apply Q.le_min_r].
  apply Q.min_glb; [by apply toNumber_nonneg|discriminate].
Qed.

(** The product of a double below 1 and [n] rounds to a double below [n]. *)
Lemma toNumber_below (q n : Q) :
  (0 <= q)%Q -> (q <= 1 - 2 ^ (- 53))%Q -> (1 <= n)%Q ->
  (toNumber (q * n) < n)%Q.
Proof.
  intros H0 H1 Hn. unfold toNumber.
  set (x := (q * n)%Q).
  pose proof (pow2_pos (exponent x)) as Hu.
  pose proof (exponent_least x) as Hl.
  pose proof (exponent_low x) as Hlow.
  pose proof (roundHalfEven_le (x / 2 ^ exponent x)) as Hm.
  pose proof (scaled_back x _ Hu) as Hy.
  set (u := (2 ^ exponent x)%Q) in *.
  set (y := (x / u)%Q) in *.
  set (m := inject_Z (roundHalfEven y)) in *.
  assert (x <= n - n * 2 ^ (- 53))%Q as Hx.
  { unfold x.
    assert ((1 - 2 ^ (- 53)) * n == n - n * 2 ^ (- 53))%Q as <- by ring.
    apply Qmult_le_compat_r; [exact H1|lra]. }
  assert (m * u <= x + u * (1 # 2))%Q as Hmu.
  { rewrite <- Hy at 1.
    assert ((y + (1 # 2)) * u == y * u + u * (1 # 2))%Q as <- by ring.
    apply Qmult_le_compat_r; [exact Hm|lra]. }
  assert (2 ^ 52 * u < n)%Q as Hsp.
  { destruct (Z.eq_dec (exponent x) (- 1074)) as [E|E].
    - unfold u. rewrite E. eapply Qlt_le_trans; [|exact Hn]. reflexivity.
    - eapply Qle_lt_trans; [apply Hlow; lia|].
      eapply Qle_lt_trans; [exact Hx|].
      assert (0 < n * 2 ^ (- 53))%Q; [|lra].
      apply Qmult_lt_0_compat; [lra|reflexivity]. }
  assert (u * (1 # 2) < n * 2 ^ (- 53))%Q as Hhalf.
  { assert (u * (1 # 2) == 2 ^ 52 * u * 2 ^ (- 53))%Q as ->.
    { assert (2 ^ 52 * 2 ^ (- 53) == 1 # 2)%Q as E by reflexivity.
      transitivity (u * (2 ^ 52 * 2 ^ (- 53)))%Q; [rewrite E; ring|ring]. }
    apply Qmult_lt_compat_r; [reflexivity|exact Hsp]. }
  lra.
Qed.

(** The index [floorMul] computes from an answer in [[0,1)] is an index of
    the array. *)
Lemma floorMul_range (r : Q) (n : nat) :
  (0 <= r)%Q -> (r < 1)%Q -> (0 < n)%nat ->
  0 <= floorMul r n < Z.of_nat n.
Proof.
  intros H0 H1 Hn. unfold floorMul.
  destruct (asNumber_range r H0 H1) as [Hq0 Hq1].
  set (q := asNumber r) in *.
  assert (1 <= inject_Z (Z.of_nat n))%Q as HN.
  { change 1%Q with (inject_Z 1). rewrite <- Zle_Qle. lia. }
  split.
  - change 0 with (Qfloor 0). apply Qfloor_resp_le, toNumber_nonneg.
    apply Qmult_le_0_compat; lra.
  - rewrite Zlt_Qlt. eapply Qle_lt_trans; [apply Qfloor_le|].
    by apply toNumber_below.
Qed.

(** A product that falls half way between two doubles: the exact product
    is [5 - 2^-51], below 5, and the Number the code computes is 5. *)
Example floorMul_tie :
  floorMul (3752999689475413 # 4503599627370496) 6 = 5
  /\ Qfloor ((3752999689475413 # 4503599627370496) * 6) = 4.
Proof. split; vm_compute; reflexivity. Qed.

(** * Hand-slip penalty, pause and resume *)

Section SlipPenalty.
Implicit Types (g : GomokuGame) (l : list Position).

Lemma arrayGet_pick {A} (a : list A) (r : Q) :
  (0 <= r)%Q -> (r < 1)%Q -> a <> [] ->
  exists x, arrayGet a (floorMul r (length a)) = Some x
            /\ a !! Z.to_nat (floorMul r (length a)) = Some x.
Proof.
  intros H0 H1 Ha.
  destruct (floorMul_range r (length a) H0 H1) as [Hlo Hhi].
  { destruct a; [done|simpl; lia]. }
  unfold arrayGet. destruct (Z.ltb_spec (floorMul r (length a)) 0); [lia|].
  destruct (lookup_lt_is_Some_2 a (Z.to_nat (floorMul r (length a))))
    as [x Hx]; [lia|].
  by exists x.
Qed.

Lemma existsb_samePos l pos :
  existsb (fun a => samePos a pos) l = true <-> In pos l.
Proof.
  rewrite existsb_exists. split.
  - intros (a & Ha & Hs). unfold samePos in Hs.
    apply andb_true_iff in Hs as [Hx%Z.eqb_eq Hy%Z.eqb_eq].
    destruct a, pos; simpl in *. by subst.
  - intros Hin. exists pos. split; [done|]. unfold samePos.
    by rewrite !Z.eqb_refl.
Qed.

Lemma delete_pick l i pos :
  NoDup l -> l !! i = Some pos ->
  NoDup (delete i l) /\ ~ In pos (delete i l)
  /\ (forall p, In p (delete i l) -> In p l)
  /\ length l = S (length (delete i l)).
Proof.
  intros Hnd Hi.
  pose proof (take_drop_middle l i pos Hi) as Hl.
  rewrite delete_take_drop. rewrite <- Hl in Hnd.
  apply NoDup_app in Hnd as (Hn1 & Hd & Hn2).
  apply NoDup_cons in Hn2 as [Hp Hn2].
  split; [|split; [|split]].
  - apply NoDup_app. split; [done|]. split; [|done].
    intros x Hx Hx'. apply (Hd x Hx). by right.
  - intros [H1|H2]%in_app_iff.
    + apply (Hd pos); [by apply list_elem_of_In|by left].
    + by apply Hp, list_elem_of_In.
  - intros p Hp'. rewrite <- Hl. apply in_app_iff.
    apply in_app_iff in Hp' as [?|?]; [by left|right; by right].
  - rewrite <- Hl at 1. rewrite !length_app. simpl. lia.
Qed.

Lemma pickAllowed_spec rounds l g :
  randomInRange (runtime g) -> NoDup l ->
  exists picks,
    allowedPositions (pickAllowed rounds l g).2 = allowedPositions g ++ picks
    /\ length picks = Nat.min rounds (length l)
    /\ NoDup picks
    /\ (forall p, In p picks -> In p l)
    /\ board (pickAllowed rounds l g).2 = board g.
Proof.
  revert l g. induction rounds as [|rounds IH]; intros l g Hr Hnd.
  { exists []. simpl. rewrite app_nil_r. repeat split; [constructor|done]. }
  cbn [pickAllowed]. destruct (decide (l = [])) as [->|Hne].
  { exists []. simpl. rewrite app_nil_r. repeat split; [constructor|done]. }
  replace (0 <? length l)%nat with true
    by (symmetry; apply Nat.ltb_lt; destruct l; [done|simpl; lia]).
  mstep. unfold mathRandom. mstep.
  set (r := randomSrc (runtime g) (randomCalls (runtime g))).
  destruct (Hr (randomCalls (runtime g))) as [H0 H1]. fold r in H0, H1.
  destruct (arrayGet_pick l r H0 H1 Hne) as (pos & -> & Hpos).
  destruct (delete_pick l _ pos Hnd Hpos) as (Hnd' & Hnot & Hsub & Hlen).
  mstep.
  match goal with |- context [pickAllowed rounds ?l' ?g'] =>
    destruct (IH l' g') as (picks & Ha & Hn & Hp & Hin & Hb); [done|done|]
  end.
  exists (pos :: picks). rewrite Ha, Hb.
  split; [msimpl; by rewrite <- app_assoc|].
  split; [cbn [length]; by rewrite Hlen, <- Nat.succ_min_distr, <- Hn|].
  split; [|split; [|done]].
  - apply NoDup_cons. split; [|done].
    intros Hc%list_elem_of_In. by apply Hnot, Hin.
  - intros p [<-|Hp']; [|by apply Hsub, Hin].
    apply list_elem_of_In. by eapply list_elem_of_lookup_2.
Qed.

Lemma sorted_NoDup l : StronglySorted rowMajorBefore l -> NoDup l.
Proof.
  induction l as [|a l IH]; [constructor|].
  intros [Hlt Hs]%StronglySorted_cons. apply NoDup_cons. split; [|by apply IH].
  intros Ha. rewrite Forall_forall in Hlt. specialize (Hlt a Ha).
  unfold rowMajorBefore in Hlt. lia.
Qed.

Lemma emptyCells_NoDup b : NoDup (emptyCells b).
Proof. apply sorted_NoDup, filter_sorted, scan_sorted. Qed.

Lemma makeMove_outside pos g :
  gameSubState g <> SELECTING_STRIKE_TARGET ->
  allowedPositions g <> [] -> ~ In pos (allowedPositions g) ->
  makeMove pos g = (false, g).
Proof.
  intros Hsub Hne Hout. unfold makeMove. mstep.
  destruct (bool_decide (gameState g = PLAYING)); mstep; [|done].
  destruct (aiToMove g); mstep; [done|].
  rewrite bool_decide_false by done. mstep.
  assert (existsb (fun a => samePos a pos) (allowedPositions g) = false) as ->.
  { apply not_true_is_false. by rewrite existsb_samePos. }
  by destruct (allowedPositions g).
Qed.
End SlipPenalty.

(** C6, amended: [applySlipPenalty] allows [min 3 n] distinct empty cells,
    where [n] is the number of empty cells, and leaves the board alone; in a
    reachable state with a non-empty list of allowed positions, [makeMove]
    at a position outside the list returns false and leaves the whole state
    unchanged. *)
Theorem hand_slip_restriction :
  (forall g,
     randomInRange (runtime g) ->
     let g' := (applySlipPenalty g).2 in
     length (allowedPositions g')
     = Nat.min 3 (length (emptyCells (board g)))
     /\ NoDup (allowedPositions g')
     /\ (forall p, In p (allowedPositions g') ->
                   Board.isEmpty (board g) p = true)
     /\ board g' = board g)
  /\ (forall g pos,
        reachable g -> allowedPositions g <> [] ->
        ~ In pos (allowedPositions g) ->
        makeMove pos g = (false, g)).
Proof.
  split.
  - intros g Hr g'. subst g'. unfold applySlipPenalty. mstep.
    change (board (set_allowedPositions [] g)) with (board g).
    destruct (pickAllowed_spec 3 (emptyCells (board g))
                (set_allowedPositions [] g) Hr (emptyCells_NoDup _))
      as (picks & Ha & Hn & Hnd & Hin & Hb).
    rewrite Ha, Hb. simpl. split; [done|]. split; [done|]. split; [|done].
    intros p Hp. by apply emptyCells_spec, Hin.
  - intros g pos Hreach Hne Hout. apply makeMove_outside; [|done|done].
    destruct (reachable_sound g Hreach) as [_ Hs]. rewrite (Hs Hne). done.
Qed.

(** C10: [pause] sets the state to PAUSED when it is PLAYING and changes
    nothing otherwise; [resume] sets it to PLAYING when it is PAUSED and
    changes nothing otherwise. *)
Theorem pause_resume_spec (g : GomokuGame) :
  (gameState g = PLAYING -> pause g = (tt, set_gameState PAUSED g))
  /\ (gameState g <> PLAYING -> pause g = (tt, g))
  /\ (gameState g = PAUSED -> resume g = (tt, set_gameState PLAYING g))
  /\ (gameState g <> PAUSED -> resume g = (tt, g)).
Proof.
  unfold pause, resume. mstep. repeat split; intros H.
  - by rewrite bool_decide_true.
  - by rewrite bool_decide_false.
  - by rewrite bool_decide_true.
  - by rewrite bool_decide_false.
Qed.

(** * Scripted games and the chaos strike *)

Section Scripted.
Lemma sameTimer_eq t u : sameTimer t u = true -> t = u.
Proof.
  unfold sameTimer. destruct t as [i d a], u as [j e b]. simpl.
  intros [[Hi%Nat.eqb_eq Hd%Z.eqb_eq]%andb_true_iff Ha]%andb_true_iff.
  subst. by destruct a, b.
Qed.

Lemma play_reachable es g g' :
  play es g = Some g' -> reachable g -> reachable g'.
Proof.
  revert g. induction es as [|e es IH]; intros g; simpl.
  - by intros [= <-].
  - destruct (match e with Fire t => _ | _ => true end) eqn:Hok; [|done].
    intros Hp Hg. apply (IH _ Hp). apply reachable_step; [done|].
    destruct e; try exact I. simpl.
    apply existsb_exists in Hok as (u & Hu & ->%sameTimer_eq).
    by apply list_elem_of_In.
Qed.

Lemma played_reachable es rt g :
  timers rt = [] -> play es (newGame 15 rt) = Some g -> reachable g.
Proof.
  intros Ht Hp. apply (play_reachable _ _ _ Hp).
  by apply (reachable_new true).
Qed.

Lemma observed {A} (f : GomokuGame -> A) s g v :
  s = Some g -> f <$> s = Some v -> f g = v.
Proof. intros -> [= ->]. reflexivity. Qed.

Lemma completed (s : option GomokuGame) :
  s = None -> match s with Some _ => true | None => false end = true -> False.
Proof. by intros ->. Qed.

Lemma quiet_inRange : randomInRange quietRuntime.
Proof. intros i. simpl. split; [apply Qle_refl|reflexivity]. Qed.
End Scripted.

(** Proves [lhs = v], where [lhs] observes the state [g] reached by the
    script of [Hg : s = Some g], by running the script. *)
Ltac observe Hg :=
  lazymatch type of Hg with
  | ?s = Some ?g =>
      lazymatch goal with
      | |- ?lhs = ?v =>
          let f := eval pattern g in lhs in
          lazymatch f with
          | ?F g => refine (observed F s g v Hg _); vm_compute; reflexivity
          end
      end
  end.

(** Closes the case [Hg : s = None] of a script that runs to its end. *)
Ltac unplayed Hg :=
  exfalso; refine (completed _ Hg _); vm_compute; reflexivity.

Section ChaosStrike.
Implicit Types (g : GomokuGame) (p : Player).

Lemma showNotification_activeEffects m ms g :
  activeEffects (showNotification m ms g).2 = activeEffects g
  /\ board (showNotification m ms g).2 = board g.
Proof.
  unfold showNotification, clearIfSet. mstep.
  destruct (notificationTimer _) as [[|n]|]; done.
Qed.

Lemma shield_consumed l : hasToughenHeart (List.filter notToughenHeart l) = false.
Proof.
  induction l as [|e l IH]; [done|]. simpl. unfold notToughenHeart at 1.
  case_bool_decide as He; simpl; [done|].
  by rewrite bool_decide_false.
Qed.

Lemma performChaosStrike_shielded g p :
  hasToughenHeart (effectsOf (activeEffects g) (other p)) = true ->
  board (performChaosStrike p g).2 = board g
  /\ effectsOf (activeEffects (performChaosStrike p g).2) (other p)
     = List.filter notToughenHeart (effectsOf (activeEffects g) (other p)).
Proof.
  intros Hs. unfold performChaosStrike. mstep. rewrite Hs. mstep.
  destruct (showNotification_activeEffects (ImmuneToAttack (other p)) 3000
              (removeEffect (other p) TOUGHEN_HEART g).2) as [-> ->].
  split; [done|]. unfold removeEffect. mstep. simpl.
  unfold effectsOf at 1. by rewrite lookup_insert_eq.
Qed.

Lemma stonesOf_spec b pl q :
  In q (stonesOf b pl) -> Board.getStone b q = Some pl.
Proof.
  unfold stonesOf. intros [_ Hq]%filter_In. by apply bool_decide_eq_true in Hq.
Qed.

Lemma removeStone_stone b q pl :
  Board.getStone b q = Some pl -> (Board.removeStone b q).1 = true.
Proof.
  unfold Board.getStone, Board.removeStone.
  destruct (Board.isValidPosition b q); simpl; [|done].
  destruct (Board.cell (Board.grid b) q) as [[?|]|] eqn:Hc; done.
Qed.

Lemma performChaosStrike_unshielded g p :
  hasToughenHeart (effectsOf (activeEffects g) (other p)) = false ->
  randomInRange (runtime g) -> stonesOf (board g) (other p) <> [] ->
  exists target,
    Board.getStone (board g) target = Some (other p)
    /\ Board.removeStone (board g) target
       = (true, board (performChaosStrike p g).2)
    /\ activeEffects (performChaosStrike p g).2 = activeEffects g.
Proof.
  intros Hs Hr Hne. unfold performChaosStrike. mstep. rewrite Hs. mstep.
  unfold removeRandomStone.
  replace (0 <? length (stonesOf (board g) (other p)))%nat with true
    by (symmetry; apply Nat.ltb_lt;
        destruct (stonesOf (board g) (other p)); [done|simpl; lia]).
  mstep. unfold mathRandom. mstep.
  destruct (Hr (randomCalls (runtime g))) as [H0 H1].
  destruct (arrayGet_pick _ _ H0 H1 Hne) as (target & -> & Ht).
  exists target.
  assert (Board.getStone (board g) target = Some (other p)) as Hstone.
  { apply stonesOf_spec, list_elem_of_In. by eapply list_elem_of_lookup_2. }
  split; [done|]. split; [|done].
  unfold boardRemoveStone. mstep. msimpl.
  pose proof (removeStone_stone _ _ _ Hstone).
  by destruct (Board.removeStone (board g) target) as [[] ?].
Qed.
End ChaosStrike.

(** C4: a chaos strike against a player who holds a TOUGHEN_HEART effect
    removes no stone and removes every TOUGHEN_HEART effect the player
    holds, not one of them; a strike against a player without the effect
    removes one of the player's stones. In [twoShields] WHITE holds two
    such effects, and none after BLACK's strike. *)
Theorem chaos_strike_against_shields :
  (forall g p,
     hasToughenHeart (effectsOf (activeEffects g) (other p)) = true ->
     let g' := (performChaosStrike p g).2 in
     board g' = board g
     /\ effectsOf (activeEffects g') (other p)
        = List.filter notToughenHeart (effectsOf (activeEffects g) (other p))
     /\ hasToughenHeart (effectsOf (activeEffects g') (other p)) = false)
  /\ (forall g p,
        hasToughenHeart (effectsOf (activeEffects g) (other p)) = false ->
        randomInRange (runtime g) -> stonesOf (board g) (other p) <> [] ->
        exists target,
          Board.getStone (board g) target = Some (other p)
          /\ Board.removeStone (board g) target
             = (true, board (performChaosStrike p g).2)
          /\ activeEffects (performChaosStrike p g).2 = activeEffects g)
  /\ match twoShields with
     | Some g =>
         let g' := (makeMove (P 2 0) g).2 in
         reachable g
         /\ map piItemType (effectsOf (activeEffects g) WHITE)
            = [TOUGHEN_HEART; TOUGHEN_HEART]
         /\ lastItemUsed g' = Some CHAOS_STRIKE
         /\ effectsOf (activeEffects g') WHITE = []
         /\ stonesOf (board g) WHITE = [P 0 0; P 1 0]
         /\ stonesOf (board g') WHITE = [P 0 0; P 1 0]
     | None => False
     end.
Proof.
  split; [|split].
  - intros g p Hs g'.
    destruct (performChaosStrike_shielded g p Hs) as [Hb He].
    split; [done|]. split; [done|]. subst g'. rewrite He. apply shield_consumed.
  - apply performChaosStrike_unshielded.
  - destruct twoShields as [g|] eqn:Hg; [|unplayed Hg].
    split; [exact (played_reachable shieldMoves shieldDraws g eq_refl Hg)|].
    cbv zeta. do 4 (split; [observe Hg|]). observe Hg.
Qed.

Lemma chaos_strike_against_shields_witness :
  exists target,
    Board.getStone (board fourInColumn) target = Some (other WHITE)
    /\ Board.removeStone (board fourInColumn) target
       = (true, board (performChaosStrike WHITE fourInColumn).2).
Proof.
  destruct (proj1 (proj2 chaos_strike_against_shields) fourInColumn WHITE)
    as (target & H1 & H2 & _).
  - vm_compute. reflexivity.
  - apply quiet_inRange.
  - vm_compute. discriminate.
  - exists target. split; [exact H1|exact H2].
Defined.

(** C3: the pool of strengthening items holds six items, SLIP_PENALTY
    among them, and the pool of weakening items two; [generateRandomItemType]
    draws from the first pool when the random number is below the bias and
    from the second otherwise, so that SLIP_PENALTY is produced by the
    strengthening branch only. *)
Theorem slip_penalty_pool :
  ItemSystem.strengtheningItems
  = [CHAOS_STRIKE; PRECISE_STRIKE; ACCELERATED_MOVE; STRATEGY_GUIDE;
     TOUGHEN_HEART; SLIP_PENALTY]
  /\ ItemSystem.weakeningItems = [SELF_MISTAKE; OPPONENT_ACCELERATION]
  /\ (forall bias rt,
        let rand := randomSrc rt (randomCalls rt) in
        let r := randomSrc rt (S (randomCalls rt)) in
        let itemsPool :=
          if ItemSystem.below rand bias then ItemSystem.strengtheningItems
          else ItemSystem.weakeningItems in
        (ItemSystem.generateRandomItemType bias rt).1
        = arrayGet itemsPool (floorMul r (length itemsPool)))
  /\ (forall bias rt,
        (ItemSystem.generateRandomItemType bias rt).1 = Some SLIP_PENALTY ->
        ItemSystem.below (randomSrc rt (randomCalls rt)) bias = true)
  /\ (ItemSystem.generateRandomItemType (1 # 2)
        (scripted [1 # 4; 9 # 10]%Q)).1 = Some SLIP_PENALTY.
Proof.
  split; [done|]. split; [done|]. split; [done|]. split; [|done].
  intros bias rt. unfold ItemSystem.generateRandomItemType. simpl.
  destruct (ItemSystem.below _ _); [done|].
  unfold arrayGet. destruct (_ <? 0); [done|].
  change ItemSystem.weakeningItems with [SELF_MISTAKE; OPPONENT_ACCELERATION].
  destruct (Z.to_nat _) as [|[|[|n]]]; simpl; congruence.
Qed.

Lemma slip_penalty_pool_witness :
  ItemSystem.below
    (randomSrc (scripted [1 # 4; 9 # 10]%Q)
       (randomCalls (scripted [1 # 4; 9 # 10]%Q))) (1 # 2) = true.
Proof.
  apply (proj1 (proj2 (proj2 (proj2 slip_penalty_pool))) (1 # 2)%Q
           (scripted [1 # 4; 9 # 10]%Q)).
  vm_compute. reflexivity.
Defined.

(** * The theorems on concrete games *)

Lemma win_detected_on_placement_witness :
  accepts fourInColumn (P 0 4)
  /\ gameState (makeMove (P 0 4) fourInColumn).2 = OVER.
Proof.
  assert (accepts fourInColumn (P 0 4)) as Hacc.
  { vm_compute. repeat split; try reflexivity; try discriminate.
    left. reflexivity. }
  split; [exact Hacc|].
  apply (proj1 win_detected_on_placement fourInColumn (P 0 4) Hacc).
  exists (0, 1). split; [right; left; reflexivity|]. vm_compute. lia.
Defined.

(** In [boosted] BLACK has earned an extra move through the box WHITE
    opened and has not played it; in [boostSpent] BLACK has. *)
Lemma extra_move_bookkeeping_witness :
  match boosted, boostSpent with
  | Some g, Some g' =>
      (extraMovesEarned (moveCountOf g BLACK) = 1
       /\ extraMovesUsed (moveCountOf g BLACK) = 0
       /\ currentExtraMoves (moveCountOf g BLACK)
          = extraMovesEarned (moveCountOf g BLACK)
            - extraMovesUsed (moveCountOf g BLACK))
      /\ (extraMovesEarned (moveCountOf g' BLACK) = 1
          /\ extraMovesUsed (moveCountOf g' BLACK) = 1
          /\ currentExtraMoves (moveCountOf g' BLACK)
             = extraMovesEarned (moveCountOf g' BLACK)
               - extraMovesUsed (moveCountOf g' BLACK))
  | _, _ => False
  end.
Proof.
  destruct boosted as [g|] eqn:Hg; [|unplayed Hg].
  destruct boostSpent as [g'|] eqn:Hg'; [|unplayed Hg'].
  split.
  - split; [observe Hg|]. split; [observe Hg|].
    apply (proj1 extra_move_bookkeeping g).
    exact (played_reachable boostMoves boostDraws g eq_refl Hg).
  - split; [observe Hg'|]. split; [observe Hg'|].
    apply (proj1 extra_move_bookkeeping g').
    exact (played_reachable spendMoves boostDraws g' eq_refl Hg').
Defined.

Lemma strike_target_selection_witness :
  match selecting with
  | Some g =>
      gameSubState g = SELECTING_STRIKE_TARGET
      /\ makeMove (P 5 5) g = (false, g)
  | None => False
  end.
Proof.
  destruct selecting as [g|] eqn:Hg; [|unplayed Hg].
  assert (gameSubState g = SELECTING_STRIKE_TARGET) as Hsub by observe Hg.
  split; [exact Hsub|].
  destruct (strike_target_selection g (P 5 5)
              (played_reachable strikeMoves strikeDraws g eq_refl Hg) Hsub)
    as (_ & _ & _ & _ & _ & trigger & Ht & Hmiss).
  apply Hmiss.
  assert (Board.getStone (board g) (P 5 5) = None) as -> by observe Hg.
  discriminate.
Defined.

Lemma hand_slip_restriction_witness :
  length (allowedPositions (applySlipPenalty (newGame 15 quietRuntime)).2)
  = Nat.min 3 (length (emptyCells (board (newGame 15 quietRuntime))))
  /\ match nearlyFull with
     | Some g => allowedPositions g <> [] /\ makeMove (P 5 5) g = (false, g)
     | None => False
     end.
Proof.
  split.
  - apply (proj1 hand_slip_restriction (newGame 15 quietRuntime)).
    apply quiet_inRange.
  - destruct nearlyFull as [g|] eqn:Hg; [|unplayed Hg].
    assert (allowedPositions g = [P 1 0; P 2 0]) as Ha by observe Hg.
    assert (allowedPositions g <> []) as Hne by (rewrite Ha; discriminate).
    split; [exact Hne|].
    apply (proj2 hand_slip_restriction g (P 5 5)
             (played_reachable fillBoard lateBox g eq_refl Hg) Hne).
    rewrite Ha. vm_compute. intros [H|[H|[]]]; discriminate H.
Defined.

(** A restriction to two cells: the board of [nearlyFull] has two empty
    cells when the penalty is imposed on WHITE. *)
Lemma hand_slip_with_two_cells :
  match nearlyFull with
  | Some g =>
      reachable g
      /\ gameState g = PLAYING
      /\ gameSubState g = HAND_SLIP_PENALTY
      /\ currentPlayer g = WHITE
      /\ emptyCells (board g) = [P 1 0; P 2 0]
      /\ allowedPositions g = [P 1 0; P 2 0]
      /\ length (allowedPositions g) = 2%nat
  | None => False
  end.
Proof.
  destruct nearlyFull as [g|] eqn:Hg; [|unplayed Hg].
  split; [exact (played_reachable fillBoard lateBox g eq_refl Hg)|].
  do 5 (split; [observe Hg|]). observe Hg.
Qed.

Lemma ai_move_selection_witness :
  match slippedAI with
  | Some g =>
      aiChoice g = Some (P 0 1)
      /\ aiCandidates (imposeSlipPenalty g).2
         = allowedPositions (imposeSlipPenalty g).2
      /\ exists t,
           moveHistory (makeAIMove g).2
           = moveHistory g ++ [mkMove (P 0 1) (currentPlayer g) t]
  | None => False
  end.
Proof.
  destruct slippedAI as [g|] eqn:Hg; [|unplayed Hg].
  assert (gameState g = PLAYING) as Hst by observe Hg.
  assert (aiChoice g = Some (P 0 1)) as Hch by observe Hg.
  assert (gameSubState (imposeSlipPenalty g).2 = HAND_SLIP_PENALTY) as Hsub
    by observe Hg.
  assert (allowedPositions (imposeSlipPenalty g).2 = [P 0 1; P 1 0; P 0 0])
    as Hal by observe Hg.
  split; [exact Hch|].
  destruct (ai_move_selection g (P 0 1) Hst Hch) as (_ & _ & Hc & Hh & _).
  split; [|exact Hh].
  destruct Hc as [[_ Hc]|[Hn _]]; [exact Hc|].
  exfalso. apply Hn. split; [exact Hsub|]. rewrite Hal. discriminate.
Defined.

(** A tie the row-major scan would settle otherwise: in [slippedAI] the AI
    is restricted to (0,1), (1,0) and (0,0), in this order; (0,1) and (1,0)
    score the same, (1,0) comes first in the scan [for y: for x], and the
    AI plays (0,1). *)
Lemma ai_tie_in_allowed_order :
  match slippedAI with
  | Some g =>
      reachable g
      /\ gameState g = PLAYING
      /\ gameSubState g = HAND_SLIP_PENALTY
      /\ currentPlayer g = WHITE
      /\ allowedPositions g = [P 0 1; P 1 0; P 0 0]
      /\ aiCandidates (imposeSlipPenalty g).2 = [P 0 1; P 1 0; P 0 0]
      /\ evaluatePosition (imposeSlipPenalty g).2 (P 1 0) = 2
      /\ evaluatePosition (imposeSlipPenalty g).2 (P 0 1) = 2
      /\ rowMajorBefore (P 1 0) (P 0 1)
      /\ aiChoice g = Some (P 0 1)
      /\ Board.getStone (board (makeAIMove g).2) (P 0 1) = Some WHITE
      /\ Board.getStone (board (makeAIMove g).2) (P 1 0) = None
  | None => False
  end.
Proof.
  destruct slippedAI as [g|] eqn:Hg; [|unplayed Hg].
  split; [exact (played_reachable slipMoves slipDraws g eq_refl Hg)|].
  do 7 (split; [observe Hg|]).
  split; [unfold rowMajorBefore; left; reflexivity|].
  do 2 (split; [observe Hg|]). observe Hg.
Qed.

(** [pause] before a game has started, then [pause] and [resume] in a game
    that has, and [resume] without a pause. *)
Lemma pause_resume_spec_witness :
  pause (newGame 15 quietRuntime) = (tt, newGame 15 quietRuntime)
  /\ gameState (pause (startNewGame (newGame 15 quietRuntime)).2).2 = PAUSED
  /\ gameState
       (resume (pause (startNewGame (newGame 15 quietRuntime)).2).2).2
     = PLAYING
  /\ resume (startNewGame (newGame 15 quietRuntime)).2
     = (tt, (startNewGame (newGame 15 quietRuntime)).2).
Proof.
  assert (gameState (newGame 15 quietRuntime) <> PLAYING) as Hne
    by (vm_compute; discriminate).
  assert (gameState (startNewGame (newGame 15 quietRuntime)).2 = PLAYING)
    as Hpl by (vm_compute; reflexivity).
  split;
    [exact (proj1 (proj2 (pause_resume_spec (newGame 15 quietRuntime))) Hne)|].
  remember (startNewGame (newGame 15 quietRuntime)).2 as g eqn:Hg. clear Hg.
  destruct (pause_resume_spec g) as (Hp & _ & _ & Hr).
  destruct (pause_resume_spec (set_gameState PAUSED g)) as (_ & _ & Hr' & _).
  rewrite (Hp Hpl). cbn [snd]. rewrite (Hr' eq_refl).
  split; [reflexivity|]. split; [reflexivity|].
  apply Hr. rewrite Hpl. discriminate.
Defined.

(** * Further properties of the board *)

Section BoardShape.
Implicit Types (b : Board.t) (p q : Position).

Lemma cell_initializeGrid n p :
  Board.isValidPosition (Board.new n) p = true ->
  Board.cell (Board.initializeGrid n) p = Some None.
Proof.
  intros [Hx Hy]%valid_bounds. simpl in Hx, Hy.
  unfold Board.cell, Board.initializeGrid.
  rewrite lookup_replicate_2 by lia. simpl.
  by rewrite lookup_replicate_2 by lia.
Qed.

Lemma length_setCell (g : list (list (option Player))) p v :
  length (Board.setCell g p v) = length g
  /\ forall n, Forall (λ row, length row = n) g ->
               Forall (λ row, length row = n) (Board.setCell g p v).
Proof.
  unfold Board.setCell. split; [by rewrite length_alter|].
  intros n Hg. apply Forall_alter; [done|].
  intros row _ Hrow. by rewrite length_insert.
Qed.

Lemma setCell_wf b p v ms :
  Board.wf b ->
  Forall (λ m, Board.isValidPosition b (position m) = true) ms ->
  Board.wf (Board.mk (Board.size b) (Board.setCell (Board.grid b) p v) ms).
Proof.
  intros [Hs Hr Hc Hm] Hms. destruct (length_setCell (Board.grid b) p v) as [Hl Hf].
  split; simpl; [done|by rewrite Hl|by apply Hf|done].
Qed.

Lemma placeStone_wf b p pl now : Board.wf b -> Board.wf (Board.placeStone b p pl now).2.
Proof.
  intros Hwf. unfold Board.placeStone.
  destruct (Board.isEmpty b p) eqn:He; simpl; [|done].
  apply setCell_wf; [done|]. apply Forall_app. split; [apply Hwf|].
  apply Forall_singleton. simpl. by apply isEmpty_cell in He as [? _].
Qed.

Lemma Forall_removelast {A} (Q : A -> Prop) (l : list A) :
  Forall Q l -> Forall Q (removelast l).
Proof.
  intros H. destruct (decide (l = [])) as [->|Hne]; [done|].
  destruct (exists_last Hne) as (l' & a & ->).
  rewrite removelast_last. by apply Forall_app in H as [? _].
Qed.

Lemma undoMove_wf b : Board.wf b -> Board.wf (Board.undoMove b).2.
Proof.
  intros Hwf. unfold Board.undoMove.
  destruct (last (Board.moves b)); simpl; [|done].
  apply setCell_wf; [done|]. apply Forall_removelast, Hwf.
Qed.

Lemma removeStone_wf b p : Board.wf b -> Board.wf (Board.removeStone b p).2.
Proof.
  intros Hwf. unfold Board.removeStone.
  destruct (Board.isValidPosition b p); simpl; [|done].
  case_bool_decide; simpl; [done|]. apply setCell_wf; [done|apply Hwf].
Qed.

Lemma reset_wf b : 0 <= Board.size b -> Board.wf (Board.reset b).
Proof. intros H. by apply (new_wf (Board.size b)). Qed.
End BoardShape.

(** [removeStone] on an empty cell, and on the one stone of a board: the
    stone goes and its move stays on the stack. *)
Lemma removeStone_spec_witness :
  Board.removeStone (Board.new 15) (Position.mk 3 4) = (false, Board.new 15)
  /\ (Board.removeStone
        (Board.placeStone (Board.new 15) (Position.mk 3 4) BLACK 1).2
        (Position.mk 3 4)).1 = true
  /\ Board.getStone
       (Board.removeStone
          (Board.placeStone (Board.new 15) (Position.mk 3 4) BLACK 1).2
          (Position.mk 3 4)).2 (Position.mk 3 4) = None
  /\ Board.moves
       (Board.removeStone
          (Board.placeStone (Board.new 15) (Position.mk 3 4) BLACK 1).2
          (Position.mk 3 4)).2 = [mkMove (Position.mk 3 4) BLACK 1].
Proof.
  assert (Board.wf (Board.new 15)) as Hwf by (apply new_wf; lia).
  destruct (removeStone_spec (Board.new 15) (Position.mk 3 4) Hwf)
    as (_ & H2 & _).
  destruct (removeStone_spec
              (Board.placeStone (Board.new 15) (Position.mk 3 4) BLACK 1).2
              (Position.mk 3 4) (placeStone_wf _ _ _ _ Hwf))
    as (Hm & _ & H3).
  destruct H3 as (Ht & Hg & _);
    [vm_compute; reflexivity|vm_compute; reflexivity|].
  split; [apply H2; right; vm_compute; reflexivity|].
  split; [exact Ht|]. split; [exact Hg|]. rewrite Hm. vm_compute. reflexivity.
Defined.

Section BoardRecords.
Implicit Types (b : Board.t) (p q : Position).

Lemma getStone_new n p : Board.getStone (Board.new n) p = None.
Proof.
  unfold Board.getStone.
  destruct (Board.isValidPosition (Board.new n) p) eqn:Hv; [|done]. simpl.
  by rewrite (cell_initializeGrid n p Hv).
Qed.

Lemma isEmpty_new n p :
  Board.isEmpty (Board.new n) p = Board.isValidPosition (Board.new n) p.
Proof.
  unfold Board.isEmpty.
  destruct (Board.isValidPosition (Board.new n) p) eqn:Hv; [|done]. simpl.
  rewrite (cell_initializeGrid n p Hv). by apply bool_decide_eq_true.
Qed.

Lemma applyOp_wf b op : Board.wf b -> Board.wf (applyOp b op).
Proof.
  intros Hwf. destruct op; simpl.
  - by apply placeStone_wf.
  - by apply undoMove_wf.
  - by apply removeStone_wf.
  - apply reset_wf, Hwf.
Qed.

Lemma applyOps_wf ops b : Board.wf b -> Board.wf (applyOps b ops).
Proof.
  revert b. induction ops as [|op ops IH]; intros b Hwf; [done|].
  apply IH. by apply applyOp_wf.
Qed.

Lemma getStone_written b p v ms :
  Board.wf b -> Board.isValidPosition b p = true ->
  Board.getStone
    (Board.mk (Board.size b) (Board.setCell (Board.grid b) p v) ms) p = v.
Proof.
  intros Hwf Hv. destruct (wf_cell b p Hwf Hv) as [c Hc]. unfold Board.getStone.
  change (Board.isValidPosition _ p) with (Board.isValidPosition b p).
  rewrite Hv. simpl. by rewrite (cell_setCell_eq _ _ _ _ Hc).
Qed.

Lemma placeStone_recorded b p pl now :
  Board.wf b -> recorded b -> recorded (Board.placeStone b p pl now).2.
Proof.
  intros Hwf Hrec. unfold Board.placeStone.
  destruct (Board.isEmpty b p) eqn:He; simpl; [|done].
  apply isEmpty_cell in He as [Hv _]. intros q pl'.
  destruct (decide (p = q)) as [<-|Hne].
  - rewrite (getStone_written b p _ _ Hwf Hv). intros [= <-].
    exists (mkMove p pl now). split; [set_solver|done].
  - rewrite (getStone_setCell_ne b p q _ _ Hv Hne). intros Hq.
    destruct (Hrec q pl' Hq) as (m & Hm & Hpos & Hpl).
    exists m. split; [set_solver|done].
Qed.

Lemma removeStone_recorded b p :
  Board.wf b -> recorded b -> recorded (Board.removeStone b p).2.
Proof.
  intros Hwf Hrec. unfold Board.removeStone.
  destruct (Board.isValidPosition b p) eqn:Hv; simpl; [|done].
  case_bool_decide as Hc; simpl; [done|]. intros q pl.
  destruct (decide (p = q)) as [<-|Hne].
  - by rewrite (getStone_written b p _ _ Hwf Hv).
  - rewrite (getStone_setCell_ne b p q _ _ Hv Hne). apply Hrec.
Qed.

Lemma undoMove_recorded b :
  Board.wf b -> recorded b -> recorded (Board.undoMove b).2.
Proof.
  intros Hwf Hrec. unfold Board.undoMove.
  destruct (last (Board.moves b)) as [m|] eqn:Hlast; simpl; [|done].
  apply last_Some in Hlast as [ms Hms].
  assert (Board.isValidPosition b (position m) = true) as Hv.
  { pose proof (Board.wf_moves b Hwf) as Hm. rewrite Hms in Hm.
    apply Forall_app in Hm as [_ Hm]. by inversion Hm. }
  rewrite Hms, removelast_last. intros q pl.
  destruct (decide (position m = q)) as [<-|Hne].
  - by rewrite (getStone_written b _ _ _ Hwf Hv).
  - rewrite (getStone_setCell_ne b _ q _ _ Hv Hne). intros Hq.
    destruct (Hrec q pl Hq) as (m' & Hm' & Hpos & Hpl).
    exists m'. split; [|done]. rewrite Hms in Hm'.
    apply elem_of_app in Hm' as [?|Hm']; [done|].
    apply list_elem_of_singleton in Hm'. congruence.
Qed.

Lemma new_recorded n : recorded (Board.new n).
Proof. intros p pl. by rewrite getStone_new. Qed.

Lemma applyOps_recorded ops b :
  Board.wf b -> recorded b -> recorded (applyOps b ops).
Proof.
  revert b. induction ops as [|op ops IH]; intros b Hwf Hrec; [done|].
  apply IH; [by apply applyOp_wf|]. destruct op; simpl.
  - by apply placeStone_recorded.
  - by apply undoMove_recorded.
  - by apply removeStone_recorded.
  - apply (new_recorded (Board.size b)).
Qed.
End BoardRecords.

Lemma isEmpty_getStone b p :
  Board.wf b ->
  Board.isEmpty b p = true <->
  Board.isValidPosition b p = true /\ Board.getStone b p = None.
Proof.
  intros Hwf. rewrite isEmpty_cell. split; intros [Hv H]; (split; [done|]).
  - by rewrite (getStone_cell b p Hv _ H).
  - destruct (wf_cell b p Hwf Hv) as [c Hc].
    rewrite Hc. f_equal. by rewrite <- (getStone_cell b p Hv _ Hc).
Qed.

(** X1: a board just built or just reset holds no stone and no move: every
    position in bounds is empty, and a position out of bounds is neither
    empty nor occupied. *)
Theorem fresh_board_empty :
  (forall n p,
     Board.getStone (Board.new n) p = None
     /\ Board.isEmpty (Board.new n) p = Board.isValidPosition (Board.new n) p)
  /\ (forall b p,
        Board.getStone (Board.reset b) p = None
        /\ Board.isEmpty (Board.reset b) p = Board.isValidPosition b p
        /\ Board.moves (Board.reset b) = []
        /\ Board.size (Board.reset b) = Board.size b).
Proof.
  split.
  - intros n p. split; [apply getStone_new|apply isEmpty_new].
  - intros b p. split; [apply (getStone_new (Board.size b))|].
    split; [apply (isEmpty_new (Board.size b))|done].
Qed.

(** X2: [placeStone] succeeds exactly on a position in bounds that holds no
    stone. A failed call changes nothing; a successful one puts the stone
    there, leaves the other cells and the size alone and pushes one move, and
    a second call on the same position fails. *)
Theorem placeStone_spec (b : Board.t) (p : Position) (pl : Player) (now : Z) :
  Board.wf b ->
  let r := Board.placeStone b p pl now in
  (r.1 = true <->
   Board.isValidPosition b p = true /\ Board.getStone b p = None)
  /\ (r.1 = false -> r.2 = b)
  /\ (r.1 = true ->
      Board.getStone r.2 p = Some pl
      /\ (forall q, q <> p -> Board.getStone r.2 q = Board.getStone b q)
      /\ Board.moves r.2 = Board.moves b ++ [mkMove p pl now]
      /\ Board.size r.2 = Board.size b
      /\ forall pl' t, Board.placeStone r.2 p pl' t = (false, r.2)).
Proof.
  intros Hwf r. subst r. rewrite <- (isEmpty_getStone b p Hwf).
  assert (Board.placeStone b p pl now
          = if Board.isEmpty b p
            then (true, Board.mk (Board.size b)
                          (Board.setCell (Board.grid b) p (Some pl))
                          (Board.moves b ++ [mkMove p pl now]))
            else (false, b)) as ->
    by (unfold Board.placeStone; by destruct (Board.isEmpty b p)).
  destruct (Board.isEmpty b p) eqn:He; simpl.
  2: { split; [tauto|]. split; [done|]. intros [=]. }
  split; [tauto|]. split; [done|]. intros _.
  pose proof He as [Hv _]%isEmpty_cell.
  split; [apply (getStone_written b p _ _ Hwf Hv)|].
  split; [|split; [done|split; [done|]]].
  - intros q Hq. by apply getStone_setCell_ne.
  - intros pl' t. unfold Board.placeStone.
    match goal with |- context [Board.isEmpty ?b' p] =>
      destruct (Board.isEmpty b' p) eqn:He'; [|done] end.
    apply isEmpty_cell in He' as [_ Hc]. cbn [Board.grid] in Hc.
    destruct (wf_cell b p Hwf Hv) as [c Hc'].
    by rewrite (cell_setCell_eq _ _ _ _ Hc') in Hc.
Qed.

Lemma placeStone_spec_witness :
  (Board.placeStone (Board.new 15) (Position.mk 7 7) BLACK 1).1 = true
  /\ Board.getStone
       (Board.placeStone (Board.new 15) (Position.mk 7 7) BLACK 1).2
       (Position.mk 7 7) = Some BLACK.
Proof.
  destruct (placeStone_spec (Board.new 15) (Position.mk 7 7) BLACK 1)
    as (H1 & _ & H3).
  - apply new_wf. lia.
  - assert ((Board.placeStone (Board.new 15) (Position.mk 7 7) BLACK 1).1 = true)
      as Hok by (apply H1; vm_compute; split; reflexivity).
    split; [exact Hok|]. apply (H3 Hok).
Defined.

Lemma applyOp_size b op : Board.size (applyOp b op) = Board.size b.
Proof.
  destruct op; simpl; [| | |done].
  - unfold Board.placeStone. by destruct (negb _).
  - unfold Board.undoMove. by destruct (last _).
  - unfold Board.removeStone. destruct (negb _); [done|]. by case_bool_decide.
Qed.

Lemma applyOps_size ops b : Board.size (applyOps b ops) = Board.size b.
Proof.
  revert b. induction ops as [|op ops IH]; intros b; [done|].
  change (applyOps b (op :: ops)) with (applyOps (applyOp b op) ops).
  by rewrite IH, applyOp_size.
Qed.

(** X3: whatever calls are made on a board built with a size that is not
    negative, the grid stays [size] by [size], every move on the stack is in
    bounds, and every stone on the board has a move on the stack with its
    position and its player. *)
Theorem board_calls_keep_records (n : Z) (ops : list BoardOp) :
  0 <= n ->
  Board.wf (applyOps (Board.new n) ops)
  /\ Board.size (applyOps (Board.new n) ops) = n
  /\ recorded (applyOps (Board.new n) ops).
Proof.
  intros Hn. split; [by apply applyOps_wf, new_wf|]. split.
  - apply applyOps_size.
  - apply applyOps_recorded; [by apply new_wf|apply new_recorded].
Qed.

Lemma board_calls_keep_records_witness :
  recorded
    (applyOps (Board.new 15)
       [OpPlace (Position.mk 7 7) BLACK 1; OpRemove (Position.mk 7 7);
        OpPlace (Position.mk 7 7) WHITE 2; OpUndo]).
Proof. apply (board_calls_keep_records 15). lia. Defined.

(** * Further properties of the item system *)

Section ItemFactories.
Implicit Types (rt : Runtime) (l : list Position).

Lemma pool_flag rand bias t :
  In t (if ItemSystem.below rand bias then ItemSystem.strengtheningItems
        else ItemSystem.weakeningItems) ->
  isStrengthening (ItemSystem.ITEM_INFO_MAP t) = ItemSystem.below rand bias.
Proof.
  destruct (ItemSystem.below rand bias);
    intros [_ H]%filter_In; [done|by apply negb_true_iff].
Qed.

Lemma generateRandomItemType_item bias rt :
  randomInRange rt ->
  exists t,
    ItemSystem.generateRandomItemType bias rt
    = (Some t, set_randomCalls (S (S (randomCalls rt))) rt)
    /\ isStrengthening (ItemSystem.ITEM_INFO_MAP t)
       = ItemSystem.below (randomSrc rt (randomCalls rt)) bias.
Proof.
  intros Hr. unfold ItemSystem.generateRandomItemType, mathRandom. simpl.
  set (rand := randomSrc rt (randomCalls rt)).
  set (pool := if ItemSystem.below rand bias then _ else _).
  destruct (Hr (S (randomCalls rt))) as [H0 H1].
  destruct (arrayGet_pick pool _ H0 H1) as (t & Ht & Hl).
  { subst pool. by destruct (ItemSystem.below rand bias). }
  exists t. rewrite Ht. split; [done|].
  apply pool_flag. apply list_elem_of_In. by eapply list_elem_of_lookup_2.
Qed.
End ItemFactories.

(** X4: when [Math.random()] answers in [0,1), [generateRandomItemType]
    always returns an item; the item is a strengthening one exactly when the
    first draw is below the bias, and the call makes two draws and changes
    nothing else. *)
Theorem generateRandomItemType_total (bias : Q) (rt : Runtime) :
  randomInRange rt ->
  exists t,
    ItemSystem.generateRandomItemType bias rt
    = (Some t, set_randomCalls (S (S (randomCalls rt))) rt)
    /\ isStrengthening (ItemSystem.getItemInfo t)
       = ItemSystem.below (randomSrc rt (randomCalls rt)) bias.
Proof. apply generateRandomItemType_item. Qed.

Lemma generateRandomItemType_total_witness :
  exists t,
    ItemSystem.generateRandomItemType (1 # 2) quietRuntime
    = (Some t, set_randomCalls 2 quietRuntime).
Proof.
  destruct (generateRandomItemType_total (1 # 2) quietRuntime quiet_inRange)
    as (t & Ht & _).
  exists t. exact Ht.
Defined.

(** X5: [generateBlindBox] returns nothing, and draws nothing, for an empty
    list of positions. For a list that is not empty, when [Math.random()]
    answers in [0,1), it returns an unopened box on the position of the list
    the first draw points at, the one at the index [Math.floor] gives for
    the draw times the length of the list, the product rounded as a product
    of doubles is; the box is stamped with the clock, after three draws and
    one reading of the clock. *)
Theorem generateBlindBox_spec (bias : Q) (rt : Runtime) :
  ItemSystem.generateBlindBox [] bias rt = (None, rt)
  /\ (forall l,
        l <> [] -> randomInRange rt ->
        exists p t,
          l !! Z.to_nat (floorMul (randomSrc rt (randomCalls rt)) (length l))
          = Some p
          /\ ItemSystem.generateBlindBox l bias rt
             = (Some (mkBlindBox p t false (clockSrc rt (clockCalls rt))),
                set_clockCalls (S (clockCalls rt))
                  (set_randomCalls (S (S (S (randomCalls rt)))) rt))).
Proof.
  split; [done|]. intros l Hne Hr. unfold ItemSystem.generateBlindBox.
  replace (length l =? 0)%nat with false
    by (symmetry; apply Nat.eqb_neq; by destruct l).
  destruct (Hr (randomCalls rt)) as [H0 H1].
  destruct (arrayGet_pick l _ H0 H1 Hne) as (p & Hp & Hl).
  assert (randomInRange (set_randomCalls (S (randomCalls rt)) rt)) as Hr'
    by (intros i; apply Hr).
  destruct (generateRandomItemType_item bias _ Hr') as (t & Ht & _).
  exists p, t. split; [done|].
  unfold mathRandom at 1. cbn [bind]. cbn [fst snd]. rewrite Hp, Ht.
  reflexivity.
Qed.

Lemma tieDraw_inRange : randomInRange tieDraw.
Proof.
  intros [|[|[|i]]]; (split; [apply Qle_bool_iff|]); try reflexivity;
    destruct i; reflexivity.
Qed.

(** Of six positions the draw of [tieDraw] points at the last one. *)
Lemma generateBlindBox_spec_witness :
  exists t,
    ItemSystem.generateBlindBox [P 0 0; P 1 0; P 2 0; P 3 0; P 4 0; P 5 0]
      (1 # 2) tieDraw
    = (Some (mkBlindBox (P 5 0) t false 0),
       set_clockCalls 1 (set_randomCalls 3 tieDraw)).
Proof.
  destruct (proj2 (generateBlindBox_spec (1 # 2) tieDraw)
              [P 0 0; P 1 0; P 2 0; P 3 0; P 4 0; P 5 0])
    as (p & t & Hp & H).
  - discriminate.
  - apply tieDraw_inRange.
  - exists t. rewrite H. vm_compute in Hp. injection Hp as <-. reflexivity.
Defined.

(** X6: [getAvailablePositions] lists the positions of the square of side
    [boardSize] that pass the test, each once, in the order of the scan
    [for y: for x]. *)
Theorem getAvailablePositions_spec (boardSize : Z)
    (isPositionEmpty : Position -> bool) :
  (forall p,
     In p (ItemSystem.getAvailablePositions boardSize isPositionEmpty) <->
     0 <= Position.x p < boardSize /\ 0 <= Position.y p < boardSize
     /\ isPositionEmpty p = true)
  /\ StronglySorted rowMajorBefore
       (ItemSystem.getAvailablePositions boardSize isPositionEmpty)
  /\ NoDup (ItemSystem.getAvailablePositions boardSize isPositionEmpty).
Proof.
  unfold ItemSystem.getAvailablePositions.
  assert (StronglySorted rowMajorBefore
            (List.filter isPositionEmpty (scan boardSize))) as Hs
    by apply filter_sorted, scan_sorted.
  split; [|split; [done|by apply sorted_NoDup]].
  intros p. rewrite filter_In, <- list_elem_of_In, elem_of_scan. tauto.
Qed.

Section FindBox.
Lemma find_first {A} (f : A -> bool) (l : list A) :
  match List.find f l with
  | Some a =>
      exists l1 l2, l = l1 ++ a :: l2 /\ f a = true
                    /\ forall b, In b l1 -> f b = false
  | None => forall b, In b l -> f b = false
  end.
Proof.
  induction l as [|a l IH]; simpl; [by intros b []|].
  destruct (f a) eqn:Ha.
  - exists [], l. split; [done|]. split; [done|]. by intros b [].
  - destruct (List.find f l) as [c|].
    + destruct IH as (l1 & l2 & -> & Hc & Hl1).
      exists (a :: l1), l2. split; [done|]. split; [done|].
      intros b [<-|Hb]; [done|by apply Hl1].
    + intros b [<-|Hb]; [done|by apply IH].
Qed.

Lemma samePos_eq a b : samePos a b = true <-> a = b.
Proof.
  unfold samePos. rewrite andb_true_iff, !Z.eqb_eq.
  destruct a, b; simpl. split; [by intros [-> ->]|by intros [= -> ->]].
Qed.
End FindBox.

(** X7: [findBlindBoxAtPosition] returns the first box of the list that is
    unopened and sits on the position; it returns nothing exactly when every
    box on the position has been opened. *)
Theorem findBlindBoxAtPosition_spec (p : Position) (boxes : list BlindBox) :
  match ItemSystem.findBlindBoxAtPosition p boxes with
  | Some box =>
      isOpened box = false /\ boxPosition box = p
      /\ exists l1 l2,
           boxes = l1 ++ box :: l2
           /\ forall b, In b l1 -> boxPosition b = p -> isOpened b = true
  | None => forall b, In b boxes -> boxPosition b = p -> isOpened b = true
  end.
Proof.
  unfold ItemSystem.findBlindBoxAtPosition.
  pose proof (find_first
    (fun box => negb (isOpened box) && samePos (boxPosition box) p) boxes) as H.
  assert (forall b : BlindBox,
            negb (isOpened b) && samePos (boxPosition b) p = false ->
            boxPosition b = p -> isOpened b = true) as Hno.
  { intros b Hb Hp. apply samePos_eq in Hp. rewrite Hp, andb_true_r in Hb.
    by apply negb_false_iff. }
  destruct (List.find _ boxes) as [box|].
  - destruct H as (l1 & l2 & Hl & Hbox & Hl1).
    apply andb_true_iff in Hbox as [Ho%negb_true_iff Hp%samePos_eq].
    split; [done|]. split; [done|]. exists l1, l2. split; [done|].
    intros b Hb. by apply Hno, Hl1.
  - intros b Hb. by apply Hno, H.
Qed.

(** * Footprints of the engine's methods on a given view *)

(** Proves [frames f c] for a view [f] given in full, by walking through [c]
    and the methods it calls; a write that [f] reads is left as a goal. *)
Ltac head_of t :=
  lazymatch t with
  | ?f _ => head_of f
  | _ => t
  end.

Ltac footprint_step :=
  cbv beta zeta;
  lazymatch goal with
  | |- frames _ (ret _) => apply frames_ret
  | |- frames _ (bind (gets _) _) => apply frames_gets; intros ?
  | |- frames _ (bind _ _) => apply frames_bind; [|intros ?]
  | |- frames _ (when _ _) => apply frames_when
  | |- frames _ (if _ then _ else _) => apply frames_if
  | |- frames _ (match ?x with _ => _ end) => destruct x
  | |- frames _ (modify _) => apply frames_modify; intros ?; try reflexivity
  | |- frames _ (liftR _) => apply frames_liftR; intros ? ?; try reflexivity
  | |- frames _ (pickAllowed _ _) =>
      apply pickAllowed_frames; intros ? ?; try reflexivity
  | |- frames _ ?c => let h := head_of c in unfold h
  end.

Ltac footprint := repeat footprint_step.

Lemma handle_config e :
  (forall c, e <> CallSetConfig c) -> frames config (handle e).
Proof.
  intros He. destruct e; try (by destruct (He c)); unfold handle.
  all: footprint.
Qed.

(** * Further properties of the engine *)

Section Rejections.
Implicit Types (g : GomokuGame) (pos : Position).

Lemma boardPlaceStone_occupied g pos pl :
  Board.isEmpty (board g) pos = false -> boardPlaceStone pos pl g = (false, g).
Proof.
  intros He. unfold boardPlaceStone, Board.placeStone. mstep. by rewrite He.
Qed.

Lemma makeMove_occupied g pos :
  gameSubState g <> SELECTING_STRIKE_TARGET ->
  Board.isEmpty (board g) pos = false -> makeMove pos g = (false, g).
Proof.
  intros Hsub He. unfold makeMove. mstep.
  destruct (bool_decide (gameState g = PLAYING)); mstep; [|done].
  destruct (aiToMove g); mstep; [done|].
  rewrite bool_decide_false by done. mstep.
  destruct (_ && _); mstep; [done|].
  by rewrite (boardPlaceStone_occupied g pos _ He).
Qed.

Lemma makeMove_idle g pos :
  gameState g <> PLAYING -> makeMove pos g = (false, g).
Proof. intros H. unfold makeMove. mstep. by rewrite bool_decide_false. Qed.

Lemma makeMove_aiTurn g pos : aiToMove g = true -> makeMove pos g = (false, g).
Proof.
  intros H. unfold makeMove. mstep.
  destruct (bool_decide (gameState g = PLAYING)); mstep; [|done].
  by rewrite H.
Qed.

Lemma makeAIMove_idle g : gameState g <> PLAYING -> makeAIMove g = (tt, g).
Proof. intros H. unfold makeAIMove. mstep. by rewrite bool_decide_false. Qed.
End Rejections.

(** X8: [makeMove] returns false and changes nothing when the game is not
    being played (READY, PAUSED or OVER), when it is the computer's turn in
    PVE, and, outside the selection of a strike target, when the position is
    out of bounds or holds a stone. [makeAIMove] does nothing when the game
    is not being played. *)
Theorem moves_rejected (g : GomokuGame) (pos : Position) :
  (gameState g <> PLAYING -> makeMove pos g = (false, g))
  /\ (aiToMove g = true -> makeMove pos g = (false, g))
  /\ (gameSubState g <> SELECTING_STRIKE_TARGET ->
      Board.isEmpty (board g) pos = false -> makeMove pos g = (false, g))
  /\ (gameState g <> PLAYING -> makeAIMove g = (tt, g)).
Proof.
  split; [apply makeMove_idle|]. split; [apply makeMove_aiTurn|].
  split; [apply makeMove_occupied|apply makeAIMove_idle].
Qed.

Lemma moves_rejected_witness :
  makeMove (P 0 0) fourInColumn = (false, fourInColumn)
  /\ makeMove (P 15 0) fourInColumn = (false, fourInColumn)
  /\ makeMove (P 7 7) (newGame 15 quietRuntime) = (false, newGame 15 quietRuntime).
Proof.
  split; [|split].
  - apply (proj1 (proj2 (proj2 (moves_rejected fourInColumn (P 0 0)))));
      vm_compute; [discriminate|reflexivity].
  - apply (proj1 (proj2 (proj2 (moves_rejected fourInColumn (P 15 0)))));
      vm_compute; [discriminate|reflexivity].
  - apply (proj1 (moves_rejected (newGame 15 quietRuntime) (P 7 7))).
    vm_compute. discriminate.
Defined.

Lemma pair_eq {A B} (a a' : A) (b b' : B) :
  (a, b) = (a', b') -> a = a' /\ b = b'.
Proof. by intros [= -> ->]. Qed.

Section NoFive.
Implicit Types (g : GomokuGame) (pos : Position).

Lemma checkWin_none b pos pl :
  ~ fiveThrough b pos pl -> checkWin b pos pl = mkGameResult None [].
Proof.
  intros Hno. unfold checkWin.
  destruct (List.find _ _) as [line|] eqn:Hfind; [|done].
  exfalso. apply Hno. apply find_some in Hfind as [Hin Hfive].
  apply in_map_iff in Hin as (d & <- & Hd).
  exists d. split; [done|]. by apply Nat.leb_le.
Qed.

Lemma afterMove_true pos g : (afterMove pos g).1 = true.
Proof.
  unfold afterMove. mstep.
  repeat match goal with
         | |- context [if ?b then _ else _] => destruct b; mstep
         end; reflexivity.
Qed.

Lemma afterMove_outcome pos :
  frames (fun g => (gameState g, gameResult g, moveHistory g)) (afterMove pos).
Proof. footprint. Qed.

Lemma recordMoveEvent_outcome t d i a :
  frames
    (fun g => (gameState g, gameResult g, moveHistory g, board g,
               currentPlayer g))
    (recordMoveEvent t d i a).
Proof. footprint. Qed.

Lemma finish_outcome r g :
  gameState (finish r g).2 = OVER /\ gameResult (finish r g).2 = Some r
  /\ moveHistory (finish r g).2 = moveHistory g
  /\ board (finish r g).2 = board g.
Proof. done. Qed.

Lemma settleMove_no_five g pos :
  checkWin (board g) pos (currentPlayer g) = mkGameResult None [] ->
  let g' := (settleMove pos g).2 in
  (settleMove pos g).1 = true
  /\ moveHistory g' = moveHistory g ++ [mkMove pos (currentPlayer g) (nextNow g)]
  /\ if Z.of_nat (S (length (moveHistory g)))
        =? Board.getSize (board g) * Board.getSize (board g)
     then gameState g' = OVER /\ gameResult g' = Some (mkGameResult None [])
          /\ board g' = board g
     else gameState g' = gameState g /\ gameResult g' = gameResult g.
Proof.
  intros Hwin g'. subst g'. unfold settleMove. mstep.
  set (g1 := (pushMoveHistory pos g).2).
  assert (gameState g1 = gameState g /\ gameResult g1 = gameResult g
          /\ moveHistory g1
             = moveHistory g ++ [mkMove pos (currentPlayer g) (nextNow g)]
          /\ board g1 = board g /\ currentPlayer g1 = currentPlayer g)
    as (Hs1 & Hr1 & Hm1 & Hb1 & Hc1) by done.
  clearbody g1.
  destruct (hasExtraMove g1).
  all: match goal with
    | |- context [recordMoveEvent ?t ?d None None ?s] =>
        pose proof (recordMoveEvent_outcome t d None None s) as Hc;
        remember (recordMoveEvent t d None None s).2 as g2 eqn:Hg2 in *
    end.
  all: clear Hg2; cbv beta in Hc; injection Hc as Hs2 Hr2 Hm2 Hb2 Hc2.
  all: rewrite Hb2, Hc2, Hb1, Hc1, Hwin.
  all: simpl winner.
  all: rewrite bool_decide_false by (by intros H; apply H).
  all: unfold isFull.
  all: rewrite Hm2, Hb2, Hm1, Hb1, length_app, Nat.add_1_r.
  all: simpl length.
  all: destruct (_ =? _).
  all: mstep.
  all: lazymatch goal with
       | |- context [afterMove] =>
           pose proof (afterMove_outcome pos g2) as Ho; cbv beta in Ho;
           apply pair_eq in Ho as [Ho Hm3]; apply pair_eq in Ho as [Hs3 Hr3];
           rewrite afterMove_true, Hs3, Hr3, Hm3, Hs2, Hr2, Hm2, Hs1, Hr1, Hm1
       | |- _ =>
           destruct (finish_outcome (mkGameResult None []) g2)
             as (-> & -> & -> & ->);
           rewrite Hm2, Hm1, Hb2, Hb1
       end.
  all: done.
Qed.
End NoFive.

Lemma no_five_by_test b pos pl :
  forallb (fun d => (length (checkDirection b pos pl d.1 d.2) <? 5)%nat)
    directions = true ->
  ~ fiveThrough b pos pl.
Proof.
  rewrite forallb_forall. intros Hall (d & Hd & Hlen).
  specialize (Hall d Hd). apply Nat.ltb_lt in Hall. lia.
Qed.

Lemma boardPlaceStone_rest pos pl :
  frames (fun g => (gameState g, gameResult g, moveHistory g))
    (boardPlaceStone pos pl).
Proof. footprint. Qed.

Lemma withStone_size b pos pl now :
  Board.getSize (withStone b pos pl now) = Board.getSize b.
Proof. unfold withStone, Board.placeStone. by destruct (negb _). Qed.

(** X9: a move that [makeMove] accepts and that makes no five in a row
    returns true and is added to the move history. If it is the
    [size * size]-th move of the history the game is OVER, as a draw with no
    winner and an empty winning line; otherwise the game goes on, PLAYING and
    without a result. *)
Theorem move_without_five (g : GomokuGame) (pos : Position) :
  accepts g pos ->
  let pl := currentPlayer g in
  let b' := withStone (board g) pos pl (nextNow g) in
  ~ fiveThrough b' pos pl ->
  let g' := (makeMove pos g).2 in
  (makeMove pos g).1 = true
  /\ (exists t, moveHistory g' = moveHistory g ++ [mkMove pos pl t])
  /\ if Z.of_nat (S (length (moveHistory g)))
        =? Board.getSize (board g) * Board.getSize (board g)
     then gameState g' = OVER
          /\ gameResult g' = Some (mkGameResult None [])
          /\ board g' = b'
     else gameState g' = PLAYING /\ gameResult g' = gameResult g.
Proof.
  intros Hacc pl b' Hno g'. subst g'.
  rewrite (makeMove_accepted g pos Hacc).
  destruct Hacc as (Hst & _ & _ & _ & Hempty).
  destruct (boardPlaceStone_empty g pos pl Hempty) as (_ & Hb & Hc).
  pose proof (boardPlaceStone_rest pos pl g) as Hr. cbv beta in Hr.
  apply pair_eq in Hr as [Hr Hm]. apply pair_eq in Hr as [Hs Hres].
  fold pl. set (g0 := (boardPlaceStone pos pl g).2) in *. clearbody g0.
  fold b' in Hb.
  destruct (settleMove_no_five g0 pos) as (H1 & H2 & H3).
  { rewrite Hb, Hc. by apply checkWin_none. }
  split; [done|]. split; [rewrite H2, Hm, Hc; by eexists|].
  rewrite Hm, Hb in H3. unfold b' in H3 at 1 2. rewrite withStone_size in H3.
  destruct (_ =? _); [done|]. by rewrite Hs, Hres, Hst in H3.
Qed.

Lemma move_without_five_witness :
  gameState (makeMove (P 5 6) fourInColumn).2 = PLAYING
  /\ gameResult (makeMove (P 5 6) fourInColumn).2 = gameResult fourInColumn.
Proof.
  destruct (move_without_five fourInColumn (P 5 6)) as (_ & _ & H).
  - vm_compute. repeat split; try reflexivity; try discriminate.
    left. reflexivity.
  - apply no_five_by_test. vm_compute. reflexivity.
  - assert ((Z.of_nat (S (length (moveHistory fourInColumn)))
             =? Board.getSize (board fourInColumn)
                * Board.getSize (board fourInColumn)) = false) as E
      by (vm_compute; reflexivity).
    rewrite E in H. exact H.
Defined.

Section Undo.
Implicit Types (g : GomokuGame).

Lemma undoMove_untouched :
  frames
    (fun g => (gameMoveCountState g, blindBoxes g, playerItems g,
               activeEffects g, hasExtraMove g, config g))
    undoMove.
Proof. footprint. Qed.

Lemma undoMove_refused g :
  gameState g = READY \/ moveHistory g = [] -> undoMove g = (false, g).
Proof.
  intros H. unfold undoMove. mstep.
  destruct (last (moveHistory g)) as [m|] eqn:Hl; [|done].
  destruct H as [H|H]; [by rewrite bool_decide_true|]. rewrite H in Hl. simpl in Hl. discriminate Hl.
Qed.

Lemma undoMove_done g lastMove :
  gameState g <> READY -> last (moveHistory g) = Some lastMove ->
  let g' := (undoMove g).2 in
  let twice :=
    bool_decide (mode (config g) = PVE)
    && negb (bool_decide (player lastMove = playerColor (config g)))
    && (2 <=? length (moveHistory g))%nat in
  (undoMove g).1 = true
  /\ gameState g' = PLAYING /\ gameResult g' = None
  /\ gameSubState g' = NORMAL /\ allowedPositions g' = []
  /\ strategyGuidePositions g' = [] /\ preciseStrikePlayer g' = None
  /\ currentPlayer g'
     = (if bool_decide (mode (config g) = PVE) then playerColor (config g)
        else other (currentPlayer g))
  /\ moveHistory g'
     = (if twice then removelast (removelast (moveHistory g))
        else removelast (moveHistory g))
  /\ board g'
     = (if twice then (Board.undoMove (Board.undoMove (board g)).2).2
        else (Board.undoMove (board g)).2).
Proof.
  intros Hst Hl g' twice. subst g' twice. unfold undoMove. mstep. rewrite Hl.
  rewrite bool_decide_false by done. mstep.
  destruct (isAiCalculating g && truthy (aiTimer g)); mstep;
    (destruct (bool_decide (mode (config g) = PVE)); mstep;
     [destruct (negb _ && _); mstep|]); msimpl.
  all: unfold undoOne, clearIfSet; try destruct (aiTimer g) as [[|?]|].
  all: repeat split; reflexivity.
Qed.
End Undo.

(** X10: the engine's [undoMove] returns false and changes nothing in the
    state READY or with an empty move history. Otherwise it returns true and
    leaves the game PLAYING, without a result, in the sub-state NORMAL and
    with no hand-slip restriction, strategy guide or pending strike. In PVE
    it takes back two moves when the last one is the computer's and there
    are at least two, else one, and gives the turn to the human's colour; in
    PVP it takes back one move and gives the turn to the other player. The
    move counts, the blind boxes, the items and effects, the extra-move flag
    and the configuration are not rolled back. *)
Theorem engine_undoMove_spec (g : GomokuGame) :
  (gameState g = READY \/ moveHistory g = [] -> undoMove g = (false, g))
  /\ (forall lastMove,
        gameState g <> READY -> last (moveHistory g) = Some lastMove ->
        let g' := (undoMove g).2 in
        let twice :=
          bool_decide (mode (config g) = PVE)
          && negb (bool_decide (player lastMove = playerColor (config g)))
          && (2 <=? length (moveHistory g))%nat in
        (undoMove g).1 = true
        /\ gameState g' = PLAYING /\ gameResult g' = None
        /\ gameSubState g' = NORMAL /\ allowedPositions g' = []
        /\ strategyGuidePositions g' = [] /\ preciseStrikePlayer g' = None
        /\ currentPlayer g'
           = (if bool_decide (mode (config g) = PVE)
              then playerColor (config g) else other (currentPlayer g))
        /\ moveHistory g'
           = (if twice then removelast (removelast (moveHistory g))
              else removelast (moveHistory g))
        /\ board g'
           = (if twice then (Board.undoMove (Board.undoMove (board g)).2).2
              else (Board.undoMove (board g)).2))
  /\ (let g' := (undoMove g).2 in
      gameMoveCountState g' = gameMoveCountState g
      /\ blindBoxes g' = blindBoxes g
      /\ playerItems g' = playerItems g
      /\ activeEffects g' = activeEffects g
      /\ hasExtraMove g' = hasExtraMove g
      /\ config g' = config g).
Proof.
  split; [apply undoMove_refused|]. split; [intros m; apply undoMove_done|].
  pose proof (undoMove_untouched g) as H. cbv beta in H.
  apply pair_eq in H as [H H6]. apply pair_eq in H as [H H5].
  apply pair_eq in H as [H H4]. apply pair_eq in H as [H H3].
  apply pair_eq in H as [H1 H2]. done.
Qed.

Lemma engine_undoMove_spec_witness :
  undoMove (newGame 15 quietRuntime) = (false, newGame 15 quietRuntime)
  /\ (undoMove fourInColumn).1 = true
  /\ currentPlayer (undoMove fourInColumn).2 = other (currentPlayer fourInColumn).
Proof.
  split.
  - apply (proj1 (engine_undoMove_spec (newGame 15 quietRuntime))).
    left. reflexivity.
  - destruct (proj1 (proj2 (engine_undoMove_spec fourInColumn))
                (mkMove (P 10 10) WHITE 29))
      as (H1 & _ & _ & _ & _ & _ & _ & H2 & _).
    + vm_compute. discriminate.
    + vm_compute. reflexivity.
    + split; [exact H1|].
      assert (bool_decide (mode (config fourInColumn) = PVE) = false) as E
        by (vm_compute; reflexivity).
      rewrite E in H2. exact H2.
Defined.

(** * Further invariants of the engine *)

(** Proves [hoare I c I] by walking through [c] and the methods it calls.
    [known] closes the calls that need an argument of their own; a write
    that [I] reads is left as a goal. *)
Ltac preserved_step known :=
  cbv beta zeta;
  lazymatch goal with
  | |- hoare _ (ret _) _ => apply pres_ret
  | |- hoare _ (bind (gets _) _) _ => apply pres_gets; intros ?
  | |- hoare _ (bind _ _) _ => apply pres_bind; [|intros ?]
  | |- hoare _ (when _ _) _ => apply pres_when
  | |- hoare _ (if _ then _ else _) _ => apply pres_if
  | |- hoare _ (match ?x with _ => _ end) _ => destruct x
  | |- hoare _ ?c _ =>
      first
        [ known
        | lazymatch c with
          | modify _ =>
              apply hoare_modify;
              let H := fresh "H" in intros ? H; try exact H
          | liftR _ =>
              apply hoare_liftR;
              let H := fresh "H" in intros ? ? H; try exact H
          | _ => let h := head_of c in unfold h
          end ]
  end.

Ltac preserved known := repeat preserved_step known.

Section ResultWhenOver.
Implicit Types (g : GomokuGame).

Lemma finish_result r : hoare resultWhenOver (finish r) resultWhenOver.
Proof. intros g _. by split. Qed.

Ltac result_known :=
  idtac;
  lazymatch goal with
  | |- hoare _ (finish _) _ => apply finish_result
  | |- hoare _ (pickAllowed _ _) _ =>
      apply (hoare_view (fun g => (gameResult g, gameState g))
               (fun v => v.1 <> None <-> v.2 = OVER));
      intros ?; apply (pickAllowed_frames (fun g => (gameResult g, gameState g)));
      intros; reflexivity
  end.

Lemma makeMove_result pos : hoare resultWhenOver (makeMove pos) resultWhenOver.
Proof. preserved result_known. Qed.

Lemma makeAIMove_result : hoare resultWhenOver makeAIMove resultWhenOver.
Proof. preserved result_known. Qed.
End ResultWhenOver.

Section StartNewGame.
Implicit Types (g : GomokuGame).

(** The fields [startNewGame] assigns, once it returns. *)
Lemma startNewGame_fields g :
  let g' := (startNewGame g).2 in
  board g' = Board.reset (board g)
  /\ currentPlayer g' = BLACK /\ gameState g' = PLAYING
  /\ gameSubState g' = NORMAL /\ gameResult g' = None
  /\ moveHistory g' = [] /\ blindBoxes g' = []
  /\ playerItems g' = <[WHITE := []]> (<[BLACK := []]> ∅)
  /\ activeEffects g' = <[WHITE := []]> (<[BLACK := []]> ∅)
  /\ lastItemUsed g' = None /\ strategyGuidePositions g' = []
  /\ hasExtraMove g' = false /\ nextPlayerHasExtraMove g' = false
  /\ nextPlayerHasSlipPenalty g' = false /\ allowedPositions g' = []
  /\ notification g' = None /\ preciseStrikePlayer g' = None
  /\ preciseStrikeHasExtraMove g' = false
  /\ gameMoveCountState g'
     = mkGameMoveCountState
         (mkPlayerMap (createPlayerMoveCount BLACK)
            (createPlayerMoveCount WHITE))
         (currentPlayer g) None
  /\ config g' = config g
  /\ gameStateChangeCallbacks g' = gameStateChangeCallbacks g.
Proof.
  destruct g as [b cp st sub res mh [md pc df it] [[|?]|] ai bx pit ae liu [[|?]|]
                   sg he nhe nsp al nt [[|?]|] psp pse mc cb rt];
    destruct md, pc; repeat split; reflexivity.
Qed.
End StartNewGame.

Lemma startNewGame_calculating g :
  isAiCalculating (startNewGame g).2
  = bool_decide (mode (config g) = PVE)
    && bool_decide (playerColor (config g) = WHITE).
Proof.
  destruct g as [b cp st sub res mh [md pc df it] [[|?]|] ai bx pit ae liu [[|?]|]
                   sg he nhe nsp al nt [[|?]|] psp pse mc cb rt];
    destruct md, pc; reflexivity.
Qed.

Lemma scheduleAiTurn_pending P :
  hoare P scheduleAiTurn
    (fun s => exists id, aiTimer s = Some id
                         /\ mkTimer id 500 AiTurn ∈ timers (runtime s)).
Proof.
  intros s _. exists (nextTimer (runtime s)). split; [reflexivity|].
  unfold scheduleAiTurn, setTimeout. msimpl. apply elem_of_app. right.
  by apply list_elem_of_singleton.
Qed.

Lemma startNewGame_schedule g :
  bool_decide (mode (config g) = PVE)
  && bool_decide (playerColor (config g) = WHITE) = true ->
  exists id, aiTimer (startNewGame g).2 = Some id
             /\ mkTimer id 500 AiTurn ∈ timers (runtime (startNewGame g).2).
Proof.
  intros Hc.
  assert (hoare (fun s => config s = config g) startNewGame
            (fun s => exists id,
               aiTimer s = Some id
               /\ mkTimer id 500 AiTurn ∈ timers (runtime s))) as H;
    [|exact (H g eq_refl)].
  unfold startNewGame.
  repeat lazymatch goal with
    | |- hoare _ (bind (gets config) _) _ => fail
    | |- hoare _ (bind (gets _) _) _ => apply hoare_read; intros ?
    | |- hoare _ (bind _ _) _ =>
        apply (hoare_bind _ (fun s => config s = config g));
          [solve [preserved fail]|intros ?]
    end.
  apply hoare_gets. intros cfg s [-> <-]. rewrite Hc.
  by apply (scheduleAiTurn_pending (fun _ => True)).
Qed.

Lemma startNewGame_timers g :
  let g' := (startNewGame g).2 in
  let aiFirst :=
    bool_decide (mode (config g) = PVE)
    && bool_decide (playerColor (config g) = WHITE) in
  timers (runtime g')
  = cancelled (notificationTimer g)
      (cancelled (itemNameDisplayTimer g)
         (cancelled (aiTimer g) (timers (runtime g))))
    ++ (if aiFirst then [mkTimer (nextTimer (runtime g)) 500 AiTurn] else [])
  /\ nextTimer (runtime g')
     = (if aiFirst then S (nextTimer (runtime g)) else nextTimer (runtime g))
  /\ aiTimer g'
     = (if aiFirst then Some (nextTimer (runtime g))
        else if truthy (aiTimer g) then None else aiTimer g).
Proof.
  destruct g as [b cp st sub res mh [md pc df it] [[|?]|] ai bx pit ae liu [[|?]|]
                   sg he nhe nsp al nt [[|?]|] psp pse mc cb rt];
    destruct md, pc; repeat split; cbn; rewrite ?app_nil_r; reflexivity.
Qed.

(** X11: [startNewGame] leaves an empty board of the same size with BLACK to
    move, the game PLAYING in the sub-state NORMAL, no result, no move, no
    blind box, no item or effect, no extra move, no hand-slip restriction,
    no notification and no pending strike, and fresh move counts that keep
    the colour that was to move as their current player. The configuration
    and the registered callbacks are kept. The computer's first move is
    scheduled, 500 ms ahead, exactly in PVE when the human plays WHITE: the
    pending timers are those of before the call, without the timers of the
    computer's turn, of the item name and of the notification where their
    handles were set, and then with the new timer, which [aiTimer] holds;
    in every other configuration no timer is added, and [aiTimer] is empty
    unless it held the handle 0, which [if (this.aiTimer)] takes for
    unset. *)
Theorem startNewGame_resets (g : GomokuGame) :
  let g' := (startNewGame g).2 in
  let aiFirst :=
    bool_decide (mode (config g) = PVE)
    && bool_decide (playerColor (config g) = WHITE) in
  (board g' = Board.reset (board g)
   /\ currentPlayer g' = BLACK /\ gameState g' = PLAYING
   /\ gameSubState g' = NORMAL /\ gameResult g' = None
   /\ moveHistory g' = [] /\ blindBoxes g' = []
   /\ playerItems g' = <[WHITE := []]> (<[BLACK := []]> ∅)
   /\ activeEffects g' = <[WHITE := []]> (<[BLACK := []]> ∅)
   /\ lastItemUsed g' = None /\ strategyGuidePositions g' = []
   /\ hasExtraMove g' = false /\ nextPlayerHasExtraMove g' = false
   /\ nextPlayerHasSlipPenalty g' = false /\ allowedPositions g' = []
   /\ notification g' = None /\ preciseStrikePlayer g' = None
   /\ preciseStrikeHasExtraMove g' = false
   /\ gameMoveCountState g'
      = mkGameMoveCountState
          (mkPlayerMap (createPlayerMoveCount BLACK)
             (createPlayerMoveCount WHITE))
          (currentPlayer g) None
   /\ config g' = config g
   /\ gameStateChangeCallbacks g' = gameStateChangeCallbacks g)
  /\ isAiCalculating g' = aiFirst
  /\ (aiFirst = true ->
      exists id, aiTimer g' = Some id
                 /\ mkTimer id 500 AiTurn ∈ timers (runtime g'))
  /\ timers (runtime g')
     = cancelled (notificationTimer g)
         (cancelled (itemNameDisplayTimer g)
            (cancelled (aiTimer g) (timers (runtime g))))
       ++ (if aiFirst then [mkTimer (nextTimer (runtime g)) 500 AiTurn]
           else [])
  /\ nextTimer (runtime g')
     = (if aiFirst then S (nextTimer (runtime g)) else nextTimer (runtime g))
  /\ aiTimer g'
     = (if aiFirst then Some (nextTimer (runtime g))
        else if truthy (aiTimer g) then None else aiTimer g).
Proof.
  intros g' aiFirst. split; [apply startNewGame_fields|].
  split; [apply startNewGame_calculating|].
  split; [apply startNewGame_schedule|apply startNewGame_timers].
Qed.

(** The computer opens when the human plays WHITE, and no timer is set in a
    game between two players. *)
Lemma startNewGame_resets_witness :
  (aiTimer
     (startNewGame
        (setConfig (mkPartialConfig (Some PVE) (Some WHITE) None None)
           (newGame 15 quietRuntime)).2).2 = Some 1%nat
   /\ timers
        (runtime
           (startNewGame
              (setConfig (mkPartialConfig (Some PVE) (Some WHITE) None None)
                 (newGame 15 quietRuntime)).2).2)
      = [mkTimer 1 500 AiTurn])
  /\ aiTimer (startNewGame (newGame 15 quietRuntime)).2 = None
  /\ timers (runtime (startNewGame (newGame 15 quietRuntime)).2) = [].
Proof.
  destruct (startNewGame_resets
              (setConfig (mkPartialConfig (Some PVE) (Some WHITE) None None)
                 (newGame 15 quietRuntime)).2)
    as (_ & _ & _ & Ht & _ & Ha).
  destruct (startNewGame_resets (newGame 15 quietRuntime))
    as (_ & _ & _ & Ht' & _ & Ha').
  split; [split|split].
  - rewrite Ha. vm_compute. reflexivity.
  - rewrite Ht. vm_compute. reflexivity.
  - rewrite Ha'. vm_compute. reflexivity.
  - rewrite Ht'. vm_compute. reflexivity.
Defined.

Lemma hoare_later {A B} P Q (c : M A) (k : A -> M B) :
  (forall a, hoare (fun _ => True) (k a) Q) -> hoare P (bind c k) Q.
Proof. intros Hk g _. by apply Hk. Qed.

Lemma hoare_any {A} P Q (c : M A) :
  hoare (fun _ => True) c Q -> hoare P c Q.
Proof. intros Hc g _. by apply Hc. Qed.

Lemma calls_reachable es g :
  reachable g ->
  Forall (fun e => match e with Fire _ => False | _ => True end) es ->
  reachable (runEvents es g).
Proof.
  revert g. induction es as [|e es IH]; intros g Hg Hes; [done|].
  apply Forall_cons in Hes as [He Hes]. apply IH; [|done].
  apply reachable_step; [done|]. by destruct e.
Qed.

Lemma makeMove_reachable pos g : reachable g -> reachable (makeMove pos g).2.
Proof. intros Hg. by apply (reachable_step g (CallMakeMove pos)). Qed.

Lemma fourInColumn_reachable : reachable fourInColumn.
Proof.
  apply calls_reachable; [apply (reachable_new true); reflexivity|].
  repeat constructor.
Qed.

Section ResultReachable.
Implicit Types (g : GomokuGame).

Lemma startNewGame_result P : hoare P startNewGame resultWhenOver.
Proof.
  intros g _. destruct (startNewGame_fields g) as (_ & _ & Hs & _ & Hr & _).
  unfold resultWhenOver. rewrite Hs, Hr. by split.
Qed.

Lemma undoMove_result : hoare resultWhenOver undoMove resultWhenOver.
Proof.
  intros g Hg. destruct (last (moveHistory g)) as [m|] eqn:Hl.
  - destruct (decide (gameState g = READY)) as [Hst|Hst].
    + rewrite undoMove_refused; [done|by left].
    + destruct (undoMove_done g m Hst Hl) as (_ & Hs & Hr & _).
      unfold resultWhenOver. rewrite Hs, Hr. by split.
  - rewrite undoMove_refused; [done|]. right. by apply last_None.
Qed.

Lemma handle_result e : hoare resultWhenOver (handle e) resultWhenOver.
Proof.
  destruct e; unfold handle.
  - preserved fail.
  - apply startNewGame_result.
  - apply pres_bind; [apply makeMove_result|intros ?; apply pres_ret].
  - apply pres_bind; [apply undoMove_result|intros ?; apply pres_ret].
  - apply startNewGame_result.
  - intros g Hg. unfold pause, resultWhenOver in *. mstep.
    case_bool_decide as Hs; msimpl; [|done]. rewrite Hs in Hg. split; [|done].
    intros H. apply Hg in H. done.
  - intros g Hg. unfold resume, resultWhenOver in *. mstep.
    case_bool_decide as Hs; msimpl; [|done]. rewrite Hs in Hg. split; [|done].
    intros H. apply Hg in H. done.
  - unfold setBoardSize.
    repeat lazymatch goal with
      | |- hoare _ (bind startNewGame _) _ => fail
      | |- hoare _ (bind _ _) _ => apply hoare_later; intros ?
      end.
    apply (hoare_bind _ resultWhenOver); [apply startNewGame_result|].
    intros ?. preserved fail.
  - preserved fail.
  - preserved fail.
  - unfold fire. apply pres_bind; [preserved fail|intros ?].
    destruct (action t); unfold runTimer.
    + apply pres_bind; [preserved fail|intros ?].
      apply pres_bind; [preserved fail|intros ?]. apply makeAIMove_result.
    + apply makeAIMove_result.
    + preserved fail.
    + preserved fail.
Qed.

Lemma reachable_result g : reachable g -> resultWhenOver g.
Proof.
  induction 1 as [fifteen rt Hrt|g e Hg IH He]; [by split|].
  by apply handle_result.
Qed.
End ResultReachable.

(** X12: in every state the engine reaches, a result is on record exactly
    when the game is OVER. *)
Theorem result_exactly_when_over (g : GomokuGame) :
  reachable g -> (gameResult g <> None <-> gameState g = OVER).
Proof. apply reachable_result. Qed.

Lemma result_exactly_when_over_witness :
  gameResult (makeMove (P 0 4) fourInColumn).2 <> None
  <-> gameState (makeMove (P 0 4) fourInColumn).2 = OVER.
Proof.
  apply result_exactly_when_over.
  apply makeMove_reachable, fourInColumn_reachable.
Defined.

Section BlindBoxes.
Implicit Types (g : GomokuGame) (boxes : list BlindBox).

Lemma unopened_after_opening boxes i box :
  boxes !! i = Some box ->
  sublist
    (unopenedPositions
       (<[i := mkBlindBox (boxPosition box) (itemType box) true
                 (boxTimestamp box)]> boxes))
    (unopenedPositions boxes).
Proof.
  unfold unopenedPositions. revert i.
  induction boxes as [|b boxes IH]; intros [|i] Hi; simpl in *; try done.
  - injection Hi as ->. destruct (negb (isOpened box)); simpl;
      [by apply sublist_cons|done].
  - destruct (negb (isOpened b)); simpl; [apply sublist_skip|]; by apply IH.
Qed.

Lemma boxesOk_sublist n boxes boxes' :
  sublist (unopenedPositions boxes') (unopenedPositions boxes) ->
  boxesOk (n, boxes) -> boxesOk (n, boxes').
Proof.
  intros Hs [Hnd Hin]. split; simpl in *.
  - by eapply sublist_NoDup.
  - rewrite Forall_forall in Hin |- *. intros p Hp. apply Hin.
    by eapply elem_of_sublist.
Qed.

Lemma unopened_existsb pos boxes :
  existsb (unopenedAt pos) boxes = false -> pos ∉ unopenedPositions boxes.
Proof.
  intros He Hin. unfold unopenedPositions in Hin.
  apply list_elem_of_fmap in Hin as (box & -> & Hbox).
  apply list_elem_of_In, filter_In in Hbox as [Hbox Ho].
  assert (existsb (unopenedAt (boxPosition box)) boxes = true) as Ht.
  { apply existsb_exists. exists box. split; [done|]. unfold unopenedAt.
    rewrite Ho. simpl. by apply samePos_eq. }
  congruence.
Qed.

Lemma arrayGet_In {A} (l : list A) i a : arrayGet l i = Some a -> In a l.
Proof.
  unfold arrayGet. destruct (i <? 0); [done|]. intros H.
  apply list_elem_of_In. by eapply list_elem_of_lookup_2.
Qed.

Lemma generateBlindBox_Some l bias rt box rt' :
  ItemSystem.generateBlindBox l bias rt = (Some box, rt') ->
  In (boxPosition box) l /\ isOpened box = false.
Proof.
  unfold ItemSystem.generateBlindBox. destruct (length l =? 0)%nat; [done|].
  unfold mathRandom at 1. cbn [bind fst snd].
  destruct (arrayGet l _) as [pos|] eqn:Hp;
    (destruct (ItemSystem.generateRandomItemType bias _) as [[t|] rt1];
     cbn [fst snd]; unfold dateNow; cbn [bind ret fst snd]; intros [= <- _]).
  simpl. split; [by eapply arrayGet_In|done].
Qed.

Lemma generateNewBlindBox_apart :
  hoare boxesApart generateNewBlindBox boxesApart.
Proof.
  intros g [Hnd Hin]. unfold generateNewBlindBox. mstep.
  destruct (ItemSystem.generateBlindBox _ _ (runtime g)) as [[box|] rt']
    eqn:Hbox; mstep; [|done].
  apply generateBlindBox_Some in Hbox as [Hp Ho].
  apply filter_In in Hp as [Hscan [He Hno]%andb_true_iff].
  apply negb_true_iff, unopened_existsb in Hno.
  apply isEmpty_cell in He as [[Hx Hy]%valid_bounds _].
  unfold boxesApart, boxesOk, unopenedPositions. msimpl. cbn [fst snd].
  rewrite List.filter_app, map_app. cbn [List.filter]. rewrite Ho.
  cbn [negb map]. split.
  - apply NoDup_app. split; [done|]. split; [|apply NoDup_singleton].
    intros p Hp ->%list_elem_of_singleton. by apply Hno.
  - apply Forall_app. split; [done|]. by apply Forall_singleton.
Qed.

Lemma boardRemoveStone_apart pos :
  hoare boxesApart (boardRemoveStone pos) boxesApart.
Proof.
  intros g H. unfold boardRemoveStone, boxesApart. msimpl.
  replace (Board.size (Board.removeStone (board g) pos).2)
    with (Board.size (board g)); [done|].
  unfold Board.removeStone. destruct (negb _); [done|]. by case_bool_decide.
Qed.

Lemma boardPlaceStone_apart pos pl :
  hoare boxesApart (boardPlaceStone pos pl) boxesApart.
Proof.
  intros g H. unfold boardPlaceStone, Board.placeStone. mstep.
  by destruct (negb _).
Qed.

Lemma pickAllowed_apart n l : hoare boxesApart (pickAllowed n l) boxesApart.
Proof.
  apply (hoare_view (fun g => (Board.size (board g), blindBoxes g)) boxesOk).
  intros ?.
  apply (pickAllowed_frames (fun g => (Board.size (board g), blindBoxes g)));
    intros; reflexivity.
Qed.

Ltac boxes_known :=
  idtac;
  lazymatch goal with
  | |- hoare _ generateNewBlindBox _ => apply generateNewBlindBox_apart
  | |- hoare _ (boardRemoveStone _) _ => apply boardRemoveStone_apart
  | |- hoare _ (boardPlaceStone _ _) _ => apply boardPlaceStone_apart
  | |- hoare _ (pickAllowed _ _) _ => apply pickAllowed_apart
  end.

Lemma triggerItemEffect_apart t p :
  hoare boxesApart (triggerItemEffect t p) boxesApart.
Proof. preserved boxes_known. Qed.

Lemma openBlindBoxAtPosition_apart pos :
  hoare boxesApart (openBlindBoxAtPosition pos) boxesApart.
Proof.
  unfold openBlindBoxAtPosition. apply hoare_gets. intros boxes.
  destruct (findIndex _ _) as [i|]; [|by apply hoare_ret; intros g [? _]].
  destruct (boxes !! i) as [box|] eqn:Hi; [|by apply hoare_ret; intros g [? _]].
  apply (hoare_bind _ boxesApart).
  { apply hoare_modify. intros g [Hg <-]. unfold boxesApart. msimpl.
    eapply boxesOk_sublist; [|exact Hg]. by apply unopened_after_opening. }
  intros ?.
  preserved ltac:(idtac; lazymatch goal with
              | |- hoare _ (triggerItemEffect _ _) _ =>
                  apply triggerItemEffect_apart
              end).
Qed.

Ltac boxes_moves :=
  idtac;
  lazymatch goal with
  | |- hoare _ (openBlindBoxAtPosition _) _ => apply openBlindBoxAtPosition_apart
  | |- _ => boxes_known
  end.

Lemma makeMove_apart pos : hoare boxesApart (makeMove pos) boxesApart.
Proof. preserved boxes_moves. Qed.

Lemma makeAIMove_apart : hoare boxesApart makeAIMove boxesApart.
Proof. preserved boxes_moves. Qed.
End BlindBoxes.

Section BlindBoxesReachable.
Implicit Types (g : GomokuGame).

Lemma startNewGame_apart P : hoare P startNewGame boxesApart.
Proof.
  intros g _. destruct (startNewGame_fields g) as (_ & _ & _ & _ & _ & _ & Hb & _).
  unfold boxesApart, boxesOk. rewrite Hb. split; constructor.
Qed.

Lemma undoOne_apart : hoare boxesApart undoOne boxesApart.
Proof.
  intros g H. unfold undoOne, boxesApart. msimpl.
  replace (Board.size (Board.undoMove (board g)).2)
    with (Board.size (board g)); [done|].
  unfold Board.undoMove. by destruct (last _).
Qed.

Lemma handle_apart e : hoare boxesApart (handle e) boxesApart.
Proof.
  destruct e; unfold handle.
  - preserved fail.
  - apply startNewGame_apart.
  - apply pres_bind; [apply makeMove_apart|intros ?; apply pres_ret].
  - preserved ltac:(idtac; lazymatch goal with
                | |- hoare _ undoOne _ => apply undoOne_apart
                end).
  - apply startNewGame_apart.
  - preserved fail.
  - preserved fail.
  - unfold setBoardSize.
    repeat lazymatch goal with
      | |- hoare _ (bind startNewGame _) _ => fail
      | |- hoare _ (bind _ _) _ => apply hoare_later; intros ?
      end.
    apply (hoare_bind _ boxesApart); [apply startNewGame_apart|].
    intros ?. preserved fail.
  - preserved fail.
  - preserved fail.
  - unfold fire. apply pres_bind; [preserved fail|intros ?].
    destruct (action t); unfold runTimer.
    + apply pres_bind; [preserved fail|intros ?].
      apply pres_bind; [preserved fail|intros ?]. apply makeAIMove_apart.
    + apply makeAIMove_apart.
    + preserved fail.
    + preserved fail.
Qed.

Lemma reachable_apart g : reachable g -> boxesApart g.
Proof.
  induction 1 as [fifteen rt Hrt|g e Hg IH He]; [split; constructor|].
  by apply handle_apart.
Qed.
End BlindBoxesReachable.

(** X13: in every state the engine reaches, the unopened blind boxes sit on
    cells of the board, and no two of them on the same cell. *)
Theorem unopened_boxes_apart (g : GomokuGame) :
  reachable g ->
  NoDup (unopenedPositions (blindBoxes g))
  /\ forall p, In p (unopenedPositions (blindBoxes g)) ->
               Board.isValidPosition (board g) p = true.
Proof.
  intros [Hnd Hin]%reachable_apart. split; [done|]. simpl in Hin.
  intros p Hp%list_elem_of_In. rewrite Forall_forall in Hin.
  by apply valid_bounds, Hin.
Qed.

Lemma unopened_boxes_apart_witness :
  match twoShields with
  | Some g => NoDup (unopenedPositions (blindBoxes g))
  | None => False
  end.
Proof.
  destruct twoShields as [g|] eqn:Hg; [|unplayed Hg].
  apply (unopened_boxes_apart g).
  exact (played_reachable shieldMoves shieldDraws g eq_refl Hg).
Defined.

(** ** The board and the move history between calls *)

Section Outline.
Implicit Types (g : GomokuGame) (b : Board.t).

Lemma outline_wf b b' :
  Board.size b' = Board.size b ->
  map length (Board.grid b') = map length (Board.grid b) ->
  Board.moves b' = Board.moves b -> Board.wf b -> Board.wf b'.
Proof.
  intros Hs Hg Hm [H1 H2 H3 H4]. split.
  - by rewrite Hs.
  - by rewrite Hs, <- H2, <- (length_map length), Hg, length_map.
  - rewrite Hs.
    assert (Forall (fun n => n = Z.to_nat (Board.size b))
              (map length (Board.grid b))) as H5
      by (apply Forall_fmap; exact H3).
    rewrite <- Hg in H5. by apply Forall_fmap in H5.
  - rewrite Hm. unfold Board.isValidPosition. by rewrite Hs.
Qed.

Lemma outline_sound g g' : outline g' = outline g -> boardSound g -> boardSound g'.
Proof.
  unfold outline. intros H (Hwf & Hsz & Hpl).
  apply pair_eq in H as [H H4]. apply pair_eq in H as [H H3].
  apply pair_eq in H as [H1 H2].
  split; [by apply (outline_wf (board g))|]. split; [by rewrite H1|].
  by rewrite H4, H3.
Qed.

Lemma hoare_outline {A} (c : M A) :
  frames outline c -> hoare boardSound c boardSound.
Proof. intros H g. apply outline_sound, H. Qed.

Lemma removeStone_outline pos g :
  outline (set_board (Board.removeStone (board g) pos).2 g) = outline g.
Proof.
  unfold outline, Board.removeStone. msimpl.
  destruct (negb _); [done|]. case_bool_decide; [done|]. cbn [snd].
  cbn [Board.size Board.grid Board.moves]. do 3 f_equal.
  unfold Board.setCell. apply list_eq. intros i. rewrite !list_lookup_fmap.
  destruct (decide (i = Z.to_nat (Position.y pos))) as [->|Hne].
  - rewrite list_lookup_alter_eq.
    destruct (Board.grid (board g) !! _); [|done]. simpl.
    by rewrite length_insert.
  - by rewrite list_lookup_alter_ne.
Qed.

Lemma isEmpty_removeStone b pos p :
  Board.wf b -> Board.isEmpty b p = true ->
  Board.isEmpty (Board.removeStone b pos).2 p = true.
Proof.
  intros Hwf He. unfold Board.removeStone.
  destruct (Board.isValidPosition b pos) eqn:Hv; simpl; [|done].
  case_bool_decide as Hc; simpl; [done|].
  apply (isEmpty_getStone b p Hwf) in He as [Hvp Hs].
  apply isEmpty_getStone; [by apply setCell_wf; [|apply Hwf]|].
  split; [done|]. destruct (decide (pos = p)) as [<-|Hne].
  - by apply getStone_written.
  - by rewrite getStone_setCell_ne.
Qed.
End Outline.

Section AllowedFree.
Implicit Types (g : GomokuGame) (l : list Position).

Lemma pickAllowed_sub (Q : Position -> Prop) rounds l g :
  Forall Q l -> Forall Q (allowedPositions g) ->
  board (pickAllowed rounds l g).2 = board g
  /\ Forall Q (allowedPositions (pickAllowed rounds l g).2).
Proof.
  revert l g. induction rounds as [|rounds IH]; intros l g Hl Hg; [done|].
  cbn [pickAllowed]. destruct (0 <? length l)%nat; [|done]. mstep.
  set (i := floorMul _ _).
  assert (Forall Q (delete (Z.to_nat i) l)) as Hd.
  { rewrite Forall_forall in Hl |- *. intros p Hp. apply Hl.
    eapply elem_of_sublist; [exact Hp|apply sublist_delete]. }
  destruct (arrayGet l i) as [pos|] eqn:Hp; mstep.
  - match goal with |- context [pickAllowed rounds ?l' ?g'] =>
      destruct (IH l' g' Hd) as [Hb Ha] end.
    { msimpl. apply Forall_app. split; [done|]. apply Forall_singleton.
      rewrite Forall_forall in Hl. by apply Hl, list_elem_of_In, (arrayGet_In l i). }
    split; [by rewrite Hb|exact Ha].
  - match goal with |- context [pickAllowed rounds ?l' ?g'] =>
      destruct (IH l' g' Hd) as [Hb Ha] end; [done|].
    split; [by rewrite Hb|exact Ha].
Qed.

Lemma applySlipPenalty_free : hoare freeCells applySlipPenalty freeCells.
Proof.
  intros g [Hwf _]. unfold applySlipPenalty. mstep.
  match goal with |- context [pickAllowed 3 ?l' ?g'] =>
    destruct (pickAllowed_sub (fun p => Board.isEmpty (board g) p = true)
                3 l' g') as [Hb Ha] end.
  - apply Forall_forall. intros p Hp%list_elem_of_In. by apply emptyCells_spec.
  - constructor.
  - unfold freeCells, allowedFree. by rewrite Hb.
Qed.

Lemma boardRemoveStone_free pos :
  hoare freeCells (boardRemoveStone pos) freeCells.
Proof.
  intros g [Hwf Ha]. unfold boardRemoveStone, freeCells, allowedFree in *.
  msimpl.
  split; [by apply removeStone_wf|].
  rewrite Forall_forall in Ha |- *. intros p Hp.
  by apply isEmpty_removeStone, Ha.
Qed.

Ltac free_known :=
  idtac;
  lazymatch goal with
  | |- hoare _ applySlipPenalty _ => apply applySlipPenalty_free
  | |- hoare _ (boardRemoveStone _) _ => apply boardRemoveStone_free
  end.

Ltac free_rest :=
  lazymatch goal with
  | H : freeCells _ |- freeCells _ =>
      destruct H as [? ?]; split; [assumption|constructor]
  end.

Lemma openBlindBoxAtPosition_free pos :
  hoare freeCells (openBlindBoxAtPosition pos) freeCells.
Proof. preserved free_known. Qed.

Lemma selectStrikeTarget_free pos :
  hoare freeCells (selectStrikeTarget pos) freeCells.
Proof. preserved free_known. Qed.

Lemma imposeSlipPenalty_free : hoare freeCells imposeSlipPenalty freeCells.
Proof. preserved free_known. Qed.
End AllowedFree.

Section MovesKeepBoard.
Implicit Types (g : GomokuGame) (pos : Position).

Lemma afterMove_outline pos : frames outline (afterMove pos).
Proof. footprint; apply removeStone_outline. Qed.

Lemma afterAIMove_outline pos : frames outline (afterAIMove pos).
Proof. footprint; apply removeStone_outline. Qed.

Lemma selectStrikeTarget_outline pos : frames outline (selectStrikeTarget pos).
Proof. footprint; apply removeStone_outline. Qed.

Lemma imposeSlipPenalty_outline : frames outline imposeSlipPenalty.
Proof. footprint. Qed.

Lemma afterMove_gameState pos : frames gameState (afterMove pos).
Proof. footprint. Qed.

Lemma afterAIMove_gameState pos : frames gameState (afterAIMove pos).
Proof. footprint. Qed.

Lemma selectStrikeTarget_gameState pos : frames gameState (selectStrikeTarget pos).
Proof. footprint. Qed.

Ltac free_moves :=
  idtac;
  lazymatch goal with
  | |- hoare _ applySlipPenalty _ => apply applySlipPenalty_free
  | |- hoare _ (boardRemoveStone _) _ => apply boardRemoveStone_free
  | |- hoare _ (openBlindBoxAtPosition _) _ => apply openBlindBoxAtPosition_free
  | |- hoare _ imposeSlipPenalty _ => apply imposeSlipPenalty_free
  end.

Lemma afterMove_free pos :
  hoare
    (fun g => Board.wf (board g)
              /\ (allowedPositions g = [] \/ In pos (allowedPositions g)))
    (afterMove pos) freeCells.
Proof.
  unfold afterMove. apply hoare_gets. intros allowed.
  apply (hoare_bind _ freeCells); [|intros ?; preserved free_moves].
  apply hoare_when.
  - intros _. apply (hoare_bind _ freeCells); [|intros ?; preserved free_moves].
    apply hoare_modify. intros g [[Hwf _] _]. split; [done|constructor].
  - intros Hc g [[Hwf Hor] <-]. split; [done|].
    destruct Hor as [Hnil|Hin]; [unfold allowedFree; rewrite Hnil; constructor|].
    apply existsb_samePos in Hin. rewrite Hin in Hc.
    destruct (allowedPositions g); [by apply existsb_samePos in Hin|done].
Qed.

Lemma afterAIMove_free pos :
  hoare
    (fun g => Board.wf (board g)
              /\ (gameSubState g = HAND_SLIP_PENALTY \/ allowedPositions g = []))
    (afterAIMove pos) freeCells.
Proof.
  unfold afterAIMove. apply hoare_gets. intros sub.
  apply (hoare_bind _ freeCells); [|intros ?; preserved free_moves].
  apply hoare_when.
  - intros _. apply (hoare_bind _ (fun g => Board.wf (board g)));
      [apply hoare_modify; by intros g [[Hwf _] _]|intros ?].
    apply hoare_modify. intros g Hwf. split; [done|constructor].
  - intros Hc%bool_decide_eq_false g [[Hwf Hor] <-]. split; [done|].
    destruct Hor as [?|Hnil]; [done|]. unfold allowedFree. rewrite Hnil.
    constructor.
Qed.
End MovesKeepBoard.

Lemma hoare_conj {A} P Q1 Q2 (c : M A) :
  hoare P c Q1 -> hoare P c Q2 -> hoare P c (fun g => Q1 g /\ Q2 g).
Proof. intros H1 H2 g Hg. split; [by apply H1|by apply H2]. Qed.

Section SettleKeepsBoard.
Implicit Types (g : GomokuGame) (pos : Position).

Lemma boardPlaceStone_placed pos g :
  boardSound g -> Board.isEmpty (board g) pos = true ->
  placed pos (boardPlaceStone pos (currentPlayer g) g).2.
Proof.
  intros (Hwf & Hsz & Hpl) He.
  destruct (boardPlaceStone_empty g pos (currentPlayer g) He) as (_ & Hb & Hc).
  pose proof (boardPlaceStone_rest pos (currentPlayer g) g) as Hr.
  cbv beta in Hr. apply pair_eq in Hr as [_ Hm].
  unfold placed. rewrite Hb, Hc, Hm. unfold withStone.
  split; [by apply placeStone_wf|]. unfold Board.placeStone. rewrite He.
  cbn [negb snd Board.size Board.moves]. split; [done|].
  unfold plays in *. by rewrite map_app, Hpl.
Qed.

Lemma pushMoveHistory_sound pos :
  hoare (placed pos) (pushMoveHistory pos) boardSound.
Proof.
  intros g (Hwf & Hsz & Hpl). unfold pushMoveHistory, boardSound. msimpl.
  split; [done|]. split; [done|]. unfold plays in *. by rewrite map_app.
Qed.

Lemma finish_inv r : hoare boardSound (finish r) boardInv.
Proof. intros g Hg. split; [exact Hg|]. by intros []. Qed.

Lemma afterMove_inv pos :
  hoare
    (fun g => boardSound g
              /\ (allowedPositions g = [] \/ In pos (allowedPositions g)))
    (afterMove pos) boardInv.
Proof.
  apply hoare_conj.
  - intros g [Hg _]. by apply (hoare_outline _ (afterMove_outline pos)).
  - intros g [[Hwf _] Hor] _. by apply (afterMove_free pos g).
Qed.

Lemma afterAIMove_inv pos :
  hoare
    (fun g => boardSound g
              /\ (gameSubState g = HAND_SLIP_PENALTY \/ allowedPositions g = []))
    (afterAIMove pos) boardInv.
Proof.
  apply hoare_conj.
  - intros g [Hg _]. by apply (hoare_outline _ (afterAIMove_outline pos)).
  - intros g [[Hwf _] Hor] _. by apply (afterAIMove_free pos g).
Qed.

Lemma settleMove_inv pos :
  hoare
    (fun g => placed pos g
              /\ (allowedPositions g = [] \/ In pos (allowedPositions g)))
    (settleMove pos) boardInv.
Proof.
  unfold settleMove.
  apply (hoare_bind _
           (fun g => boardSound g
                     /\ (allowedPositions g = [] \/ In pos (allowedPositions g)))).
  { intros g [Hp Hor]. split; [by apply pushMoveHistory_sound|exact Hor]. }
  intros _. apply hoare_read. intros extra.
  apply (hoare_bind _
           (fun g => boardSound g
                     /\ (allowedPositions g = [] \/ In pos (allowedPositions g)))).
  { destruct extra; preserved fail. }
  intros _. apply hoare_read. intros g0.
  destruct (bool_decide _).
  - apply (hoare_bind _ boardInv); [|intros ?; by apply hoare_ret].
    intros g [Hg _]. by apply finish_inv.
  - destruct (isFull g0).
    + apply (hoare_bind _ boardInv); [|intros ?; by apply hoare_ret].
      intros g [Hg _]. by apply finish_inv.
    + apply afterMove_inv.
Qed.

Lemma settleAIMove_inv pos :
  hoare
    (fun g => boardSound g /\ Board.isEmpty (board g) pos = true
              /\ (gameSubState g = HAND_SLIP_PENALTY \/ allowedPositions g = []))
    (settleAIMove pos) boardInv.
Proof.
  unfold settleAIMove. apply hoare_gets. intros cur.
  apply (hoare_bind _
           (fun g => placed pos g
                     /\ (gameSubState g = HAND_SLIP_PENALTY
                         \/ allowedPositions g = []))).
  { intros g [(Hg & He & Hor) <-]. split; [by apply boardPlaceStone_placed|].
    assert (frames (fun g => (gameSubState g, allowedPositions g))
              (boardPlaceStone pos (currentPlayer g))) as Hf by footprint.
    specialize (Hf g). cbv beta in Hf. apply pair_eq in Hf as [-> ->]. exact Hor. }
  intros _.
  apply (hoare_bind _
           (fun g => boardSound g
                     /\ (gameSubState g = HAND_SLIP_PENALTY
                         \/ allowedPositions g = []))).
  { intros g [Hp Hor]. split; [by apply pushMoveHistory_sound|exact Hor]. }
  intros _. apply hoare_read. intros g0.
  destruct (bool_decide _).
  - intros g [Hg _]. by apply finish_inv.
  - destruct (isFull g0).
    + intros g [Hg _]. by apply finish_inv.
    + apply afterAIMove_inv.
Qed.
End SettleKeepsBoard.

Section MovesKeepInv.
Implicit Types (g : GomokuGame) (pos : Position).

Lemma playing_free g : boardInv g -> gameState g = PLAYING -> freeCells g.
Proof.
  intros [(Hwf & _) Hfree] Hst. split; [done|]. apply Hfree. by rewrite Hst.
Qed.

Lemma selectStrikeTarget_inv pos g :
  boardInv g -> gameState g = PLAYING -> boardInv (selectStrikeTarget pos g).2.
Proof.
  intros Hinv Hst. split.
  - apply (hoare_outline _ (selectStrikeTarget_outline pos)), Hinv.
  - intros _. by apply selectStrikeTarget_free, playing_free.
Qed.

Lemma makeMove_inv pos : hoare boardInv (makeMove pos) boardInv.
Proof.
  intros g Hinv. unfold makeMove. mstep.
  case_bool_decide as Hst; mstep; [|done].
  destruct (aiToMove g); mstep; [done|].
  case_bool_decide as Hsub; mstep; [by apply selectStrikeTarget_inv|].
  destruct ((0 <? length (allowedPositions g))%nat
            && negb (existsb (fun a => samePos a pos) (allowedPositions g)))
    eqn:Hal; mstep; [done|].
  destruct (Board.isEmpty (board g) pos) eqn:He.
  2: { by rewrite (boardPlaceStone_occupied g pos _ He). }
  destruct (boardPlaceStone_empty g pos (currentPlayer g) He) as (-> & _).
  mstep. apply settleMove_inv. split.
  - apply boardPlaceStone_placed; [apply Hinv|done].
  - assert (frames allowedPositions (boardPlaceStone pos (currentPlayer g)))
      as Hf by footprint.
    rewrite (Hf g). destruct (allowedPositions g) as [|a l] eqn:Ha; [by left|].
    right. rewrite <- Ha in *. apply existsb_samePos. rewrite Ha in Hal at 1. simpl in Hal.
    by apply negb_false_iff in Hal.
Qed.

Lemma makeAIMove_inv g :
  subStateSound g -> boardInv g -> boardInv (makeAIMove g).2.
Proof.
  intros Hs Hinv. unfold makeAIMove. mstep.
  case_bool_decide as Hst; mstep; [|done].
  pose proof (imposeSlipPenalty_S g Hs) as [_ Hslip].
  pose proof (imposeSlipPenalty_free g (playing_free g Hinv Hst)) as [Hwf Hfree].
  pose proof (hoare_outline _ imposeSlipPenalty_outline g (proj1 Hinv)) as Hb.
  set (g1 := (imposeSlipPenalty g).2) in *. clearbody g1.
  destruct (aiCandidates g1) as [|first l] eqn:Hc; [done|]. rewrite <- Hc.
  set (best := chooseBest g1 first (aiCandidates g1)).
  assert (In best (aiCandidates g1)) as Hin.
  { apply (firstBest_In (evaluatePosition g1)), chooseBest_firstBest.
    by rewrite Hc. }
  clearbody best. apply settleAIMove_inv. split; [done|]. split.
  - unfold aiCandidates in Hin.
    destruct (bool_decide _ && _).
    + unfold allowedFree in Hfree. rewrite Forall_forall in Hfree.
      by apply Hfree, list_elem_of_In.
    + by apply emptyCells_spec.
  - destruct (allowedPositions g1) eqn:Ha; [by right|]. left. apply Hslip.
    by rewrite Ha.
Qed.
End MovesKeepInv.

Section BoardReachable.
Implicit Types (g : GomokuGame).

Lemma startNewGame_inv :
  hoare (fun g => Board.size (board g) = 15 \/ Board.size (board g) = 19)
    startNewGame boardInv.
Proof.
  intros g Hsz.
  destruct (startNewGame_fields g)
    as (Hb & _ & _ & _ & _ & Hh & _ & _ & _ & _ & _ & _ & _ & _ & Ha & _).
  unfold boardInv, boardSound, allowedFree. rewrite Hb, Hh, Ha.
  split; [|by constructor]. split; [apply reset_wf; lia|]. by split.
Qed.

Lemma plays_removelast ms : plays (removelast ms) = removelast (plays ms).
Proof.
  unfold plays. induction ms as [|m [|m' ms] IH]; [done..|].
  change (removelast (m :: m' :: ms)) with (m :: removelast (m' :: ms)).
  rewrite !map_cons, IH. done.
Qed.

Lemma boardUndo_moves b :
  Board.moves (Board.undoMove b).2 = removelast (Board.moves b)
  /\ Board.size (Board.undoMove b).2 = Board.size b.
Proof.
  unfold Board.undoMove. destruct (last (Board.moves b)) eqn:Hl; [done|].
  apply last_None in Hl. by rewrite Hl.
Qed.

Lemma boardUndo_sound b (h : list Move) :
  Board.wf b /\ (Board.size b = 15 \/ Board.size b = 19)
  /\ plays h = plays (Board.moves b) ->
  Board.wf (Board.undoMove b).2
  /\ (Board.size (Board.undoMove b).2 = 15 \/ Board.size (Board.undoMove b).2 = 19)
  /\ plays (removelast h) = plays (Board.moves (Board.undoMove b).2).
Proof.
  intros (Hwf & Hsz & Hpl). destruct (boardUndo_moves b) as [Hm Hs].
  split; [by apply undoMove_wf|]. split; [by rewrite Hs|].
  by rewrite Hm, !plays_removelast, Hpl.
Qed.

Lemma undoMove_inv : hoare boardInv undoMove boardInv.
Proof.
  intros g Hinv. destruct (last (moveHistory g)) as [m|] eqn:Hl.
  2: { rewrite undoMove_refused; [done|]. right. by apply last_None. }
  destruct (decide (gameState g = READY)) as [Hst|Hst].
  { rewrite undoMove_refused; [done|]. by left. }
  destruct (undoMove_done g m Hst Hl)
    as (_ & _ & _ & _ & Ha & _ & _ & _ & Hh & Hb).
  unfold boardInv, boardSound, allowedFree. rewrite Ha, Hh, Hb.
  split; [|by constructor].
  destruct (_ && _); repeat apply boardUndo_sound; apply Hinv.
Qed.

Lemma runTimer_inv a g :
  subStateSound g -> boardInv g -> boardInv (runTimer a g).2.
Proof.
  intros Hs Hinv. destruct a; unfold runTimer.
  - mstep. by apply makeAIMove_inv.
  - by apply makeAIMove_inv.
  - clear Hs; revert g Hinv.
    change (hoare boardInv
              (sub <- gets gameSubState ;;
               when (bool_decide (sub = SHOWING_ITEM_NAME))
                 (modify (set_gameSubState NORMAL)) ;;
               modify (set_itemNameDisplayTimer None)) boardInv).
    apply pres_gets; intros ?. apply pres_bind; [|intros ?].
    + apply pres_when. intros g [Hb Hf]. by split.
    + preserved fail.
  - clear Hs; revert g Hinv. change (hoare boardInv clearNotification boardInv).
    preserved fail.
Qed.

Lemma handle_inv e g :
  subStateSound g -> boardInv g -> boardInv (handle e g).2.
Proof.
  intros Hs. revert g Hs.
  assert (forall c : M unit,
            hoare boardInv c boardInv ->
            forall g, subStateSound g -> boardInv g -> boardInv (c g).2)
    as drop by (intros c Hc g _; apply Hc).
  destruct e; unfold handle.
  - apply drop. preserved fail.
  - apply drop. intros g Hinv. apply startNewGame_inv, Hinv.
  - apply drop. apply pres_bind; [apply makeMove_inv|intros ?; apply pres_ret].
  - apply drop. apply pres_bind; [apply undoMove_inv|intros ?; apply pres_ret].
  - apply drop. intros g Hinv. apply startNewGame_inv, Hinv.
  - apply drop. intros g [Hb Hf]. unfold pause. mstep.
    case_bool_decide as Hst; msimpl; [|done]. split; [done|]. intros _.
    apply Hf. by rewrite Hst.
  - apply drop. intros g [Hb Hf]. unfold resume. mstep.
    case_bool_decide as Hst; msimpl; [|done]. split; [done|]. intros _.
    apply Hf. by rewrite Hst.
  - apply drop. unfold setBoardSize.
    apply hoare_any.
    apply hoare_later; intros ?. apply hoare_later; intros ?.
    apply hoare_later; intros ?.
    apply (hoare_bind _
             (fun g => Board.size (board g) = 15 \/ Board.size (board g) = 19)).
    { intros g _. msimpl. destruct fifteen; [by left|by right]. }
    intros ?. apply (hoare_bind _ boardInv); [apply startNewGame_inv|].
    intros ?. preserved fail.
  - apply drop. preserved fail.
  - apply drop. preserved fail.
  - intros g Hs Hinv. unfold fire. mstep. by apply runTimer_inv.
Qed.

Lemma reachable_inv g : reachable g -> boardInv g.
Proof.
  induction 1 as [fifteen rt Hrt|g e Hg IH He].
  - split; [|by constructor]. split.
    + apply new_wf. by destruct fifteen.
    + split; [|done]. destruct fifteen; [by left|by right].
  - apply handle_inv; [by apply reachable_sound|done].
Qed.
End BoardReachable.

(** X14: in every state the engine reaches, the board is a square grid of
    side 15 or 19, and the engine's move history lists the same positions
    and players, in the same order, as the board's stack of moves. *)
Theorem history_mirrors_board (g : GomokuGame) :
  reachable g ->
  (Board.size (board g) = 15 \/ Board.size (board g) = 19)
  /\ length (Board.grid (board g)) = Z.to_nat (Board.size (board g))
  /\ Forall (fun row => length row = Z.to_nat (Board.size (board g)))
       (Board.grid (board g))
  /\ map (fun m => (position m, player m)) (moveHistory g)
     = map (fun m => (position m, player m)) (Board.moves (board g)).
Proof.
  intros [([_ Hrows Hcols _] & Hsz & Hpl) _]%reachable_inv. done.
Qed.

Lemma history_mirrors_board_witness :
  match slippedAI with
  | Some g =>
      map (fun m => (position m, player m)) (moveHistory g)
      = map (fun m => (position m, player m)) (Board.moves (board g))
  | None => False
  end.
Proof.
  destruct slippedAI as [g|] eqn:Hg; [|unplayed Hg].
  apply (history_mirrors_board g).
  exact (played_reachable slipMoves slipDraws g eq_refl Hg).
Defined.

(** X15: in every state the engine reaches with the game not OVER, each
    position the hand-slip restriction allows is an empty cell of the
    board. *)
Theorem allowed_positions_empty (g : GomokuGame) (p : Position) :
  reachable g -> gameState g <> OVER -> In p (allowedPositions g) ->
  Board.isEmpty (board g) p = true.
Proof.
  intros [_ Hfree]%reachable_inv Hst Hp%list_elem_of_In.
  specialize (Hfree Hst). unfold allowedFree in Hfree.
  rewrite Forall_forall in Hfree. by apply Hfree.
Qed.

Lemma allowed_positions_empty_witness :
  match slippedAI with
  | Some g => In (P 0 1) (allowedPositions g)
              /\ Board.isEmpty (board g) (P 0 1) = true
  | None => False
  end.
Proof.
  destruct slippedAI as [g|] eqn:Hg; [|unplayed Hg].
  assert (allowedPositions g = [P 0 1; P 1 0; P 0 0]) as Ha by observe Hg.
  assert (gameState g = PLAYING) as Hst by observe Hg.
  assert (In (P 0 1) (allowedPositions g)) as Hin by (rewrite Ha; by left).
  split; [done|]. apply (allowed_positions_empty g (P 0 1)); [|by rewrite Hst|done].
  exact (played_reachable slipMoves slipDraws g eq_refl Hg).
Defined.

(** ** A win on record *)

Section WinBacked.
Implicit Types (g : GomokuGame) (pos : Position).

Lemma checkWin_backed b pos pl :
  holds b pl pos -> backedBy b (checkWin b pos pl).
Proof.
  intros Hp. unfold checkWin, backedBy.
  destruct (List.find _ _) as [line|] eqn:Hfind; simpl; [|done].
  apply find_some in Hfind as [Hin Hfive].
  apply in_map_iff in Hin as (d & <- & Hd).
  exists pos, d. split; [done|]. split; [by apply Nat.leb_le|].
  apply checkDirection_maximalRun; [done|by apply directions_axis].
Qed.

Lemma no_result_backed g : gameResult g = None -> winBacked g.
Proof. intros H r Hr. by rewrite H in Hr. Qed.

Lemma finish_backed r :
  hoare (fun g => backedBy (board g) r) (finish r) winBacked.
Proof. intros g Hb r' [= <-]. exact Hb. Qed.

Lemma afterMove_result pos : frames gameResult (afterMove pos).
Proof. footprint. Qed.

Lemma afterAIMove_result pos : frames gameResult (afterAIMove pos).
Proof. footprint. Qed.

Lemma selectStrikeTarget_result pos : frames gameResult (selectStrikeTarget pos).
Proof. footprint. Qed.

Lemma imposeSlipPenalty_result : frames gameResult imposeSlipPenalty.
Proof. footprint. Qed.

Lemma awaiting_view {A} pos (c : M A) :
  frames verdictView c ->
  hoare (fun g => awaiting pos (verdictView g)) c
    (fun g => awaiting pos (verdictView g)).
Proof. intros Hc. apply (hoare_view verdictView (awaiting pos)), Hc. Qed.

Lemma settleMove_backed pos :
  hoare (fun g => awaiting pos (verdictView g)) (settleMove pos) winBacked.
Proof.
  unfold settleMove.
  apply (hoare_bind _ (fun g => awaiting pos (verdictView g)));
    [apply awaiting_view; unfold verdictView; footprint|intros _].
  apply hoare_read; intros extra.
  apply (hoare_bind _ (fun g => awaiting pos (verdictView g)));
    [apply awaiting_view; unfold verdictView; destruct extra; footprint
    |intros _].
  apply hoare_gets; intros g0. cbv zeta.
  case_bool_decide as Hw; [|destruct (isFull g0)].
  - apply (hoare_bind _ winBacked); [|intros ?; by apply hoare_ret].
    apply (hoare_pre _ _ _ _ (finish_backed _)).
    intros g [[Hh _] ->]. by apply checkWin_backed.
  - apply (hoare_bind _ winBacked); [|intros ?; by apply hoare_ret].
    apply (hoare_pre _ _ _ _ (finish_backed _)). done.
  - intros g [[_ Hr] _]. apply no_result_backed.
    by rewrite afterMove_result.
Qed.

Lemma boardPlaceStone_awaiting pos g :
  Board.isEmpty (board g) pos = true -> gameResult g = None ->
  awaiting pos (verdictView (boardPlaceStone pos (currentPlayer g) g).2).
Proof.
  intros He Hr.
  destruct (boardPlaceStone_empty g pos (currentPlayer g) He) as (_ & Hb & Hc).
  pose proof (boardPlaceStone_rest pos (currentPlayer g) g) as Hf.
  cbv beta in Hf. apply pair_eq in Hf as [Hf _]. apply pair_eq in Hf as [_ Hres].
  unfold awaiting, verdictView. cbn [fst snd]. rewrite Hb, Hc, Hres.
  split; [by apply withStone_holds|done].
Qed.

Lemma settleAIMove_backed pos :
  hoare (fun g => Board.isEmpty (board g) pos = true /\ gameResult g = None)
    (settleAIMove pos) winBacked.
Proof.
  unfold settleAIMove. apply hoare_gets; intros cur.
  apply (hoare_bind _ (fun g => awaiting pos (verdictView g))).
  { intros g [[He Hr] <-]. by apply boardPlaceStone_awaiting. }
  intros _.
  apply (hoare_bind _ (fun g => awaiting pos (verdictView g)));
    [apply awaiting_view; unfold verdictView; footprint|intros _].
  apply hoare_gets; intros g0. cbv zeta.
  case_bool_decide as Hw; [|destruct (isFull g0)].
  - apply (hoare_pre _ _ _ _ (finish_backed _)).
    intros g [[Hh _] ->]. by apply checkWin_backed.
  - apply (hoare_pre _ _ _ _ (finish_backed _)). done.
  - intros g [[_ Hr] _]. apply no_result_backed.
    by rewrite afterAIMove_result.
Qed.

Lemma makeMove_backed pos :
  hoare (fun g => resultWhenOver g /\ winBacked g) (makeMove pos) winBacked.
Proof.
  intros g [Hover Hinv]. unfold makeMove. mstep.
  case_bool_decide as Hst; mstep; [|done].
  assert (gameResult g = None) as Hr.
  { destruct (gameResult g) eqn:Hres; [|done].
    assert (gameState g = OVER) as Ho by (apply Hover; by rewrite Hres).
    by rewrite Hst in Ho. }
  destruct (aiToMove g); mstep; [done|].
  case_bool_decide as Hsub; mstep.
  { apply no_result_backed. by rewrite selectStrikeTarget_result. }
  destruct (_ && _); mstep; [done|].
  destruct (Board.isEmpty (board g) pos) eqn:He.
  2: { by rewrite (boardPlaceStone_occupied g pos _ He). }
  destruct (boardPlaceStone_empty g pos (currentPlayer g) He) as (-> & _).
  mstep. apply settleMove_backed. by apply boardPlaceStone_awaiting.
Qed.

Lemma aiChoice_empty g best :
  subStateSound g -> boardInv g -> gameState g = PLAYING ->
  aiChoice g = Some best ->
  Board.isEmpty (board (imposeSlipPenalty g).2) best = true.
Proof.
  intros Hs Hinv Hst. unfold aiChoice. cbv zeta.
  pose proof (imposeSlipPenalty_free g (playing_free g Hinv Hst)) as [Hwf Hfree].
  set (g1 := (imposeSlipPenalty g).2) in *. clearbody g1.
  destruct (aiCandidates g1) as [|first l] eqn:Hc; [done|]. rewrite <- Hc.
  intros [= <-].
  assert (In (chooseBest g1 first (aiCandidates g1)) (aiCandidates g1)) as Hin.
  { apply (firstBest_In (evaluatePosition g1)), chooseBest_firstBest.
    by rewrite Hc. }
  set (chosen := chooseBest g1 first (aiCandidates g1)) in *. clearbody chosen.
  unfold aiCandidates in Hin. destruct (bool_decide _ && _).
  - unfold allowedFree in Hfree. rewrite Forall_forall in Hfree.
    by apply Hfree, list_elem_of_In.
  - by apply emptyCells_spec.
Qed.

Lemma makeAIMove_backed g :
  subStateSound g -> boardInv g -> resultWhenOver g -> winBacked g ->
  winBacked (makeAIMove g).2.
Proof.
  intros Hs Hinv Hover Hb.
  destruct (decide (gameState g = PLAYING)) as [Hst|Hst].
  2: { unfold makeAIMove. mstep. by rewrite bool_decide_false. }
  assert (gameResult g = None) as Hr.
  { destruct (gameResult g) eqn:Hres; [|done].
    assert (gameState g = OVER) as Ho by (apply Hover; by rewrite Hres).
    by rewrite Hst in Ho. }
  pose proof (aiChoice_empty g) as He. specialize (fun b => He b Hs Hinv Hst).
  unfold aiChoice in He. cbv zeta in He.
  unfold makeAIMove. mstep. rewrite bool_decide_true by done. mstep.
  pose proof (imposeSlipPenalty_result g) as Hr1. cbv beta in Hr1.
  set (g1 := (imposeSlipPenalty g).2) in *. clearbody g1.
  destruct (aiCandidates g1) as [|first l] eqn:Hc.
  { apply no_result_backed. exact (eq_trans Hr1 Hr). }
  rewrite <- Hc in *. apply settleAIMove_backed.
  split; [by apply He|by rewrite Hr1].
Qed.
End WinBacked.

Section WinBackedReachable.
Implicit Types (g : GomokuGame).

Lemma backed_view {A} (c : M A) :
  frames (fun g => (board g, gameResult g)) c -> hoare winBacked c winBacked.
Proof.
  intros Hc.
  apply (hoare_view (fun g => (board g, gameResult g))
           (fun v => forall r, v.2 = Some r -> backedBy v.1 r)), Hc.
Qed.

Lemma startNewGame_backed P : hoare P startNewGame winBacked.
Proof.
  intros g _. apply no_result_backed.
  by destruct (startNewGame_fields g) as (_ & _ & _ & _ & Hr & _).
Qed.

Lemma undoMove_backed : hoare winBacked undoMove winBacked.
Proof.
  intros g Hg. destruct (last (moveHistory g)) as [m|] eqn:Hl.
  - destruct (decide (gameState g = READY)) as [Hst|Hst].
    + rewrite undoMove_refused; [done|by left].
    + apply no_result_backed.
      by destruct (undoMove_done g m Hst Hl) as (_ & _ & Hr & _).
  - rewrite undoMove_refused; [done|]. right. by apply last_None.
Qed.

Lemma runTimer_backed a g :
  subStateSound g -> boardInv g -> resultWhenOver g -> winBacked g ->
  winBacked (runTimer a g).2.
Proof.
  intros Hs Hinv Hover Hb. destruct a; unfold runTimer.
  - mstep. by apply makeAIMove_backed.
  - by apply makeAIMove_backed.
  - clear Hs Hinv Hover; revert g Hb. apply backed_view. footprint.
  - clear Hs Hinv Hover; revert g Hb. apply backed_view. footprint.
Qed.

Lemma handle_backed e g :
  subStateSound g -> boardInv g -> resultWhenOver g -> winBacked g ->
  winBacked (handle e g).2.
Proof.
  intros Hs Hinv Hover Hb. destruct e; unfold handle.
  - clear Hs Hinv Hover; revert g Hb. apply backed_view. footprint.
  - exact (startNewGame_backed (fun _ => True) g I).
  - mstep. by apply makeMove_backed.
  - mstep. by apply undoMove_backed.
  - exact (startNewGame_backed (fun _ => True) g I).
  - clear Hs Hinv Hover; revert g Hb. apply backed_view. footprint.
  - clear Hs Hinv Hover; revert g Hb. apply backed_view. footprint.
  - clear Hs Hinv Hover; revert g Hb. unfold setBoardSize. apply hoare_any.
    apply hoare_later; intros ?. apply hoare_later; intros ?.
    apply hoare_later; intros ?. apply hoare_later; intros ?.
    apply (hoare_bind _ winBacked); [apply startNewGame_backed|].
    intros ?. apply backed_view. footprint.
  - clear Hs Hinv Hover; revert g Hb. apply backed_view. footprint.
  - clear Hs Hinv Hover; revert g Hb. apply backed_view. footprint.
  - unfold fire. mstep. by apply runTimer_backed.
Qed.

Lemma reachable_backed g : reachable g -> winBacked g.
Proof.
  induction 1 as [fifteen rt Hrt|g e Hg IH He]; [by intros r|].
  apply handle_backed;
    [by apply reachable_sound|by apply reachable_inv
    |by apply reachable_result|done].
Qed.
End WinBackedReachable.

(** X16: in every state the engine reaches, a win on record is backed by the
    board: the winning line is a maximal run of five or more stones of the
    winner along one of the four axes. A result without a winner has an
    empty winning line. *)
Theorem win_on_record_backed (g : GomokuGame) (r : GameResult) :
  reachable g -> gameResult g = Some r ->
  match winner r with
  | Some w =>
      exists p d,
        In d directions /\ (5 <= length (winningLine r))%nat
        /\ maximalRun (board g) w p d.1 d.2 (winningLine r)
  | None => winningLine r = []
  end.
Proof. intros Hg Hr. by apply (reachable_backed g Hg). Qed.

Lemma win_on_record_backed_witness :
  let g := (makeMove (P 0 4) fourInColumn).2 in
  exists p d,
    In d directions
    /\ maximalRun (board g) BLACK p d.1 d.2
         [P 0 0; P 0 1; P 0 2; P 0 3; P 0 4].
Proof.
  intros g.
  pose proof (win_on_record_backed g
                (mkGameResult (Some BLACK) [P 0 0; P 0 1; P 0 2; P 0 3; P 0 4])
                (makeMove_reachable _ _ fourInColumn_reachable))
    as H.
  destruct H as (p & d & Hd & _ & Hrun); [vm_compute; reflexivity|].
  by exists p, d.
Defined.

(** ** Stones and the history *)

Section StonesRecorded.
Implicit Types (g : GomokuGame).

Lemma boardPlaceStone_recorded pos pl :
  hoare boardRecorded (boardPlaceStone pos pl) boardRecorded.
Proof.
  intros g [Hwf Hrec]. unfold boardPlaceStone. mstep.
  destruct (Board.placeStone (board g) pos pl _).1 eqn:Hp; mstep; [|done].
  split; [by apply placeStone_wf|by apply placeStone_recorded].
Qed.

Ltac recorded_known :=
  idtac;
  lazymatch goal with
  | |- hoare _ (boardPlaceStone _ _) _ => apply boardPlaceStone_recorded
  | |- hoare _ (pickAllowed _ _) _ =>
      apply (hoare_view board (fun b => Board.wf b /\ recorded b));
      intros ?; apply (pickAllowed_frames board); intros; reflexivity
  end.

Ltac recorded_writes :=
  lazymatch goal with
  | H : boardRecorded ?g |- boardRecorded (set_board ?b ?g) =>
      destruct H as [Hwf Hrec];
      lazymatch b with
      | (Board.removeStone _ _).2 =>
          split; [by apply removeStone_wf|by apply removeStone_recorded]
      | (Board.undoMove _).2 =>
          split; [by apply undoMove_wf|by apply undoMove_recorded]
      | Board.reset _ =>
          split; [apply reset_wf, Hwf|apply new_recorded]
      | Board.new _ => split; [by apply new_wf|apply new_recorded]
      end
  end.

Lemma handle_recorded e : hoare boardRecorded (handle e) boardRecorded.
Proof.
  destruct e; unfold handle; try destruct fifteen; preserved recorded_known.
  all: recorded_writes.
Qed.

Lemma reachable_recorded g : reachable g -> boardRecorded g.
Proof.
  induction 1 as [fifteen rt Hrt|g e Hg IH He]; [|by apply handle_recorded].
  split; [apply new_wf; by destruct fifteen|apply new_recorded].
Qed.
End StonesRecorded.

(** X17: in every state the engine reaches with the game PLAYING, the cell
    the computer chooses is empty on the board it is chosen on, so that the
    computer's [placeStone], whose answer is not looked at, succeeds. *)
Theorem ai_plays_empty_cell (g : GomokuGame) (best : Position) :
  reachable g -> gameState g = PLAYING -> aiChoice g = Some best ->
  Board.isEmpty (board (imposeSlipPenalty g).2) best = true.
Proof.
  intros Hg Hst Hch.
  by apply aiChoice_empty; [apply reachable_sound|apply reachable_inv|..].
Qed.

Lemma ai_plays_empty_cell_witness :
  match slippedAI with
  | Some g => Board.isEmpty (board (imposeSlipPenalty g).2) (P 0 1) = true
  | None => False
  end.
Proof.
  destruct slippedAI as [g|] eqn:Hg; [|unplayed Hg].
  assert (gameState g = PLAYING) as Hst by observe Hg.
  assert (aiChoice g = Some (P 0 1)) as Hch by observe Hg.
  apply (ai_plays_empty_cell g (P 0 1)); [|done..].
  exact (played_reachable slipMoves slipDraws g eq_refl Hg).
Defined.

(** X18: in every state the engine reaches, each stone on the board is in
    the move history: some move of the history has its position and its
    colour. *)
Theorem stones_in_history (g : GomokuGame) (p : Position) (pl : Player) :
  reachable g -> Board.getStone (board g) p = Some pl ->
  exists m, In m (moveHistory g) /\ position m = p /\ player m = pl.
Proof.
  intros Hg Hs.
  destruct (reachable_recorded g Hg) as [_ Hrec].
  destruct (Hrec p pl Hs) as (m & Hm & <- & <-).
  destruct (reachable_inv g Hg) as [(_ & _ & Hpl) _].
  assert ((position m, player m) ∈ plays (moveHistory g)) as Hin.
  { rewrite Hpl. unfold plays. change (map ?f ?l) with (f <$> l).
    by apply (list_elem_of_fmap_2 (fun m => (position m, player m))). }
  unfold plays in Hin. change (map ?f ?l) with (f <$> l) in Hin.
  apply list_elem_of_fmap in Hin as (m' & [= Hp Hq] & Hm').
  exists m'. split; [by apply list_elem_of_In|done].
Qed.

Lemma stones_in_history_witness :
  match slippedAI with
  | Some g =>
      exists m, In m (moveHistory g) /\ position m = P 7 7 /\ player m = BLACK
  | None => False
  end.
Proof.
  destruct slippedAI as [g|] eqn:Hg; [|unplayed Hg].
  apply (stones_in_history g (P 7 7) BLACK); [|observe Hg].
  exact (played_reachable slipMoves slipDraws g eq_refl Hg).
Defined.

(** X19: the configuration is changed by [setConfig] alone: no other call,
    and no timer, touches it. *)
Theorem config_changed_by_setConfig_only (e : Event) (g : GomokuGame) :
  match e with
  | CallSetConfig _ => True
  | _ => config (handle e g).2 = config g
  end.
Proof.
  destruct e; [done|..].
  all: match goal with
       | |- config (handle ?e _).2 = _ => apply (handle_config e)
       end.
  all: intros c; discriminate.
Qed.

(** X20: in every state the engine reaches, [getPreciseStrikeOpponent]
    returns a colour exactly while a strike target is being selected, and
    the colour is the other one than the player who opened the precise
    strike. *)
Theorem getPreciseStrikeOpponent_spec (g : GomokuGame) :
  reachable g ->
  (getPreciseStrikeOpponent g <> None
   <-> gameSubState g = SELECTING_STRIKE_TARGET)
  /\ forall o, getPreciseStrikeOpponent g = Some o ->
               preciseStrikePlayer g = Some (other o).
Proof.
  intros [Hknown _]%reachable_sound. unfold getPreciseStrikeOpponent.
  unfold strikeKnown in Hknown. split.
  - case_bool_decide as Hsub; [|by split].
    destruct (preciseStrikePlayer g) as [p|]; [by split|].
    by destruct (Hknown Hsub).
  - intros o. case_bool_decide; [|done].
    destruct (preciseStrikePlayer g) as [[]|]; simpl; [| |done].
    all: by intros [= <-].
Qed.

Lemma getPreciseStrikeOpponent_spec_witness :
  match selecting with
  | Some g => getPreciseStrikeOpponent g <> None
  | None => False
  end.
Proof.
  destruct selecting as [g|] eqn:Hg; [|unplayed Hg].
  apply (getPreciseStrikeOpponent_spec g).
  - exact (played_reachable strikeMoves strikeDraws g eq_refl Hg).
  - observe Hg.
Defined.

Section PausedTurn.
Implicit Types (g : GomokuGame).

Lemma fire_paused g t :
  gameState g = PAUSED -> action t = AiTurn ->
  (fire t g).2
  = set_aiTimer None
      (set_isAiCalculating false
         (set_runtime (clearTimeout (timerId t) (runtime g)).2 g)).
Proof.
  intros Hst Ht. unfold fire. rewrite Ht. unfold runTimer. mstep.
  rewrite makeAIMove_idle; [done|]. msimpl. by rewrite Hst.
Qed.
End PausedTurn.

(** X21: when the timer of the computer's move fires while the game is
    PAUSED, the computer does not move and its turn is not scheduled again:
    the board, the history and the player to move stay, the timer leaves
    the table and the engine no longer waits for the computer. After
    [resume] the game is PLAYING with the same timers, and while it is the
    computer's turn every [makeMove] is refused. *)
Theorem ai_turn_lost_when_paused (g : GomokuGame) (t : Timer) :
  gameState g = PAUSED -> action t = AiTurn ->
  let g1 := (fire t g).2 in
  let g2 := (resume g1).2 in
  board g1 = board g /\ moveHistory g1 = moveHistory g
  /\ currentPlayer g1 = currentPlayer g /\ gameState g1 = PAUSED
  /\ isAiCalculating g1 = false /\ aiTimer g1 = None
  /\ timers (runtime g1)
     = List.filter (fun t' => negb (Nat.eqb (timerId t') (timerId t)))
         (timers (runtime g))
  /\ gameState g2 = PLAYING /\ board g2 = board g
  /\ timers (runtime g2) = timers (runtime g1)
  /\ (aiToMove g = true -> forall pos, makeMove pos g2 = (false, g2)).
Proof.
  intros Hst Ht. cbv zeta. rewrite (fire_paused g t Hst Ht).
  unfold resume. msimpl. rewrite Hst.
  rewrite (bool_decide_true (PAUSED = PAUSED)) by done. msimpl.
  do 10 (split; [done|]). intros Hai pos. by apply makeMove_aiTurn.
Qed.

Lemma ai_turn_lost_when_paused_witness :
  let g := (pause humanOpened).2 in
  let g2 := (resume (fire (mkTimer 1 500 AiTurn) g).2).2 in
  timers (runtime g) = [mkTimer 1 500 AiTurn]
  /\ gameState g2 = PLAYING /\ timers (runtime g2) = []
  /\ makeMove (P 8 8) g2 = (false, g2).
Proof.
  intros g g2.
  destruct (ai_turn_lost_when_paused g (mkTimer 1 500 AiTurn))
    as (_ & _ & _ & _ & _ & _ & Ht1 & Hs2 & _ & Ht2 & Hno).
  - vm_compute. reflexivity.
  - reflexivity.
  - split; [vm_compute; reflexivity|]. split; [exact Hs2|].
    split; [|apply Hno; vm_compute; reflexivity].
    unfold g2. rewrite Ht2, Ht1. vm_compute. reflexivity.
Defined.

(** ** A game without items *)

(** Runs the first command of a sequence from a state where its outcome is
    known. *)
Lemma run_step {A B} (r : B * GomokuGame) (c : M A) (k : A -> M B) g a s :
  c g = (a, s) -> r = bind c k g -> r = k a s.
Proof. intros Hc ->. unfold bind. by rewrite Hc. Qed.

Lemma run_unit {B} (r : B * GomokuGame) (c : M unit) (k : unit -> M B) g :
  r = bind c k g -> r = k tt (c g).2.
Proof. intros ->. unfold bind. by destruct (c g) as [[] s]. Qed.

Lemma run_any {A B} (r : B * GomokuGame) (c : M A) (k : A -> M B) g :
  r = bind c k g -> r = k (c g).1 (c g).2.
Proof. by intros ->. Qed.

Ltac run_in H :=
  cbv beta in H;
  lazymatch type of H with
  | _ = bind (gets ?f) ?k ?g =>
      apply (run_step _ (gets f) k g (f g) g eq_refl) in H
  | _ = bind (modify ?m) ?k ?g =>
      apply (run_step _ (modify m) k g tt (m g) eq_refl) in H
  | _ = bind (when false ?c) ?k ?g =>
      apply (run_step _ (when false c) k g tt g eq_refl) in H
  end.

Section PlainGame.
Implicit Types (g : GomokuGame) (pos : Position).

Lemma openBlindBoxAtPosition_none pos g :
  blindBoxes g = [] -> openBlindBoxAtPosition pos g = (tt, g).
Proof. intros H. unfold openBlindBoxAtPosition. mstep. by rewrite H. Qed.

Lemma grantOpponentAcceleration_none g :
  nextPlayerHasExtraMove g = false -> grantOpponentAcceleration g = (tt, g).
Proof. intros H. unfold grantOpponentAcceleration. mstep. by rewrite H. Qed.

Lemma imposeSlipPenalty_none g :
  nextPlayerHasSlipPenalty g = false -> imposeSlipPenalty g = (tt, g).
Proof. intros H. unfold imposeSlipPenalty. mstep. by rewrite H. Qed.

(** What the consistency check leaves alone: every field but the move
    counts, and in the move counts everything but [currentExtraMoves]. *)
Lemma validateMoveCountConsistency_rest g :
  let g' := (validateMoveCountConsistency g).2 in
  g' = set_gameMoveCountState (gameMoveCountState g') g
  /\ forall p, originalMoveCount (moveCountOf g' p)
               = originalMoveCount (moveCountOf g p).
Proof.
  destruct g as [b cp st sub res mh cfg ai calc bx pit ae liu nt
                   sg he nhe nsp al nf nft psp pse
                   [[[? ? be bu bc ?] [? ? we wu wc ?]] mcp mid] cb rt].
  unfold validateMoveCountConsistency, validateOne, moveCountOf, updMoveCount.
  cbn -[Z.sub Z.eqb]. destruct (be - bu =? bc); cbn -[Z.sub Z.eqb].
  all: destruct (we - wu =? wc); cbn -[Z.sub Z.eqb].
  all: split; [reflexivity|intros []; reflexivity].
Qed.

Lemma aiToMove_next g :
  aiToMove g = false ->
  aiToMove (set_currentPlayer (other (currentPlayer g)) g)
  = bool_decide (mode (config g) = PVE).
Proof.
  unfold aiToMove. cbn [config currentPlayer set_currentPlayer].
  destruct (mode (config g)), (currentPlayer g), (playerColor (config g));
    done.
Qed.

Lemma afterMove_plain pos g :
  plain g -> aiToMove g = false ->
  let g' := (afterMove pos g).2 in
  (afterMove pos g).1 = true
  /\ board g' = board g /\ currentPlayer g' = other (currentPlayer g)
  /\ gameState g' = gameState g /\ gameResult g' = gameResult g
  /\ moveHistory g' = moveHistory g /\ config g' = config g
  /\ plain g'
  /\ originalMoveCount (moveCountOf g' (currentPlayer g))
     = originalMoveCount (moveCountOf g (currentPlayer g)) + 1
  /\ (if bool_decide (mode (config g) = PVE)
      then isAiCalculating g' = true
           /\ aiTimer g' = Some (nextTimer (runtime g))
           /\ timers (runtime g')
              = timers (runtime g)
                ++ [mkTimer (nextTimer (runtime g)) 500 AiTurn]
      else isAiCalculating g' = isAiCalculating g
           /\ aiTimer g' = aiTimer g
           /\ timers (runtime g') = timers (runtime g)).
Proof.
  intros (Hit & Hbx & Hsub & Hex & Hnx & Hns & Hal) Hai. cbv zeta.
  remember (afterMove pos g) as r eqn:Hr. unfold afterMove in Hr.
  run_in Hr. rewrite Hal in Hr. cbn [existsb andb] in Hr.
  run_in Hr. run_in Hr. rewrite Hsub in Hr.
  rewrite (bool_decide_false (NORMAL = SHOWING_STRATEGY_GUIDE)) in Hr by done.
  run_in Hr. cbv beta in Hr.
  apply (run_step _ _ _ _ _ _ (openBlindBoxAtPosition_none pos g Hbx)) in Hr.
  run_in Hr. run_in Hr. rewrite Hsub, Hit in Hr.
  rewrite (bool_decide_true (NORMAL = NORMAL)) in Hr by done.
  cbn [negb andb] in Hr. run_in Hr. run_in Hr. rewrite Hex in Hr.
  run_in Hr. unfold updMoveCount in Hr. run_in Hr. run_in Hr. run_in Hr.
  cbv beta in Hr.
  match type of Hr with
  | _ = bind grantOpponentAcceleration _ ?s => remember s as g1 eqn:Hg1
  end.
  assert (nextPlayerHasExtraMove g1 = false) as Hnx1
    by (rewrite Hg1; msimpl; exact Hnx).
  assert (nextPlayerHasSlipPenalty g1 = false) as Hns1
    by (rewrite Hg1; msimpl; exact Hns).
  assert (aiToMove g1 = bool_decide (mode (config g) = PVE)) as Hai1.
  { rewrite <- (aiToMove_next g Hai). rewrite Hg1. unfold aiToMove. msimpl.
    reflexivity. }
  assert (gameSubState g1 = NORMAL) as Hsub1
    by (rewrite Hg1; msimpl; exact Hsub).
  assert (originalMoveCount (moveCountOf g1 (currentPlayer g))
          = originalMoveCount (moveCountOf g (currentPlayer g)) + 1) as Hc1.
  { rewrite Hg1. unfold moveCountOf. msimpl.
    cbn [players]. by destruct (currentPlayer g). }
  assert (board g1 = board g /\ currentPlayer g1 = other (currentPlayer g)
          /\ gameState g1 = gameState g /\ gameResult g1 = gameResult g
          /\ moveHistory g1 = moveHistory g /\ config g1 = config g
          /\ blindBoxes g1 = blindBoxes g /\ hasExtraMove g1 = hasExtraMove g
          /\ allowedPositions g1 = allowedPositions g
          /\ isAiCalculating g1 = isAiCalculating g /\ aiTimer g1 = aiTimer g
          /\ runtime g1 = runtime g)
    as (Hb1 & Hp1 & Hs1 & Hr1 & Hm1 & Hcf1 & Hbx1 & Hex1 & Hal1 & Hcalc1
        & Hat1 & Hrt1)
    by (rewrite Hg1; msimpl; repeat split; reflexivity).
  clear Hg1.
  apply (run_step _ _ _ _ _ _ (grantOpponentAcceleration_none g1 Hnx1)) in Hr.
  cbv beta in Hr.
  apply (run_step _ _ _ _ _ _ (imposeSlipPenalty_none g1 Hns1)) in Hr.
  cbv beta in Hr.
  destruct (validateMoveCountConsistency_rest g1) as [Hg2 Horig].
  destruct (validateMoveCountConsistency g1) as [ok g2] eqn:Hv.
  cbn [snd] in Hg2, Horig.
  apply (run_step _ _ _ _ _ _ Hv) in Hr.
  assert (aiToMove g2 = bool_decide (mode (config g) = PVE)) as Hai2
    by (rewrite Hg2, <- Hai1; unfold aiToMove; msimpl; reflexivity).
  assert (gameSubState g2 = NORMAL) as Hsub2
    by (rewrite Hg2; msimpl; exact Hsub1).
  assert (originalMoveCount (moveCountOf g2 (currentPlayer g))
          = originalMoveCount (moveCountOf g (currentPlayer g)) + 1) as Hc2
    by (by rewrite Horig).
  assert (board g2 = board g /\ currentPlayer g2 = other (currentPlayer g)
          /\ gameState g2 = gameState g /\ gameResult g2 = gameResult g
          /\ moveHistory g2 = moveHistory g /\ config g2 = config g
          /\ plain g2
          /\ isAiCalculating g2 = isAiCalculating g /\ aiTimer g2 = aiTimer g
          /\ runtime g2 = runtime g)
    as (Hb2 & Hp2 & Hs2 & Hr2 & Hm2 & Hcf2 & Hpl2 & Hcalc2 & Hat2 & Hrt2).
  { rewrite Hg2. unfold plain. msimpl.
    rewrite Hb1, Hp1, Hs1, Hr1, Hm1, Hcf1, Hbx1, Hex1, Hal1, Hcalc1, Hat1,
      Hrt1, Hsub1, Hnx1, Hns1. done. }
  clear Hg2 Horig Hv.
  destruct Hpl2 as (? & ? & ? & ? & ? & ? & ?).
  run_in Hr. run_in Hr. rewrite Hai2, Hsub2 in Hr.
  rewrite (bool_decide_true (NORMAL = NORMAL)) in Hr by done.
  cbn [orb] in Hr. rewrite andb_true_r in Hr.
  destruct (bool_decide (mode (config g) = PVE)).
  - unfold scheduleAiTurn, setTimeout in Hr. msimpl_in Hr. subst r. msimpl.
    rewrite Hrt2. repeat split; done.
  - run_in Hr. subst r. msimpl. rewrite Hrt2. repeat split; done.
Qed.
End PlainGame.

Section PlainMove.
Implicit Types (g : GomokuGame) (pos : Position).

Lemma boardPlaceStone_state pos pl g :
  Board.isEmpty (board g) pos = true ->
  boardPlaceStone pos pl g
  = (true,
     set_board (withStone (board g) pos pl (nextNow g))
       (set_runtime (set_clockCalls (S (clockCalls (runtime g))) (runtime g))
          g)).
Proof.
  intros He. unfold boardPlaceStone, withStone, nextNow. mstep.
  unfold Board.placeStone at 1. rewrite He. reflexivity.
Qed.

Lemma besidesRecord_plain g g' :
  besidesRecord g' = besidesRecord g -> plain g -> plain g'.
Proof.
  unfold besidesRecord, plain. intros H.
  apply pair_eq in H as [H _]. apply pair_eq in H as [H H1].
  apply pair_eq in H as [_ Hc].
  apply pair_eq in H1 as [H1 Hal]. apply pair_eq in H1 as [H1 Hns].
  apply pair_eq in H1 as [H1 Hnx]. apply pair_eq in H1 as [H1 Hex].
  apply pair_eq in H1 as [Hbx Hsub].
  by rewrite Hc, Hal, Hns, Hnx, Hex, Hbx, Hsub.
Qed.

Lemma pushMoveHistory_rest pos : frames besidesRecord (pushMoveHistory pos).
Proof. unfold besidesRecord. footprint. Qed.

Lemma recordMoveEvent_rest t d i a :
  frames besidesRecord (recordMoveEvent t d i a).
Proof. unfold besidesRecord. footprint. Qed.

Lemma pushMoveHistory_timers pos g :
  let g' := (pushMoveHistory pos g).2 in
  timers (runtime g') = timers (runtime g)
  /\ nextTimer (runtime g') = nextTimer (runtime g)
  /\ gameMoveCountState g' = gameMoveCountState g
  /\ moveHistory g'
     = moveHistory g ++ [mkMove pos (currentPlayer g) (nextNow g)]
  /\ length (moveHistory g') = S (length (moveHistory g)).
Proof.
  unfold pushMoveHistory, nextNow. msimpl. do 4 (split; [reflexivity|]).
  rewrite length_app. simpl. lia.
Qed.

Lemma recordMoveEvent_timers t d i a g :
  let g' := (recordMoveEvent t d i a g).2 in
  timers (runtime g') = timers (runtime g)
  /\ nextTimer (runtime g') = nextTimer (runtime g)
  /\ moveHistory g' = moveHistory g
  /\ forall p, originalMoveCount (moveCountOf g' p)
               = originalMoveCount (moveCountOf g p).
Proof.
  unfold recordMoveEvent, generateMoveEventId, updMoveCount, moveCountOf.
  msimpl. do 3 (split; [reflexivity|]). intros p. cbn [players].
  by destruct p, (currentPlayer g).
Qed.

(** The state in which a placed stone is judged, in a game without extra
    move pending. *)
Lemma settleMove_judged pos g :
  hasExtraMove g = false ->
  exists g3,
    settleMove pos g
    = (if bool_decide
            (winner (checkWin (board g) pos (currentPlayer g)) <> None)
       then finish (checkWin (board g) pos (currentPlayer g)) ;; ret true
       else if isFull g3 then finish (mkGameResult None []) ;; ret true
       else afterMove pos) g3
    /\ besidesRecord g3 = besidesRecord g
    /\ moveHistory g3
       = moveHistory g ++ [mkMove pos (currentPlayer g) (nextNow g)]
    /\ timers (runtime g3) = timers (runtime g)
    /\ nextTimer (runtime g3) = nextTimer (runtime g)
    /\ forall p, originalMoveCount (moveCountOf g3 p)
                 = originalMoveCount (moveCountOf g p).
Proof.
  intros Hex.
  remember (settleMove pos g) as r eqn:Hr. unfold settleMove in Hr.
  apply run_unit in Hr.
  pose proof (pushMoveHistory_rest pos g) as Hv2.
  destruct (pushMoveHistory_timers pos g) as (Ht2 & Hn2 & Hc2 & Hl2 & _).
  remember (pushMoveHistory pos g).2 as g2 eqn:Hg2. clear Hg2.
  cbv beta in Hv2. run_in Hr.
  assert (hasExtraMove g2 = false) as Hex2.
  { rewrite <- Hex. unfold besidesRecord in Hv2.
    apply pair_eq in Hv2 as [Hv2 _]. apply pair_eq in Hv2 as [_ Hv2].
    apply pair_eq in Hv2 as [Hv2 _]. apply pair_eq in Hv2 as [Hv2 _].
    apply pair_eq in Hv2 as [Hv2 _]. by apply pair_eq in Hv2 as [_ Hv2]. }
  rewrite Hex2 in Hr. apply run_unit in Hr.
  pose proof (recordMoveEvent_rest NORMAL_MOVE DescNormalMove None None g2)
    as Hv3.
  destruct (recordMoveEvent_timers NORMAL_MOVE DescNormalMove None None g2)
    as (Ht3 & Hn3 & Hm3 & Hc3).
  remember (recordMoveEvent NORMAL_MOVE DescNormalMove None None g2).2
    as g3 eqn:Hg3.
  clear Hg3. cbv beta in Hv3. exists g3. run_in Hr. cbv zeta in Hr.
  rewrite Hv2 in Hv3.
  assert (board g3 = board g /\ currentPlayer g3 = currentPlayer g)
    as [Hb Hp].
  { unfold besidesRecord in Hv3. apply pair_eq in Hv3 as [Hv3 _].
    apply pair_eq in Hv3 as [Hv3 _]. apply pair_eq in Hv3 as [Hv3 _].
    apply pair_eq in Hv3 as [Hv3 _]. apply pair_eq in Hv3 as [Hv3 _].
    by apply pair_eq in Hv3 as [? ?]. }
  rewrite Hb, Hp in Hr. split; [exact Hr|]. split; [done|].
  split; [by rewrite Hm3|]. split; [by rewrite Ht3|]. split; [by rewrite Hn3|].
  intros p. rewrite Hc3. unfold moveCountOf. by rewrite Hc2.
Qed.

Lemma besidesRecord_fields g g' :
  besidesRecord g' = besidesRecord g ->
  board g' = board g /\ currentPlayer g' = currentPlayer g
  /\ gameState g' = gameState g /\ gameResult g' = gameResult g
  /\ config g' = config g
  /\ isAiCalculating g' = isAiCalculating g /\ aiTimer g' = aiTimer g.
Proof.
  unfold besidesRecord. intros H.
  apply pair_eq in H as [H H2]. apply pair_eq in H as [H _].
  apply pair_eq in H as [H Hc]. apply pair_eq in H as [H Hr].
  apply pair_eq in H as [H Hs]. apply pair_eq in H as [Hb Hp].
  apply pair_eq in H2 as [Hcalc Hat]. done.
Qed.

Lemma boardPlaceStone_besides pos pl g :
  Board.isEmpty (board g) pos = true ->
  let g1 := (boardPlaceStone pos pl g).2 in
  board g1 = withStone (board g) pos pl (nextNow g)
  /\ besidesRecord (set_board (board g) g1) = besidesRecord g
  /\ moveHistory g1 = moveHistory g
  /\ timers (runtime g1) = timers (runtime g)
  /\ nextTimer (runtime g1) = nextTimer (runtime g)
  /\ gameMoveCountState g1 = gameMoveCountState g.
Proof. intros He. rewrite (boardPlaceStone_state pos pl g He). done. Qed.
End PlainMove.

(** X22: in a game without items under way, a move that [makeMove] accepts,
    that makes no five in a row and does not fill the move history puts the
    stone on the board and passes the turn to the other colour: the game
    stays PLAYING and without items pending, and the mover's count of
    ordinary moves goes up by one. In PVE the computer's move is scheduled
    500 ms ahead; in PVP no timer is touched. *)
Theorem plain_move (g : GomokuGame) (pos : Position) :
  plain g -> accepts g pos ->
  let pl := currentPlayer g in
  let b' := withStone (board g) pos pl (nextNow g) in
  ~ fiveThrough b' pos pl ->
  Z.of_nat (S (length (moveHistory g)))
  <> Board.getSize (board g) * Board.getSize (board g) ->
  let g' := (makeMove pos g).2 in
  board g' = b' /\ currentPlayer g' = other pl /\ gameState g' = PLAYING
  /\ plain g'
  /\ originalMoveCount (moveCountOf g' pl)
     = originalMoveCount (moveCountOf g pl) + 1
  /\ (if bool_decide (mode (config g) = PVE)
      then isAiCalculating g' = true
           /\ aiTimer g' = Some (nextTimer (runtime g))
           /\ timers (runtime g')
              = timers (runtime g)
                ++ [mkTimer (nextTimer (runtime g)) 500 AiTurn]
      else isAiCalculating g' = isAiCalculating g
           /\ aiTimer g' = aiTimer g
           /\ timers (runtime g') = timers (runtime g)).
Proof.
  intros Hpl Hacc pl b' Hno Hfull. cbv zeta.
  pose proof Hacc as (Hst & Hai & _ & _ & He).
  rewrite (makeMove_accepted g pos Hacc). fold pl.
  destruct (boardPlaceStone_besides pos pl g He)
    as (Hb1 & Hv1 & Hm1 & Ht1 & Hn1 & Hc1).
  fold b' in Hb1.
  remember (boardPlaceStone pos pl g).2 as g1 eqn:Hg1. clear Hg1.
  cbv zeta in Hv1.
  assert (plain g1) as Hpl1
    by exact (besidesRecord_plain g (set_board (board g) g1) Hv1 Hpl).
  apply besidesRecord_fields in Hv1
    as (_ & Hp1 & Hs1 & _ & Hcf1 & Hcalc1 & Hat1).
  cbn [currentPlayer gameState config isAiCalculating aiTimer set_board]
    in Hp1, Hs1, Hcf1, Hcalc1, Hat1.
  destruct (settleMove_judged pos g1) as (g3 & -> & Hv3 & Hl3 & Ht3 & Hn3 & Hc3);
    [apply Hpl1|].
  apply (f_equal length) in Hl3. rewrite length_app, Nat.add_1_r in Hl3.
  cbn [length] in Hl3.
  pose proof (besidesRecord_plain _ _ Hv3 Hpl1) as Hpl3.
  apply besidesRecord_fields in Hv3
    as (Hb3 & Hp3 & Hs3 & _ & Hcf3 & Hcalc3 & Hat3).
  rewrite Hb1, Hp1. fold pl. rewrite (checkWin_none b' pos pl Hno).
  cbn [winner]. rewrite bool_decide_false by (by intros H; apply H).
  assert (isFull g3 = false) as ->.
  { unfold isFull. rewrite Hl3, Hm1, Hb3, Hb1. unfold b'.
    rewrite withStone_size. by apply Z.eqb_neq. }
  assert (aiToMove g3 = false) as Hai3.
  { rewrite <- Hai. unfold aiToMove. by rewrite Hcf3, Hcf1, Hp3, Hp1. }
  destruct (afterMove_plain pos g3 Hpl3 Hai3)
    as (_ & Hb & Hp & Hs & _ & _ & _ & Hplain & Hcnt & Htimer).
  rewrite Hb, Hp, Hs, Hb3, Hp3, Hs3, Hb1, Hp1, Hs1, Hst.
  do 4 (split; [done|]). rewrite Hp3, Hp1 in Hcnt. fold pl in Hcnt.
  split.
  { rewrite Hcnt, Hc3. unfold moveCountOf. by rewrite Hc1. }
  rewrite Hcf3, Hcf1, Hn3, Hn1, Ht3, Ht1, Hcalc3, Hcalc1, Hat3, Hat1 in Htimer.
  exact Htimer.
Qed.

Lemma plain_move_witness :
  currentPlayer (makeMove (P 5 6) fourInColumn).2 = WHITE
  /\ plain (makeMove (P 5 6) fourInColumn).2.
Proof.
  destruct (plain_move fourInColumn (P 5 6)) as (_ & Hp & _ & Hpl & _).
  - vm_compute. repeat split; reflexivity.
  - vm_compute. repeat split; try reflexivity; try discriminate.
    left. reflexivity.
  - apply no_five_by_test. vm_compute. reflexivity.
  - vm_compute. discriminate.
  - split; [|exact Hpl]. rewrite Hp. vm_compute. reflexivity.
Defined.

Section PlainAIMove.
Implicit Types (g : GomokuGame) (pos : Position).

Lemma afterAIMove_plain pos g :
  plain g ->
  let g' := (afterAIMove pos g).2 in
  besidesRecord (set_currentPlayer (currentPlayer g) g') = besidesRecord g
  /\ currentPlayer g' = other (currentPlayer g)
  /\ moveHistory g' = moveHistory g
  /\ gameMoveCountState g' = gameMoveCountState g
  /\ timers (runtime g') = timers (runtime g)
  /\ notified (runtime g') = S (notified (runtime g)).
Proof.
  intros (Hit & Hbx & Hsub & Hex & Hnx & Hns & Hal). cbv zeta.
  remember (afterAIMove pos g) as r eqn:Hr. unfold afterAIMove in Hr.
  run_in Hr. rewrite Hsub in Hr.
  rewrite (bool_decide_false (NORMAL = HAND_SLIP_PENALTY)) in Hr by done.
  run_in Hr. cbv beta in Hr.
  apply (run_step _ _ _ _ _ _ (openBlindBoxAtPosition_none pos g Hbx)) in Hr.
  run_in Hr. rewrite Hit in Hr. run_in Hr. cbv beta in Hr.
  apply (run_step _ _ _ _ _ _ (grantOpponentAcceleration_none g Hnx)) in Hr.
  run_in Hr. rewrite Hex in Hr. run_in Hr. run_in Hr.
  unfold notifyGameStateChange in Hr. subst r. msimpl.
  repeat split; reflexivity.
Qed.

(** The state in which the computer's stone is judged. *)
Lemma settleAIMove_judged pos g :
  Board.isEmpty (board g) pos = true ->
  exists g2,
    settleAIMove pos g
    = (if bool_decide
            (winner (checkWin (board g2) pos (currentPlayer g)) <> None)
       then finish (checkWin (board g2) pos (currentPlayer g))
       else if isFull g2 then finish (mkGameResult None [])
       else afterAIMove pos) g2
    /\ board g2 = withStone (board g) pos (currentPlayer g) (nextNow g)
    /\ besidesRecord (set_board (board g) g2) = besidesRecord g
    /\ length (moveHistory g2) = S (length (moveHistory g))
    /\ gameMoveCountState g2 = gameMoveCountState g
    /\ timers (runtime g2) = timers (runtime g)
    /\ notified (runtime g2) = notified (runtime g).
Proof.
  intros He.
  unfold settleAIMove.
  match goal with
  | |- context [bind ?c ?k g] => remember (bind c k g) as r eqn:Hr
  end.
  run_in Hr.
  apply (run_step _ _ _ _ _ _ (boardPlaceStone_state pos _ g He)) in Hr.
  cbv beta in Hr.
  destruct (boardPlaceStone_besides pos (currentPlayer g) g He)
    as (Hb1 & Hv1 & Hm1 & Ht1 & Hn1 & Hc1).
  assert (notified (runtime (boardPlaceStone pos (currentPlayer g) g).2)
          = notified (runtime g)) as Hnf1
    by (by rewrite (boardPlaceStone_state pos _ g He)).
  rewrite (boardPlaceStone_state pos _ g He) in Hb1, Hv1, Hm1, Ht1, Hn1, Hc1,
    Hnf1.
  cbv zeta in Hv1. cbn [snd] in Hb1, Hv1, Hm1, Ht1, Hn1, Hc1, Hnf1.
  match type of Hr with
  | _ = bind _ _ ?s => remember s as g1 eqn:Hg1
  end.
  clear Hg1. apply run_unit in Hr.
  pose proof (pushMoveHistory_rest pos g1) as Hv2.
  destruct (pushMoveHistory_timers pos g1) as (Ht2 & Hn2 & Hc2 & _ & Hl2).
  assert (notified (runtime (pushMoveHistory pos g1).2)
          = notified (runtime g1)) as Hnf2 by reflexivity.
  remember (pushMoveHistory pos g1).2 as g2 eqn:Hg2. clear Hg2.
  cbv beta in Hv2. exists g2. run_in Hr. cbv zeta in Hr.
  pose proof (besidesRecord_fields _ _ Hv2) as (Hb2 & Hp2 & _).
  pose proof (besidesRecord_fields _ _ Hv1) as (_ & Hp1 & _).
  cbn [currentPlayer set_board] in Hp1.
  rewrite Hp2, Hp1 in Hr. split; [exact Hr|].
  split; [by rewrite Hb2|]. split.
  { rewrite <- Hv1. unfold besidesRecord in *. cbn [board set_board].
    apply pair_eq in Hv2 as [Hv2 Hx]. apply pair_eq in Hv2 as [Hv2 Hy].
    apply pair_eq in Hv2 as [Hv2 Hz]. apply pair_eq in Hv2 as [Hv2 Hw].
    apply pair_eq in Hv2 as [Hv2 Hu]. apply pair_eq in Hv2 as [_ Ht].
    cbn [currentPlayer gameState gameResult config blindBoxes gameSubState
         hasExtraMove nextPlayerHasExtraMove nextPlayerHasSlipPenalty
         allowedPositions isAiCalculating aiTimer set_board].
    by rewrite Hx, Hy, Hz, Hw, Hu, Ht. }
  split; [by rewrite Hl2, Hm1|]. split; [by rewrite Hc2|].
  split; [by rewrite Ht2|]. by rewrite Hnf2.
Qed.
End PlainAIMove.

(** X23: in a game without items under way, when the computer's move goes
    to an empty cell, makes no five in a row and does not fill the move
    history, [makeAIMove] puts the stone there and passes the turn to the
    other colour: the game stays PLAYING and without items pending, the
    change callbacks are dispatched once and no timer is touched. The move
    counts are left as they were: the computer's ordinary moves are not
    counted. *)
Theorem plain_ai_move (g : GomokuGame) (best : Position) :
  plain g -> gameState g = PLAYING -> aiChoice g = Some best ->
  Board.isEmpty (board g) best = true ->
  let pl := currentPlayer g in
  let b' := withStone (board g) best pl (nextNow g) in
  ~ fiveThrough b' best pl ->
  Z.of_nat (S (length (moveHistory g)))
  <> Board.getSize (board g) * Board.getSize (board g) ->
  let g' := (makeAIMove g).2 in
  board g' = b' /\ currentPlayer g' = other pl /\ gameState g' = PLAYING
  /\ plain g'
  /\ gameMoveCountState g' = gameMoveCountState g
  /\ timers (runtime g') = timers (runtime g)
  /\ notified (runtime g') = S (notified (runtime g)).
Proof.
  intros Hpl Hst Hch He pl b' Hno Hfull. cbv zeta.
  rewrite (makeAIMove_choice g best Hst Hch).
  rewrite (imposeSlipPenalty_none g) by apply Hpl. cbn [snd].
  destruct (settleAIMove_judged best g He)
    as (g2 & -> & Hb2 & Hv2 & Hl2 & Hc2 & Ht2 & Hn2).
  fold pl in Hb2 |- *. fold b' in Hb2.
  assert (plain g2) as Hpl2
    by exact (besidesRecord_plain g (set_board (board g) g2) Hv2 Hpl).
  apply besidesRecord_fields in Hv2 as (_ & Hp2 & Hs2 & _).
  cbn [currentPlayer gameState set_board] in Hp2, Hs2.
  rewrite Hb2, (checkWin_none b' best pl Hno). cbn [winner].
  rewrite bool_decide_false by (by intros H; apply H).
  assert (isFull g2 = false) as ->.
  { unfold isFull. rewrite Hl2, Hb2. unfold b'.
    rewrite withStone_size. by apply Z.eqb_neq. }
  destruct (afterAIMove_plain best g2 Hpl2)
    as (Hv & Hp & _ & Hc & Ht & Hn).
  remember (afterAIMove best g2).2 as g3 eqn:Hg3. clear Hg3.
  pose proof (besidesRecord_plain _ _ Hv Hpl2) as Hpl3.
  apply besidesRecord_fields in Hv as (Hb & _ & Hs & _).
  cbn [board gameState set_currentPlayer] in Hb, Hs.
  rewrite Hb, Hp, Hs, Hc, Ht, Hn, Hb2, Hp2, Hs2, Hc2, Ht2, Hn2, Hst.
  do 3 (split; [done|]). split; [exact Hpl3|]. done.
Qed.

Lemma plain_ai_move_witness :
  currentPlayer (makeAIMove humanOpened).2 = BLACK
  /\ timers (runtime (makeAIMove humanOpened).2) = timers (runtime humanOpened).
Proof.
  destruct (plain_ai_move humanOpened (P 7 6)) as (_ & Hp & _ & _ & _ & Ht & _).
  - vm_compute. repeat split; reflexivity.
  - vm_compute. reflexivity.
  - vm_compute. reflexivity.
  - vm_compute. reflexivity.
  - apply no_five_by_test. vm_compute. reflexivity.
  - vm_compute. discriminate.
  - split; [|exact Ht]. rewrite Hp. vm_compute. reflexivity.
Defined.

Section MoveThenUndo.
Implicit Types (g : GomokuGame) (pos : Position).

Lemma other_other (p : Player) : other (other p) = p.
Proof. by destruct p. Qed.

Lemma checkWin_winner_five b pos pl :
  winner (checkWin b pos pl) <> None -> fiveThrough b pos pl.
Proof.
  unfold checkWin. destruct (List.find _ _) as [line|] eqn:Hfind; [|done].
  intros _. apply find_some in Hfind as [Hin Hfive].
  apply in_map_iff in Hin as (d & <- & Hd).
  exists d. split; [done|]. by apply Nat.leb_le.
Qed.

(** The state a move leaves in a game without items: the game ends, and
    the turn stays with the mover, when the move makes five in a row or
    fills the move history. *)
Lemma plain_makeMove_trace g pos :
  plain g -> accepts g pos ->
  let pl := currentPlayer g in
  let b' := withStone (board g) pos pl (nextNow g) in
  let ends :=
    fiveThrough b' pos pl
    \/ Z.of_nat (S (length (moveHistory g)))
       = Board.getSize (board g) * Board.getSize (board g) in
  let g' := (makeMove pos g).2 in
  board g' = b' /\ gameState g' <> READY /\ config g' = config g
  /\ (exists t, moveHistory g' = moveHistory g ++ [mkMove pos pl t])
  /\ (ends -> currentPlayer g' = pl)
  /\ (~ ends -> currentPlayer g' = other pl).
Proof.
  intros Hpl Hacc pl b' ends. cbv zeta.
  pose proof Hacc as (Hst & Hai & _ & _ & He).
  rewrite (makeMove_accepted g pos Hacc). fold pl.
  destruct (boardPlaceStone_besides pos pl g He)
    as (Hb1 & Hv1 & Hm1 & Ht1 & Hn1 & Hc1).
  fold b' in Hb1.
  remember (boardPlaceStone pos pl g).2 as g1 eqn:Hg1. clear Hg1.
  cbv zeta in Hv1.
  assert (plain g1) as Hpl1
    by exact (besidesRecord_plain g (set_board (board g) g1) Hv1 Hpl).
  apply besidesRecord_fields in Hv1
    as (_ & Hp1 & Hs1 & _ & Hcf1 & _).
  cbn [currentPlayer gameState config set_board] in Hp1, Hs1, Hcf1.
  destruct (settleMove_judged pos g1) as (g3 & -> & Hv3 & Hm3 & _);
    [apply Hpl1|].
  pose proof (besidesRecord_plain _ _ Hv3 Hpl1) as Hpl3.
  apply besidesRecord_fields in Hv3
    as (Hb3 & Hp3 & Hs3 & _ & Hcf3 & _).
  rewrite Hb1, Hp1. fold pl. rewrite Hm1, Hp1 in Hm3. fold pl in Hm3.
  assert (isFull g3
          = (Z.of_nat (S (length (moveHistory g)))
             =? Board.getSize (board g) * Board.getSize (board g))) as Hfull.
  { unfold isFull. rewrite Hm3, Hb3, Hb1, length_app, Nat.add_1_r.
    unfold b'. by rewrite withStone_size. }
  case_bool_decide as Hw.
  - assert (fiveThrough b' pos pl) as Hfive.
    { by apply checkWin_winner_five. }
    unfold finish, notifyGameStateChange. msimpl.
    rewrite Hb3, Hb1, Hcf3, Hcf1, Hp3, Hp1, Hm3.
    split; [done|]. split; [done|]. split; [done|].
    split; [by eexists|]. split; [done|]. intros Hno. destruct Hno. by left.
  - assert (~ fiveThrough b' pos pl) as Hno.
    { intros Hfive.
      destruct (checkWin_five b' pos pl (withStone_holds _ _ _ _ He) Hfive)
        as [Hne _].
      by apply Hne. }
    rewrite Hfull.
    destruct (Z.eqb_spec (Z.of_nat (S (length (moveHistory g))))
                (Board.getSize (board g) * Board.getSize (board g)))
      as [Hf|Hf].
    + unfold finish, notifyGameStateChange. msimpl.
      rewrite Hb3, Hb1, Hcf3, Hcf1, Hp3, Hp1, Hm3.
      split; [done|]. split; [done|]. split; [done|].
      split; [by eexists|]. split; [done|]. intros Hne. destruct Hne.
      by right.
    + assert (aiToMove g3 = false) as Hai3.
      { rewrite <- Hai. unfold aiToMove. by rewrite Hcf3, Hcf1, Hp3, Hp1. }
      destruct (afterMove_plain pos g3 Hpl3 Hai3)
        as (_ & Hb & Hp & Hs & _ & Hm & Hcf & _).
      rewrite Hb, Hp, Hs, Hm, Hcf, Hb3, Hp3, Hs3, Hcf3, Hb1, Hp1, Hs1, Hcf1,
        Hst, Hm3.
      split; [done|]. split; [done|]. split; [done|].
      split; [by eexists|]. split; [|done].
      intros [?|?]; done.
Qed.
End MoveThenUndo.

(** X24: in a game between two players without items under way, [undoMove]
    right after an accepted move gives back the board, grid and move stack
    alike, and the move history as they were before the move, with the game
    PLAYING and without a result. The turn goes back to the mover when the
    move neither made five in a row nor filled the move history; after a
    move that ended the game, by a win or by a draw on the full board, it
    goes to the opponent. *)
Theorem move_then_undo (g : GomokuGame) (pos : Position) :
  plain g -> mode (config g) = PVP -> accepts g pos ->
  let pl := currentPlayer g in
  let b' := withStone (board g) pos pl (nextNow g) in
  let ends :=
    fiveThrough b' pos pl
    \/ Z.of_nat (S (length (moveHistory g)))
       = Board.getSize (board g) * Board.getSize (board g) in
  let g2 := (undoMove (makeMove pos g).2).2 in
  (undoMove (makeMove pos g).2).1 = true
  /\ board g2 = board g /\ moveHistory g2 = moveHistory g
  /\ gameState g2 = PLAYING /\ gameResult g2 = None
  /\ (~ ends -> currentPlayer g2 = pl)
  /\ (ends -> currentPlayer g2 = other pl).
Proof.
  intros Hpl Hpvp Hacc pl b' ends. cbv zeta.
  destruct (plain_makeMove_trace g pos Hpl Hacc)
    as (Hb & Hst & Hcf & [t Hm] & Hend & Hno).
  fold pl b' in Hb, Hm, Hend, Hno. fold ends in Hend, Hno.
  remember (makeMove pos g).2 as g1 eqn:Hg1. clear Hg1.
  destruct (undoMove_done g1 (mkMove pos pl t) Hst) as
    (Hr & Hs2 & Hr2 & _ & _ & _ & _ & Hp2 & Hm2 & Hb2).
  { rewrite Hm. apply last_snoc. }
  rewrite Hcf, Hpvp in Hp2, Hm2, Hb2.
  rewrite (bool_decide_false (PVP = PVE)) in Hp2, Hm2, Hb2 by done.
  cbn [andb] in Hm2, Hb2.
  rewrite Hr, Hs2, Hr2, Hp2, Hm2, Hb2, Hm, Hb, removelast_last.
  split; [done|]. split.
  { unfold b', withStone.
    pose proof Hacc as (_ & _ & _ & _ & He).
    destruct (Board.placeStone (board g) pos pl (nextNow g)) as [ok b1] eqn:Hp.
    assert (ok = true) as ->.
    { unfold Board.placeStone in Hp. rewrite He in Hp. by injection Hp as <- _. }
    cbn [snd]. by rewrite (placeStone_undoMove _ _ _ _ _ Hp). }
  do 3 (split; [done|]). split.
  - intros H. by rewrite (Hno H), other_other.
  - intros H. by rewrite (Hend H).
Qed.

(** The three cases: BLACK completes five at (0,4), plays (9,9) without
    ending the game, and fills the last cell of a board without a five. *)
Lemma move_then_undo_witness :
  (board (undoMove (makeMove (P 0 4) fourInColumn).2).2 = board fourInColumn
   /\ currentPlayer fourInColumn = BLACK
   /\ currentPlayer (undoMove (makeMove (P 0 4) fourInColumn).2).2 = WHITE)
  /\ currentPlayer (undoMove (makeMove (P 9 9) fourInColumn).2).2 = BLACK
  /\ (currentPlayer oneCellLeft = BLACK
      /\ gameResult (makeMove (P 13 14) oneCellLeft).2
         = Some (mkGameResult None [])
      /\ currentPlayer (undoMove (makeMove (P 13 14) oneCellLeft).2).2
         = WHITE).
Proof.
  assert (forall pos, Board.isEmpty (board fourInColumn) pos = true ->
                      accepts fourInColumn pos) as Hacc.
  { intros pos He. split; [vm_compute; reflexivity|].
    split; [vm_compute; reflexivity|]. split; [vm_compute; discriminate|].
    split; [left; vm_compute; reflexivity|exact He]. }
  assert (accepts oneCellLeft (P 13 14)) as Hlast.
  { split; [vm_compute; reflexivity|].
    split; [vm_compute; reflexivity|]. split; [vm_compute; discriminate|].
    split; [left; vm_compute; reflexivity|vm_compute; reflexivity]. }
  assert (Z.of_nat (S (length (moveHistory oneCellLeft)))
          = Board.getSize (board oneCellLeft)
            * Board.getSize (board oneCellLeft)) as Hfull
    by (vm_compute; reflexivity).
  assert (plain fourInColumn) as Hpl by (vm_compute; repeat split; reflexivity).
  assert (plain oneCellLeft) as Hpl' by (vm_compute; repeat split; reflexivity).
  assert (mode (config fourInColumn) = PVP) as Hm by (vm_compute; reflexivity).
  assert (mode (config oneCellLeft) = PVP) as Hm' by (vm_compute; reflexivity).
  assert (fiveThrough
            (withStone (board fourInColumn) (P 0 4)
               (currentPlayer fourInColumn) (nextNow fourInColumn))
            (P 0 4) (currentPlayer fourInColumn)) as Hfive.
  { exists (0, 1). split; [right; left; reflexivity|].
    vm_compute. lia. }
  destruct (move_then_undo fourInColumn (P 0 4) Hpl Hm)
    as (_ & Hb & _ & _ & _ & _ & Hp).
  { apply Hacc. vm_compute. reflexivity. }
  destruct (move_then_undo fourInColumn (P 9 9) Hpl Hm)
    as (_ & _ & _ & _ & _ & Hq & _).
  { apply Hacc. vm_compute. reflexivity. }
  destruct (move_then_undo oneCellLeft (P 13 14) Hpl' Hm' Hlast)
    as (_ & _ & _ & _ & _ & _ & Hd).
  split; [|split].
  - split; [exact Hb|]. split; [vm_compute; reflexivity|].
    rewrite (Hp (or_introl Hfive)). vm_compute. reflexivity.
  - rewrite Hq; [vm_compute; reflexivity|]. intros [H|H].
    + revert H. apply no_five_by_test. vm_compute. reflexivity.
    + revert H. vm_compute. discriminate.
  - split; [vm_compute; reflexivity|]. split; [vm_compute; reflexivity|].
    rewrite (Hd (or_intror Hfull)). vm_compute. reflexivity.
Defined.

(** ** The other item effects *)

Section AttackItems.
Implicit Types (g : GomokuGame) (p : Player).

Lemma removeRandomStone_none g : removeRandomStone [] g = (tt, g).
Proof. done. Qed.

Lemma removeRandomStone_pick stones pl g :
  randomInRange (runtime g) -> stones <> [] ->
  (forall q, In q stones -> Board.getStone (board g) q = Some pl) ->
  exists target,
    In target stones
    /\ Board.removeStone (board g) target
       = (true, board (removeRandomStone stones g).2)
    /\ activeEffects (removeRandomStone stones g).2 = activeEffects g.
Proof.
  intros Hr Hne Hall. unfold removeRandomStone.
  replace (0 <? length stones)%nat with true
    by (symmetry; apply Nat.ltb_lt; destruct stones; [done|simpl; lia]).
  mstep. unfold mathRandom. mstep.
  destruct (Hr (randomCalls (runtime g))) as [H0 H1].
  destruct (arrayGet_pick _ _ H0 H1 Hne) as (target & -> & Ht).
  exists target.
  assert (In target stones) as Hin
    by (apply list_elem_of_In; by eapply list_elem_of_lookup_2).
  split; [done|]. split; [|done].
  unfold boardRemoveStone. mstep. msimpl.
  pose proof (removeStone_stone _ _ _ (Hall target Hin)).
  by destruct (Board.removeStone (board g) target) as [[] ?].
Qed.

Lemma shielded_effect p n ms g :
  let g' := (showNotification n ms (removeEffect p TOUGHEN_HEART g).2).2 in
  board g' = board g
  /\ effectsOf (activeEffects g') p
     = List.filter notToughenHeart (effectsOf (activeEffects g) p).
Proof.
  cbv zeta.
  destruct (showNotification_activeEffects n ms
              (removeEffect p TOUGHEN_HEART g).2) as [-> ->].
  split; [done|]. unfold removeEffect. mstep. simpl.
  unfold effectsOf at 1. by rewrite lookup_insert_eq.
Qed.
End AttackItems.

(** X25: SELF_MISTAKE against a player who holds a TOUGHEN_HEART effect
    removes no stone and removes every TOUGHEN_HEART effect the player
    holds. Without the effect it changes nothing when the player has no
    stone on the board, and else, when [Math.random()] answers in [0,1),
    removes one of the player's own stones and leaves the effects alone. *)
Theorem performSelfMistake_spec (g : GomokuGame) (p : Player) :
  (hasToughenHeart (effectsOf (activeEffects g) p) = true ->
   let g' := (performSelfMistake p g).2 in
   board g' = board g
   /\ effectsOf (activeEffects g') p
      = List.filter notToughenHeart (effectsOf (activeEffects g) p)
   /\ hasToughenHeart (effectsOf (activeEffects g') p) = false)
  /\ (hasToughenHeart (effectsOf (activeEffects g) p) = false ->
      (stonesOf (board g) p = [] -> performSelfMistake p g = (tt, g))
      /\ (stonesOf (board g) p <> [] -> randomInRange (runtime g) ->
          exists target,
            Board.getStone (board g) target = Some p
            /\ Board.removeStone (board g) target
               = (true, board (performSelfMistake p g).2)
            /\ activeEffects (performSelfMistake p g).2 = activeEffects g)).
Proof.
  split.
  - intros Hs. cbv zeta. unfold performSelfMistake. mstep. rewrite Hs. mstep.
    destruct (shielded_effect p (ImmuneToOwnMistake p) 3000 g) as [Hb He].
    cbv zeta in Hb, He. rewrite Hb, He. do 2 (split; [done|]).
    apply shield_consumed.
  - intros Hs. unfold performSelfMistake. mstep. rewrite Hs. mstep. split.
    + by intros ->.
    + intros Hne Hr.
      destruct (removeRandomStone_pick (stonesOf (board g) p) p g Hr Hne)
        as (target & Hin & Hrm & He); [apply stonesOf_spec|].
      exists target. split; [by apply stonesOf_spec|done].
Qed.

Lemma performSelfMistake_spec_witness :
  exists target,
    Board.getStone (board fourInColumn) target = Some BLACK
    /\ Board.removeStone (board fourInColumn) target
       = (true, board (performSelfMistake BLACK fourInColumn).2).
Proof.
  destruct (proj2 (performSelfMistake_spec fourInColumn BLACK))
    as [_ H]; [vm_compute; reflexivity|].
  destruct H as (target & H1 & H2 & _).
  - vm_compute. discriminate.
  - apply quiet_inRange.
  - exists target. split; [exact H1|exact H2].
Defined.

(** X26: the precise strike the computer makes changes nothing when the
    opponent has no stone on the board, shield or not. Else, against an
    opponent who holds a TOUGHEN_HEART effect it removes no stone and
    removes every such effect; against an opponent without it, when
    [Math.random()] answers in [0,1), it removes one of the opponent's
    stones and leaves the effects alone. *)
Theorem performPreciseStrikeForAI_spec (g : GomokuGame) (p : Player) :
  (stonesOf (board g) (other p) = [] ->
   performPreciseStrikeForAI p g = (tt, g))
  /\ (stonesOf (board g) (other p) <> [] ->
      (hasToughenHeart (effectsOf (activeEffects g) (other p)) = true ->
       let g' := (performPreciseStrikeForAI p g).2 in
       board g' = board g
       /\ effectsOf (activeEffects g') (other p)
          = List.filter notToughenHeart
              (effectsOf (activeEffects g) (other p))
       /\ hasToughenHeart (effectsOf (activeEffects g') (other p)) = false)
      /\ (hasToughenHeart (effectsOf (activeEffects g) (other p)) = false ->
          randomInRange (runtime g) ->
          exists target,
            Board.getStone (board g) target = Some (other p)
            /\ Board.removeStone (board g) target
               = (true, board (performPreciseStrikeForAI p g).2)
            /\ activeEffects (performPreciseStrikeForAI p g).2
               = activeEffects g)).
Proof.
  split.
  - intros Hnone. unfold performPreciseStrikeForAI. mstep. by rewrite Hnone.
  - intros Hne.
    assert ((length (stonesOf (board g) (other p)) =? 0)%nat = false) as Hlen.
    { apply Nat.eqb_neq. by destruct (stonesOf (board g) (other p)). }
    split.
    + intros Hs. cbv zeta. unfold performPreciseStrikeForAI. mstep.
      rewrite Hlen. mstep. rewrite Hs. mstep.
      destruct (shielded_effect (other p) (ImmuneToPreciseStrike (other p))
                  3000 g) as [Hb He].
      cbv zeta in Hb, He. rewrite Hb, He. do 2 (split; [done|]).
      apply shield_consumed.
    + intros Hs Hr. unfold performPreciseStrikeForAI. mstep.
      rewrite Hlen. mstep. rewrite Hs. mstep. unfold mathRandom. mstep.
      destruct (Hr (randomCalls (runtime g))) as [H0 H1].
      destruct (arrayGet_pick _ _ H0 H1 Hne) as (target & -> & Ht).
      exists target.
      assert (Board.getStone (board g) target = Some (other p)) as Hstone.
      { apply stonesOf_spec, list_elem_of_In. by eapply list_elem_of_lookup_2. }
      split; [done|]. split; [|done].
      unfold boardRemoveStone. mstep. msimpl.
      pose proof (removeStone_stone _ _ _ Hstone).
      by destruct (Board.removeStone (board g) target) as [[] ?].
Qed.

Lemma performPreciseStrikeForAI_spec_witness :
  exists target,
    Board.getStone (board fourInColumn) target = Some BLACK
    /\ Board.removeStone (board fourInColumn) target
       = (true, board (performPreciseStrikeForAI WHITE fourInColumn).2).
Proof.
  destruct (proj2 (performPreciseStrikeForAI_spec fourInColumn WHITE))
    as [_ H]; [vm_compute; discriminate|].
  destruct H as (target & H1 & H2 & _).
  - vm_compute. reflexivity.
  - apply quiet_inRange.
  - exists target. split; [exact H1|exact H2].
Defined.

Section StrategyGuide.
Implicit Types (g : GomokuGame) (p : Player) (l : list (Position * Z)).

Lemma insertByScore_perm a l : insertByScore a l ≡ₚ a :: l.
Proof.
  induction l as [|b l IH]; simpl; [done|].
  destruct (b.2 <=? a.2); [done|]. by rewrite IH, Permutation_swap.
Qed.

Lemma insertByScore_sorted a l :
  StronglySorted scoresNoLower l ->
  StronglySorted scoresNoLower (insertByScore a l).
Proof.
  induction 1 as [|b l Hs IH Hall]; simpl; [repeat constructor|].
  destruct (Z.leb_spec (b.2) (a.2)) as [Hle|Hlt].
  - constructor; [by constructor|]. constructor; [done|].
    eapply Forall_impl; [exact Hall|]. unfold scoresNoLower. intros c Hc. lia.
  - constructor; [done|]. rewrite insertByScore_perm.
    constructor; [unfold scoresNoLower; lia|done].
Qed.

Lemma sortByScore_perm l : sortByScore l ≡ₚ l.
Proof.
  induction l as [|a l IH]; [done|]. unfold sortByScore in *. simpl.
  by rewrite insertByScore_perm, IH.
Qed.

Lemma sortByScore_sorted l : StronglySorted scoresNoLower (sortByScore l).
Proof.
  induction l as [|a l IH]; [constructor|]. by apply insertByScore_sorted.
Qed.

Lemma taken_elem {A} (l : list A) n a : a ∈ take n l -> a ∈ l.
Proof. intros H. rewrite <- (take_drop n l). apply elem_of_app. by left. Qed.

(** The first [n] of a sorted list score no lower than the others. *)
Lemma sorted_take l n a b :
  StronglySorted scoresNoLower l ->
  a ∈ take n l -> b ∈ drop n l -> scoresNoLower a b.
Proof.
  intros Hs Ha Hb. rewrite <- (take_drop n l) in Hs.
  by apply (StronglySorted_app_1_elem_of _ _ _ _ _ Hs).
Qed.

(** The [n] best of the cells, as [showStrategyGuide] selects them. *)
Lemma top_scores (score : Position -> Z) (cells : list Position) (n : nat) :
  let shown :=
    map fst (take n (sortByScore (map (fun q => (q, score q)) cells))) in
  length shown = Nat.min n (length cells)
  /\ (NoDup cells -> NoDup shown)
  /\ (forall q, In q shown -> In q cells)
  /\ (forall q q',
        In q shown -> In q' cells -> ~ In q' shown -> score q' <= score q).
Proof.
  cbv zeta.
  remember (map (fun q => (q, score q)) cells) as scored eqn:Hscored.
  pose proof (sortByScore_perm scored) as Hperm.
  pose proof (sortByScore_sorted scored) as Hsorted.
  remember (sortByScore scored) as sorted eqn:Hsrt. clear Hsrt.
  assert (forall a, a ∈ sorted -> a.1 ∈ cells /\ a.2 = score a.1) as Hform.
  { intros a Ha. rewrite Hperm, Hscored in Ha.
    by apply list_elem_of_fmap in Ha as (q & -> & Hq). }
  assert (fst <$> sorted ≡ₚ cells) as Hfst.
  { rewrite Hperm, Hscored.
    change (map ?f ?l) with (f <$> l).
    rewrite <- list_fmap_compose. by rewrite list_fmap_id. }
  change (map fst ?l) with (fst <$> l).
  split.
  { rewrite length_fmap, length_take, <- (length_fmap fst sorted), Hfst. lia. }
  split.
  { intros Hnd. rewrite fmap_take.
    apply (sublist_NoDup _ (fst <$> sorted)); [by rewrite Hfst|].
    apply sublist_take. }
  split.
  { intros q Hq%list_elem_of_In.
    apply list_elem_of_fmap in Hq as (a & -> & Ha).
    apply list_elem_of_In, Hform. by eapply taken_elem. }
  intros q q' Hq%list_elem_of_In Hq' Hout.
  apply list_elem_of_fmap in Hq as (a & -> & Ha).
  assert ((q', score q') ∈ sorted) as Hin.
  { rewrite Hperm, Hscored.
    apply (list_elem_of_fmap_2 (fun q => (q, score q))).
    by apply list_elem_of_In. }
  rewrite <- (take_drop n sorted) in Hin.
  apply elem_of_app in Hin as [Hin|Hin].
  { destruct Hout. apply list_elem_of_In.
    by apply (list_elem_of_fmap_2 fst) in Hin. }
  pose proof (sorted_take sorted n _ _ Hsorted Ha Hin) as Hle.
  unfold scoresNoLower in Hle. cbn [snd] in Hle.
  destruct (Hform a) as [_ <-]; [by eapply taken_elem|]. done.
Qed.

Lemma evaluatePosition_view g g' q :
  board g' = board g -> currentPlayer g' = currentPlayer g ->
  evaluatePosition g' q = evaluatePosition g q.
Proof. intros Hb Hp. unfold evaluatePosition. by rewrite Hb, Hp. Qed.

Lemma showStrategyGuide_state p g :
  let g' := (showStrategyGuide p g).2 in
  gameSubState g' = SHOWING_STRATEGY_GUIDE
  /\ currentPlayer g' = currentPlayer g /\ board g' = board g
  /\ strategyGuidePositions g'
     = map fst
         (take 3 (sortByScore
                    (map (fun q => (q, guideScore g p q))
                       (emptyCells (board g))))).
Proof.
  cbv zeta. unfold showStrategyGuide. mstep. msimpl.
  destruct (emptyCells (board g)) as [|q l] eqn:He; [done|].
  cbn [length Nat.eqb]. mstep. msimpl. do 3 (split; [reflexivity|]).
  match goal with
  | |- map fst (take 3 (sortByScore (map ?F ?L))) = _ =>
      rewrite (map_ext F (fun q => (q, guideScore g p q))); [reflexivity|]
  end.
  intros a. apply (f_equal (pair a)). unfold guideScore.
  by apply evaluatePosition_view.
Qed.
End StrategyGuide.

(** X27: [showStrategyGuide] puts the engine in the sub-state
    SHOWING_STRATEGY_GUIDE and leaves the board and the player to move as
    they were. The positions it shows are distinct empty cells, three of
    them or all of them when fewer are empty, and no empty cell left out
    scores higher for the player than a cell shown. *)
Theorem showStrategyGuide_spec (g : GomokuGame) (p : Player) :
  let g' := (showStrategyGuide p g).2 in
  let shown := strategyGuidePositions g' in
  gameSubState g' = SHOWING_STRATEGY_GUIDE
  /\ currentPlayer g' = currentPlayer g /\ board g' = board g
  /\ length shown = Nat.min 3 (length (emptyCells (board g)))
  /\ NoDup shown
  /\ (forall q, In q shown -> Board.isEmpty (board g) q = true)
  /\ (forall q q',
        In q shown -> Board.isEmpty (board g) q' = true -> ~ In q' shown ->
        guideScore g p q' <= guideScore g p q).
Proof.
  cbv zeta. destruct (showStrategyGuide_state p g) as (Hs & Hp & Hb & ->).
  do 3 (split; [done|]).
  destruct (top_scores (guideScore g p) (emptyCells (board g)) 3)
    as (Hlen & Hnd & Hin & Htop).
  split; [exact Hlen|]. split; [apply Hnd, emptyCells_NoDup|].
  split.
  - intros q Hq. by apply emptyCells_spec, Hin.
  - intros q q' Hq Hq' Hout. apply Htop; [done| |done].
    by apply emptyCells_spec.
Qed.

(** ** Changing the size of the board *)

Section SetBoardSize.
Implicit Types (g : GomokuGame).

Lemma startNewGame_notified g :
  notified (runtime (startNewGame g).2) = notified (runtime g).
Proof.
  destruct g as [b cp st sub res mh [md pc df it] [[|?]|] ai bx pit ae liu [[|?]|]
                   sg he nhe nsp al nt [[|?]|] psp pse mc cb rt];
    destruct md, pc; reflexivity.
Qed.

(** The state in which [setBoardSize] starts the new game. *)
Lemma setBoardSize_start n g :
  exists g1,
    (setBoardSize n g).2 = (notifyGameStateChange (startNewGame g1).2).2
    /\ board g1 = Board.new n /\ config g1 = config g
    /\ gameStateChangeCallbacks g1 = gameStateChangeCallbacks g
    /\ notified (runtime g1) = notified (runtime g).
Proof.
  unfold setBoardSize.
  match goal with
  | |- context [bind ?c ?k g] => remember (bind c k g) as r eqn:Hr
  end.
  run_in Hr. apply run_unit in Hr.
  match type of Hr with
  | _ = _ _ ?s => remember s as g0 eqn:Hg0
  end.
  assert (config g0 = config g
          /\ gameStateChangeCallbacks g0 = gameStateChangeCallbacks g
          /\ notified (runtime g0) = notified (runtime g)) as (Hc0 & Hcb0 & Hn0).
  { rewrite Hg0. unfold clearIfSet. by destruct (aiTimer g) as [[|id]|]. }
  clear Hg0. run_in Hr. run_in Hr. apply run_unit in Hr. cbv beta in Hr.
  eexists. split; [by rewrite Hr|]. by msimpl.
Qed.
End SetBoardSize.

(** X28: [setBoardSize] starts a new game on an empty board of the new
    size: BLACK is to move, the game is PLAYING without a result, a move, a
    blind box or a hand-slip restriction, and the configuration and the
    registered callbacks are kept. The change callbacks are dispatched
    once. *)
Theorem setBoardSize_spec (n : Z) (g : GomokuGame) :
  let g' := (setBoardSize n g).2 in
  board g' = Board.new n
  /\ (forall p, Board.getStone (board g') p = None)
  /\ currentPlayer g' = BLACK /\ gameState g' = PLAYING
  /\ gameSubState g' = NORMAL /\ gameResult g' = None
  /\ moveHistory g' = [] /\ blindBoxes g' = [] /\ allowedPositions g' = []
  /\ config g' = config g
  /\ gameStateChangeCallbacks g' = gameStateChangeCallbacks g
  /\ notified (runtime g') = S (notified (runtime g)).
Proof.
  cbv zeta. destruct (setBoardSize_start n g) as (g1 & -> & Hb & Hc & Hcb & Hn).
  destruct (startNewGame_fields g1)
    as (Hb2 & Hp2 & Hs2 & Hsub2 & Hr2 & Hm2 & Hbx2 & _ & _ & _ & _ & _ & _ & _
        & Hal2 & _ & _ & _ & _ & Hc2 & Hcb2).
  pose proof (startNewGame_notified g1) as Hn2.
  remember (startNewGame g1).2 as g2 eqn:Hg2. clear Hg2.
  unfold notifyGameStateChange. msimpl.
  rewrite Hb2, Hp2, Hs2, Hsub2, Hr2, Hm2, Hbx2, Hal2, Hc2, Hcb2, Hn2, Hb, Hc,
    Hcb, Hn.
  split; [done|]. split; [intros p; apply getStone_new|]. done.
Qed.

(** ** The length of the history *)

Section HistoryFits.
Implicit Types (g : GomokuGame) (pos : Position).

Lemma removeStone_getSize b pos :
  Board.getSize (Board.removeStone b pos).2 = Board.getSize b.
Proof.
  unfold Board.removeStone. destruct (negb _); [done|].
  by destruct (bool_decide _).
Qed.

Lemma removeStone_room pos g :
  roomView (set_board (Board.removeStone (board g) pos).2 g) = roomView g.
Proof. unfold roomView. msimpl. by rewrite removeStone_getSize. Qed.

Lemma afterMove_room pos :
  frames (fun g => (roomView g, gameState g)) (afterMove pos).
Proof.
  footprint; cbv beta; unfold roomView; msimpl; by rewrite removeStone_getSize.
Qed.

Lemma afterAIMove_room pos :
  frames (fun g => (roomView g, gameState g)) (afterAIMove pos).
Proof.
  footprint; cbv beta; unfold roomView; msimpl; by rewrite removeStone_getSize.
Qed.

Lemma selectStrikeTarget_room pos :
  frames (fun g => (roomView g, gameState g)) (selectStrikeTarget pos).
Proof.
  footprint; cbv beta; unfold roomView; msimpl; by rewrite removeStone_getSize.
Qed.

Lemma imposeSlipPenalty_room :
  frames (fun g => (roomView g, gameState g)) imposeSlipPenalty.
Proof. footprint. Qed.

Lemma recordMoveEvent_room t d i a :
  frames (fun g => (roomView g, gameState g)) (recordMoveEvent t d i a).
Proof. footprint. Qed.

Lemma room_kept {A} (c : M A) :
  frames (fun g => (roomView g, gameState g)) c ->
  hoare historyFits c historyFits.
Proof.
  intros Hc.
  apply (hoare_view (fun g => (roomView g, gameState g))
           (fun v => fitsLoosely v.1 /\ (v.2 <> OVER -> fitsStrictly v.1))), Hc.
Qed.

Lemma boardPlaceStone_room pos pl g :
  roomView (boardPlaceStone pos pl g).2 = roomView g.
Proof.
  destruct (Board.isEmpty (board g) pos) eqn:He.
  - rewrite (boardPlaceStone_state pos pl g He). unfold roomView. msimpl.
    by rewrite withStone_size.
  - by rewrite (boardPlaceStone_occupied g pos pl He).
Qed.

Lemma pushed_fits pos g :
  fitsStrictly (roomView g) -> fitsLoosely (roomView (pushMoveHistory pos g).2).
Proof.
  unfold fitsStrictly, fitsLoosely, roomView, pushMoveHistory. msimpl.
  rewrite length_app. simpl. lia.
Qed.

Lemma finish_fits r :
  hoare (fun g => fitsLoosely (roomView g)) (finish r) historyFits.
Proof. intros g Hg. split; [exact Hg|]. by intros H. Qed.

Lemma room_left g :
  fitsLoosely (roomView g) -> isFull g = false -> fitsStrictly (roomView g).
Proof.
  unfold fitsLoosely, fitsStrictly, roomView, isFull. cbn [fst snd].
  intros [H0 Hle] Hne%Z.eqb_neq. lia.
Qed.

Lemma judged_fits {A} pos (k : M A) (after : M A) :
  (forall r,
     hoare (fun g => fitsLoosely (roomView g)) (bind (finish r) (fun _ => k))
       historyFits) ->
  frames (fun g => (roomView g, gameState g)) after ->
  hoare (fun g => fitsLoosely (roomView g) /\ gameState g = PLAYING)
    (bind (gets (fun g => g))
       (fun g0 =>
          let result := checkWin (board g0) pos (currentPlayer g0) in
          if bool_decide (winner result <> None)
          then bind (finish result) (fun _ => k)
          else if isFull g0
               then bind (finish (mkGameResult None [])) (fun _ => k)
               else after))
    historyFits.
Proof.
  intros Hk Hafter. apply hoare_gets; intros g0. cbv zeta.
  case_bool_decide as Hw; [|destruct (isFull g0) eqn:Hfull].
  - intros g [[Hg _] _]. by apply Hk.
  - intros g [[Hg _] _]. by apply Hk.
  - intros g [[Hg Hst] ->].
    pose proof (Hafter g0) as Hv. cbv beta in Hv.
    apply pair_eq in Hv as [Hroom Hstate].
    unfold historyFits. rewrite Hroom.
    split; [done|]. intros _. by apply room_left.
Qed.

Lemma settleMove_fits pos :
  hoare (fun g => fitsStrictly (roomView g) /\ gameState g = PLAYING)
    (settleMove pos) historyFits.
Proof.
  unfold settleMove.
  apply (hoare_bind _
           (fun g => fitsLoosely (roomView g) /\ gameState g = PLAYING)).
  { intros g [Hg Hst]. split; [by apply pushed_fits|done]. }
  intros _. apply hoare_read; intros extra.
  apply (hoare_bind _
           (fun g => fitsLoosely (roomView g) /\ gameState g = PLAYING)).
  { apply (hoare_view (fun g => (roomView g, gameState g))
             (fun v => fitsLoosely v.1 /\ v.2 = PLAYING)).
    destruct extra; apply recordMoveEvent_room. }
  intros _. apply judged_fits; [|apply afterMove_room].
  intros r. apply (hoare_bind _ historyFits); [apply finish_fits|].
  intros ?. by apply hoare_ret.
Qed.

Lemma settleAIMove_fits pos :
  hoare (fun g => fitsStrictly (roomView g) /\ gameState g = PLAYING)
    (settleAIMove pos) historyFits.
Proof.
  unfold settleAIMove. apply hoare_read; intros cur.
  apply (hoare_bind _
           (fun g => fitsStrictly (roomView g) /\ gameState g = PLAYING)).
  { intros g [Hg Hst]. rewrite boardPlaceStone_room. split; [done|].
    pose proof (boardPlaceStone_rest pos cur g) as Hr. cbv beta in Hr.
    apply pair_eq in Hr as [Hr _]. apply pair_eq in Hr as [Hr _].
    by rewrite Hr. }
  intros _.
  apply (hoare_bind _
           (fun g => fitsLoosely (roomView g) /\ gameState g = PLAYING)).
  { intros g [Hg Hst]. split; [by apply pushed_fits|done]. }
  intros _.
  intros g Hg.
  pose proof (judged_fits pos (ret tt) (afterAIMove pos)
                (fun r => hoare_bind _ historyFits _ _ _ (finish_fits r)
                            (fun _ => hoare_ret _ _ _ (fun _ H => H)))
                (afterAIMove_room pos) g Hg) as H.
  revert H. mstep. case_bool_decide; [done|]. by destruct (isFull g).
Qed.

Lemma makeMove_fits pos : hoare historyFits (makeMove pos) historyFits.
Proof.
  intros g Hfit. unfold makeMove. mstep.
  case_bool_decide as Hst; mstep; [|done].
  destruct (aiToMove g); mstep; [done|].
  case_bool_decide as Hsub; mstep.
  { by apply (room_kept _ (selectStrikeTarget_room pos)). }
  destruct (_ && _); mstep; [done|].
  destruct (Board.isEmpty (board g) pos) eqn:He.
  2: { by rewrite (boardPlaceStone_occupied g pos _ He). }
  destruct (boardPlaceStone_empty g pos (currentPlayer g) He) as (-> & _).
  mstep. apply settleMove_fits. rewrite boardPlaceStone_room.
  split; [apply Hfit; by rewrite Hst|].
  pose proof (boardPlaceStone_rest pos (currentPlayer g) g) as Hr.
  cbv beta in Hr. apply pair_eq in Hr as [Hr _]. apply pair_eq in Hr as [Hr _].
  by rewrite Hr.
Qed.

Lemma makeAIMove_fits : hoare historyFits makeAIMove historyFits.
Proof.
  intros g Hfit. unfold makeAIMove. mstep.
  case_bool_decide as Hst; mstep; [|done].
  pose proof (imposeSlipPenalty_room g) as Hv. cbv beta in Hv.
  apply pair_eq in Hv as [Hroom Hstate].
  set (g1 := (imposeSlipPenalty g).2) in *. clearbody g1.
  destruct (aiCandidates g1) as [|first l] eqn:Hc.
  { mstep. unfold historyFits. rewrite Hroom, Hstate. exact Hfit. }
  rewrite <- Hc. apply settleAIMove_fits. rewrite Hroom, Hstate.
  split; [apply Hfit; by rewrite Hst|done].
Qed.
End HistoryFits.

Section HistoryFitsReachable.
Implicit Types (g : GomokuGame).

Lemma fresh_fits b :
  0 < Board.getSize b ->
  fitsLoosely (Board.getSize (Board.reset b), 0%nat)
  /\ fitsStrictly (Board.getSize (Board.reset b), 0%nat).
Proof.
  unfold fitsLoosely, fitsStrictly, Board.getSize. cbn [fst snd Board.reset
    Board.size]. intros H. nia.
Qed.

Lemma startNewGame_fits :
  hoare (fun g => 0 < Board.getSize (board g)) startNewGame historyFits.
Proof.
  intros g Hsz.
  destruct (startNewGame_fields g) as (Hb & _ & _ & _ & _ & Hh & _).
  unfold historyFits, roomView. rewrite Hb, Hh.
  destruct (fresh_fits (board g) Hsz) as [H1 H2]. by split.
Qed.

Lemma length_removelast {A} (l : list A) :
  length (removelast l) = pred (length l).
Proof.
  destruct (decide (l = [])) as [->|Hne]; [done|].
  destruct (exists_last Hne) as (l' & a & ->).
  rewrite removelast_last, length_app. simpl. lia.
Qed.

Lemma undoMove_fits : hoare historyFits undoMove historyFits.
Proof.
  intros g Hfit. destruct (last (moveHistory g)) as [m|] eqn:Hl.
  2: { rewrite undoMove_refused; [done|]. right. by apply last_None. }
  destruct (decide (gameState g = READY)) as [Hst|Hst].
  { rewrite undoMove_refused; [done|]. by left. }
  destruct (undoMove_done g m Hst Hl)
    as (_ & _ & _ & _ & _ & _ & _ & _ & Hh & Hb).
  assert (moveHistory g <> []) as Hne by (intros E; by rewrite E in Hl).
  assert (0 < length (moveHistory g))%nat as Hpos
    by (destruct (moveHistory g); [done|simpl; lia]).
  destruct Hfit as [[H0 Hle] _]. unfold roomView in H0, Hle.
  cbn [fst snd] in H0, Hle.
  assert (fitsStrictly (roomView (undoMove g).2)) as Hs.
  { unfold fitsStrictly, roomView, Board.getSize in *. rewrite Hh, Hb.
    cbn [fst snd].
    destruct (_ && _).
    - destruct (boardUndo_moves (Board.undoMove (board g)).2) as [_ ->].
      destruct (boardUndo_moves (board g)) as [_ ->].
      rewrite !length_removelast. lia.
    - destruct (boardUndo_moves (board g)) as [_ ->].
      rewrite length_removelast. lia. }
  split; [|done]. destruct Hs as [? ?]. split; [done|lia].
Qed.

Lemma handle_fits e : hoare historyFits (handle e) historyFits.
Proof.
  destruct e; unfold handle.
  - apply room_kept. footprint.
  - intros g [[H0 _] _]. by apply startNewGame_fits.
  - apply pres_bind; [apply makeMove_fits|intros ?; apply pres_ret].
  - apply pres_bind; [apply undoMove_fits|intros ?; apply pres_ret].
  - intros g [[H0 _] _]. by apply startNewGame_fits.
  - intros g [Hl Hs]. unfold pause. mstep.
    case_bool_decide as Hst; msimpl; [|done]. split; [done|]. intros _.
    apply Hs. by rewrite Hst.
  - intros g [Hl Hs]. unfold resume. mstep.
    case_bool_decide as Hst; msimpl; [|done]. split; [done|]. intros _.
    apply Hs. by rewrite Hst.
  - intros g _. destruct (setBoardSize_start (if fifteen then 15 else 19) g)
      as (g1 & -> & Hb & _).
    apply (room_kept notifyGameStateChange); [footprint|].
    apply startNewGame_fits. rewrite Hb. by destruct fifteen.
  - apply room_kept. footprint.
  - apply room_kept. footprint.
  - unfold fire. apply pres_bind; [apply room_kept; footprint|intros ?].
    destruct (action t); unfold runTimer.
    + apply pres_bind; [apply room_kept; footprint|intros ?].
      apply pres_bind; [apply room_kept; footprint|intros ?].
      apply makeAIMove_fits.
    + apply makeAIMove_fits.
    + apply room_kept. footprint.
    + apply room_kept. footprint.
Qed.

Lemma reachable_fits g : reachable g -> historyFits g.
Proof.
  induction 1 as [fifteen rt Hrt|g e Hg IH He]; [|by apply handle_fits].
  destruct fifteen; by split.
Qed.
End HistoryFitsReachable.

(** X29: in every state the engine reaches, the move history has at most
    as many moves as the board has cells, and fewer while the game is not
    OVER: a move is never added to a full history. *)
Theorem history_within_board (g : GomokuGame) :
  reachable g ->
  Z.of_nat (length (moveHistory g))
  <= Board.getSize (board g) * Board.getSize (board g)
  /\ (gameState g <> OVER ->
      Z.of_nat (length (moveHistory g))
      < Board.getSize (board g) * Board.getSize (board g)).
Proof.
  intros [[_ Hle] Hlt]%reachable_fits. split; [exact Hle|].
  intros Hst. by destruct (Hlt Hst).
Qed.

Lemma history_within_board_witness :
  match nearlyFull with
  | Some g =>
      Z.of_nat (length (moveHistory g))
      <= Board.getSize (board g) * Board.getSize (board g)
  | None => False
  end.
Proof.
  destruct nearlyFull as [g|] eqn:Hg; [|unplayed Hg].
  apply (history_within_board g).
  exact (played_reachable fillBoard lateBox g eq_refl Hg).
Defined.

(** ** Outside of play *)

Section Frozen.
Implicit Types (g : GomokuGame).

Lemma frozen_view {A} (c : M A) g :
  frames (fun g => (board g, moveHistory g)) c ->
  board (c g).2 = board g /\ moveHistory (c g).2 = moveHistory g.
Proof. intros H. specialize (H g). by apply pair_eq in H. Qed.

Lemma runTimer_frozen a g :
  gameState g <> PLAYING ->
  board (runTimer a g).2 = board g
  /\ moveHistory (runTimer a g).2 = moveHistory g.
Proof.
  intros Hst. destruct a; unfold runTimer.
  - mstep. by rewrite makeAIMove_idle.
  - by rewrite makeAIMove_idle.
  - apply frozen_view. footprint.
  - apply frozen_view. footprint.
Qed.
End Frozen.

(** X30: while the game is not PLAYING (READY, PAUSED or OVER), the
    position is frozen: [makeMove], [pause], [resume], [setConfig], the
    registration of callbacks and every timer leave the board and the move
    history as they are. The calls that can change them are [undoMove] and
    those that start a new game. *)
Theorem position_frozen_unless_playing (e : Event) (g : GomokuGame) :
  gameState g <> PLAYING ->
  match e with
  | CallStartNewGame | CallRestart | CallSetBoardSize _ | CallUndoMove => True
  | _ => board (handle e g).2 = board g
         /\ moveHistory (handle e g).2 = moveHistory g
  end.
Proof.
  intros Hst. destruct e; unfold handle; try exact I.
  - apply frozen_view. footprint.
  - mstep. by rewrite makeMove_idle.
  - apply frozen_view. footprint.
  - apply frozen_view. footprint.
  - apply frozen_view. footprint.
  - apply frozen_view. footprint.
  - unfold fire. mstep.
    by destruct (runTimer_frozen (action t)
                   (set_runtime (clearTimeout (timerId t) (runtime g)).2 g)
                   Hst) as [-> ->].
Qed.

Lemma position_frozen_unless_playing_witness :
  let g := (makeMove (P 0 4) fourInColumn).2 in
  gameState g = OVER
  /\ board (handle (CallMakeMove (P 9 9)) g).2 = board g.
Proof.
  intros g.
  assert (gameState g = OVER) as Hst by (vm_compute; reflexivity).
  split; [exact Hst|].
  apply (position_frozen_unless_playing (CallMakeMove (P 9 9)) g).
  rewrite Hst. discriminate.
Defined.
